(** * Regina: the combinatorial triangulation engine

    A shallow embedding of [engine/generic/triangulation.h]
    (TriangulationBase<dim>) and [engine/triangulation/dim3/subdivide.cpp]
    (idealToFinite, puncture, connectedSumWith).

    Simplices are heap objects that refer to each other through pointers,
    and triangulations are objects holding a vector of simplex pointers;
    both live in an explicit store so that aliasing (a simplex reachable
    from two places, a triangulation summed with itself) is visible. *)

From stdpp Require Import gmap strings list fin_maps.

(** ** Permutations *)

Module Perm.

(** Modelled from the spec: the class Perm<n> is not among the sources.  The
    spec describes it as an immutable value mapping an ordered vertex set of
    size dim+1 to itself, composable and invertible.  A permutation is kept as
    the list of its images, which is what the constructor
    [Perm<4>(a,b,c,d)] used by the surgery code takes. *)
Definition t := list nat.

(** Modelled from the spec: [p[i]], the image of [i]. *)
Definition apply (p : t) (i : nat) : nat := nth i p i.

(** Modelled from the spec: the default constructor [Perm<n>()], the
    identity. *)
Definition id (n : nat) : t := seq 0 n.

(** Modelled from the spec: [Perm<n>(a, b)], the transposition of [a] and
    [b]. *)
Definition transposition (n a b : nat) : t :=
  map (fun i => if Nat.eqb i a then b else if Nat.eqb i b then a else i)
      (seq 0 n).

(** Modelled from the spec: [p * q], the composition "first [q], then [p]". *)
Definition compose (p q : t) : t := map (apply p) q.

Fixpoint preimage (p : t) (j : nat) : nat :=
  match p with
  | [] => 0
  | x :: p' => if Nat.eqb x j then 0 else S (preimage p' j)
  end.

(** Modelled from the spec: [p.inverse()]. *)
Definition inverse (p : t) : t := map (preimage p) (seq 0 (length p)).

Fixpoint inversions (p : t) : nat :=
  match p with
  | [] => 0
  | x :: p' => length (filter (fun y => y < x) p') + inversions p'
  end.

(** Modelled from the spec: [p.sign()], +1 for an even permutation and -1 for
    an odd one. *)
Definition sign (p : t) : Z :=
  if Nat.even (inversions p) then 1%Z else (-1)%Z.

(** The class invariant of Perm<n>: the images are [n] distinct numbers
    below [n]. *)
Definition valid (n : nat) (p : t) : bool :=
  bool_decide (length p = n ∧ NoDup p ∧ Forall (fun j => j < n) p).

End Perm.

(** ** Simplices and the object store *)

(** Addresses of simplex objects and of triangulation objects. *)
Abbreviation ptr := nat (only parsing).
Abbreviation tid := nat (only parsing).

(** Simplex<dim>.  [adj_] and [gluing_] are the two arrays of length dim+1
    that triangulation.h reads and writes; [tri_] is the back-reference to the
    owning triangulation; [index_] is the marking kept by the marked vector
    that holds the simplex (what [index()] / [markedIndex()] return). *)
Record Simplex := mkSimplex {
  adj_ : list (option ptr);
  gluing_ : list Perm.t;
  description_ : string;
  tri_ : tid;
  index_ : nat;
  (** Modelled from the spec: the lock flags of a simplex are not among the
      sources.  The spec gives a simplex optional per-facet and whole-simplex
      lock flags. *)
  facetLocks_ : list bool;
  simplexLock_ : bool
}.

Global Instance Simplex_eq_dec : EqDecision Simplex.
Proof. solve_decision. Defined.

(** The store: simplex objects, the [simplices_] vector of every
    triangulation object, and the next addresses handed out by [new]. *)
Record State := mkState {
  simplices : gmap ptr Simplex;
  triangulations : gmap tid (list ptr);
  nextPtr : ptr;
  nextTid : tid
}.

Global Instance State_eq_dec : EqDecision State.
Proof. solve_decision. Defined.

(** ** Outcomes of a call *)

Inductive Exn := LockViolation | AlreadyGlued.

Global Instance Exn_eq_dec : EqDecision Exn.
Proof. solve_decision. Defined.

(** A call returns normally, or leaves by a C++ exception (the store keeps
    whatever was written before the throw), or its behaviour is undefined
    (null or dangling pointer, index out of range). *)
Inductive Result (A : Type) :=
  | Ok (a : A) (s : State)
  | Throw (e : Exn) (s : State)
  | Undefined.
Arguments Ok {A} a s.
Arguments Throw {A} e s.
Arguments Undefined {A}.

Definition M (A : Type) := State -> Result A.

Definition ret {A} (a : A) : M A := fun s => Ok a s.

Definition bind {A B} (m : M A) (k : A -> M B) : M B := fun s =>
  match m s with
  | Ok a s' => k a s'
  | Throw e s' => Throw e s'
  | Undefined => Undefined
  end.

Definition throw {A} (e : Exn) : M A := fun s => Throw e s.
Definition undefined {A} : M A := fun _ => Undefined.

(** Dereferencing: reading through a pointer that is not live is undefined. *)
Definition deref (p : ptr) : M Simplex := fun s =>
  match simplices s !! p with
  | Some x => Ok x s
  | None => Undefined
  end.

Definition getVec (t : tid) : M (list ptr) := fun s =>
  match triangulations s !! t with
  | Some v => Ok v s
  | None => Undefined
  end.

Definition liftOpt {A} (o : option A) : M A := fun s =>
  match o with
  | Some a => Ok a s
  | None => Undefined
  end.

Global Instance M_ret : MRet M := @ret.
Global Instance M_bind : MBind M := fun A B k m => bind m k.

(** [for (x : l) body(x)] *)
Fixpoint forM {A} (l : list A) (body : A -> M unit) : M unit :=
  match l with
  | [] => ret tt
  | x :: l' => body x ;; forM l' body
  end.

(** Store updates. *)
Definition setSimplex (p : ptr) (x : Simplex) (s : State) : State :=
  mkState (<[p := x]> (simplices s)) (triangulations s) (nextPtr s) (nextTid s).

Definition setVec (t : tid) (v : list ptr) (s : State) : State :=
  mkState (simplices s) (<[t := v]> (triangulations s)) (nextPtr s) (nextTid s).

Definition withAdj (f : nat) (a : option ptr) (x : Simplex) : Simplex :=
  mkSimplex (<[f := a]> (adj_ x)) (gluing_ x) (description_ x) (tri_ x)
            (index_ x) (facetLocks_ x) (simplexLock_ x).

Definition withGluing (f : nat) (g : Perm.t) (x : Simplex) : Simplex :=
  mkSimplex (adj_ x) (<[f := g]> (gluing_ x)) (description_ x) (tri_ x)
            (index_ x) (facetLocks_ x) (simplexLock_ x).

Definition withTri (t : tid) (x : Simplex) : Simplex :=
  mkSimplex (adj_ x) (gluing_ x) (description_ x) t
            (index_ x) (facetLocks_ x) (simplexLock_ x).

Definition withIndex (i : nat) (x : Simplex) : Simplex :=
  mkSimplex (adj_ x) (gluing_ x) (description_ x) (tri_ x)
            i (facetLocks_ x) (simplexLock_ x).

Definition update (upd : State -> State) : M unit := fun s => Ok tt (upd s).

(** A read of the store. *)
Definition query {A} (q : State -> A) : M A := fun s => Ok (q s) s.

(** [p->adj_[f] = a] and friends: a write through a pointer. *)
Definition modify (p : ptr) (upd : Simplex -> Simplex) : M unit := fun s =>
  match simplices s !! p with
  | Some x => Ok tt (setSimplex p (upd x) s)
  | None => Undefined
  end.

(** Loops whose body may leave the enclosing function with [return false]:
    the body answers [Some true] to go on, [Some false] to return false, and
    [None] when it runs into undefined behaviour. *)
Fixpoint allO {A} (l : list A) (body : A -> option bool) : option bool :=
  match l with
  | [] => Some true
  | x :: l' =>
      match body x with
      | Some true => allO l' body
      | r => r
      end
  end.

(** The slot of facet [f] as the spec's data model sees it: out of range,
    boundary, or glued to a simplex through a permutation. *)
Definition facetSlot (x : Simplex) (f : nat) : option (option (ptr * Perm.t)) :=
  match adj_ x !! f, gluing_ x !! f with
  | Some (Some q), Some g => Some (Some (q, g))
  | Some None, Some _ => Some None
  | _, _ => None
  end.

(** ** TriangulationBase<dim> (engine/generic/triangulation.h) *)

Section Generic.

Variable dim : nat.

(** Modelled from the spec: the constructor of Simplex<dim> is not among the
    sources.  Spec 4.2: [newSimplex] "appends a new, fully-boundary simplex".
    [new Simplex<dim>(desc, tri)], before it is put into a vector: every
    facet is boundary, every gluing is the default permutation, no lock is
    set. *)
Definition freshSimplex (desc : string) (this : tid) (idx : nat) : Simplex :=
  mkSimplex (replicate (S dim) None) (replicate (S dim) (Perm.id (S dim)))
            desc this idx (replicate (S dim) false) false.

(** [simplices_.push_back(new Simplex<dim>(desc, this))].
    Modelled from the spec: the marked vector that holds the simplices is not
    among the sources.  Spec 3: a triangulation is an ordered sequence of
    simplices and the index of a simplex is its position in it; [push_back]
    records in the new element its position, the old size. *)
Definition pushNewSimplex (this : tid) (desc : string) : M ptr := fun s =>
  match triangulations s !! this with
  | Some v =>
      let p := nextPtr s in
      Ok p (mkState (<[p := freshSimplex desc this (length v)]> (simplices s))
                    (<[this := v ++ [p]]> (triangulations s))
                    (S p) (nextTid s))
  | None => Undefined
  end.

(** [newSimplex()] and [newSimplex(desc)].  The change-event span and
    [clearAllProperties()] (empty in this class) leave the simplices alone. *)
Definition newSimplex (this : tid) (desc : string) : M ptr :=
  pushNewSimplex this desc.

(** The default constructor: a new triangulation object with no simplices. *)
Definition newTriangulation : M tid := fun s =>
  let t := nextTid s in
  Ok t (mkState (simplices s) (<[t := []]> (triangulations s))
                (nextPtr s) (S t)).

(** The copy constructor [TriangulationBase(const TriangulationBase& copy)]. *)
Definition copyFacet (this : tid) (me you : ptr) (f : nat) : M unit :=
  y ← deref you;
  a ← liftOpt (adj_ y !! f);
  match a with
  | Some q =>
      yq ← deref q;
      v ← getVec this;
      tgt ← liftOpt (v !! index_ yq);
      g ← liftOpt (gluing_ y !! f);
      modify me (withAdj f (Some tgt));;
      modify me (withGluing f g)
  | None => modify me (withAdj f None)
  end.

(** [simplices_.push_back(new Simplex<dim>(you->getDescription(), this))] *)
Definition pushCopy (this : tid) (you : ptr) : M unit :=
  y ← deref you;
  pushNewSimplex this (description_ y);; mret tt.

Definition copyConstruct (copy : tid) : M tid :=
  this ← newTriangulation;
  yous ← getVec copy;
  forM yous (pushCopy this);;
  mes ← getVec this;
  forM (zip mes yous) (fun '(me, you) =>
    forM (seq 0 (S dim)) (copyFacet this me you));;
  mret this.

(** [size()] *)
Definition size (s : State) (this : tid) : option nat :=
  length <$> triangulations s !! this.

(** [isIdenticalTo(other)], a const member: a function of the store. *)
Definition identicalFacet (s : State) (mes : list ptr) (me you : ptr)
    (f : nat) : option bool :=
  x ← simplices s !! me;
  y ← simplices s !! you;
  ya ← adj_ y !! f;
  xa ← adj_ x !! f;
  match ya with
  | Some q =>
      yq ← simplices s !! q;
      tgt ← mes !! index_ yq;
      if bool_decide (xa ≠ Some tgt) then Some false
      else
        xg ← gluing_ x !! f;
        yg ← gluing_ y !! f;
        if bool_decide (xg ≠ yg) then Some false else Some true
  | None =>
      match xa with
      | Some _ => Some false
      | None => Some true
      end
  end.

Definition isIdenticalTo (s : State) (this other : tid) : option bool :=
  mes ← triangulations s !! this;
  yous ← triangulations s !! other;
  if bool_decide (length mes ≠ length yous) then Some false
  else
    allO (zip mes yous) (fun '(me, you) =>
      allO (seq 0 (S dim)) (identicalFacet s mes me you)).

(** [swapContents(other)] *)
Definition swapContents (this other : tid) : M unit :=
  mine ← getVec this;
  yours ← getVec other;
  (* simplices_.swap(other.simplices_) *)
  update (fun s => setVec other mine (setVec this yours s));;
  mes ← getVec this;
  forM mes (fun p => modify p (withTri this));;
  yous ← getVec other;
  forM yous (fun p => modify p (withTri other)).

(** ** Simplex<dim>: gluing facets *)

(** Modelled from the spec: a facet cannot be changed when its own lock or the
    lock of its simplex is set. *)
Definition facetLocked (x : Simplex) (f : nat) : bool :=
  simplexLock_ x || default false (facetLocks_ x !! f).

(** Modelled from the spec: [Simplex<dim>::join] is not among the sources.
    Spec 4.1: preconditions - [myFacet] in range; [myFacet] of this simplex
    is boundary; facet [gluing(myFacet)] of [other] is boundary; in a
    self-gluing the two facets are distinct.  Effect: this simplex's
    [myFacet] slot becomes [(other, gluing)] and [other]'s [gluing(myFacet)]
    slot becomes [(this, gluing^-1)].  Fails with AlreadyGlued if either facet
    is already glued, or LockViolation if either facet/simplex is locked; a
    failed join leaves both sides untouched. *)
Definition join (me : ptr) (myFacet : nat) (you : ptr) (gluing : Perm.t)
    : M unit :=
  x ← deref me;
  y ← deref you;
  let yourFacet := Perm.apply gluing myFacet in
  mine ← liftOpt (facetSlot x myFacet);
  yours ← liftOpt (facetSlot y yourFacet);
  if bool_decide (me = you ∧ myFacet = yourFacet) then undefined
  else if bool_decide (mine ≠ None ∨ yours ≠ None) then throw AlreadyGlued
  else if facetLocked x myFacet || facetLocked y yourFacet
       then throw LockViolation
  else
    modify me (withAdj myFacet (Some you));;
    modify me (withGluing myFacet gluing);;
    modify you (withAdj yourFacet (Some me));;
    modify you (withGluing yourFacet (Perm.inverse gluing)).

(** Modelled from the spec: [Simplex<dim>::joinRaw] is not among the sources.
    Spec 4.2: the raw variants have the effect of the checked ones but skip
    the change events and the lock checks; their preconditions are not
    checked. *)
Definition joinRaw (me : ptr) (myFacet : nat) (you : ptr) (gluing : Perm.t)
    : M unit :=
  let yourFacet := Perm.apply gluing myFacet in
  modify me (withAdj myFacet (Some you));;
  modify me (withGluing myFacet gluing);;
  modify you (withAdj yourFacet (Some me));;
  modify you (withGluing yourFacet (Perm.inverse gluing)).

(** Modelled from the spec: [Simplex<dim>::unjoin] is not among the sources.
    Spec 4.1: precondition - the facet is glued and unlocked.  Effect: both
    sides of the pairing are cleared, both facets become boundary.  On a
    boundary facet nothing happens.  Returns the simplex that was adjacent. *)
Definition unjoin (me : ptr) (myFacet : nat) : M (option ptr) :=
  x ← deref me;
  mine ← liftOpt (facetSlot x myFacet);
  match mine with
  | None => mret None
  | Some (you, g) =>
      if facetLocked x myFacet then throw LockViolation
      else
        modify you (withAdj (Perm.apply g myFacet) None);;
        modify me (withAdj myFacet None);;
        mret (Some you)
  end.

(** [adjacentSimplex(f)] and [adjacentGluing(f)] *)
Definition adjacentSimplex (me : ptr) (f : nat) : M (option ptr) :=
  x ← deref me; liftOpt (adj_ x !! f).

Definition adjacentGluing (me : ptr) (f : nat) : M Perm.t :=
  x ← deref me; liftOpt (gluing_ x !! f).

(** Modelled from the spec: [insertTriangulation] is not among the sources.
    Spec 4.3: "insert a structural copy of [other]'s simplices into [this]
    (preserving [other] itself unmodified - this must work correctly even when
    summing a triangulation with itself)".  The copy is made the way the copy
    constructor above makes it, with the new simplices appended after the
    [nOrig] simplices already present; the source vector is read once, before
    anything is appended. *)
Definition insertFacet (this : tid) (nOrig : nat) (me you : ptr) (f : nat)
    : M unit :=
  y ← deref you;
  a ← liftOpt (adj_ y !! f);
  match a with
  | Some q =>
      yq ← deref q;
      v ← getVec this;
      tgt ← liftOpt (v !! (nOrig + index_ yq));
      g ← liftOpt (gluing_ y !! f);
      modify me (withAdj f (Some tgt));;
      modify me (withGluing f g)
  | None => modify me (withAdj f None)
  end.

Definition insertTriangulation (this source : tid) : M unit :=
  mine ← getVec this;
  let nOrig := length mine in
  yous ← getVec source;
  forM yous (pushCopy this);;
  forM (zip (seq 0 (length yous)) yous) (fun '(i, you) =>
    v ← getVec this;
    me ← liftOpt (v !! (nOrig + i));
    forM (seq 0 (S dim)) (insertFacet this nOrig me you)).

(** Modelled from the spec: [newSimplexRaw] is not among the sources.
    Spec 4.2: the effect of [newSimplex] without the change event. *)
Definition newSimplexRaw (this : tid) : M ptr := pushNewSimplex this "".

(** Modelled from the spec: [unjoinRaw] is not among the sources; it is
    [unjoin] without the lock check. *)
Definition unjoinRaw (me : ptr) (myFacet : nat) : M unit :=
  x ← deref me;
  mine ← liftOpt (facetSlot x myFacet);
  match mine with
  | None => mret tt
  | Some (you, g) =>
      modify you (withAdj (Perm.apply g myFacet) None);;
      modify me (withAdj myFacet None)
  end.

(** Modelled from the spec: the marked vector's [erase] is not among the
    sources.  Spec 4.2: removing a simplex "erases it from the index" and
    "re-indexes subsequent simplices": the element leaves the vector and the
    elements behind it move down by one, their markings with them. *)
Definition eraseAt (this : tid) (i : nat) : M unit :=
  v ← getVec this;
  update (setVec this (take i v ++ drop (S i) v));;
  forM (drop (S i) v) (fun p => modify p (fun x => withIndex (index_ x - 1) x)).

Definition deleteSimplex (p : ptr) : M unit :=
  update (fun s => mkState (delete p (simplices s)) (triangulations s)
                           (nextPtr s) (nextTid s)).

(** [removeSimplex(simplex)], in its raw form [removeSimplexRaw]: the body
    of [removeSimplex] in triangulation.h ([isolate()], [erase], [delete])
    without the change-event span. *)
Definition removeSimplexRaw (this : tid) (simplex : ptr) : M unit :=
  forM (seq 0 (S dim)) (unjoinRaw simplex);;
  x ← deref simplex;
  eraseAt this (index_ x);;
  deleteSimplex simplex.

(** The destructor [~TriangulationBase()]: every simplex of the vector is
    deleted, and the object is gone. *)
Definition destroyTriangulation (this : tid) : M unit :=
  v ← getVec this;
  forM v deleteSimplex;;
  update (fun s => mkState (simplices s) (delete this (triangulations s))
                           (nextPtr s) (nextTid s)).

End Generic.

(** ** Triangulation<3>: engine/triangulation/dim3/subdivide.cpp *)

(** A face embedding: a tetrahedron and the vertices of it that make up the
    face. *)
Record FaceEmbedding := mkEmbedding {
  tetrahedron : ptr;
  vertices : Perm.t
}.

Record VertexInfo := mkVertexInfo {
  vertexIdeal : bool;
  vertexValid : bool;
  vertexEmbeddings : list FaceEmbedding
}.

(** The skeleton of a triangulation (its vertices and triangles, and the
    validity and ideal flags derived from them) is computed by code that is
    not among the sources.  The surgery routines below only query it, so it
    is taken as a parameter: what the queries answer in a given store.
    [triangleOf s tet i] stands for [tet->triangle(i)], as the list of its
    embeddings, front first. *)
Record Skeleton := mkSkeleton {
  isValid : State -> tid -> bool;
  isIdeal : State -> tid -> bool;
  vertexList : State -> tid -> list VertexInfo;
  triangleOf : State -> ptr -> nat -> list FaceEmbedding
}.

(** Two-dimensional C arrays [a[j][k]]. *)
Definition get2 {A} (a : list (list A)) (j k : nat) : option A :=
  r ← a !! j; r !! k.

Definition set2 {A} (j k : nat) (x : A) (a : list (list A)) : list (list A) :=
  match a !! j with
  | Some r => <[j := <[k := x]> r]> a
  | None => a
  end.

(** The index tables [tip], [interior], [edge], [vertex] of idealToFinite
    and the counter [nDiv].  Entries that the loop never writes hold
    whatever the model starts them with, 0. *)
Record Pieces := mkPieces {
  tip : list nat;
  interior : list nat;
  edge : list (list nat);
  vertex : list (list nat);
  nDiv : nat
}.

Definition pieces : Pieces :=
  foldl (fun tb j =>
    let tb := mkPieces (<[j := nDiv tb]> (tip tb)) (interior tb) (edge tb)
                       (vertex tb) (S (nDiv tb)) in
    let tb := mkPieces (tip tb) (<[j := nDiv tb]> (interior tb)) (edge tb)
                       (vertex tb) (S (nDiv tb)) in
    foldl (fun tb k =>
      if bool_decide (j ≠ k) then
        let tb := mkPieces (tip tb) (interior tb)
                           (set2 j k (nDiv tb) (edge tb)) (vertex tb)
                           (S (nDiv tb)) in
        mkPieces (tip tb) (interior tb) (edge tb)
                 (set2 j k (nDiv tb) (vertex tb)) (S (nDiv tb))
      else tb) tb (seq 0 4))
    (mkPieces (replicate 4 0) (replicate 4 0)
              (replicate 4 (replicate 4 0)) (replicate 4 (replicate 4 0)) 0)
    (seq 0 4).

(** Loops that carry a local variable. *)
Fixpoint foldM {A B} (l : list A) (init : B) (body : B -> A -> M B) : M B :=
  match l with
  | [] => mret init
  | x :: l' => b ← body init x; foldM l' b body
  end.

Section Dim3.

Variable sk : Skeleton.

Definition newTetrahedron (this : tid) : M ptr := newSimplex 3 this "".

(** Modelled from the spec: [hasLocks()] is not among the sources.  It
    answers whether any simplex or facet lock is present. *)
Definition hasLocks (this : tid) : M bool :=
  v ← getVec this;
  foldM v false (fun acc p =>
    x ← deref p;
    mret (acc || simplexLock_ x || existsb (fun b => b) (facetLocks_ x))).

(** *** idealToFinite *)

Definition nth1 (a : list nat) (j : nat) : M nat := liftOpt (a !! j).
Definition nth2 (a : list (list nat)) (j k : nat) : M nat :=
  liftOpt (get2 a j k).

(** [newTet[idx]] *)
Definition tetAt (newTet : list ptr) (idx : nat) : M ptr :=
  liftOpt (newTet !! idx).

(** [if (c) body;] *)
Definition when (c : bool) (body : M unit) : M unit :=
  if c then body else mret tt.

(** [newTet[r1 + i1 * nDiv]->joinRaw(f, newTet[r2 + i2 * nDiv], g)] *)
Definition gluePieces (newTet : list ptr) (r1 i1 f r2 i2 : nat) (g : Perm.t)
    : M unit :=
  a ← tetAt newTet (r1 + i1 * nDiv pieces);
  b ← tetAt newTet (r2 + i2 * nDiv pieces);
  joinRaw a f b g.

(** The gluings between the pieces inside the old tetrahedron [i]. *)
Definition glueInside (newTet : list ptr) (i : nat) : M unit :=
  (* Glue the tip tetrahedra to the others. *)
  forM (seq 0 4) (fun j =>
    tj ← nth1 (tip pieces) j;
    ij ← nth1 (interior pieces) j;
    gluePieces newTet tj i j ij i (Perm.id 4));;
  (* Glue the interior tetrahedra to the others. *)
  forM (seq 0 4) (fun j =>
    forM (seq 0 4) (fun k =>
      when (bool_decide (j ≠ k)) (
        ij ← nth1 (interior pieces) j;
        vkj ← nth2 (vertex pieces) k j;
        gluePieces newTet ij i k vkj i (Perm.id 4))));;
  (* Glue the edge tetrahedra to the others. *)
  forM (seq 0 4) (fun j =>
    forM (seq 0 4) (fun k =>
      when (bool_decide (j ≠ k)) (
        when (bool_decide (j < k)) (
          ejk ← nth2 (edge pieces) j k;
          ekj ← nth2 (edge pieces) k j;
          gluePieces newTet ejk i j ekj i (Perm.transposition 4 j k));;
        forM (seq 0 4) (fun l =>
          when (bool_decide (l ≠ j) && bool_decide (l ≠ k)) (
            ejk ← nth2 (edge pieces) j k;
            vjl ← nth2 (vertex pieces) j l;
            gluePieces newTet ejk i l vjl i (Perm.transposition 4 k l)))))).

(** The gluings between the pieces inside adjacent tetrahedra, across facet
    [j] of the old tetrahedron [i]. *)
Definition glueAcross (this : tid) (newTet : list ptr) (i j : nat) : M unit :=
  v ← getVec this;
  ot ← liftOpt (v !! i);
  adj ← adjacentSimplex ot j;
  match adj with
  | None => mret tt
  | Some a =>
      ya ← deref a;
      let oppTet := index_ ya in
      p ← adjacentGluing ot j;
      (* Do each gluing from one side only. *)
      if bool_decide (oppTet < i)
         || (bool_decide (oppTet = i) && bool_decide (Perm.apply p j < j))
      then mret tt
      else
        (* First deal with the tip tetrahedra. *)
        forM (seq 0 4) (fun k =>
          when (bool_decide (j ≠ k)) (
            tk ← nth1 (tip pieces) k;
            tpk ← nth1 (tip pieces) (Perm.apply p k);
            gluePieces newTet tk i j tpk oppTet p));;
        (* Next the edge tetrahedra. *)
        forM (seq 0 4) (fun k =>
          when (bool_decide (j ≠ k)) (
            ejk ← nth2 (edge pieces) j k;
            epp ← nth2 (edge pieces) (Perm.apply p j) (Perm.apply p k);
            gluePieces newTet ejk i k epp oppTet p));;
        (* Finally, the vertex tetrahedra. *)
        forM (seq 0 4) (fun k =>
          when (bool_decide (j ≠ k)) (
            vjk ← nth2 (vertex pieces) j k;
            vpp ← nth2 (vertex pieces) (Perm.apply p j) (Perm.apply p k);
            gluePieces newTet vjk i k vpp oppTet p))
  end.

(** The first half of idealToFinite, from [Triangulation<3> staging] to the
    end of the gluing loops: the staging triangulation before any ideal
    vertex is removed.  Returns the staging triangulation and [newTet]. *)
Definition buildStaging (this : tid) (numOldTet : nat)
    : M (tid * list ptr) :=
  staging ← newTriangulation;
  newTet ← foldM (seq 0 (32 * numOldTet)) [] (fun newTet _ =>
    p ← newSimplexRaw 3 staging;
    mret (newTet ++ [p]));
  forM (seq 0 numOldTet) (glueInside newTet);;
  forM (seq 0 numOldTet) (fun i =>
    forM (seq 0 4) (glueAcross this newTet i));;
  mret (staging, newTet).

(** The second half of idealToFinite: remove the new tetrahedra that touch
    an ideal or invalid vertex, and move the result into [this]. *)
Definition finishStaging (this staging : tid) : M bool :=
  (* Now remove any new tetrahedra that touch an ideal or invalid vertex. *)
  vs ← query (fun s => vertexList sk s staging);
  let tetList :=
    flat_map (fun vx =>
      if vertexIdeal vx || negb (vertexValid vx)
      then map tetrahedron (vertexEmbeddings vx) else []) vs in
  forM tetList (removeSimplexRaw 3 staging);;
  (* We are now ready to change the main triangulation. *)
  swapContents this staging;;
  destroyTriangulation staging;;
  mret true.

Definition idealToFinite (this : tid) : M bool :=
  valid ← query (fun s => isValid sk s this);
  ideal ← query (fun s => isIdeal sk s this);
  if valid && negb ideal then mret false
  else
    v ← getVec this;
    let numOldTet := length v in
    if bool_decide (numOldTet = 0) then mret false
    else
      (* Any simplex or facet locks at all will be a problem here. *)
      locked ← hasLocks this;
      if (locked : bool) then throw LockViolation
      else
        '(staging, _) ← buildStaging this numOldTet;
        finishStaging this staging.

(** *** puncture *)

(** [prism[a.1][a.2]->join(f, prism[b.1][b.2], g)] *)
Definition joinPrism (prism : list (list ptr)) (a : nat * nat) (f : nat)
    (b : nat * nat) (g : Perm.t) : M unit :=
  x ← liftOpt (get2 prism a.1 a.2);
  y ← liftOpt (get2 prism b.1 b.2);
  join x f y g.

Definition puncture (this : tid) (tet : option ptr) : M unit :=
  v ← getVec this;
  match tet, v with
  | None, [] => mret tt
  | _, _ =>
      tet ← match tet with
            | Some t => mret t
            | None => liftOpt (head v)
            end;
      (* Create the new tetrahedra in an order that ensures that the new
         S^2 boundary will appear in the final two tetrahedra. *)
      prism ← foldM (seq 0 3) (replicate 2 (replicate 3 0)) (fun prism j =>
        foldM (seq 0 2) prism (fun prism i =>
          p ← newTetrahedron this;
          mret (set2 i j p prism)));
      joinPrism prism (0, 0) 0 (0, 1) [3; 0; 1; 2];;
      joinPrism prism (0, 1) 0 (0, 2) [3; 0; 1; 2];;

      joinPrism prism (1, 0) 1 (1, 1) [3; 0; 1; 2];;
      joinPrism prism (1, 1) 1 (1, 2) [3; 2; 0; 1];;

      joinPrism prism (0, 0) 1 (1, 0) [1; 2; 3; 0];;
      joinPrism prism (0, 0) 2 (1, 0) [1; 2; 3; 0];;
      joinPrism prism (0, 1) 1 (1, 1) [1; 2; 3; 0];;
      joinPrism prism (0, 1) 2 (1, 1) [1; 2; 3; 0];;
      joinPrism prism (0, 2) 1 (1, 2) [0; 1; 3; 2];;
      joinPrism prism (0, 2) 2 (1, 2) [0; 1; 3; 2];;

      adj ← adjacentSimplex tet 0;
      match adj with
      | Some a =>
          gluing ← adjacentGluing tet 0;
          unjoin tet 0;;
          p10 ← liftOpt (get2 prism 1 0);
          join p10 0 a gluing
      | None => mret tt
      end;;
      p00 ← liftOpt (get2 prism 0 0);
      join tet 0 p00 [3; 0; 1; 2]
  end.

(** *** connectedSumWith *)

(** The last part of connectedSumWith: pop open the triangle [open] and
    join the resulting boundary triangles to the boundary from the
    puncture, [bdry[0]] and [bdry[1]]. *)
Definition joinPuncture (bdry0 bdry1 : ptr) (open : list FaceEmbedding)
    : M unit :=
  if bool_decide (length open = 2) then
    emb1 ← liftOpt (head open);
    emb2 ← liftOpt (last open);
    unjoin (tetrahedron emb1) (Perm.apply (vertices emb1) 3);;
    (* We choose the gluing permutations so that, if both triangulations
       are oriented, the connected sum respects this orientation. *)
    let even := bool_decide (0 < Perm.sign (vertices emb1))%Z in
    if even then
      join bdry0 0 (tetrahedron emb1)
           (Perm.compose (vertices emb1) [3; 0; 1; 2]);;
      join bdry1 0 (tetrahedron emb2)
           (Perm.compose (vertices emb2) [3; 0; 2; 1])
    else
      join bdry0 0 (tetrahedron emb1)
           (Perm.compose (vertices emb1) [3; 0; 2; 1]);;
      join bdry1 0 (tetrahedron emb2)
           (Perm.compose (vertices emb2) [3; 0; 1; 2])
  else
    emb1 ← liftOpt (head open);
    let even := bool_decide (0 < Perm.sign (vertices emb1))%Z in
    if even then
      join bdry0 0 (tetrahedron emb1)
           (Perm.compose (vertices emb1) [3; 0; 1; 2])
    else
      join bdry0 0 (tetrahedron emb1)
           (Perm.compose (vertices emb1) [3; 0; 2; 1]).

Definition connectedSumWith (this other : tid) : M unit :=
  theirs ← getVec other;
  if bool_decide (theirs = []) then mret tt
  else
    mine ← getVec this;
    if bool_decide (mine = []) then insertTriangulation 3 this other
    else
      (* Insert the other triangulation *before* puncturing this, so that
         things work in the case where we sum a triangulation with itself. *)
      let n := length mine in
      insertTriangulation 3 this other;;
      (* Make the puncture and record the resulting new boundary triangles. *)
      v ← getVec this;
      front ← liftOpt (head v);
      puncture this (Some front);;
      v ← getVec this;
      bdry0 ← liftOpt (v !! (length v - 2));
      bdry1 ← liftOpt (v !! (length v - 1));
      (* Pop open a triangle in the second triangulation, and join the two
         resulting boundary triangles to the boundary from the puncture. *)
      sn ← liftOpt (v !! n);
      open ← query (fun s => triangleOf sk s sn 0);
      joinPuncture bdry0 bdry1 open.

End Dim3.

(** ** Well-formed triangulations *)

Section Invariants.

Variable dim : nat.

(** An adjacency pointer is fine when it is null or points to a live simplex
    that sits in the vector [v] at its own marked index. *)
Definition adjOk (s : State) (v : list ptr) (a : option ptr) : bool :=
  match a with
  | None => true
  | Some q =>
      match simplices s !! q with
      | Some y => bool_decide (v !! index_ y = Some q)
      | None => false
      end
  end.

Definition simplexOk (s : State) (this : tid) (v : list ptr)
    (ip : nat * ptr) : bool :=
  match simplices s !! ip.2 with
  | Some x =>
      bool_decide (index_ x = ip.1 ∧ tri_ x = this ∧
                   length (adj_ x) = S dim ∧ length (gluing_ x) = S dim ∧
                   length (facetLocks_ x) = S dim)
      && forallb (adjOk s v) (adj_ x)
      && forallb (Perm.valid (S dim)) (gluing_ x)
  | None => false
  end.

(** The invariant of the spec's data model for the triangulation [this]:
    indices are contiguous, every simplex of the vector is live, knows its
    owner and its index, has dim+1 facet slots holding permutations of
    dim+1 points, and every gluing slot points to a current member of the
    same triangulation. *)
Definition triOk (s : State) (this : tid) : bool :=
  match triangulations s !! this with
  | Some v => forallb (simplexOk s this v) (zip (seq 0 (length v)) v)
  | None => false
  end.

(** What [isIdenticalTo] is meant to compare at one facet: nothing for a
    boundary facet, and the index of the adjacent simplex with the gluing
    permutation for a glued one. *)
Definition gluingView (s : State) (p : ptr) (f : nat)
    : option (nat * Perm.t) :=
  x ← simplices s !! p;
  a ← adj_ x !! f;
  q ← a;
  y ← simplices s !! q;
  g ← gluing_ x !! f;
  Some (index_ y, g).

(** The spec's reading of "identical": equal simplex counts and, for every
    simplex index and facet, both facets boundary or both glued to the same
    index through the same permutation. *)
Definition sameGluings (s : State) (this other : tid) : Prop :=
  ∃ mes yous,
    triangulations s !! this = Some mes ∧
    triangulations s !! other = Some yous ∧
    length mes = length yous ∧
    ∀ i me you f,
      mes !! i = Some me → yous !! i = Some you → f ≤ dim →
      gluingView s me f = gluingView s you f.

Definition withDescription (d : string) (x : Simplex) : Simplex :=
  mkSimplex (adj_ x) (gluing_ x) d (tri_ x)
            (index_ x) (facetLocks_ x) (simplexLock_ x).

(** [setDescription(d)] on the simplex at [p]. *)
Definition setDescription (p : ptr) (d : string) (s : State) : State :=
  mkState (alter (withDescription d) p (simplices s))
          (triangulations s) (nextPtr s) (nextTid s).

End Invariants.

(** ** Views of the store *)

(** The slot of facet [f] of the simplex at [p]. *)
Definition slotAt (s : State) (p : ptr) (f : nat)
    : option (option (ptr * Perm.t)) :=
  x ← simplices s !! p; facetSlot x f.

Definition lockedAt (s : State) (p : ptr) (f : nat) : option bool :=
  (fun x => facetLocked x f) <$> simplices s !! p.

(** The store after facet [f] of [p] has been pointed at [(q, g)], and after
    it has been made boundary. *)
Definition setSlot (p : ptr) (f : nat) (q : ptr) (g : Perm.t) (s : State)
    : State :=
  mkState (alter (fun x => withGluing f g (withAdj f (Some q) x)) p
                 (simplices s))
          (triangulations s) (nextPtr s) (nextTid s).

Definition clearSlot (p : ptr) (f : nat) (s : State) : State :=
  mkState (alter (withAdj f None) p (simplices s))
          (triangulations s) (nextPtr s) (nextTid s).

(** The store after the two halves of a gluing have been written. *)
Definition glued (me : ptr) (f : nat) (you : ptr) (g : Perm.t) (s : State)
    : State :=
  setSlot you (Perm.apply g f) me (Perm.inverse g) (setSlot me f you g s).

(** Allocator invariant: every live simplex lies below [nextPtr] and every
    triangulation object below [nextTid], so that [new] hands out addresses
    that are not in use. *)
Definition storeOk (s : State) : bool :=
  bool_decide (map_Forall (fun p _ => p < nextPtr s) (simplices s)) &&
  bool_decide (map_Forall (fun t _ => t < nextTid s) (triangulations s)).

(** The store after [pushNewSimplex]. *)
Definition allocated (dim : nat) (this : tid) (desc : string) (s : State)
    : State :=
  mkState (<[nextPtr s := freshSimplex dim desc this
                (length (default [] (triangulations s !! this)))]>
             (simplices s))
          (<[this := default [] (triangulations s !! this) ++ [nextPtr s]]>
             (triangulations s))
          (S (nextPtr s)) (nextTid s).

(** Facet 0 of [tet] and the facet it is glued to are unlocked, and facet 0
    is not glued to itself: what [puncture] needs for its [unjoin] and
    [join] calls to go through. *)
Definition punctureReady (s : State) (tet : ptr) : bool :=
  match lockedAt s tet 0, slotAt s tet 0 with
  | Some false, Some None => true
  | Some false, Some (Some (a, g)) =>
      bool_decide (lockedAt s a (Perm.apply g 0) = Some false) &&
      bool_decide (is_Some (slotAt s a (Perm.apply g 0))) &&
      negb (bool_decide (a = tet ∧ Perm.apply g 0 = 0))
  | _, _ => false
  end.

(** The closed form of what [puncture] leaves behind: six new tetrahedra
    [n], [1 + n], ..., [5 + n] in creation order prism[0][0], prism[1][0], prism[0][1],
    prism[1][1], prism[0][2], prism[1][2], glued as the ten joins say, then
    the neighbour of [tet] across facet 0 moved to prism[1][0], then [tet]
    glued to prism[0][0]. *)
Definition prismsGlued (n : ptr) (s : State) : State :=
  glued (4 + n) 2 (5 + n) [0; 1; 3; 2]
  (glued (4 + n) 1 (5 + n) [0; 1; 3; 2]
  (glued (2 + n) 2 (3 + n) [1; 2; 3; 0]
  (glued (2 + n) 1 (3 + n) [1; 2; 3; 0]
  (glued n 2 (1 + n) [1; 2; 3; 0]
  (glued n 1 (1 + n) [1; 2; 3; 0]
  (glued (3 + n) 1 (5 + n) [3; 2; 0; 1]
  (glued (1 + n) 1 (3 + n) [3; 0; 1; 2]
  (glued (2 + n) 0 (4 + n) [3; 0; 1; 2]
  (glued n 0 (2 + n) [3; 0; 1; 2] s))))))))).

Definition sixAllocated (this : tid) (s : State) : State :=
  allocated 3 this "" (allocated 3 this "" (allocated 3 this ""
  (allocated 3 this "" (allocated 3 this "" (allocated 3 this "" s))))).

Definition punctured (this : tid) (tet : ptr) (s : State) : State :=
  let n := nextPtr s in
  let sA := prismsGlued n (sixAllocated this s) in
  let sB := match slotAt s tet 0 with
            | Some (Some (a, g)) =>
                glued (1 + n) 0 a g
                  (clearSlot tet 0 (clearSlot a (Perm.apply g 0) sA))
            | _ => sA
            end in
  glued tet 0 n [3; 0; 1; 2] sB.

(** ** Copying gluings: the invariants of the copy loops *)

(** Facet [f] of the new simplex [x'] mirrors facet [f] of the source
    simplex [y]: boundary for boundary, and a glued facet points to the new
    simplex at address [n + index] with the same permutation. *)
Definition copiedFacet (dim n : nat) (s : State) (y x' : Simplex) (f : nat)
    : Prop :=
  match adj_ y !! f with
  | Some (Some q) =>
      ∃ yq, simplices s !! q = Some yq ∧
            adj_ x' !! f = Some (Some (n + index_ yq)) ∧
            gluing_ x' !! f = gluing_ y !! f
  | Some None =>
      adj_ x' !! f = Some None ∧ gluing_ x' !! f = Some (Perm.id (S dim))
  | None => False
  end.

(** The new simplex [x'] is the copy of [y] as far as facets below [F] are
    concerned, and still fresh from [F] on. *)
Definition copiedUpTo (dim n : nat) (this : tid) (s : State) (idx F : nat)
    (y x' : Simplex) : Prop :=
  index_ x' = idx ∧ tri_ x' = this ∧
  length (adj_ x') = S dim ∧ length (gluing_ x') = S dim ∧
  facetLocks_ x' = replicate (S dim) false ∧ simplexLock_ x' = false ∧
  description_ x' = description_ y ∧
  (∀ f, f < F → copiedFacet dim n s y x' f) ∧
  (∀ f, F ≤ f → f ≤ dim →
     adj_ x' !! f = Some None ∧ gluing_ x' !! f = Some (Perm.id (S dim))).

(** The store while the gluings of the [i]-th new simplex are being copied,
    facets below [F] done: the new simplices sit at [n .. n + k - 1] behind
    the simplices [mine] already in the vector, and nothing older than [n]
    has been written to. *)
Definition copyInv (dim : nat) (this : tid) (s0 : State)
    (mine yous : list ptr) (i F : nat) (s' : State) : Prop :=
  let n := nextPtr s0 in
  nextPtr s' = n + length yous ∧ nextTid s' = nextTid s0 ∧
  triangulations s' =
    <[this := mine ++ seq n (length yous)]> (triangulations s0) ∧
  (∀ p, p < n → simplices s' !! p = simplices s0 !! p) ∧
  (∀ p, n + length yous ≤ p → simplices s' !! p = None) ∧
  (∀ j you y, yous !! j = Some you → simplices s0 !! you = Some y →
     ∃ x', simplices s' !! (n + j) = Some x' ∧
       copiedUpTo dim n this s0 (length mine + j)
         (if decide (j < i) then S dim else if decide (j = i) then F else 0)
         y x').

(** What the copy loops need of the source vector [yous] in the store [s0]:
    its simplices are live with dim+1 facet slots, and their neighbours are
    live and carry an index inside the vector. *)
Definition sourceOk (dim : nat) (s0 : State) (yous : list ptr) : Prop :=
  ∀ i you, yous !! i = Some you →
    ∃ y, simplices s0 !! you = Some y ∧
      length (adj_ y) = S dim ∧ length (gluing_ y) = S dim ∧
      ∀ f q, adj_ y !! f = Some (Some q) →
        ∃ yq, simplices s0 !! q = Some yq ∧ index_ yq < length yous.

(** ** Locks *)

(** Some simplex of the vector [v] carries a simplex lock or a facet lock. *)
Definition anyLock (s : State) (v : list ptr) : bool :=
  existsb (fun p =>
    match simplices s !! p with
    | Some x => simplexLock_ x || existsb (fun b => b) (facetLocks_ x)
    | None => false
    end) v.

(** ** The staging triangulation of idealToFinite *)

(** A piece of code keeps the invariant [J] and returns normally. *)
Definition preserves (J : State -> Prop) (c : M unit) : Prop :=
  ∀ s', J s' → ∃ s'', c s' = Ok tt s'' ∧ J s''.

(** The store while the staging triangulation [staging] is being glued:
    its [K] tetrahedra are the live simplices [m .. m + K - 1], in this
    order, and nothing that was in the store [s] before has been written
    to. *)
Definition stagingInv (s : State) (staging : tid) (K : nat) (s' : State)
    : Prop :=
  let m := nextPtr s in
  nextPtr s' = m + K ∧ nextTid s' = S staging ∧
  triangulations s' = <[staging := seq m K]> (triangulations s) ∧
  (∀ p, p < m → simplices s' !! p = simplices s !! p) ∧
  (∀ p, m ≤ p < m + K → is_Some (simplices s' !! p)) ∧
  (∀ p, m + K ≤ p → simplices s' !! p = None).

(** The 32 roles of the pieces of one old tetrahedron, as the tables list
    them: 4 tips, 4 interior pieces, 12 edge pieces and 12 vertex pieces. *)
Definition offDiagonal : list (nat * nat) :=
  filter (fun jk => jk.1 ≠ jk.2) (j ← seq 0 4; k ← seq 0 4; [(j, k)]).

Definition tipRoles : list nat := omap (fun j => tip pieces !! j) (seq 0 4).
Definition interiorRoles : list nat :=
  omap (fun j => interior pieces !! j) (seq 0 4).
Definition edgeRoles : list nat :=
  omap (fun jk => get2 (edge pieces) jk.1 jk.2) offDiagonal.
Definition vertexRoles : list nat :=
  omap (fun jk => get2 (vertex pieces) jk.1 jk.2) offDiagonal.

(** ** What connectedSumWith needs of the skeleton *)

(** The facet of its tetrahedron that an embedding of a triangle stands
    for: the vertex opposite the triangle, [vertices()[3]]. *)
Definition embFacet (e : FaceEmbedding) : nat := Perm.apply (vertices e) 3.

(** The list [open] is a faithful answer to [sn->triangle(f)] in the store
    [s]: it holds facet [f] of [sn]; a triangle of degree 1 is a boundary
    facet, a triangle of degree 2 is a pair of facets glued to each other;
    and none of these facets is locked. *)
Definition triangleOk (s : State) (sn : ptr) (f : nat)
    (open : list FaceEmbedding) : bool :=
  existsb (fun e => bool_decide (tetrahedron e = sn ∧ embFacet e = f)) open &&
  forallb (fun e =>
    bool_decide (lockedAt s (tetrahedron e) (embFacet e) = Some false)) open &&
  match open with
  | [e] => bool_decide (slotAt s (tetrahedron e) (embFacet e) = Some None)
  | [e1; e2] =>
      match slotAt s (tetrahedron e1) (embFacet e1),
            slotAt s (tetrahedron e2) (embFacet e2) with
      | Some (Some (q, g)), Some (Some (q', _)) =>
          bool_decide (q = tetrahedron e2 ∧
                       Perm.apply g (embFacet e1) = embFacet e2 ∧
                       q' = tetrahedron e1 ∧
                       ¬ (tetrahedron e1 = tetrahedron e2 ∧
                          embFacet e1 = embFacet e2))
      | _, _ => false
      end
  | _ => false
  end.

(** ** Concrete stores *)

Definition emptyStore : State := mkState ∅ ∅ 0 0.

(** The store a computation ends in, when it ends normally. *)
Definition storeAfter {A} (m : M A) (s : State) : State :=
  match m s with
  | Ok _ s' => s'
  | _ => s
  end.

(** The Gieseking manifold of the test suite
    (testsuite/triangulation/ntriangulation.cpp): one tetrahedron [r] with
    [r->joinTo(0, r, NPerm(1,2,0,3))] and [r->joinTo(2, r, NPerm(0,2,3,1))].
    It is triangulation 0, its tetrahedron is at address 0. *)
Definition giesekingStore : State :=
  storeAfter (t ← newTriangulation;
              r ← newSimplex 3 t "";
              join r 0 r [1; 2; 0; 3];;
              join r 2 r [0; 2; 3; 1]) emptyStore.

(** Two triangulations, 0 and 1, of one tetrahedron each (addresses 0 and 1)
    with no gluings. *)
Definition twoBallsStore : State :=
  storeAfter (t ← newTriangulation;
              u ← newTriangulation;
              newSimplex 3 t "a";;
              newSimplex 3 u "b") emptyStore.

(** One tetrahedron with no gluings whose facet 2 is locked. *)
Definition lockedBallStore : State :=
  storeAfter (t ← newTriangulation;
              r ← newSimplex 3 t "";
              modify r (fun x =>
                mkSimplex (adj_ x) (gluing_ x) (description_ x) (tri_ x)
                          (index_ x) (<[2 := true]> (facetLocks_ x))
                          (simplexLock_ x))) emptyStore.

(** The two-ball store with a third triangulation, 2, that is a copy of
    triangulation 0. *)
Definition ballCopyStore : State :=
  storeAfter (copyConstruct 3 0) twoBallsStore.

(** One triangulation, 0, of two tetrahedra (addresses 0 and 1) with no
    gluings. *)
Definition pairStore : State :=
  storeAfter (t ← newTriangulation;
              newSimplex 3 t "";;
              newSimplex 3 t "") emptyStore.

(** [lockFacet]: the lock flag of facet [f] of the simplex at [p] is set. *)
Definition lockFacet (p : ptr) (f : nat) : M unit :=
  modify p (fun x =>
    mkSimplex (adj_ x) (gluing_ x) (description_ x) (tri_ x)
              (index_ x) (<[f := true]> (facetLocks_ x)) (simplexLock_ x)).

(** The Gieseking store with facet 2 of its tetrahedron locked. *)
Definition lockedGiesekingStore : State :=
  storeAfter (lockFacet 0 2) giesekingStore.

(** The Gieseking store with a second triangulation, 1, that is a copy of
    the first. *)
Definition giesekingCopyStore : State :=
  storeAfter (copyConstruct 3 0) giesekingStore.

(** A skeleton oracle for the stores above: every triangulation is reported
    valid and not ideal (which is what a single tetrahedron without gluings
    is), no vertices are listed, and the triangle opposite vertex [f] of a
    tetrahedron is reported with the tetrahedron itself in front, followed by
    the tetrahedron glued to that facet when there is one. *)
Definition facetPerm (f : nat) : Perm.t :=
  match f with
  | 0 => [1; 2; 3; 0]
  | 1 => [0; 2; 3; 1]
  | 2 => [0; 1; 3; 2]
  | _ => [0; 1; 2; 3]
  end.

Definition ballSkeleton : Skeleton :=
  mkSkeleton (fun _ _ => true) (fun _ _ => false) (fun _ _ => [])
    (fun s p f =>
       match slotAt s p f with
       | Some (Some (q, g)) =>
           [mkEmbedding p (facetPerm f);
            mkEmbedding q (Perm.compose g (facetPerm f))]
       | _ => [mkEmbedding p (facetPerm f)]
       end).

(** The same oracle reporting every triangulation as ideal. *)
Definition idealSkeleton : Skeleton :=
  mkSkeleton (fun _ _ => true) (fun _ _ => true) (fun _ _ => [])
    (triangleOf ballSkeleton).

(** ** TriangulationBase<dim>: the rest of the container *)

(** Loops that leave the enclosing function with [return true] as soon as
    the test succeeds: [for (x : l) if (test(x)) return true; return false]. *)
Fixpoint existsM {A} (l : list A) (test : A -> M bool) : M bool :=
  match l with
  | [] => mret false
  | x :: l' => b ← test x; if (b : bool) then mret true else existsM l' test
  end.

Section Container.

Variable dim : nat.

(** [simplex(index)] and [getSimplex(index)]: [simplices_[index]], with no
    range check. *)
Definition simplex (this : tid) (index : nat) : M ptr :=
  v ← getVec this; liftOpt (v !! index).

(** [simplexIndex(simplex)]: [simplex->markedIndex()]. *)
Definition simplexIndex (simplex : ptr) : M nat :=
  x ← deref simplex; mret (index_ x).

(** [isEmpty()] *)
Definition isEmpty (this : tid) : M bool :=
  v ← getVec this; mret (bool_decide (v = [])).

(** Modelled from the spec: [Simplex<dim>::hasBoundary] is not among the
    sources.  Spec 4.1: the "whole-simplex boundary test (any facet
    unglued)". *)
Definition hasBoundary (x : Simplex) : bool :=
  existsb (fun f => bool_decide (adj_ x !! f = Some None)) (seq 0 (S dim)).

(** [hasBoundaryFacets()] *)
Definition hasBoundaryFacets (this : tid) : M bool :=
  v ← getVec this;
  existsM v (fun p => x ← deref p; mret (hasBoundary x)).

(** Modelled from the spec: [Simplex<dim>::isolate] is not among the
    sources.  Spec 4.1: "unjoin every facet of this simplex". *)
Definition isolate (me : ptr) : M unit :=
  forM (seq 0 (S dim)) (fun f => unjoin me f;; mret tt).

(** [simplices_.erase(simplices_.begin() + i)]: erasing past the end of the
    vector is undefined. *)
Definition erase (this : tid) (i : nat) : M unit :=
  v ← getVec this;
  if bool_decide (i < length v) then eraseAt this i else undefined.

(** [removeSimplex(simplex)] *)
Definition removeSimplex (this : tid) (simplex : ptr) : M unit :=
  isolate simplex;;
  x ← deref simplex;
  erase this (index_ x);;
  deleteSimplex simplex.

(** [removeSimplexAt(index)] *)
Definition removeSimplexAt (this : tid) (index : nat) : M unit :=
  v ← getVec this;
  simplex ← liftOpt (v !! index);
  isolate simplex;;
  erase this index;;
  deleteSimplex simplex.

(** [delete p]: deleting an object that is not live is undefined. *)
Definition deleteLive (p : ptr) : M unit :=
  deref p;; deleteSimplex p.

(** [removeAllSimplices()] *)
Definition removeAllSimplices (this : tid) : M unit :=
  v ← getVec this;
  forM v deleteLive;;
  update (setVec this []).

(** [moveContentsTo(dest)].  The loop runs over [simplices_] while it pushes
    onto [dest.simplices_]; when [dest] is this very triangulation and the
    vector is not empty, the iterators of the loop are invalidated by the
    push, which is undefined.  [push_back] marks the element with its
    position in [dest], the size of [dest] before the push. *)
Definition moveContentsTo (this dest : tid) : M unit :=
  mine ← getVec this;
  if bool_decide (this = dest ∧ mine ≠ []) then undefined
  else
    forM mine (fun p =>
      modify p (withTri dest);;
      d ← getVec dest;
      modify p (withIndex (length d));;
      update (setVec dest (d ++ [p])));;
    update (setVec this []).

(** What one round of the loop of [moveContentsTo] does to a simplex that
    had [k] simplices of [dest] before its own vector. *)
Definition moved (D : tid) (k : nat) (x : Simplex) : Simplex :=
  withIndex (k + index_ x) (withTri D x).

(** ** The two-sided gluing invariant *)

(** Facet [f] of the simplex at [p] is boundary, or it is glued to a facet
    other than itself that is glued back to it through the inverse
    permutation. *)
Definition facetSym (s : State) (p : ptr) (f : nat) : bool :=
  match slotAt s p f with
  | Some (Some (q, g)) =>
      bool_decide (slotAt s q (Perm.apply g f) = Some (Some (p, Perm.inverse g)))
      && negb (bool_decide (q = p ∧ Perm.apply g f = f))
  | Some None => true
  | None => false
  end.

(** Every facet of every simplex of [this] is boundary or properly paired. *)
Definition symOk (s : State) (this : tid) : bool :=
  match triangulations s !! this with
  | Some v => forallb (fun p => forallb (facetSym s p) (seq 0 (S dim))) v
  | None => false
  end.

(** No facet and no simplex of the vector [v] is locked. *)
Definition unlocked (s : State) (v : list ptr) : bool := negb (anyLock s v).

End Container.

(** ** More views of the store *)

(** What a gluing leaves alone in a simplex: its index, its owner, and the
    sizes of its arrays. *)
Definition shapeAt (s : State) (p : ptr)
    : option (nat * tid * nat * nat * nat) :=
  (fun x => (index_ x, tri_ x, length (adj_ x), length (gluing_ x),
             length (facetLocks_ x))) <$> simplices s !! p.

(** Every entry of the gluing array of the simplex at [p] is a permutation
    of [n] points. *)
Definition permsValid (n : nat) (s : State) (p : ptr) : bool :=
  match simplices s !! p with
  | Some x => forallb (Perm.valid n) (gluing_ x)
  | None => true
  end.

(** ** Isolating a simplex *)

(** The slot of facet [f'] of the simplex at [q] once the facets below [f]
    of the simplex at [p] have been unjoined: a gluing is gone when it is one
    of these facets of [p], or the facet that one of them was glued to. *)
Definition isolatedSlot (s : State) (p : ptr) (f : nat) (q : ptr) (f' : nat)
    : option (option (ptr * Perm.t)) :=
  match slotAt s q f' with
  | Some (Some (r, g)) =>
      if bool_decide ((q = p ∧ f' < f) ∨ (r = p ∧ Perm.apply g f' < f))
      then Some None else Some (Some (r, g))
  | o => o
  end.

(** The store while [isolate] runs on the simplex at [p] of the vector [v],
    facets below [f] done: only slots have changed. *)
Definition isolateInv (n : nat) (s : State) (v : list ptr) (p : ptr)
    (f : nat) (s1 : State) : Prop :=
  triangulations s1 = triangulations s ∧
  nextPtr s1 = nextPtr s ∧ nextTid s1 = nextTid s ∧
  (∀ q, shapeAt s1 q = shapeAt s q) ∧
  (∀ q f', lockedAt s1 q f' = lockedAt s q f') ∧
  (∀ q, permsValid n s1 q = permsValid n s q) ∧
  (∀ q, q ∉ v → simplices s1 !! q = simplices s !! q) ∧
  (∀ q f', q ∈ v → slotAt s1 q f' = isolatedSlot s p f q f').

(** ** More concrete stores *)

(** One triangulation, 0, of two tetrahedra (addresses 0 and 1) glued to
    each other along facet 0 of the first. *)
Definition gluedPairStore : State :=
  storeAfter (join 0 0 1 [1; 3; 0; 2]) pairStore.

(** Triangulation 0 with one tetrahedron, and an empty triangulation 1. *)
Definition ballAndEmptyStore : State :=
  storeAfter (t ← newTriangulation;
              newTriangulation;;
              newSimplex 3 t "a";; mret tt) emptyStore.

(** The Gieseking store with two copies, 1 and 2, of triangulation 0. *)
Definition giesekingCopiesStore : State :=
  storeAfter (copyConstruct 3 0) giesekingCopyStore.

(** ** The gluing pattern of the staging triangulation *)

(** The entries of the tables of [idealToFinite]. *)
Definition tipR (j : nat) : nat := default 0 (tip pieces !! j).
Definition interiorR (j : nat) : nat := default 0 (interior pieces !! j).
Definition edgeR (j k : nat) : nat := default 0 (get2 (edge pieces) j k).
Definition vertexR (j k : nat) : nat := default 0 (get2 (vertex pieces) j k).

(** The joins that [glueInside] makes inside one old tetrahedron, in the
    order of its loops: the piece of the first role is joined along the
    given facet to the piece of the second role through the permutation. *)
Definition insideJoins : list (nat * nat * nat * Perm.t) :=
  (j ← seq 0 4; [(tipR j, j, interiorR j, Perm.id 4)]) ++
  (j ← seq 0 4; k ← seq 0 4;
   if bool_decide (j ≠ k)
   then [(interiorR j, k, vertexR k j, Perm.id 4)] else []) ++
  (j ← seq 0 4; k ← seq 0 4;
   if bool_decide (j ≠ k)
   then (if bool_decide (j < k)
         then [(edgeR j k, j, edgeR k j, Perm.transposition 4 j k)] else []) ++
        (l ← seq 0 4;
         if bool_decide (l ≠ j) && bool_decide (l ≠ k)
         then [(edgeR j k, l, vertexR j l, Perm.transposition 4 k l)] else [])
   else []).

(** What facet [f] of the piece of role [r] is glued to inside its old
    tetrahedron, from either side of a join. *)
Definition insideGluing (r f : nat) : option (nat * Perm.t) :=
  match find (fun '(r1, f1, _, _) => Nat.eqb r1 r && Nat.eqb f1 f)
             insideJoins with
  | Some (_, _, r2, g) => Some (r2, g)
  | None =>
      match find (fun '(_, f1, r2, g) =>
                    Nat.eqb r2 r && Nat.eqb (Perm.apply g f1) f)
                 insideJoins with
      | Some (r1, _, _, g) => Some (r1, Perm.inverse g)
      | None => None
      end
  end.

(** The pieces that [glueAcross] joins across facet [j] of an old
    tetrahedron: the tips at the other vertices [k], and the edge and vertex
    pieces of the pairs [(j, k)]. *)
Inductive Kind := TipK | EdgeK | VertexK.

Global Instance Kind_eq_dec : EqDecision Kind.
Proof. solve_decision. Defined.

Definition roleOf (kind : Kind) (j k : nat) : nat :=
  match kind with
  | TipK => tipR k
  | EdgeK => edgeR j k
  | VertexK => vertexR j k
  end.

(** The facet of such a piece that lies in facet [j] of the old
    tetrahedron. *)
Definition facetOf (kind : Kind) (j k : nat) : nat :=
  match kind with
  | TipK => j
  | _ => k
  end.

Definition externalSlots : list (Kind * nat * nat) :=
  kind ← [TipK; EdgeK; VertexK]; jk ← offDiagonal; [(kind, jk.1, jk.2)].

Definition external (r f : nat) : option (Kind * nat * nat) :=
  find (fun '(kind, j, k) =>
          Nat.eqb (roleOf kind j k) r && Nat.eqb (facetOf kind j k) f)
       externalSlots.

(** The gluing that facet [f] of the staging tetrahedron at [a] is meant to
    carry, when the staging tetrahedra start at [m] and the triangulation
    being subdivided is the vector [v] of the store [s]: the one the tables
    give inside an old tetrahedron, and across a facet of the old
    tetrahedron the piece of the same kind in the adjacent old tetrahedron,
    with labels carried over by the old gluing. *)
Definition designated (s : State) (v : list ptr) (m : ptr) (a : ptr)
    (f : nat) : option (ptr * Perm.t) :=
  let i := (a - m) / 32 in
  let r := (a - m) `mod` 32 in
  match insideGluing r f with
  | Some (r', g) => Some (m + (r' + i * 32), g)
  | None =>
      '(kind, j, k) ← external r f;
      ot ← v !! i;
      o ← slotAt s ot j;
      '(opp, p) ← o;
      y ← simplices s !! opp;
      Some (m + (roleOf kind (Perm.apply p j) (Perm.apply p k)
                 + index_ y * 32), p)
  end.

(** The staging tetrahedra while they are glued: each is at its place in
    the vector with four facet slots holding permutations of four points,
    and each facet is boundary or carries its designated gluing, glued back
    from the other side. *)
Definition stagingGlued (s : State) (v : list ptr) (s' : State) : Prop :=
  let m := nextPtr s in
  (∀ idx, idx < 32 * length v →
     shapeAt s' (m + idx) = Some (idx, nextTid s, 4, 4, 4) ∧
     permsValid 4 s' (m + idx) = true) ∧
  (∀ a f, m ≤ a < m + 32 * length v → f < 4 →
     slotAt s' a f = Some None ∨
     ∃ b g, slotAt s' a f = Some (Some (b, g)) ∧
            designated s v m a f = Some (b, g) ∧
            slotAt s' b (Perm.apply g f) = Some (Some (a, Perm.inverse g))).

(** The checks of the tables that the proofs rest on, as computations. *)
Definition insideCheck : bool :=
  forallb (fun r => forallb (fun f =>
    match insideGluing r f with
    | Some (r', g) =>
        bool_decide (r' < 32) && Perm.valid 4 g &&
        bool_decide (insideGluing r' (Perm.apply g f)
                     = Some (r, Perm.inverse g)) &&
        negb (bool_decide (r' = r ∧ Perm.apply g f = f))
    | None => true
    end) (seq 0 4)) (seq 0 32).

Definition externalCheck : bool :=
  forallb (fun '(kind, j, k) =>
    bool_decide (roleOf kind j k < 32) &&
    bool_decide (insideGluing (roleOf kind j k) (facetOf kind j k) = None) &&
    bool_decide (external (roleOf kind j k) (facetOf kind j k)
                 = Some (kind, j, k))) externalSlots.

Definition decodeCheck : bool :=
  forallb (fun r => forallb (fun f =>
    match external r f with
    | Some (kind, j, k) =>
        bool_decide (j < 4 ∧ k < 4 ∧ j ≠ k ∧
                     r = roleOf kind j k ∧ f = facetOf kind j k)
    | None => true
    end) (seq 0 4)) (seq 0 32).

(** ** A triangulation with an invalid edge and no invalid vertex *)

(** One tetrahedron whose facet 0 is glued to its own facet 1 through the
    permutation (0 1)(2 3); facets 2 and 3 are boundary.  The gluing maps
    the edge 23 onto itself in reverse, so the edge is invalid and so is the
    triangulation; the vertices 0 and 1 are identified, and so are 2 and 3,
    and both vertex links are discs. *)
Definition reversedEdgeStore : State :=
  storeAfter (t ← newTriangulation;
              r ← newSimplex 3 t "";
              join r 0 r [1; 0; 3; 2]) emptyStore.

(** The corners that the gluings identify with vertex [c.2] of the
    tetrahedron [c.1] in one step, across the facets that contain it. *)
Definition cornerSteps (s : State) (c : ptr * nat) : list (ptr * nat) :=
  f ← seq 0 4;
  if bool_decide (f = c.2) then []
  else match slotAt s c.1 f with
       | Some (Some (q, g)) => [(q, Perm.apply g c.2)]
       | _ => []
       end.

(** The corners reached from those of [todo], in the order they are found. *)
Fixpoint cornerClass (s : State) (fuel : nat) (seen todo : list (ptr * nat))
    : list (ptr * nat) :=
  match fuel, todo with
  | S fuel', c :: rest =>
      if bool_decide (c ∈ seen) then cornerClass s fuel' seen rest
      else cornerClass s fuel' (seen ++ [c]) (rest ++ cornerSteps s c)
  | _, _ => seen
  end.

(** The vertices of the triangulation with the simplices [v], as classes of
    corners. *)
Definition vertexClasses (s : State) (v : list ptr)
    : list (list (ptr * nat)) :=
  foldl (fun acc c =>
           if bool_decide (Exists (fun cl => c ∈ cl) acc) then acc
           else acc ++ [cornerClass s (S (16 * length v)) [] [c]])
        [] (p ← v; i ← seq 0 4; [(p, i)]).

(** A skeleton oracle for the store above and for what [idealToFinite]
    makes of it: every triangulation is reported invalid, because of the
    reversed edge, which subdividing does not remove, and not ideal; its
    vertices are the classes of corners, each embedding with a permutation
    that maps 0 to the corner, and every vertex is reported valid and not
    ideal; the triangles are reported as in [ballSkeleton]. *)
Definition reversedEdgeSkeleton : Skeleton :=
  mkSkeleton (fun _ _ => false) (fun _ _ => false)
    (fun s t =>
       map (fun cl =>
              mkVertexInfo false true
                (map (fun c => mkEmbedding c.1 (Perm.transposition 4 0 c.2))
                     cl))
           (vertexClasses s (default [] (triangulations s !! t))))
    (triangleOf ballSkeleton).

(** * Proofs *)

(** ** The monad *)

Lemma bind_unfold {A B} (m : M A) (k : A → M B) s :
  (m ≫= k) s = match m s with
               | Ok a s' => k a s'
               | Throw e s' => Throw e s'
               | Undefined => Undefined
               end.
Proof. reflexivity. Qed.

Lemma bind_Ok {A B} (m : M A) (k : A → M B) s a s' :
  m s = Ok a s' → (m ≫= k) s = k a s'.
Proof. intros H. by rewrite bind_unfold, H. Qed.

Lemma deref_Ok p s x : simplices s !! p = Some x → deref p s = Ok x s.
Proof. intros H. unfold deref. by rewrite H. Qed.

Lemma getVec_Ok t s v : triangulations s !! t = Some v → getVec t s = Ok v s.
Proof. intros H. unfold getVec. by rewrite H. Qed.

Lemma liftOpt_Ok {A} (o : option A) a s : o = Some a → liftOpt o s = Ok a s.
Proof. by intros ->. Qed.

Lemma modify_Ok p upd s x :
  simplices s !! p = Some x → modify p upd s = Ok tt (setSimplex p (upd x) s).
Proof. intros H. unfold modify. by rewrite H. Qed.

(** A loop invariant for [forM]: [I i] holds before the [i]-th round. *)
Lemma forM_inv {A} (l : list A) (body : A → M unit) (I : nat → State → Prop) s :
  I 0 s →
  (∀ i x s, l !! i = Some x → I i s → ∃ s', body x s = Ok tt s' ∧ I (S i) s') →
  ∃ s', forM l body s = Ok tt s' ∧ I (length l) s'.
Proof.
  revert I s. induction l as [|a l IH]; intros I s H0 Hstep; simpl.
  - by exists s.
  - destruct (Hstep 0 a s eq_refl H0) as (s1 & Hb & H1).
    rewrite (bind_Ok _ _ _ _ _ Hb).
    destruct (IH (λ i, I (S i)) s1 H1) as (s2 & Hf & H2).
    { intros i x s' Hi HI. by apply (Hstep (S i)). }
    by exists s2.
Qed.

Lemma foldM_inv {A B} (l : list A) (body : B → A → M B) (I : nat → B → State → Prop)
    b s :
  I 0 b s →
  (∀ i x b s, l !! i = Some x → I i b s →
     ∃ b' s', body b x s = Ok b' s' ∧ I (S i) b' s') →
  ∃ b' s', foldM l b body s = Ok b' s' ∧ I (length l) b' s'.
Proof.
  revert I b s. induction l as [|a l IH]; intros I b s H0 Hstep; simpl.
  - by exists b, s.
  - destruct (Hstep 0 a b s eq_refl H0) as (b1 & s1 & Hb & H1).
    rewrite (bind_Ok _ _ _ _ _ Hb).
    destruct (IH (λ i, I (S i)) b1 s1 H1) as (b2 & s2 & Hf & H2).
    { intros i x b' s' Hi HI. by apply (Hstep (S i)). }
    by exists b2, s2.
Qed.

(** Writing the same idempotent change through every pointer of a list. *)
Lemma forM_modify (upd : Simplex → Simplex) (l : list ptr) s :
  (∀ x, upd (upd x) = upd x) →
  (∀ p, p ∈ l → is_Some (simplices s !! p)) →
  ∃ s', forM l (λ p, modify p upd) s = Ok tt s' ∧
        triangulations s' = triangulations s ∧
        nextPtr s' = nextPtr s ∧ nextTid s' = nextTid s ∧
        ∀ q, simplices s' !! q =
             if bool_decide (q ∈ l) then upd <$> simplices s !! q
             else simplices s !! q.
Proof.
  intros Hidem. revert s. induction l as [|p l IH]; intros s Hlive; simpl.
  - exists s. repeat split; auto.
  - destruct (Hlive p) as [x Hx]; [left|].
    rewrite (bind_Ok _ _ _ _ _ (modify_Ok p upd s x Hx)).
    destruct (IH (setSimplex p (upd x) s)) as (s' & Hrun & Ht & Hn & Hn' & Hs).
    { intros q Hq. simpl. destruct (decide (p = q)) as [->|Hne].
      - rewrite lookup_insert_eq. eauto.
      - rewrite lookup_insert_ne by done. apply Hlive. by right. }
    exists s'. repeat split; auto.
    intros q. rewrite Hs. simpl.
    destruct (decide (q = p)) as [->|Hne].
    + rewrite lookup_insert_eq, Hx. simpl.
      rewrite (bool_decide_eq_true_2 (p ∈ p :: l)) by left.
      case_bool_decide; simpl; by rewrite ?Hidem.
    + rewrite lookup_insert_ne by done.
      repeat case_bool_decide; try done.
      * exfalso. apply H0. by right.
      * exfalso. inversion H0; subst; done.
Qed.

(** ** Permutations *)

Lemma Perm_valid_elim n p :
  Perm.valid n p = true → length p = n ∧ NoDup p ∧ Forall (λ j, j < n) p.
Proof. unfold Perm.valid. apply bool_decide_eq_true. Qed.

Lemma Perm_apply_lookup p i : i < length p → p !! i = Some (Perm.apply p i).
Proof.
  intros Hi. unfold Perm.apply.
  destruct (lookup_lt_is_Some_2 p i Hi) as [x Hx].
  rewrite Hx. f_equal. symmetry. by apply nth_lookup_Some with (d := i).
Qed.

Lemma Perm_apply_lt n p i : Perm.valid n p = true → i < n → Perm.apply p i < n.
Proof.
  intros (Hlen & _ & Hall)%Perm_valid_elim Hi.
  rewrite Forall_lookup in Hall. apply (Hall i). apply Perm_apply_lookup. lia.
Qed.

Lemma Perm_preimage_lookup p j : j ∈ p → p !! Perm.preimage p j = Some j.
Proof.
  induction p as [|x p IH]; intros Hj; [by inversion Hj|]. simpl.
  destruct (Nat.eqb_spec x j) as [->|Hne]; [done|]. simpl.
  apply IH. inversion Hj; subst; done.
Qed.

Lemma Perm_id_valid n : Perm.valid n (Perm.id n) = true.
Proof.
  unfold Perm.valid, Perm.id. apply bool_decide_eq_true. split; [|split].
  - apply length_seq.
  - apply NoDup_seq.
  - apply Forall_seq. intros j Hj. lia.
Qed.

(** The inverse undoes the permutation: [p^-1(p(i)) = i]. *)
Lemma Perm_inverse_apply n p i :
  Perm.valid n p = true → i < n →
  Perm.apply (Perm.inverse p) (Perm.apply p i) = i.
Proof.
  intros Hv Hi. pose proof (Perm_apply_lt n p i Hv Hi) as Hlt.
  destruct (Perm_valid_elim _ _ Hv) as (Hlen & Hnd & _).
  assert (Hpi : p !! i = Some (Perm.apply p i)) by (apply Perm_apply_lookup; lia).
  unfold Perm.inverse. unfold Perm.apply at 1.
  rewrite nth_lookup.
  rewrite list_lookup_fmap, lookup_seq_lt by lia. simpl.
  eapply NoDup_lookup; [exact Hnd| |exact Hpi].
  apply Perm_preimage_lookup. apply list_elem_of_lookup. eauto.
Qed.

(** ** Well-formedness and [isIdenticalTo] *)

Lemma allO_spec {A} (l : list A) (body : A → option bool) (P : A → Prop) :
  (∀ x, x ∈ l → ∃ b, body x = Some b ∧ (b = true ↔ P x)) →
  ∃ b, allO l body = Some b ∧ (b = true ↔ ∀ x, x ∈ l → P x).
Proof.
  induction l as [|a l IH]; intros H; simpl.
  - exists true. split; [done|]. split; [|done]. intros _ x Hx. inversion Hx.
  - destruct (H a) as (b & Hb & Hiff); [left|]. rewrite Hb.
    destruct b.
    + destruct IH as (b' & Hb' & Hiff').
      { intros x Hx. apply H. by right. }
      exists b'. split; [done|]. rewrite Hiff'. split.
      * intros Hall x Hx. inversion Hx; subst; [by apply Hiff|by apply Hall].
      * intros Hall x Hx. apply Hall. by right.
    + exists false. split; [done|]. split; [done|].
      intros Hall. apply Hiff, Hall. left.
Qed.

Section IdenticalTo.

Variable dim : nat.

Lemma zip_seq_lookup {A} (v : list A) i p k :
  zip (seq k (length v)) v !! i = Some (p) ↔ v !! i = Some p.2 ∧ p.1 = k + i.
Proof.
  revert i k. induction v as [|a v IH]; intros i k; simpl.
  - split; [done|]. intros [? _]; done.
  - destruct i as [|i]; simpl.
    + destruct p as [n q]; simpl. split.
      * intros [= <- <-]. split; [done|lia].
      * intros [[= <-] ->]. do 2 f_equal. lia.
    + rewrite IH. split; intros [? ->]; split; auto; lia.
Qed.

Lemma triOk_elim s t :
  triOk dim s t = true →
  ∃ v, triangulations s !! t = Some v ∧
    ∀ i p, v !! i = Some p →
      ∃ x, simplices s !! p = Some x ∧ index_ x = i ∧ tri_ x = t ∧
           length (adj_ x) = S dim ∧ length (gluing_ x) = S dim ∧
           length (facetLocks_ x) = S dim ∧
           (∀ f q, adj_ x !! f = Some (Some q) →
             ∃ y, simplices s !! q = Some y ∧ v !! index_ y = Some q) ∧
           (∀ f g, gluing_ x !! f = Some g → Perm.valid (S dim) g = true).
Proof.
  unfold triOk. destruct (triangulations s !! t) as [v|]; [|done].
  intros H. exists v. split; [done|]. intros i p Hip.
  rewrite forallb_forall in H.
  specialize (H (i, p)). 
  assert (Hin : In (i, p) (zip (seq 0 (length v)) v)).
  { apply list_elem_of_In, list_elem_of_lookup. exists i. apply zip_seq_lookup. simpl. done. }
  specialize (H Hin). unfold simplexOk in H. simpl in H.
  destruct (simplices s !! p) as [x|]; [|done].
  apply andb_true_iff in H as [H H3].
  apply andb_true_iff in H as [H1 H2].
  apply bool_decide_eq_true in H1 as (?&?&?&?&?).
  exists x. repeat split; auto.
  2:{ intros f g Hf. rewrite forallb_forall in H3. apply H3.
      apply list_elem_of_In, list_elem_of_lookup. eauto. }
  intros f q Hf. rewrite forallb_forall in H2.
  specialize (H2 (Some q)). 
  assert (In (Some q) (adj_ x)) as Hin2.
  { apply list_elem_of_In, list_elem_of_lookup. eauto. }
  specialize (H2 Hin2). simpl in H2.
  destruct (simplices s !! q) as [y|]; [|done].
  apply bool_decide_eq_true in H2. eauto.
Qed.

Lemma identicalFacet_spec s t u mes yous i me you f :
  triOk dim s t = true → triOk dim s u = true →
  triangulations s !! t = Some mes →
  triangulations s !! u = Some yous →
  length mes = length yous →
  mes !! i = Some me → yous !! i = Some you → f ≤ dim →
  ∃ b, identicalFacet s mes me you f = Some b ∧
       (b = true ↔ gluingView s me f = gluingView s you f).
Proof.
  intros Ht Hu Hmes Hyous Hlen Hme Hyou Hf.
  apply triOk_elim in Ht as (v1 & Hv1 & Ht). rewrite Hmes in Hv1. injection Hv1 as <-.
  apply triOk_elim in Hu as (v2 & Hv2 & Hu). rewrite Hyous in Hv2. injection Hv2 as <-.
  destruct (Ht _ _ Hme) as (x & Hx & _ & _ & Hxa & Hxg & _ & Hxadj & _).
  destruct (Hu _ _ Hyou) as (y & Hy & _ & _ & Hya & Hyg & _ & Hyadj & _).
  destruct (lookup_lt_is_Some_2 (adj_ x) f) as [xa Hxaf]; [lia|].
  destruct (lookup_lt_is_Some_2 (adj_ y) f) as [ya Hyaf]; [lia|].
  destruct (lookup_lt_is_Some_2 (gluing_ x) f) as [xg Hxgf]; [lia|].
  destruct (lookup_lt_is_Some_2 (gluing_ y) f) as [yg Hygf]; [lia|].
  unfold identicalFacet, gluingView. rewrite Hx, Hy. simpl.
  rewrite Hxaf, Hyaf, Hxgf, Hygf. simpl.
  destruct ya as [q|]; simpl.
  - destruct (Hyadj _ _ Hyaf) as (yq & Hyq & Hqidx). rewrite Hyq. simpl.
    destruct (lookup_lt_is_Some_2 mes (index_ yq)) as [tgt Htgt].
    { rewrite Hlen. eapply lookup_lt_Some; eauto. }
    rewrite Htgt. simpl.
    destruct (Ht _ _ Htgt) as (z & Hz & Hzidx & _).
    destruct xa as [r|]; simpl.
    + destruct (Hxadj _ _ Hxaf) as (xr & Hxr & Hridx). rewrite Hxr. simpl.
      case_bool_decide as Hne.
      * exists false. split; [done|]. split; [done|].
        intros [= Hidx ->]. exfalso. apply Hne. f_equal.
        rewrite Hidx in Hridx. congruence.
      * injection Hne as ->.
        assert (xr = z) as -> by congruence.
        case_bool_decide as Hg.
        -- exists false. split; [done|]. split; [done|]. intros [= _ ->]. done.
        -- subst yg.
           exists true. split; [done|]. split; [|done]. intros _. by rewrite Hzidx.
    + exists false. split; [done|]. done.
  - destruct xa as [r|]; simpl.
    + destruct (Hxadj _ _ Hxaf) as (xr & Hxr & Hridx). rewrite Hxr. simpl.
      exists false. split; [done|]. done.
    + exists true. done.
Qed.


Lemma lookup_setDescription p d s q :
  simplices (setDescription p d s) !! q =
  (if decide (p = q) then withDescription d else (λ x, x)) <$> simplices s !! q.
Proof.
  unfold setDescription; simpl. rewrite lookup_alter.
  destruct (decide (p = q)) as [->|]; [done|]. by destruct (simplices s !! q).
Qed.

Lemma lookup_setDescription_fields p d s q :
  match simplices s !! q with
  | Some x => ∃ x', simplices (setDescription p d s) !! q = Some x' ∧
        adj_ x' = adj_ x ∧ gluing_ x' = gluing_ x ∧ index_ x' = index_ x
  | None => simplices (setDescription p d s) !! q = None
  end.
Proof.
  rewrite lookup_setDescription.
  destruct (simplices s !! q) as [x|]; simpl; [|done].
  destruct (decide (p = q)); eexists; split; done.
Qed.

Lemma identicalFacet_setDescription p d s mes me you f :
  identicalFacet (setDescription p d s) mes me you f =
  identicalFacet s mes me you f.
Proof.
  unfold identicalFacet.
  pose proof (lookup_setDescription_fields p d s me) as Hme.
  pose proof (lookup_setDescription_fields p d s you) as Hyou.
  pose proof (lookup_setDescription_fields p d s) as Hall.
  set (s' := setDescription p d s) in *. clearbody s'.
  destruct (simplices s !! me) as [x|]; simpl;
    [destruct Hme as (x' & -> & Ha & Hg & _)|by rewrite Hme]; simpl.
  destruct (simplices s !! you) as [y|]; simpl;
    [destruct Hyou as (y' & -> & Ha' & Hg' & _)|by rewrite Hyou]; simpl.
  rewrite Ha, Hg, Ha', Hg'.
  destruct (adj_ y !! f) as [[q|]|]; simpl; try done.
  destruct (adj_ x !! f) as [xa|]; simpl; try done.
  pose proof (Hall q) as Hq.
  destruct (simplices s !! q) as [yq|]; simpl;
    [destruct Hq as (yq' & -> & _ & _ & Hi)|by rewrite Hq]; simpl.
  by rewrite Hi.
Qed.

Lemma allO_ext {A} (l : list A) (f g : A → option bool) :
  (∀ x, f x = g x) → allO l f = allO l g.
Proof. intros H. induction l as [|a l IH]; simpl; [done|]. by rewrite H, IH. Qed.

Lemma isIdenticalTo_characterised s t u :
  triOk dim s t = true → triOk dim s u = true →
  (∃ b, isIdenticalTo dim s t u = Some b ∧ (b = true ↔ sameGluings dim s t u)) ∧
  (∀ p d, isIdenticalTo dim (setDescription p d s) t u = isIdenticalTo dim s t u).
Proof.
  intros Ht Hu. split.
  - destruct (triOk_elim _ _ Ht) as (mes & Hmes & _).
    destruct (triOk_elim _ _ Hu) as (yous & Hyous & _).
    unfold isIdenticalTo. rewrite Hmes, Hyous. simpl.
    case_bool_decide as Hlen.
    + exists false. split; [done|]. split; [done|].
      intros (m & y & Hm & Hy & Hl & _). congruence.
    + assert (length mes = length yous) as Hlen' by lia. clear Hlen.
      destruct (allO_spec (zip mes yous)
        (λ '(me, you), allO (seq 0 (S dim)) (identicalFacet s mes me you))
        (λ '(me, you), ∀ f, f ≤ dim → gluingView s me f = gluingView s you f))
        as (b & Hb & Hiff).
      { intros [me you] Hin. apply list_elem_of_lookup in Hin as [i Hi].
        apply lookup_zip_with_Some in Hi as (me' & you' & [= <- <-] & Hme & Hyou).
        destruct (allO_spec (seq 0 (S dim)) (identicalFacet s mes me you)
          (λ f, gluingView s me f = gluingView s you f)) as (b & Hb & Hiff).
        { intros f Hf. apply elem_of_seq in Hf.
          apply (identicalFacet_spec s t u mes yous i me you f); auto; lia. }
        exists b. split; [done|]. rewrite Hiff. split.
        - intros H f Hf. apply H, elem_of_seq. lia.
        - intros H f Hf. apply H. apply elem_of_seq in Hf. lia. }
      exists b. split; [done|]. rewrite Hiff. split.
      * intros H. exists mes, yous. repeat split; auto.
        intros i me you f Hme Hyou Hf.
        apply (H (me, you)); [|done].
        apply list_elem_of_lookup. exists i.
        apply lookup_zip_with_Some. eauto.
      * intros (m & y & Hm & Hy & _ & H) [me you] Hin f Hf.
        assert (m = mes) as -> by congruence. assert (y = yous) as -> by congruence.
        apply list_elem_of_lookup in Hin as [i Hi].
        apply lookup_zip_with_Some in Hi as (me' & you' & [= <- <-] & Hme & Hyou).
        eauto.
  - intros p d. unfold isIdenticalTo.
    change (triangulations (setDescription p d s)) with (triangulations s).
    destruct (triangulations s !! t) as [mes|]; cbn -[allO]; [|done].
    destruct (triangulations s !! u) as [yous|]; cbn -[allO]; [|done].
    case_bool_decide; [done|].
    apply allO_ext. intros [me you]. apply allO_ext. intros f.
    apply identicalFacet_setDescription.
Qed.

(** C9: on triangulations that satisfy the data model's invariant,
    [isIdenticalTo] answers true exactly when the simplex counts are equal
    and, for every simplex index and facet, both facets are boundary or both
    are glued to the same index through the same permutation; changing a
    description never changes the answer. *)
Theorem isIdenticalTo_iff s t u :
  triOk dim s t = true → triOk dim s u = true →
  (∃ b, isIdenticalTo dim s t u = Some b ∧ (b = true ↔ sameGluings dim s t u)) ∧
  (∀ p d, isIdenticalTo dim (setDescription p d s) t u = isIdenticalTo dim s t u).
Proof. apply isIdenticalTo_characterised. Qed.

End IdenticalTo.

(** ** [swapContents] *)

Lemma withTri_idem t x : withTri t (withTri t x) = withTri t x.
Proof. reflexivity. Qed.

Lemma triOk_live dim s t v p :
  triOk dim s t = true → triangulations s !! t = Some v → p ∈ v →
  is_Some (simplices s !! p).
Proof.
  intros Hok Hv Hp. apply triOk_elim in Hok as (v' & Hv' & Hok).
  assert (v' = v) as -> by congruence.
  apply list_elem_of_lookup in Hp as [i Hi].
  destruct (Hok _ _ Hi) as (x & Hx & _). eauto.
Qed.

(** C7: after [T.swapContents(U)] the two containers have exchanged their
    simplex sequences, and every simplex that was live before the swap is
    still at the same address with the same adjacency pointers, gluing
    permutations, description, index and locks; only the back-reference to
    the owning triangulation has changed, to the container through which the
    simplex is now reachable. *)
Theorem swapContents_preserves dim s T U mine yours :
  triOk dim s T = true → triOk dim s U = true →
  triangulations s !! T = Some mine →
  triangulations s !! U = Some yours →
  ∃ s', swapContents T U s = Ok tt s' ∧
    triangulations s' !! T = Some yours ∧
    triangulations s' !! U = Some mine ∧
    (∀ t, t ≠ T → t ≠ U → triangulations s' !! t = triangulations s !! t) ∧
    ∀ p x, simplices s !! p = Some x →
      ∃ x', simplices s' !! p = Some x' ∧
        adj_ x' = adj_ x ∧ gluing_ x' = gluing_ x ∧
        description_ x' = description_ x ∧ index_ x' = index_ x ∧
        facetLocks_ x' = facetLocks_ x ∧ simplexLock_ x' = simplexLock_ x ∧
        tri_ x' = (if bool_decide (p ∈ mine) then U
                   else if bool_decide (p ∈ yours) then T else tri_ x).
Proof.
  intros HT HU Hmine Hyours.
  unfold swapContents.
  rewrite (bind_Ok _ _ _ _ _ (getVec_Ok _ _ _ Hmine)).
  rewrite (bind_Ok _ _ _ _ _ (getVec_Ok _ _ _ Hyours)).
  set (s1 := setVec U mine (setVec T yours s)).
  rewrite (bind_Ok _ _ s tt s1) by done.
  assert (HT1 : triangulations s1 !! T = Some yours).
  { subst s1. simpl. destruct (decide (U = T)) as [->|Hne].
    - rewrite lookup_insert_eq. congruence.
    - rewrite lookup_insert_ne by done. by rewrite lookup_insert_eq. }
  assert (HU1 : triangulations s1 !! U = Some mine).
  { subst s1. simpl. by rewrite lookup_insert_eq. }
  rewrite (bind_Ok _ _ _ _ _ (getVec_Ok _ _ _ HT1)).
  destruct (forM_modify (withTri T) yours s1 (withTri_idem T)) as
    (s2 & Hrun2 & Ht2 & _ & _ & Hs2).
  { intros p Hp. subst s1; simpl. eapply triOk_live; eauto. }
  rewrite (bind_Ok _ _ _ _ _ Hrun2).
  rewrite <- Ht2 in HT1, HU1.
  rewrite (bind_Ok _ _ _ _ _ (getVec_Ok _ _ _ HU1)).
  destruct (forM_modify (withTri U) mine s2 (withTri_idem U)) as
    (s3 & Hrun3 & Ht3 & _ & _ & Hs3).
  { intros p Hp. rewrite Hs2. subst s1; simpl.
    destruct (triOk_live dim s T mine p HT Hmine Hp) as [x Hx]. rewrite Hx.
    case_bool_decide; simpl; eauto. }
  exists s3. split; [done|]. rewrite Ht3.
  split; [done|]. split; [done|]. split.
  { intros t HnT HnU. rewrite Ht2. subst s1; simpl.
    by rewrite !lookup_insert_ne by done. }
  intros p x Hx. rewrite Hs3, Hs2. subst s1; simpl. rewrite Hx.
  repeat case_bool_decide; simpl; eexists; (split; [reflexivity|]); done.
Qed.

(** ** Facet slots under gluing *)

Lemma facetSlot_set f q g x f' :
  facetSlot (withGluing f g (withAdj f (Some q) x)) f' =
  if decide (f = f')
  then match facetSlot x f with Some _ => Some (Some (q, g)) | None => None end
  else facetSlot x f'.
Proof.
  unfold facetSlot; simpl. destruct (decide (f = f')) as [<-|Hne].
  - destruct (decide (f < length (adj_ x))) as [Ha|Ha];
    destruct (decide (f < length (gluing_ x))) as [Hg|Hg].
    + rewrite !list_lookup_insert_eq by done.
      destruct (lookup_lt_is_Some_2 _ _ Ha) as [a ->].
      destruct (lookup_lt_is_Some_2 _ _ Hg) as [b ->]. by destruct a.
    + rewrite (list_insert_ge (gluing_ x)) by lia.
      rewrite (lookup_ge_None_2 (gluing_ x)) by lia.
      rewrite list_lookup_insert_eq by done. by destruct (adj_ x !! f) as [[]|].
    + rewrite (list_insert_ge (adj_ x)) by lia.
      by rewrite (lookup_ge_None_2 (adj_ x)) by lia.
    + rewrite (list_insert_ge (adj_ x)) by lia.
      by rewrite (lookup_ge_None_2 (adj_ x)) by lia.
  - by rewrite !list_lookup_insert_ne by done.
Qed.

Lemma facetSlot_clear f x f' :
  facetSlot (withAdj f None x) f' =
  if decide (f = f')
  then match facetSlot x f with Some _ => Some None | None => None end
  else facetSlot x f'.
Proof.
  unfold facetSlot; simpl. destruct (decide (f = f')) as [<-|Hne].
  - destruct (decide (f < length (adj_ x))) as [Ha|Ha].
    + rewrite !list_lookup_insert_eq by done.
      destruct (lookup_lt_is_Some_2 _ _ Ha) as [a ->].
      destruct (gluing_ x !! f); by destruct a.
    + rewrite (list_insert_ge (adj_ x)) by lia.
      by rewrite (lookup_ge_None_2 (adj_ x)) by lia.
  - by rewrite !list_lookup_insert_ne by done.
Qed.

Lemma slotAt_setSlot p f q g s p' f' :
  slotAt (setSlot p f q g s) p' f' =
  if decide (p = p' ∧ f = f')
  then match slotAt s p f with Some _ => Some (Some (q, g)) | None => None end
  else slotAt s p' f'.
Proof.
  unfold slotAt, setSlot; simpl. rewrite lookup_alter.
  destruct (decide (p = p')) as [<-|Hne].
  - destruct (simplices s !! p) as [x|]; simpl.
    + rewrite facetSlot_set. destruct (decide (f = f')) as [<-|Hnf].
      * by rewrite decide_True.
      * rewrite decide_False; [done|]. by intros [_ ?].
    + by destruct (decide _).
  - rewrite decide_False; [done|]. by intros [? _].
Qed.

Lemma slotAt_clearSlot p f s p' f' :
  slotAt (clearSlot p f s) p' f' =
  if decide (p = p' ∧ f = f')
  then match slotAt s p f with Some _ => Some None | None => None end
  else slotAt s p' f'.
Proof.
  unfold slotAt, clearSlot; simpl. rewrite lookup_alter.
  destruct (decide (p = p')) as [<-|Hne].
  - destruct (simplices s !! p) as [x|]; simpl.
    + rewrite facetSlot_clear. destruct (decide (f = f')) as [<-|Hnf].
      * by rewrite decide_True.
      * rewrite decide_False; [done|]. by intros [_ ?].
    + by destruct (decide _).
  - rewrite decide_False; [done|]. by intros [? _].
Qed.

Lemma lockedAt_setSlot p f q g s p' f' :
  lockedAt (setSlot p f q g s) p' f' = lockedAt s p' f'.
Proof.
  unfold lockedAt, setSlot; simpl. rewrite lookup_alter.
  destruct (decide (p = p')) as [<-|]; [|done].
  by destruct (simplices s !! p).
Qed.

Lemma lockedAt_clearSlot p f s p' f' :
  lockedAt (clearSlot p f s) p' f' = lockedAt s p' f'.
Proof.
  unfold lockedAt, clearSlot; simpl. rewrite lookup_alter.
  destruct (decide (p = p')) as [<-|]; [|done].
  by destruct (simplices s !! p).
Qed.

Lemma slotAt_is_Some s p f : is_Some (slotAt s p f) → is_Some (simplices s !! p).
Proof. unfold slotAt. destruct (simplices s !! p); eauto. intros [? [=]]. Qed.

(** Writing one half of a gluing, as the two assignments of the code. *)
Lemma setSimplex_twice p f q g s x :
  simplices s !! p = Some x →
  setSimplex p (withGluing f g (withAdj f (Some q) x))
    (setSimplex p (withAdj f (Some q) x) s) = setSlot p f q g s.
Proof.
  intros Hx. unfold setSlot, setSimplex; simpl. f_equal.
  rewrite insert_insert_eq. apply map_eq. intros i.
  rewrite lookup_alter. destruct (decide (p = i)) as [<-|Hne].
  - by rewrite lookup_insert_eq, Hx.
  - by rewrite lookup_insert_ne.
Qed.

Lemma write_half_bind {B} p f q g (k : M B) s :
  is_Some (simplices s !! p) →
  (modify p (withAdj f (Some q));; modify p (withGluing f g);; k) s =
  k (setSlot p f q g s).
Proof.
  intros [x Hx].
  rewrite (bind_Ok _ _ _ _ _ (modify_Ok _ _ _ _ Hx)).
  rewrite (bind_Ok _ _ _ tt
    (setSimplex p (withGluing f g (withAdj f (Some q) x))
       (setSimplex p (withAdj f (Some q) x) s))).
  - by rewrite setSimplex_twice.
  - apply modify_Ok. simpl. apply lookup_insert_eq.
Qed.

Lemma write_half p f q g s :
  is_Some (simplices s !! p) →
  (modify p (withAdj f (Some q));; modify p (withGluing f g)) s =
  Ok tt (setSlot p f q g s).
Proof.
  intros [x Hx].
  rewrite (bind_Ok _ _ _ _ _ (modify_Ok _ _ _ _ Hx)).
  rewrite (modify_Ok _ _ _ (withAdj f (Some q) x))
    by (simpl; apply lookup_insert_eq).
  by rewrite setSimplex_twice.
Qed.

Lemma setSlot_live p f q g s r :
  is_Some (simplices (setSlot p f q g s) !! r) ↔ is_Some (simplices s !! r).
Proof.
  unfold setSlot; simpl. rewrite lookup_alter.
  destruct (decide (p = r)) as [<-|]; [|done].
  by rewrite fmap_is_Some.
Qed.

Lemma clearSlot_live p f s r :
  is_Some (simplices (clearSlot p f s) !! r) ↔ is_Some (simplices s !! r).
Proof.
  unfold clearSlot; simpl. rewrite lookup_alter.
  destruct (decide (p = r)) as [<-|]; [|done].
  by rewrite fmap_is_Some.
Qed.

Lemma joinRaw_eq me f you g s :
  is_Some (simplices s !! me) → is_Some (simplices s !! you) →
  joinRaw me f you g s = Ok tt (glued me f you g s).
Proof.
  intros Hme Hyou. unfold joinRaw, glued.
  rewrite write_half_bind by done.
  apply write_half. by apply setSlot_live.
Qed.

(** ** [join] and [unjoin] *)

Lemma join_inv me f you g s s' :
  join me f you g s = Ok tt s' →
  slotAt s me f = Some None ∧
  slotAt s you (Perm.apply g f) = Some None ∧
  ¬ (me = you ∧ f = Perm.apply g f) ∧
  lockedAt s me f = Some false ∧
  lockedAt s you (Perm.apply g f) = Some false ∧
  s' = glued me f you g s.
Proof.
  intros H. unfold join in H. rewrite bind_unfold in H. unfold deref in H.
  unfold slotAt, lockedAt.
  destruct (simplices s !! me) as [x|] eqn:Hx; [|done].
  rewrite bind_unfold in H.
  destruct (simplices s !! you) as [y|] eqn:Hy; [|done].
  rewrite bind_unfold in H. unfold liftOpt in H.
  destruct (facetSlot x f) as [mine|] eqn:Hm; [|done].
  rewrite bind_unfold in H.
  destruct (facetSlot y _) as [yours|] eqn:Hyo; [|done].
  case_bool_decide as Hself; [done|].
  case_bool_decide as Hglued; [done|].
  destruct (facetLocked x f || facetLocked y _) eqn:Hl; [done|].
  apply orb_false_elim in Hl as [Hl1 Hl2].
  rewrite write_half_bind, write_half in H by (rewrite ?setSlot_live; eauto).
  injection H as <-. simpl. rewrite Hm, Hyo, Hl1, Hl2.
  destruct mine; [exfalso; apply Hglued; by left|].
  destruct yours; [exfalso; apply Hglued; by right|].
  done.
Qed.

Lemma join_Ok me f you g s :
  slotAt s me f = Some None →
  slotAt s you (Perm.apply g f) = Some None →
  ¬ (me = you ∧ f = Perm.apply g f) →
  lockedAt s me f = Some false →
  lockedAt s you (Perm.apply g f) = Some false →
  join me f you g s = Ok tt (glued me f you g s).
Proof.
  unfold slotAt, lockedAt. intros Hm Hy Hself Hl1 Hl2.
  unfold join. rewrite bind_unfold. unfold deref.
  destruct (simplices s !! me) as [x|] eqn:Hx; [|done].
  rewrite bind_unfold.
  destruct (simplices s !! you) as [y|] eqn:Hyou; [|done].
  simpl in Hm, Hy, Hl1, Hl2.
  rewrite bind_unfold. unfold liftOpt. rewrite Hm.
  rewrite bind_unfold. rewrite Hy.
  rewrite bool_decide_eq_false_2 by done.
  rewrite bool_decide_eq_false_2 by (intros [?|?]; done).
  injection Hl1 as ->. injection Hl2 as ->. simpl.
  rewrite write_half_bind, write_half by (rewrite ?setSlot_live; eauto).
  done.
Qed.

(** A failed join leaves the store as it was. *)
Lemma join_Throw me f you g s e s' :
  join me f you g s = Throw e s' → s' = s.
Proof.
  intros H. unfold join in H. rewrite bind_unfold in H. unfold deref in H.
  destruct (simplices s !! me) as [x|] eqn:Hx; [|done].
  rewrite bind_unfold in H.
  destruct (simplices s !! you) as [y|] eqn:Hy; [|done].
  rewrite bind_unfold in H. unfold liftOpt in H.
  destruct (facetSlot x f) as [mine|] eqn:Hm; [|done].
  rewrite bind_unfold in H.
  destruct (facetSlot y _) as [yours|] eqn:Hyo; [|done].
  case_bool_decide as Hself; [done|].
  case_bool_decide as Hglued; [by injection H|].
  destruct (facetLocked x f || facetLocked y _) eqn:Hl; [by injection H|].
  rewrite write_half_bind, write_half in H by (rewrite ?setSlot_live; eauto).
  done.
Qed.

(** C1: a successful [A.join(f, B, p)] leaves in [B]'s slot at facet
    [g = p(f)] exactly the pair [(A, p^-1)], with [p^-1(g) = f], and in
    [A]'s slot at facet [f] the pair [(B, p)]. *)
Theorem join_symmetric n A f B p s s' :
  Perm.valid n p = true → f < n →
  join A f B p s = Ok tt s' →
  slotAt s' B (Perm.apply p f) = Some (Some (A, Perm.inverse p)) ∧
  Perm.apply (Perm.inverse p) (Perm.apply p f) = f ∧
  slotAt s' A f = Some (Some (B, p)).
Proof.
  intros Hp Hf Hjoin.
  apply join_inv in Hjoin as (Hmine & Hyours & Hself & _ & _ & ->).
  split; [|split].
  - unfold glued. rewrite slotAt_setSlot, decide_True by done.
    rewrite slotAt_setSlot. case_decide; [by rewrite Hmine|by rewrite Hyours].
  - by apply (Perm_inverse_apply n).
  - unfold glued. rewrite slotAt_setSlot, decide_False.
    + by rewrite slotAt_setSlot, decide_True, Hmine.
    + intros [-> Heq]. by apply Hself.
Qed.

(** ** Allocation *)

Lemma storeOk_elim s :
  storeOk s = true →
  (∀ p, is_Some (simplices s !! p) → p < nextPtr s) ∧
  (∀ t, is_Some (triangulations s !! t) → t < nextTid s).
Proof.
  unfold storeOk. intros [H1 H2]%andb_true_iff.
  apply bool_decide_eq_true in H1. apply bool_decide_eq_true in H2.
  split.
  - intros p [x Hx]. by apply (H1 p x).
  - intros t [v Hv]. by apply (H2 t v).
Qed.

Lemma pushNewSimplex_Ok dim t desc s :
  is_Some (triangulations s !! t) →
  pushNewSimplex dim t desc s = Ok (nextPtr s) (allocated dim t desc s).
Proof.
  intros [v Hv]. unfold pushNewSimplex, allocated. by rewrite Hv.
Qed.

Lemma allocated_vec dim t desc s :
  is_Some (triangulations s !! t) →
  is_Some (triangulations (allocated dim t desc s) !! t).
Proof. intros _. unfold allocated; simpl. rewrite lookup_insert_eq. eauto. Qed.

Lemma slotAt_allocated dim t desc s p f :
  slotAt (allocated dim t desc s) p f =
  if decide (p = nextPtr s)
  then (if decide (f ≤ dim) then Some None else None)
  else slotAt s p f.
Proof.
  unfold slotAt, allocated; simpl.
  destruct (decide (p = nextPtr s)) as [->|Hne].
  - rewrite lookup_insert_eq. cbn [mbind option_bind].
    unfold facetSlot, freshSimplex; cbn [adj_ gluing_].
    destruct (decide (f ≤ dim)).
    + by rewrite !lookup_replicate_2 by lia.
    + by rewrite (lookup_ge_None_2 (replicate _ _)) by (rewrite length_replicate; lia).
  - by rewrite lookup_insert_ne.
Qed.

Lemma lockedAt_allocated dim t desc s p f :
  lockedAt (allocated dim t desc s) p f =
  if decide (p = nextPtr s) then Some false else lockedAt s p f.
Proof.
  unfold lockedAt, allocated; simpl.
  destruct (decide (p = nextPtr s)) as [->|Hne].
  - rewrite lookup_insert_eq. cbn [fmap option_fmap option_map].
    unfold facetLocked, freshSimplex; cbn [simplexLock_ facetLocks_ orb].
    f_equal.
    destruct (_ !! f) as [b|] eqn:E; [|done].
    by apply lookup_replicate in E as [-> _].
  - by rewrite lookup_insert_ne.
Qed.

(** ** Running straight-line code *)

Lemma run_bind {A B} (m : M A) (k : A → M B) s a s1 r :
  m s = Ok a s1 → k a s1 = r → (m ≫= k) s = r.
Proof. intros H <-. by apply bind_Ok. Qed.

Lemma run_ret {A} (a : A) s : (mret a : M A) s = Ok a s.
Proof. reflexivity. Qed.

Lemma run_query {A} (q : State → A) s : query q s = Ok (q s) s.
Proof. reflexivity. Qed.

Lemma run_update upd s : update upd s = Ok tt (upd s).
Proof. reflexivity. Qed.

(** ** [puncture] *)

Lemma nextPtr_allocated dim t d s :
  nextPtr (allocated dim t d s) = S (nextPtr s).
Proof. reflexivity. Qed.

Lemma nextPtr_setSlot p f q g s : nextPtr (setSlot p f q g s) = nextPtr s.
Proof. reflexivity. Qed.

Lemma nextPtr_clearSlot p f s : nextPtr (clearSlot p f s) = nextPtr s.
Proof. reflexivity. Qed.

Ltac run_alloc :=
  repeat first
    [ apply run_ret
    | apply pushNewSimplex_Ok; repeat apply allocated_vec; assumption
    | eapply run_bind; [|cbv beta] ].

Lemma newPrisms_Ok T s :
  is_Some (triangulations s !! T) →
  foldM (seq 0 3) (replicate 2 (replicate 3 0)) (λ prism j,
    foldM (seq 0 2) prism (λ prism i,
      p ← newTetrahedron T; mret (set2 i j p prism))) s =
  Ok [[nextPtr s; 2 + nextPtr s; 4 + nextPtr s];
      [1 + nextPtr s; 3 + nextPtr s; 5 + nextPtr s]] (sixAllocated T s).
Proof.
  intros Hv. unfold sixAllocated.
  cbn [foldM seq]. unfold newTetrahedron, newSimplex.
  run_alloc.
Qed.

(** Evaluating a slot or a lock through a tower of store updates; pointer
    and facet comparisons are settled by linear arithmetic. *)
Ltac decide_by_lia :=
  first [ rewrite decide_False by (try intros [? ?]; lia)
        | rewrite decide_True by (try split; lia) ].

Ltac view_eval :=
  unfold glued; cbn [Perm.apply nth];
  repeat first
    [ rewrite slotAt_setSlot; decide_by_lia
    | rewrite slotAt_clearSlot; decide_by_lia
    | rewrite slotAt_allocated; rewrite ?nextPtr_allocated; decide_by_lia;
      try decide_by_lia
    | rewrite lockedAt_setSlot
    | rewrite lockedAt_clearSlot
    | rewrite lockedAt_allocated; rewrite ?nextPtr_allocated; decide_by_lia ].

Ltac join_prem :=
  cbn [Perm.apply nth];
  first [ solve [view_eval; reflexivity]
        | solve [intros [? ?]; lia] ].

Ltac run_joinPrism :=
  eapply run_bind;
  [ unfold joinPrism; cbn [fst snd];
    eapply run_bind; [apply liftOpt_Ok; reflexivity|cbv beta];
    eapply run_bind; [apply liftOpt_Ok; reflexivity|cbv beta];
    apply join_Ok; join_prem
  | cbv beta ].

Lemma prisms_Ok {B} T s (k : M B) :
  let n := nextPtr s in
  let prism := [[n; 2 + n; 4 + n]; [1 + n; 3 + n; 5 + n]] in
  (joinPrism prism (0, 0) 0 (0, 1) [3; 0; 1; 2];;
   joinPrism prism (0, 1) 0 (0, 2) [3; 0; 1; 2];;
   joinPrism prism (1, 0) 1 (1, 1) [3; 0; 1; 2];;
   joinPrism prism (1, 1) 1 (1, 2) [3; 2; 0; 1];;
   joinPrism prism (0, 0) 1 (1, 0) [1; 2; 3; 0];;
   joinPrism prism (0, 0) 2 (1, 0) [1; 2; 3; 0];;
   joinPrism prism (0, 1) 1 (1, 1) [1; 2; 3; 0];;
   joinPrism prism (0, 1) 2 (1, 1) [1; 2; 3; 0];;
   joinPrism prism (0, 2) 1 (1, 2) [0; 1; 3; 2];;
   joinPrism prism (0, 2) 2 (1, 2) [0; 1; 3; 2];;
   k) (sixAllocated T s) = k (prismsGlued n (sixAllocated T s)).
Proof.
  intros n prism. subst prism. unfold sixAllocated.
  run_joinPrism.
  run_joinPrism.
  do 8 run_joinPrism.
  reflexivity.
Qed.

Lemma adjacentSimplex_slot s p f o :
  slotAt s p f = Some o → adjacentSimplex p f s = Ok (fst <$> o) s.
Proof.
  unfold slotAt, adjacentSimplex. intros H.
  destruct (simplices s !! p) as [x|] eqn:Hx; [|done]. simpl in H.
  eapply run_bind; [by apply deref_Ok|]. cbv beta.
  apply liftOpt_Ok. unfold facetSlot in H.
  destruct (adj_ x !! f) as [[q|]|]; [| |done];
    destruct (gluing_ x !! f); by simplify_eq.
Qed.

Lemma adjacentGluing_slot s p f a g :
  slotAt s p f = Some (Some (a, g)) → adjacentGluing p f s = Ok g s.
Proof.
  unfold slotAt, adjacentGluing. intros H.
  destruct (simplices s !! p) as [x|] eqn:Hx; [|done]. simpl in H.
  eapply run_bind; [by apply deref_Ok|]. cbv beta.
  apply liftOpt_Ok. unfold facetSlot in H.
  destruct (adj_ x !! f) as [[q|]|]; [| |done];
    destruct (gluing_ x !! f); by simplify_eq.
Qed.

Lemma modify_clear p f s :
  is_Some (simplices s !! p) →
  modify p (withAdj f None) s = Ok tt (clearSlot p f s).
Proof.
  intros [x Hx]. rewrite (modify_Ok _ _ _ _ Hx). f_equal.
  unfold clearSlot, setSimplex. f_equal. apply map_eq. intros i.
  rewrite lookup_alter. destruct (decide (p = i)) as [<-|Hne].
  - by rewrite lookup_insert_eq, Hx.
  - by rewrite lookup_insert_ne.
Qed.

Lemma unjoin_Ok me f you g s :
  slotAt s me f = Some (Some (you, g)) →
  lockedAt s me f = Some false →
  is_Some (simplices s !! you) →
  unjoin me f s =
  Ok (Some you) (clearSlot me f (clearSlot you (Perm.apply g f) s)).
Proof.
  intros Hslot Hlock Hyou. unfold unjoin.
  unfold slotAt in Hslot. unfold lockedAt in Hlock.
  destruct (simplices s !! me) as [x|] eqn:Hx; [|done]. simpl in *.
  eapply run_bind; [by apply deref_Ok|]. cbv beta.
  eapply run_bind; [by apply liftOpt_Ok|]. cbv beta.
  injection Hlock as ->.
  eapply run_bind; [by apply modify_clear|]. cbv beta.
  eapply run_bind; [apply modify_clear|reflexivity].
  apply clearSlot_live. eauto.
Qed.

Lemma punctureReady_elim s tet :
  punctureReady s tet = true →
  lockedAt s tet 0 = Some false ∧
  (slotAt s tet 0 = Some None ∨
   ∃ a g, slotAt s tet 0 = Some (Some (a, g)) ∧
     lockedAt s a (Perm.apply g 0) = Some false ∧
     is_Some (slotAt s a (Perm.apply g 0)) ∧
     ¬ (a = tet ∧ Perm.apply g 0 = 0)).
Proof.
  unfold punctureReady.
  destruct (lockedAt s tet 0) as [[|]|]; try done.
  destruct (slotAt s tet 0) as [[[a g]|]|]; try done; [|auto].
  intros [[H1 H2]%andb_true_iff H3]%andb_true_iff.
  apply bool_decide_eq_true in H1, H2. apply negb_true_iff in H3.
  apply bool_decide_eq_false in H3. split; [done|]. right. eauto 10.
Qed.

Lemma lockedAt_is_Some s p f :
  is_Some (lockedAt s p f) → is_Some (simplices s !! p).
Proof. unfold lockedAt. by rewrite fmap_is_Some. Qed.

Lemma prisms_old_slot T s p f :
  p < nextPtr s →
  slotAt (prismsGlued (nextPtr s) (sixAllocated T s)) p f = slotAt s p f.
Proof. intros Hp. unfold prismsGlued, sixAllocated. by view_eval. Qed.

Lemma prisms_old_lock T s p f :
  p < nextPtr s →
  lockedAt (prismsGlued (nextPtr s) (sixAllocated T s)) p f = lockedAt s p f.
Proof. intros Hp. unfold prismsGlued, sixAllocated. by view_eval. Qed.

Lemma prisms_new_lock T s k f :
  k < 6 →
  lockedAt (prismsGlued (nextPtr s) (sixAllocated T s)) (k + nextPtr s) f =
  Some false.
Proof.
  intros Hk. unfold prismsGlued, sixAllocated.
  destruct k as [|[|[|[|[|[|]]]]]]; try lia; by view_eval.
Qed.

Lemma prisms_free_slots T s :
  let sA := prismsGlued (nextPtr s) (sixAllocated T s) in
  slotAt sA (nextPtr s) 3 = Some None ∧
  slotAt sA (1 + nextPtr s) 0 = Some None ∧
  slotAt sA (4 + nextPtr s) 0 = Some None ∧
  slotAt sA (5 + nextPtr s) 0 = Some None.
Proof. unfold prismsGlued, sixAllocated. repeat split; by view_eval. Qed.

Lemma puncture_Ok_live T tet s :
  (∀ p, is_Some (simplices s !! p) → p < nextPtr s) →
  is_Some (triangulations s !! T) →
  punctureReady s tet = true →
  puncture T (Some tet) s = Ok tt (punctured T tet s).
Proof.
  intros Hlive [v Hv] Hready.
  apply punctureReady_elim in Hready as [Hlock Hslot].
  assert (Htet : tet < nextPtr s).
  { apply Hlive. eapply lockedAt_is_Some. rewrite Hlock. eauto. }
  unfold puncture.
  eapply run_bind; [by apply getVec_Ok|]. cbv beta.
  eapply run_bind; [apply run_ret|]. cbv beta.
  eapply run_bind; [apply newPrisms_Ok; eauto|]. cbv beta.
  rewrite (prisms_Ok T s). unfold punctured.
  destruct (prisms_free_slots T s) as (Hn3 & Hn10 & _).
  pose proof (prisms_old_slot T s) as Hold.
  pose proof (prisms_old_lock T s) as Holdl.
  pose proof (prisms_new_lock T s) as Hnewl.
  set (n := nextPtr s) in *.
  set (sA := prismsGlued n (sixAllocated T s)) in *. clearbody sA.
  destruct Hslot as [Hslot|(a & g & Hslot & Hlocka & Hslota & Hself)].
  - rewrite Hslot.
    eapply run_bind; [apply adjacentSimplex_slot; by rewrite Hold|].
    cbn [fmap option_fmap option_map]. cbv beta.
    eapply run_bind; [apply run_ret|]. cbv beta.
    eapply run_bind; [by apply liftOpt_Ok|]. cbv beta.
    apply join_Ok; cbn [Perm.apply nth].
    + by rewrite Hold.
    + done.
    + intros [? ?]; lia.
    + by rewrite Holdl.
    + apply (Hnewl 0). lia.
  - rewrite Hslot.
    assert (Ha : a < n).
    { apply Hlive. eapply lockedAt_is_Some. rewrite Hlocka. eauto. }
    eapply run_bind; [apply adjacentSimplex_slot; by rewrite Hold|].
    cbn [fmap option_fmap option_map fst]. cbv beta.
    eapply run_bind.
    { eapply run_bind; [eapply adjacentGluing_slot; by rewrite Hold|]. cbv beta.
      eapply run_bind.
      { apply (unjoin_Ok tet 0 a g); [by rewrite Hold|by rewrite Holdl|].
        eapply lockedAt_is_Some. rewrite Holdl by done. rewrite Hlocka. eauto. }
      cbv beta.
      eapply run_bind; [by apply liftOpt_Ok|]. cbv beta.
      apply join_Ok.
      - rewrite !slotAt_clearSlot.
        rewrite !decide_False by (intros [? ?]; lia). done.
      - rewrite !slotAt_clearSlot.
        rewrite decide_False by (intros [? ?]; apply Hself; split; congruence).
        rewrite decide_True by done. rewrite Hold by done.
        by destruct Hslota as [? ->].
      - intros [? ?]; lia.
      - rewrite !lockedAt_clearSlot. apply (Hnewl 1). lia.
      - rewrite !lockedAt_clearSlot. by rewrite Holdl. }
    cbv beta.
    eapply run_bind; [by apply liftOpt_Ok|]. cbv beta.
    apply join_Ok; cbn [Perm.apply nth]; unfold glued.
    + rewrite !slotAt_setSlot.
      rewrite decide_False by (intros [? ?]; apply Hself; split; congruence).
      rewrite decide_False by (intros [? ?]; lia).
      rewrite slotAt_clearSlot, decide_True by done.
      rewrite slotAt_clearSlot.
      rewrite decide_False by (intros [? ?]; apply Hself; split; congruence).
      by rewrite Hold, Hslot.
    + rewrite !slotAt_setSlot.
      rewrite !decide_False by (intros [? ?]; lia).
      rewrite !slotAt_clearSlot.
      rewrite !decide_False by (intros [? ?]; lia). done.
    + intros [? ?]; lia.
    + rewrite !lockedAt_setSlot, !lockedAt_clearSlot. by rewrite Holdl.
    + rewrite !lockedAt_setSlot, !lockedAt_clearSlot. apply (Hnewl 0). lia.
Qed.

Lemma puncture_Ok T tet s :
  storeOk s = true →
  is_Some (triangulations s !! T) →
  punctureReady s tet = true →
  puncture T (Some tet) s = Ok tt (punctured T tet s).
Proof.
  intros Hstore. apply puncture_Ok_live. by apply storeOk_elim.
Qed.

(** The slots of the simplices that were there before the puncture. *)
Lemma punctured_old_slot T tet s p f :
  (∀ p, is_Some (simplices s !! p) → p < nextPtr s) →
  punctureReady s tet = true →
  p < nextPtr s →
  ¬ (p = tet ∧ f = 0) →
  (∀ a g, slotAt s tet 0 = Some (Some (a, g)) →
          ¬ (p = a ∧ f = Perm.apply g 0)) →
  slotAt (punctured T tet s) p f = slotAt s p f.
Proof.
  intros Hlive Hready Hp Hne1 Hne2.
  apply punctureReady_elim in Hready as [Hlock Hslot].
  assert (Htet : tet < nextPtr s).
  { apply Hlive. eapply lockedAt_is_Some. rewrite Hlock. eauto. }
  unfold punctured. pose proof (prisms_old_slot T s) as Hold.
  set (n := nextPtr s) in *.
  set (sA := prismsGlued n (sixAllocated T s)) in *. clearbody sA.
  destruct Hslot as [Hslot|(a & g & Hslot & Hlocka & Hslota & Hself)].
  + rewrite Hslot. unfold glued. cbn [Perm.apply nth].
    rewrite !slotAt_setSlot.
    rewrite !decide_False by (intros [? ?]; lia). by apply Hold.
  + rewrite Hslot. specialize (Hne2 a g Hslot).
    unfold glued. cbn [Perm.apply nth].
    rewrite !slotAt_setSlot, !slotAt_clearSlot.
    rewrite !decide_False by (intros [? ?]; lia). by apply Hold.
Qed.

(** The slots of the six new tetrahedra. *)
Lemma punctured_new_slot T tet s k f :
  (∀ p, is_Some (simplices s !! p) → p < nextPtr s) →
  punctureReady s tet = true →
  k < 6 → f < 4 →
  slotAt (punctured T tet s) (k + nextPtr s) f =
  match k, f with
  | 0, 0 => Some (Some (2 + nextPtr s, [3; 0; 1; 2]))
  | 0, 1 => Some (Some (1 + nextPtr s, [1; 2; 3; 0]))
  | 0, 2 => Some (Some (1 + nextPtr s, [1; 2; 3; 0]))
  | 0, _ => Some (Some (tet, Perm.inverse [3; 0; 1; 2]))
  | 1, 0 => match slotAt s tet 0 with
            | Some (Some (a, g)) => Some (Some (a, g))
            | _ => Some None
            end
  | 1, 1 => Some (Some (3 + nextPtr s, [3; 0; 1; 2]))
  | 1, 2 => Some (Some (nextPtr s, Perm.inverse [1; 2; 3; 0]))
  | 1, _ => Some (Some (nextPtr s, Perm.inverse [1; 2; 3; 0]))
  | 2, 0 => Some (Some (4 + nextPtr s, [3; 0; 1; 2]))
  | 2, 1 => Some (Some (3 + nextPtr s, [1; 2; 3; 0]))
  | 2, 2 => Some (Some (3 + nextPtr s, [1; 2; 3; 0]))
  | 2, _ => Some (Some (nextPtr s, Perm.inverse [3; 0; 1; 2]))
  | 3, 0 => Some (Some (1 + nextPtr s, Perm.inverse [3; 0; 1; 2]))
  | 3, 1 => Some (Some (5 + nextPtr s, [3; 2; 0; 1]))
  | 3, 2 => Some (Some (2 + nextPtr s, Perm.inverse [1; 2; 3; 0]))
  | 3, _ => Some (Some (2 + nextPtr s, Perm.inverse [1; 2; 3; 0]))
  | 4, 0 => Some None
  | 4, 1 => Some (Some (5 + nextPtr s, [0; 1; 3; 2]))
  | 4, 2 => Some (Some (5 + nextPtr s, [0; 1; 3; 2]))
  | 4, _ => Some (Some (2 + nextPtr s, Perm.inverse [3; 0; 1; 2]))
  | _, 0 => Some None
  | _, 1 => Some (Some (4 + nextPtr s, Perm.inverse [0; 1; 3; 2]))
  | _, 2 => Some (Some (3 + nextPtr s, Perm.inverse [3; 2; 0; 1]))
  | _, _ => Some (Some (4 + nextPtr s, Perm.inverse [0; 1; 3; 2]))
  end.
Proof.
  intros Hlive Hready Hk Hf.
  apply punctureReady_elim in Hready as [Hlock Hslot].
  assert (Htet : tet < nextPtr s).
  { apply Hlive. eapply lockedAt_is_Some. rewrite Hlock. eauto. }
  unfold punctured, prismsGlued, sixAllocated.
  destruct Hslot as [Hslot|(a & g & Hslot & Hlocka & Hslota & Hself)];
    rewrite Hslot.
  - destruct k as [|[|[|[|[|[|]]]]]]; try lia;
    destruct f as [|[|[|[|]]]]; try lia; by view_eval.
  - assert (Ha : a < nextPtr s).
    { apply Hlive. eapply lockedAt_is_Some. rewrite Hlocka. eauto. }
    destruct k as [|[|[|[|[|[|]]]]]]; try lia;
    destruct f as [|[|[|[|]]]]; try lia; by view_eval.
Qed.

(** Locks after the puncture: the new tetrahedra carry none, the old ones
    keep theirs. *)
Lemma punctured_lock T tet s p f :
  lockedAt (punctured T tet s) p f =
  if decide (nextPtr s ≤ p < 6 + nextPtr s) then Some false
  else lockedAt s p f.
Proof.
  unfold punctured.
  assert (H : lockedAt (prismsGlued (nextPtr s) (sixAllocated T s)) p f =
    if decide (nextPtr s ≤ p < 6 + nextPtr s) then Some false
    else lockedAt s p f).
  { unfold prismsGlued, sixAllocated, glued.
    rewrite !lockedAt_setSlot, !lockedAt_allocated, !nextPtr_allocated.
    repeat case_decide; try done; lia. }
  destruct (slotAt s tet 0) as [[[a g]|]|]; unfold glued;
    by rewrite ?lockedAt_setSlot, ?lockedAt_clearSlot.
Qed.

Lemma simplices_setSlot_ne p f q g s r :
  r ≠ p → simplices (setSlot p f q g s) !! r = simplices s !! r.
Proof. intros H. unfold setSlot; simpl. by rewrite lookup_alter_ne. Qed.

Lemma simplices_clearSlot_ne p f s r :
  r ≠ p → simplices (clearSlot p f s) !! r = simplices s !! r.
Proof. intros H. unfold clearSlot; simpl. by rewrite lookup_alter_ne. Qed.

Lemma simplices_allocated_ne dim t d s r :
  r ≠ nextPtr s → simplices (allocated dim t d s) !! r = simplices s !! r.
Proof. intros H. unfold allocated; simpl. by rewrite lookup_insert_ne. Qed.

(** The simplex objects that the puncture does not write to. *)
Lemma punctured_simplices_other T tet s p :
  p < nextPtr s → p ≠ tet →
  (∀ a g, slotAt s tet 0 = Some (Some (a, g)) → p ≠ a) →
  simplices (punctured T tet s) !! p = simplices s !! p.
Proof.
  intros Hp Hne1 Hne2. unfold punctured.
  assert (H : simplices (prismsGlued (nextPtr s) (sixAllocated T s)) !! p =
              simplices s !! p).
  { unfold prismsGlued, sixAllocated, glued.
    rewrite !simplices_setSlot_ne by lia.
    rewrite !simplices_allocated_ne by (rewrite ?nextPtr_allocated; lia).
    done. }
  destruct (slotAt s tet 0) as [[[a g]|]|] eqn:E; unfold glued.
  - specialize (Hne2 a g eq_refl).
    rewrite !simplices_setSlot_ne, !simplices_clearSlot_ne by lia. done.
  - by rewrite !simplices_setSlot_ne by lia.
  - by rewrite !simplices_setSlot_ne by lia.
Qed.

Lemma allocated_vec_T dim T d s v :
  triangulations s !! T = Some v →
  triangulations (allocated dim T d s) !! T = Some (v ++ [nextPtr s]).
Proof. intros Hv. unfold allocated; simpl. by rewrite Hv, lookup_insert_eq. Qed.

Lemma allocated_vec_other dim T d s t :
  t ≠ T →
  triangulations (allocated dim T d s) !! t = triangulations s !! t.
Proof. intros Hne. unfold allocated; simpl. by rewrite lookup_insert_ne. Qed.

Lemma sixAllocated_vec_T T s v :
  triangulations s !! T = Some v →
  triangulations (sixAllocated T s) !! T =
  Some (v ++ [nextPtr s; 1 + nextPtr s; 2 + nextPtr s; 3 + nextPtr s;
              4 + nextPtr s; 5 + nextPtr s]).
Proof.
  intros Hv. unfold sixAllocated.
  do 6 (apply (allocated_vec_T 3 T "") in Hv; rewrite <- ?app_assoc in Hv).
  exact Hv.
Qed.

Lemma sixAllocated_vec_other T s t :
  t ≠ T → triangulations (sixAllocated T s) !! t = triangulations s !! t.
Proof.
  intros Hne. unfold sixAllocated. by rewrite !allocated_vec_other.
Qed.

Lemma punctured_vecs T tet s :
  triangulations (punctured T tet s) = triangulations (sixAllocated T s).
Proof. unfold punctured. by destruct (slotAt s tet 0) as [[[a g]|]|]. Qed.

(** C5 (as amended): [puncture(tet)] adds exactly six simplices to the
    triangulation, leaves every other triangulation alone, and among the
    slots of the simplices that existed before the call changes at most
    facet 0 of [tet] and the facet that was glued to it. *)
Theorem puncture_frame T tet s v :
  storeOk s = true →
  triangulations s !! T = Some v →
  punctureReady s tet = true →
  ∃ s', puncture T (Some tet) s = Ok tt s' ∧
    size s' T = Some (length v + 6) ∧
    (∀ t, t ≠ T → triangulations s' !! t = triangulations s !! t) ∧
    ∀ p f, is_Some (simplices s !! p) →
      ¬ (p = tet ∧ f = 0) →
      (∀ a g, slotAt s tet 0 = Some (Some (a, g)) →
              ¬ (p = a ∧ f = Perm.apply g 0)) →
      slotAt s' p f = slotAt s p f.
Proof.
  intros Hstore Hv Hready. exists (punctured T tet s).
  split; [apply puncture_Ok; eauto|].
  apply storeOk_elim in Hstore as [Hlive _].
  split; [|split].
  - unfold size. rewrite punctured_vecs, (sixAllocated_vec_T _ _ _ Hv).
    simpl. rewrite length_app. done.
  - intros t Ht. rewrite punctured_vecs. by apply sixAllocated_vec_other.
  - intros p f Hp Hne1 Hne2. apply punctured_old_slot; auto.
Qed.
Lemma puncture_default T s t0 v :
  triangulations s !! T = Some (t0 :: v) →
  puncture T None s = puncture T (Some t0) s.
Proof.
  intros Hv. unfold puncture.
  rewrite !bind_unfold, (getVec_Ok _ _ _ Hv). reflexivity.
Qed.

Lemma lookup_last_two {A} (v : list A) a b c d e f :
  let v' := v ++ [a; b; c; d; e; f] in
  v' !! (length v' - 2) = Some e ∧ v' !! (length v' - 1) = Some f.
Proof.
  cbv zeta. rewrite length_app. cbn [length].
  replace (length v + 6 - 2) with (length v + 4) by lia.
  replace (length v + 6 - 1) with (length v + 5) by lia.
  rewrite !lookup_app_r by lia.
  replace (length v + 4 - length v) with 4 by lia.
  replace (length v + 5 - length v) with 5 by lia. done.
Qed.

(** C10: after [puncture(tet)] the simplices at indices [size()-2] and
    [size()-1] are the fifth and sixth tetrahedra created by the call
    (prism[0][2] and prism[1][2]); facet 0 of each is boundary, their facets
    1 and 2 are glued to each other, and no other facet of the six new
    tetrahedra is boundary - except facet 0 of prism[1][0], which takes the
    place of facet 0 of [tet] when that facet was boundary before.  With the
    argument omitted the punctured simplex is the one at index 0. *)
Theorem puncture_boundary T tet s v :
  storeOk s = true →
  triangulations s !! T = Some v →
  punctureReady s tet = true →
  ∃ s' b0 b1,
    let n := nextPtr s in
    let v' := v ++ [n; 1 + n; 2 + n; 3 + n; b0; b1] in
    puncture T (Some tet) s = Ok tt s' ∧
    triangulations s' !! T = Some v' ∧
    v' !! (length v' - 2) = Some b0 ∧
    v' !! (length v' - 1) = Some b1 ∧
    simplices s !! b0 = None ∧ simplices s !! b1 = None ∧
    slotAt s' b0 0 = Some None ∧ slotAt s' b1 0 = Some None ∧
    slotAt s' b0 1 = Some (Some (b1, [0; 1; 3; 2])) ∧
    slotAt s' b0 2 = Some (Some (b1, [0; 1; 3; 2])) ∧
    (∀ k f, k < 6 → f < 4 → slotAt s' (k + n) f = Some None →
       (k + n = b0 ∧ f = 0) ∨ (k + n = b1 ∧ f = 0) ∨
       (k = 1 ∧ f = 0 ∧ slotAt s tet 0 = Some None)) ∧
    (∀ t0, head v = Some t0 → puncture T None s = puncture T (Some t0) s).
Proof.
  intros Hstore Hv Hready.
  exists (punctured T tet s), (4 + nextPtr s), (5 + nextPtr s).
  cbv zeta.
  split; [apply puncture_Ok; eauto|].
  apply storeOk_elim in Hstore as [Hlive _].
  pose proof (punctured_new_slot T tet s) as Hnew.
  assert (Hfresh : ∀ k, simplices s !! (k + nextPtr s) = None).
  { intros k. destruct (simplices s !! (k + nextPtr s)) eqn:E; [|done].
    assert (k + nextPtr s < nextPtr s) by (apply Hlive; eauto). lia. }
  split; [by rewrite punctured_vecs, (sixAllocated_vec_T _ _ _ Hv)|].
  split; [apply lookup_last_two|]. split; [apply lookup_last_two|].
  split; [apply Hfresh|]. split; [apply Hfresh|].
  split; [apply (Hnew 4 0); auto; lia|].
  split; [apply (Hnew 5 0); auto; lia|].
  split; [apply (Hnew 4 1); auto; lia|].
  split; [apply (Hnew 4 2); auto; lia|].
  split.
  - intros k f Hk Hf. rewrite Hnew by done.
    apply punctureReady_elim in Hready as [_ Hslot].
    destruct k as [|[|[|[|[|[|]]]]]]; try lia;
    destruct f as [|[|[|[|]]]]; try lia; try done; auto.
    destruct (slotAt s tet 0) as [[[a g]|]|]; try done; auto.
    destruct Hslot as [?|(?&?&?&_)]; done.
  - intros t0 Hhd. destruct v as [|t v]; [done|]. injection Hhd as ->.
    by eapply puncture_default.
Qed.

(** ** The copy loops of the copy constructor and of insertTriangulation *)

Section CopyLoops.

Variables (dim : nat) (this : tid) (s0 : State) (mine yous : list ptr).
Hypothesis Hlive0 : ∀ p, is_Some (simplices s0 !! p) → p < nextPtr s0.
Hypothesis Hthis : triangulations s0 !! this = Some mine.
Hypothesis Hsrc : sourceOk dim s0 yous.


(** The first loop: one fresh simplex per source simplex. *)
Lemma push_loop :
  ∃ s1, forM yous (pushCopy dim this) s0 = Ok tt s1 ∧
        copyInv dim this s0 mine yous 0 0 s1.
Proof.
  pose (I := λ (i : nat) (s' : State),
    nextPtr s' = (nextPtr s0) + i ∧ nextTid s' = nextTid s0 ∧
    triangulations s' = <[this := mine ++ seq (nextPtr s0) i]> (triangulations s0) ∧
    (∀ p, p < (nextPtr s0) → simplices s' !! p = simplices s0 !! p) ∧
    (∀ p, (nextPtr s0) + i ≤ p → simplices s' !! p = None) ∧
    (∀ j you y, j < i → yous !! j = Some you → simplices s0 !! you = Some y →
       simplices s' !! ((nextPtr s0) + j) =
       Some (freshSimplex dim (description_ y) this (length mine + j)))).
  destruct (forM_inv yous (pushCopy dim this) I s0) as (s1 & Hrun & HI).
  - unfold I. repeat split; try done.
    + simpl. rewrite app_nil_r. symmetry. by apply insert_id.
    + intros p Hp. destruct (simplices s0 !! p) eqn:E; [|done].
      assert (p < (nextPtr s0)) by (apply Hlive0; eauto). lia.
    + intros j you y Hj. lia.
  - intros i you s' Hi (Hn & Ht & Hv & Hold & Hnone & Hnew).
    destruct (Hsrc i you Hi) as (y & Hy & _).
    assert (Hyou : you < (nextPtr s0)) by (apply Hlive0; eauto).
    exists (allocated dim this (description_ y) s').
    split.
    + unfold pushCopy.
      eapply run_bind; [apply deref_Ok; by rewrite Hold|]. cbv beta.
      eapply run_bind; [|apply run_ret].
      apply pushNewSimplex_Ok. rewrite Hv, lookup_insert_eq. eauto.
    + unfold I, allocated; simpl. rewrite Hn, Hv, lookup_insert_eq. simpl.
      repeat split.
      * lia.
      * done.
      * rewrite insert_insert_eq. f_equal.
        change ((nextPtr s0) :: seq (S (nextPtr s0)) i) with (seq (nextPtr s0) (S i)).
        rewrite seq_S, app_assoc. done.
      * intros p Hp. rewrite lookup_insert_ne by lia. by apply Hold.
      * intros p Hp. rewrite lookup_insert_ne by lia. apply Hnone. lia.
      * intros j you' y' Hj Hyou' Hy'.
        destruct (decide (j = i)) as [->|Hne].
        -- rewrite lookup_insert_eq. 
           assert (you' = you) as -> by congruence.
           assert (y' = y) as -> by congruence.
           rewrite length_app, length_seq. do 2 f_equal. 
        -- rewrite lookup_insert_ne by lia. apply (Hnew j you' y'); auto. lia.
  - exists s1. split; [done|].
    destruct HI as (Hn & Ht & Hv & Hold & Hnone & Hnew).
    unfold copyInv. repeat split; try done.
    intros j you y Hj Hy.
    exists (freshSimplex dim (description_ y) this (length mine + j)).
    split.
    + apply (Hnew j you y); auto. eapply lookup_lt_Some; eauto.
    + destruct (decide (j < 0)); [lia|].
      unfold copiedUpTo, freshSimplex; simpl.
      rewrite !length_replicate.
      repeat split; try done.
      * intros f Hf. destruct (decide (j = 0)); lia.
      * destruct f; [done|]. apply lookup_replicate_2. lia.
      * destruct f; [done|]. apply lookup_replicate_2. lia.
Qed.


Lemma copiedFacet_frame y x' x'' f :
  adj_ x'' !! f = adj_ x' !! f → gluing_ x'' !! f = gluing_ x' !! f →
  copiedFacet dim (nextPtr s0) s0 y x' f → copiedFacet dim (nextPtr s0) s0 y x'' f.
Proof.
  unfold copiedFacet. intros -> ->. auto.
Qed.

(** One round of the facet loop. *)
Lemma insertFacet_step i you f s' :
  yous !! i = Some you → f ≤ dim →
  copyInv dim this s0 mine yous i f s' →
  ∃ s'', insertFacet this (length mine) ((nextPtr s0) + i) you f s' = Ok tt s'' ∧
         copyInv dim this s0 mine yous i (S f) s''.
Proof.
  intros Hi Hf (Hn & Ht & Hv & Hold & Hnone & Hnew).
  destruct (Hsrc i you Hi) as (y & Hy & Hya & Hyg & Hyadj).
  assert (Hyou : you < nextPtr s0) by (apply Hlive0; eauto).
  destruct (Hnew i you y Hi Hy) as (x' & Hx' & Hcopied).
  rewrite decide_False in Hcopied by lia.
  rewrite decide_True in Hcopied by done.
  destruct Hcopied as (Hidx & Htri & Hla & Hlg & Hfl & Hsl & Hdesc & Hdone & Htodo).
  destruct (lookup_lt_is_Some_2 (adj_ y) f) as [a Ha]; [lia|].
  destruct (lookup_lt_is_Some_2 (gluing_ y) f) as [g Hg]; [lia|].
  assert (Hinv : ∀ upd s'',
    simplices s'' = <[(nextPtr s0) + i := upd x']> (simplices s') →
    nextPtr s'' = nextPtr s' → nextTid s'' = nextTid s' →
    triangulations s'' = triangulations s' →
    copiedUpTo dim (nextPtr s0) this s0 (length mine + i) (S f) y (upd x') →
    copyInv dim this s0 mine yous i (S f) s'').
  { intros upd s'' Hs Hn' Ht' Hv' Hupd. unfold copyInv.
    rewrite Hn', Ht', Hv', Hs. repeat split; try done.
    - intros p Hp. rewrite lookup_insert_ne by lia. by apply Hold.
    - intros p Hp. rewrite lookup_insert_ne; [by apply Hnone|].
      apply lookup_lt_Some in Hi. lia.
    - intros j you' y' Hj Hy'. destruct (decide (j = i)) as [->|Hne].
      + rewrite lookup_insert_eq. eexists; split; [done|].
        assert (you' = you) as -> by congruence.
        assert (y' = y) as -> by congruence.
        by rewrite decide_False by lia.
      + rewrite lookup_insert_ne by lia.
        destruct (Hnew j you' y' Hj Hy') as (x2 & Hx2 & Hc2).
        exists x2. split; [done|].
        repeat case_decide; try done; lia. }
  unfold insertFacet.
  destruct a as [q|].
  - destruct (Hyadj f q Ha) as (yq & Hyq & Hlt).
    assert (Hq : q < nextPtr s0) by (apply Hlive0; eauto).
    exists (setSlot ((nextPtr s0) + i) f ((nextPtr s0) + index_ yq) g s'). split.
    { eapply run_bind; [apply deref_Ok; by rewrite Hold|]. cbv beta.
      eapply run_bind; [by apply liftOpt_Ok|]. cbv beta.
      eapply run_bind; [apply deref_Ok; by rewrite Hold|]. cbv beta.
      eapply run_bind; [apply getVec_Ok; by rewrite Hv, lookup_insert_eq|].
      cbv beta.
      eapply run_bind.
      { apply liftOpt_Ok. rewrite lookup_app_r by lia.
        replace (length mine + index_ yq - length mine) with (index_ yq) by lia.
        by apply lookup_seq_lt. }
      cbv beta.
      eapply run_bind; [by apply liftOpt_Ok|]. cbv beta.
      apply write_half. eauto. }
    apply (Hinv (λ x, withGluing f g (withAdj f (Some ((nextPtr s0) + index_ yq)) x)));
      try done.
    + unfold setSlot; simpl. apply map_eq. intros p.
      rewrite lookup_alter. destruct (decide ((nextPtr s0) + i = p)) as [<-|Hne].
      * by rewrite lookup_insert_eq, Hx'.
      * by rewrite lookup_insert_ne.
    + unfold copiedUpTo; simpl. rewrite !length_insert.
      repeat split; try done.
      * intros f' Hf'. destruct (decide (f' = f)) as [->|Hne].
        -- unfold copiedFacet. rewrite Ha. exists yq. simpl.
           rewrite !list_lookup_insert_eq by lia. done.
        -- apply (copiedFacet_frame y x'); simpl;
             [by rewrite list_lookup_insert_ne by done ..|].
           apply Hdone. lia.
      * rewrite list_lookup_insert_ne by lia. apply Htodo; lia.
      * rewrite list_lookup_insert_ne by lia. apply Htodo; lia.
  - exists (clearSlot ((nextPtr s0) + i) f s'). split.
    { eapply run_bind; [apply deref_Ok; by rewrite Hold|]. cbv beta.
      eapply run_bind; [by apply liftOpt_Ok|]. cbv beta.
      apply modify_clear. eauto. }
    apply (Hinv (withAdj f None)); try done.
    + unfold clearSlot; simpl. apply map_eq. intros p.
      rewrite lookup_alter. destruct (decide ((nextPtr s0) + i = p)) as [<-|Hne].
      * by rewrite lookup_insert_eq, Hx'.
      * by rewrite lookup_insert_ne.
    + unfold copiedUpTo; simpl. rewrite !length_insert.
      repeat split; try done.
      * intros f' Hf'. destruct (decide (f' = f)) as [->|Hne].
        -- unfold copiedFacet. rewrite Ha. simpl.
           rewrite !list_lookup_insert_eq by lia. split; [done|].
           apply Htodo; lia.
        -- apply (copiedFacet_frame y x'); simpl;
             [by rewrite list_lookup_insert_ne by done|done|].
           apply Hdone. lia.
      * rewrite list_lookup_insert_ne by lia. apply Htodo; lia.
      * apply Htodo; lia.
Qed.

(** The facet loop for the [i]-th new simplex. *)
Lemma insertFacet_loop i you s' :
  yous !! i = Some you →
  copyInv dim this s0 mine yous i 0 s' →
  ∃ s'', forM (seq 0 (S dim)) (insertFacet this (length mine) ((nextPtr s0) + i) you) s'
         = Ok tt s'' ∧
         copyInv dim this s0 mine yous (S i) 0 s''.
Proof.
  intros Hi Hinv.
  destruct (forM_inv (seq 0 (S dim))
    (insertFacet this (length mine) ((nextPtr s0) + i) you)
    (λ f s', copyInv dim this s0 mine yous i f s') s' Hinv)
    as (s'' & Hrun & Hfin).
  - intros f x s1 Hx Hs1. apply lookup_seq in Hx as [-> Hlt].
    apply insertFacet_step; auto. lia.
  - exists s''. split; [done|]. rewrite length_seq in Hfin.
    destruct Hfin as (H1 & H2 & H3 & H4 & H5 & H6).
    repeat split; try done.
    intros j you' y' Hj Hy'. destruct (H6 j you' y' Hj Hy') as (x' & Hx' & Hc).
    exists x'. split; [done|].
    destruct (decide (j < i)).
    + by rewrite decide_True by lia.
    + destruct (decide (j = i)) as [->|].
      * by rewrite decide_True by lia.
      * rewrite decide_False by lia. by case_decide.
Qed.

End CopyLoops.

(** ** The copy constructor *)

Section CopyTheorems.

Variable dim : nat.

Lemma triOk_intro s t v :
  triangulations s !! t = Some v →
  (∀ i p, v !! i = Some p →
     ∃ x, simplices s !! p = Some x ∧ index_ x = i ∧ tri_ x = t ∧
          length (adj_ x) = S dim ∧ length (gluing_ x) = S dim ∧
          length (facetLocks_ x) = S dim ∧
          (∀ f q, adj_ x !! f = Some (Some q) →
             ∃ y, simplices s !! q = Some y ∧ v !! index_ y = Some q) ∧
          (∀ f g, gluing_ x !! f = Some g → Perm.valid (S dim) g = true)) →
  triOk dim s t = true.
Proof.
  intros Hv H. unfold triOk. rewrite Hv. apply forallb_forall.
  intros [i p] Hin. apply list_elem_of_In, list_elem_of_lookup in Hin as [k Hk].
  apply zip_seq_lookup in Hk as [Hp Hi]. simpl in Hp, Hi. subst i.
  destruct (H _ _ Hp) as (x & Hx & Hidx & Htri & Hla & Hlg & Hlf & Hadj & Hperm).
  unfold simplexOk; simpl. rewrite Hx.
  apply andb_true_iff; split; [apply andb_true_iff; split|].
  - apply bool_decide_eq_true. repeat split; auto.
  - apply forallb_forall. intros [q|] Hq; [|done]. simpl.
    apply list_elem_of_In, list_elem_of_lookup in Hq as [f Hf].
    destruct (Hadj f q Hf) as (y & Hy & Hvy). rewrite Hy.
    by apply bool_decide_eq_true.
  - apply forallb_forall. intros g Hg.
    apply list_elem_of_In, list_elem_of_lookup in Hg as [f Hf]. eauto.
Qed.

(** A triangulation stays well formed when the store only grows around
    it. *)
Lemma triOk_extend s s' t :
  triOk dim s t = true →
  triangulations s' !! t = triangulations s !! t →
  (∀ p x, simplices s !! p = Some x → simplices s' !! p = Some x) →
  triOk dim s' t = true.
Proof.
  intros Hok Hvec Hsub.
  apply triOk_elim in Hok as (v & Hv & Hok).
  apply (triOk_intro s' t v); [congruence|].
  intros i p Hp.
  destruct (Hok i p Hp) as (x & Hx & Hidx & Htri & Hla & Hlg & Hlf & Hadj & Hperm).
  exists x. repeat split; auto.
  intros f q Hf. destruct (Hadj f q Hf) as (y & Hy & Hvy). eauto.
Qed.

Lemma triOk_sourceOk s t v :
  triOk dim s t = true → triangulations s !! t = Some v → sourceOk dim s v.
Proof.
  intros Hok Hv. apply triOk_elim in Hok as (v' & Hv' & Hok).
  assert (v' = v) as -> by congruence.
  intros i you Hi.
  destruct (Hok i you Hi) as (y & Hy & _ & _ & Hla & Hlg & _ & Hadj & _).
  exists y. repeat split; auto.
  intros f q Hf. destruct (Hadj f q Hf) as (yq & Hyq & Hvq).
  exists yq. split; [done|]. eapply lookup_lt_Some; eauto.
Qed.


(** The gluing loop of the copy constructor. *)
Lemma copy_outer this s0 yous s1 :
  (∀ p, is_Some (simplices s0 !! p) → p < nextPtr s0) →
  triangulations s0 !! this = Some [] →
  sourceOk dim s0 yous →
  copyInv dim this s0 [] yous 0 0 s1 →
  ∃ s2, forM (zip (seq (nextPtr s0) (length yous)) yous)
             (λ '(me, you), forM (seq 0 (S dim)) (copyFacet this me you)) s1
        = Ok tt s2 ∧
        copyInv dim this s0 [] yous (length yous) 0 s2.
Proof.
  intros Hlive Hthis Hsrc Hinv.
  destruct (forM_inv (zip (seq (nextPtr s0) (length yous)) yous)
    (λ '(me, you), forM (seq 0 (S dim)) (copyFacet this me you))
    (λ i s', copyInv dim this s0 [] yous i 0 s') s1 Hinv)
    as (s2 & Hrun & Hfin).
  - intros i [me you] s' Hi Hs'.
    apply lookup_zip_with_Some in Hi as (me' & you' & [= <- <-] & Hme & Hyou).
    apply lookup_seq in Hme as [-> _].
    apply (insertFacet_loop dim this s0 [] yous Hlive Hsrc i you s' Hyou Hs').
  - exists s2. split; [done|].
    rewrite length_zip_with, length_seq in Hfin.
    by replace (length yous `min` length yous) with (length yous) in Hfin by lia.
Qed.

(** The gluing loop of insertTriangulation. *)
Lemma insert_outer this s0 mine yous s1 :
  (∀ p, is_Some (simplices s0 !! p) → p < nextPtr s0) →
  triangulations s0 !! this = Some mine →
  sourceOk dim s0 yous →
  copyInv dim this s0 mine yous 0 0 s1 →
  ∃ s2, forM (zip (seq 0 (length yous)) yous)
             (λ '(i, you),
                v ← getVec this;
                me ← liftOpt (v !! (length mine + i));
                forM (seq 0 (S dim)) (insertFacet this (length mine) me you)) s1
        = Ok tt s2 ∧
        copyInv dim this s0 mine yous (length yous) 0 s2.
Proof.
  intros Hlive Hthis Hsrc Hinv.
  destruct (forM_inv (zip (seq 0 (length yous)) yous)
    (λ '(i, you),
       v ← getVec this;
       me ← liftOpt (v !! (length mine + i));
       forM (seq 0 (S dim)) (insertFacet this (length mine) me you))
    (λ i s', copyInv dim this s0 mine yous i 0 s') s1 Hinv)
    as (s2 & Hrun & Hfin).
  - intros i [i' you] s' Hi Hs'.
    apply lookup_zip_with_Some in Hi as (me' & you' & [= <- <-] & Hme & Hyou).
    apply lookup_seq in Hme as [-> Hlt]. simpl in *.
    destruct (insertFacet_loop dim this s0 mine yous Hlive Hsrc i you s' Hyou Hs')
      as (s'' & Hrun & Hs'').
    exists s''. split; [|done].
    destruct Hs' as (_ & _ & Hv & _).
    eapply run_bind; [apply getVec_Ok; by rewrite Hv, lookup_insert_eq|].
    cbv beta.
    eapply run_bind; [|exact Hrun].
    apply liftOpt_Ok. rewrite lookup_app_r by lia.
    replace (length mine + i - length mine) with i by lia.
    by apply lookup_seq_lt.
  - exists s2. split; [done|].
    rewrite length_zip_with, length_seq in Hfin.
    by replace (length yous `min` length yous) with (length yous) in Hfin by lia.
Qed.


(** After the loops, the facets of a new simplex and of its source show the
    same gluing: the same index and the same permutation. *)
Lemma copied_gluingView this s0 mine yous s2 j you f :
  (∀ p, is_Some (simplices s0 !! p) → p < nextPtr s0) →
  sourceOk dim s0 yous →
  (∀ q yq, simplices s0 !! q = Some yq → index_ yq < length yous →
     ∃ q', yous !! index_ yq = Some q' ∧ is_Some (simplices s0 !! q')) →
  mine = [] →
  copyInv dim this s0 mine yous (length yous) 0 s2 →
  yous !! j = Some you → f ≤ dim →
  gluingView s2 you f = gluingView s2 (nextPtr s0 + j) f.
Proof.
  intros Hlive Hsrc Hidx -> (Hn & Ht & Hv & Hold & Hnone & Hnew) Hj Hf.
  destruct (Hsrc j you Hj) as (y & Hy & Hya & Hyg & Hyadj).
  assert (Hyou : you < nextPtr s0) by (apply Hlive; eauto).
  destruct (Hnew j you y Hj Hy) as (x' & Hx' & Hc).
  rewrite decide_True in Hc by (eapply lookup_lt_Some; eauto).
  destruct Hc as (_ & _ & Hla & Hlg & _ & _ & _ & Hdone & _).
  specialize (Hdone f ltac:(lia)). unfold copiedFacet in Hdone.
  unfold gluingView. rewrite Hold, Hy, Hx' by done. simpl.
  destruct (adj_ y !! f) as [[q|]|] eqn:Ha; [| |done].
  - destruct Hdone as (yq & Hyq & Hxa & Hxg). rewrite Hxa, Hxg. simpl.
    assert (Hq : q < nextPtr s0) by (apply Hlive; eauto).
    rewrite Hold, Hyq by done. simpl.
    destruct (Hyadj f q Ha) as (yq' & Hyq' & Hlt).
    assert (yq' = yq) as -> by congruence.
    destruct (Hidx q yq Hyq Hlt) as (q' & Hq' & [yq2 Hyq2]).
    destruct (Hnew (index_ yq) q' yq2 Hq' Hyq2) as (x2 & Hx2 & Hc2).
    destruct Hc2 as (Hi2 & _). rewrite Hx2. simpl. rewrite Hi2. done.
  - destruct Hdone as [Hxa _]. rewrite Hxa. done.
Qed.

Lemma copyConstruct_correct s T v :
  storeOk s = true → triOk dim s T = true →
  triangulations s !! T = Some v →
  ∃ U s' v',
    copyConstruct dim T s = Ok U s' ∧
    isIdenticalTo dim s' T U = Some true ∧
    triangulations s' !! U = Some v' ∧ length v' = length v ∧
    triOk dim s' U = true ∧
    (∀ p, p ∈ v' → simplices s !! p = None) ∧
    triangulations s' !! T = Some v ∧
    (∀ p x, simplices s !! p = Some x → simplices s' !! p = Some x).
Proof.
  intros Hstore HT Hv.
  destruct (storeOk_elim _ Hstore) as [Hlive Htid].
  pose proof (triOk_sourceOk _ _ _ HT Hv) as Hsrc.
  set (U := nextTid s).
  set (s0 := mkState (simplices s) (<[U := []]> (triangulations s))
                     (nextPtr s) (S U)).
  assert (HUT : U ≠ T).
  { intros HUT. assert (T < nextTid s) by (apply Htid; eauto).
    unfold U in HUT. lia. }
  assert (Hsrc0 : sourceOk dim s0 v) by exact Hsrc.
  assert (Hlive0 : ∀ p, is_Some (simplices s0 !! p) → p < nextPtr s0)
    by exact Hlive.
  assert (HU0 : triangulations s0 !! U = Some [])
    by (subst s0; simpl; apply lookup_insert_eq).
  destruct (push_loop dim U s0 [] v Hlive0 HU0 Hsrc0) as (s1 & Hrun1 & Hinv1).
  destruct (copy_outer U s0 v s1 Hlive0 HU0 Hsrc0 Hinv1) as (s2 & Hrun2 & Hinv2).
  pose proof Hinv1 as (_ & _ & Hv1 & _).
  pose proof Hinv2 as (Hn2 & Ht2 & Hv2 & Hold2 & Hnone2 & Hnew2).
  exists U, s2, (seq (nextPtr s) (length v)).
  assert (HvU : triangulations s2 !! U = Some (seq (nextPtr s) (length v))).
  { rewrite Hv2. simpl. apply lookup_insert_eq. }
  assert (HvT : triangulations s2 !! T = Some v).
  { rewrite Hv2. subst s0; simpl. by rewrite !lookup_insert_ne by done. }
  assert (Hsub : ∀ p x, simplices s !! p = Some x → simplices s2 !! p = Some x).
  { intros p x Hp. rewrite Hold2; [done|]. apply Hlive. eauto. }
  assert (HT2 : triOk dim s2 T = true).
  { apply (triOk_extend s s2 T HT); [congruence|done]. }
  assert (Hmember : ∀ q yq, simplices s0 !! q = Some yq → index_ yq < length v →
     ∃ q', v !! index_ yq = Some q' ∧ is_Some (simplices s0 !! q')).
  { intros q yq Hq Hlt. destruct (lookup_lt_is_Some_2 v (index_ yq) Hlt) as [q' Hq'].
    exists q'. split; [done|]. destruct (Hsrc0 _ _ Hq') as (y' & Hy' & _). eauto. }
  assert (HU2 : triOk dim s2 U = true).
  { apply (triOk_intro s2 U _ HvU). intros i p Hp.
    apply lookup_seq in Hp as [-> Hlt].
    destruct (lookup_lt_is_Some_2 v i Hlt) as [you Hyou].
    destruct (Hsrc0 i you Hyou) as (y & Hy & Hya & Hyg & Hyadj).
    destruct (Hnew2 i you y Hyou Hy) as (x' & Hx' & Hc).
    rewrite decide_True in Hc by done.
    destruct Hc as (Hidx & Htri & Hla & Hlg & Hfl & _ & _ & Hdone & _).
    exists x'. split; [done|]. split; [done|]. split; [done|].
    split; [done|]. split; [done|].
    split; [by rewrite Hfl, length_replicate|]. split.
    - intros f q Hf.
      assert (Hfl' : f < S dim) by (rewrite <- Hla; eapply lookup_lt_Some; eauto).
      specialize (Hdone f Hfl'). unfold copiedFacet in Hdone.
      destruct (adj_ y !! f) as [[q0|]|] eqn:Ha; [| |done].
      + destruct Hdone as (yq & Hyq & Hxa & _).
        assert (q = nextPtr s0 + index_ yq) as -> by congruence.
        destruct (Hyadj f q0 Ha) as (yq' & Hyq' & Hlt').
        assert (yq' = yq) as -> by congruence.
        destruct (Hmember q0 yq Hyq Hlt') as (q' & Hq' & [yq2 Hyq2]).
        destruct (Hnew2 (index_ yq) q' yq2 Hq' Hyq2) as (x2 & Hx2 & Hi2 & _).
        exists x2. split; [done|]. rewrite Hi2. simpl.
        by apply lookup_seq_lt.
      + destruct Hdone as [Hxa _]. congruence.
    - intros f g Hf.
      assert (Hfl' : f < S dim) by (rewrite <- Hlg; eapply lookup_lt_Some; eauto).
      specialize (Hdone f Hfl'). unfold copiedFacet in Hdone.
      destruct (adj_ y !! f) as [[q0|]|] eqn:Ha; [| |done].
      + destruct Hdone as (yq & Hyq & _ & Hxg).
        apply triOk_elim in HT as (v0 & Hv0 & HT).
        assert (v0 = v) as -> by congruence.
        destruct (HT i you Hyou) as (y0 & Hy0 & _ & _ & _ & _ & _ & _ & Hperm).
        assert (y0 = y) as -> by (unfold s0 in Hy; simpl in Hy; congruence).
        apply (Hperm f). congruence.
      + destruct Hdone as [_ Hxg].
        assert (g = Perm.id (S dim)) as -> by congruence.
        apply Perm_id_valid. }
  split.
  { unfold copyConstruct.
    eapply run_bind; [reflexivity|]. cbv beta. fold U. fold s0.
    eapply run_bind.
    { apply getVec_Ok. subst s0; simpl. by rewrite lookup_insert_ne. }
    cbv beta.
    eapply run_bind; [exact Hrun1|]. cbv beta.
    eapply run_bind; [apply getVec_Ok; rewrite Hv1; apply lookup_insert_eq|].
    cbv beta. eapply run_bind; [exact Hrun2|]. reflexivity. }
  split.
  { destruct (isIdenticalTo_characterised dim s2 T U HT2 HU2) as [(b & Hb & Hiff) _].
    rewrite Hb. f_equal. apply Hiff.
    exists v, (seq (nextPtr s) (length v)).
    split; [done|]. split; [done|]. split; [by rewrite length_seq|].
    intros i me you f Hme Hyou Hf. apply lookup_seq in Hyou as [-> _].
    by apply (copied_gluingView U s0 [] v s2 i me f). }
  split; [done|]. split; [apply length_seq|]. split; [done|].
  split; [|done].
  intros p Hp. apply elem_of_seq in Hp.
  destruct (simplices s !! p) eqn:E; [|done].
  assert (p < nextPtr s) by (apply Hlive; eauto). lia.
Qed.

(** C2: a copy made by the copy constructor is identical to its source:
    [T.isIdenticalTo(U)] is true, the copy has as many simplices as the
    source, its simplices are new objects, every gluing reference of the
    copy points to a simplex of the copy, and the source is untouched. *)
Theorem copyConstruct_identical s T v :
  storeOk s = true → triOk dim s T = true →
  triangulations s !! T = Some v →
  ∃ U s' v',
    copyConstruct dim T s = Ok U s' ∧
    isIdenticalTo dim s' T U = Some true ∧
    triangulations s' !! U = Some v' ∧ length v' = length v ∧
    triOk dim s' U = true ∧
    (∀ p, p ∈ v' → simplices s !! p = None) ∧
    triangulations s' !! T = Some v ∧
    (∀ p x, simplices s !! p = Some x → simplices s' !! p = Some x).
Proof. apply copyConstruct_correct. Qed.

End CopyTheorems.

(** ** [idealToFinite]: the guards *)

Section IdealToFinite.

Variable sk : Skeleton.

Lemma hasLocks_fold s v acc :
  (∀ p, p ∈ v → is_Some (simplices s !! p)) →
  foldM v acc (λ acc p,
    x ← deref p;
    mret (acc || simplexLock_ x || existsb (λ b, b) (facetLocks_ x))) s =
  Ok (acc || anyLock s v) s.
Proof.
  revert acc. induction v as [|p v IH]; intros acc Hlive; simpl.
  - by rewrite orb_false_r.
  - destruct (Hlive p) as [x Hx]; [left|].
    eapply run_bind.
    { eapply run_bind; [by apply deref_Ok|]. apply run_ret. }
    cbv beta. rewrite IH by (intros q Hq; apply Hlive; by right).
    rewrite Hx. by rewrite <- !orb_assoc.
Qed.

Lemma hasLocks_Ok s T v :
  triangulations s !! T = Some v →
  (∀ p, p ∈ v → is_Some (simplices s !! p)) →
  hasLocks T s = Ok (anyLock s v) s.
Proof.
  intros Hv Hlive. unfold hasLocks.
  eapply run_bind; [by apply getVec_Ok|]. cbv beta.
  by rewrite hasLocks_fold.
Qed.

(** Nothing to do: the triangulation is valid and not ideal, or empty. *)
Lemma idealToFinite_noop s T v :
  triangulations s !! T = Some v →
  (isValid sk s T = true ∧ isIdeal sk s T = false) ∨ v = [] →
  idealToFinite sk T s = Ok false s.
Proof.
  intros Hv Hcase. unfold idealToFinite.
  eapply run_bind; [apply run_query|]. cbv beta.
  eapply run_bind; [apply run_query|]. cbv beta.
  destruct (isValid sk s T && negb (isIdeal sk s T)) eqn:Hguard; [done|].
  eapply run_bind; [by apply getVec_Ok|]. cbv beta.
  destruct Hcase as [[Hval Hid]|Hnil]; [by rewrite Hval, Hid in Hguard|].
  by rewrite Hnil.
Qed.

(** C3 (as amended): on a triangulation that is empty, or for which
    [isValid() && !isIdeal()] holds, [idealToFinite()] returns false and
    leaves the store as it was: the size is the same, and the triangulation
    is still identical to a copy [U] taken before the call. *)
Theorem idealToFinite_unchanged s0 s T U v :
  storeOk s0 = true → triOk 3 s0 T = true →
  copyConstruct 3 T s0 = Ok U s →
  triangulations s !! T = Some v →
  (v = [] ∨ (isValid sk s T = true ∧ isIdeal sk s T = false)) →
  ∃ s', idealToFinite sk T s = Ok false s' ∧
        s' = s ∧
        size s' T = size s T ∧
        isIdenticalTo 3 s' T U = Some true.
Proof.
  intros Hstore HT Hcopy Hv Hcase.
  destruct (triOk_elim _ _ _ HT) as (v0 & Hv0 & _).
  destruct (copyConstruct_correct 3 s0 T v0 Hstore HT Hv0)
    as (U' & s' & v' & Hrun & Hid & _).
  rewrite Hcopy in Hrun. injection Hrun as <- <-.
  exists s. split; [|done].
  apply (idealToFinite_noop s T v Hv). tauto.
Qed.

(** C4 (as amended): when the triangulation is not empty, is ideal or
    invalid, and carries a simplex or facet lock, [idealToFinite()] throws
    LockViolation and the store is as it was before the call. *)
Theorem idealToFinite_locked s T v :
  triOk 3 s T = true →
  triangulations s !! T = Some v → v ≠ [] →
  isValid sk s T && negb (isIdeal sk s T) = false →
  anyLock s v = true →
  idealToFinite sk T s = Throw LockViolation s.
Proof.
  intros HT Hv Hne Hguard Hlock. unfold idealToFinite.
  eapply run_bind; [apply run_query|]. cbv beta.
  eapply run_bind; [apply run_query|]. cbv beta.
  rewrite Hguard.
  eapply run_bind; [by apply getVec_Ok|]. cbv beta.
  rewrite bool_decide_eq_false_2 by (by destruct v).
  eapply run_bind.
  { apply (hasLocks_Ok s T v Hv). intros p Hp. eapply triOk_live; eauto. }
  cbv beta. by rewrite Hlock.
Qed.

End IdealToFinite.
(** ** [idealToFinite]: the staging triangulation *)

Section Preserves.

Variable J : State → Prop.

Lemma preserves_ret : preserves J (mret tt).
Proof. intros s' H. by exists s'. Qed.

Lemma preserves_seq (a b : M unit) :
  preserves J a → preserves J b → preserves J (a;; b).
Proof.
  intros Ha Hb s' H. destruct (Ha s' H) as (s1 & Hr1 & H1).
  destruct (Hb s1 H1) as (s2 & Hr2 & H2). exists s2. split; [|done].
  eapply run_bind; [exact Hr1|exact Hr2].
Qed.

Lemma preserves_read {A} (m : M A) (k : A → M unit) a :
  (∀ s', J s' → m s' = Ok a s') → preserves J (k a) →
  preserves J (m ≫= k).
Proof.
  intros Hm Hk s' H. destruct (Hk s' H) as (s1 & Hr1 & H1).
  exists s1. split; [|done]. eapply run_bind; [by apply Hm|exact Hr1].
Qed.

Lemma preserves_forM {A} (l : list A) (body : A → M unit) :
  (∀ x, x ∈ l → preserves J (body x)) → preserves J (forM l body).
Proof.
  intros Hbody s' H.
  destruct (forM_inv l body (λ _, J) s' H) as (s'' & Hrun & HJ); [|eauto].
  intros i x s1 Hx H1. apply (Hbody x); [|done].
  apply list_elem_of_lookup. eauto.
Qed.

Lemma preserves_when (c : bool) (m : M unit) :
  (c = true → preserves J m) → preserves J (when c m).
Proof. destruct c; simpl; [auto|]. intros _. apply preserves_ret. Qed.

Lemma preserves_nth1 (a : list nat) j r (k : nat → M unit) :
  a !! j = Some r → preserves J (k r) → preserves J (nth1 a j ≫= k).
Proof.
  intros Ha. apply preserves_read. intros s' _. by apply liftOpt_Ok.
Qed.

Lemma preserves_nth2 (a : list (list nat)) i j r (k : nat → M unit) :
  get2 a i j = Some r → preserves J (k r) → preserves J (nth2 a i j ≫= k).
Proof.
  intros Ha. apply preserves_read. intros s' _. by apply liftOpt_Ok.
Qed.

End Preserves.

Lemma tip_lookup j : j < 4 → ∃ r, tip pieces !! j = Some r ∧ r < 32.
Proof.
  intros Hj. destruct j as [|[|[|[|]]]]; try lia;
    vm_compute; eexists; (split; [reflexivity|lia]).
Qed.

Lemma interior_lookup j : j < 4 → ∃ r, interior pieces !! j = Some r ∧ r < 32.
Proof.
  intros Hj. destruct j as [|[|[|[|]]]]; try lia;
    vm_compute; eexists; (split; [reflexivity|lia]).
Qed.

Lemma edge_lookup j k :
  j < 4 → k < 4 → ∃ r, get2 (edge pieces) j k = Some r ∧ r < 32.
Proof.
  intros Hj Hk. destruct j as [|[|[|[|]]]]; try lia;
    destruct k as [|[|[|[|]]]]; try lia;
    vm_compute; eexists; (split; [reflexivity|lia]).
Qed.

Lemma vertex_lookup j k :
  j < 4 → k < 4 → ∃ r, get2 (vertex pieces) j k = Some r ∧ r < 32.
Proof.
  intros Hj Hk. destruct j as [|[|[|[|]]]]; try lia;
    destruct k as [|[|[|[|]]]]; try lia;
    vm_compute; eexists; (split; [reflexivity|lia]).
Qed.

Lemma nDiv_pieces : nDiv pieces = 32.
Proof. reflexivity. Qed.
Lemma roles_partition :
  tipRoles ++ interiorRoles ++ edgeRoles ++ vertexRoles ≡ₚ seq 0 32.
Proof. apply (bool_decide_unpack _). by vm_compute. Qed.

Lemma roles_counts :
  length tipRoles = 4 ∧ length interiorRoles = 4 ∧
  length edgeRoles = 12 ∧ length vertexRoles = 12.
Proof. by vm_compute. Qed.
Section Staging.

Variables (s : State) (T : tid) (v : list nat).
Hypothesis Hstore : storeOk s = true.
Hypothesis HT : triOk 3 s T = true.
Hypothesis Hv : triangulations s !! T = Some v.

Local Abbreviation K := (32 * length v).
Local Abbreviation J := (stagingInv s (nextTid s) K).
Local Abbreviation newTet := (seq (nextPtr s) K).

Lemma glued_simplices_ne me f you g s' p :
  p ≠ me → p ≠ you →
  simplices (glued me f you g s') !! p = simplices s' !! p.
Proof.
  intros H1 H2. unfold glued, setSlot; simpl.
  by rewrite !lookup_alter_ne by done.
Qed.

Lemma glued_live me f you g s' p :
  is_Some (simplices (glued me f you g s') !! p) ↔ is_Some (simplices s' !! p).
Proof. unfold glued. by rewrite !setSlot_live. Qed.

Lemma gluePieces_preserves r1 i1 f r2 i2 g :
  r1 < 32 → r2 < 32 → i1 < length v → i2 < length v →
  preserves J (gluePieces newTet r1 i1 f r2 i2 g).
Proof.
  intros Hr1 Hr2 Hi1 Hi2 s' (Hn & Ht & Hvec & Hold & Hlive & Hnone).
  unfold gluePieces. rewrite nDiv_pieces.
  set (a := nextPtr s + (r1 + i1 * 32)).
  set (b := nextPtr s + (r2 + i2 * 32)).
  exists (glued a f b g s'). split.
  - eapply run_bind; [apply liftOpt_Ok, lookup_seq_lt; lia|]. cbv beta.
    eapply run_bind; [apply liftOpt_Ok, lookup_seq_lt; lia|]. cbv beta.
    apply joinRaw_eq; apply Hlive; subst a b; lia.
  - repeat split; try done.
    + intros p Hp. rewrite glued_simplices_ne by (subst a b; lia). by apply Hold.
    + intros p Hp. apply glued_live. by apply Hlive.
    + intros p Hp. rewrite glued_simplices_ne by (subst a b; lia). by apply Hnone.
Qed.

Lemma glueInside_preserves i :
  i < length v → preserves J (glueInside newTet i).
Proof.
  intros Hi. unfold glueInside.
  apply preserves_seq; [|apply preserves_seq].
  - apply preserves_forM. intros j [_ Hj]%elem_of_seq.
    destruct (tip_lookup j) as (tj & Htj & ?); [lia|].
    destruct (interior_lookup j) as (ij & Hij & ?); [lia|].
    apply (preserves_nth1 _ _ _ _ _ Htj), (preserves_nth1 _ _ _ _ _ Hij).
    by apply gluePieces_preserves.
  - apply preserves_forM. intros j [_ Hj]%elem_of_seq.
    apply preserves_forM. intros k [_ Hk]%elem_of_seq.
    apply preserves_when. intros _.
    destruct (interior_lookup j) as (ij & Hij & ?); [lia|].
    destruct (vertex_lookup k j) as (vkj & Hvkj & ?); [lia..|].
    apply (preserves_nth1 _ _ _ _ _ Hij), (preserves_nth2 _ _ _ _ _ _ Hvkj).
    by apply gluePieces_preserves.
  - apply preserves_forM. intros j [_ Hj]%elem_of_seq.
    apply preserves_forM. intros k [_ Hk]%elem_of_seq.
    apply preserves_when. intros _.
    destruct (edge_lookup j k) as (ejk & Hejk & ?); [lia..|].
    destruct (edge_lookup k j) as (ekj & Hekj & ?); [lia..|].
    apply preserves_seq.
    + apply preserves_when. intros _.
      apply (preserves_nth2 _ _ _ _ _ _ Hejk), (preserves_nth2 _ _ _ _ _ _ Hekj).
      by apply gluePieces_preserves.
    + apply preserves_forM. intros l [_ Hl]%elem_of_seq.
      apply preserves_when. intros _.
      destruct (vertex_lookup j l) as (vjl & Hvjl & ?); [lia..|].
      apply (preserves_nth2 _ _ _ _ _ _ Hejk), (preserves_nth2 _ _ _ _ _ _ Hvjl).
      by apply gluePieces_preserves.
Qed.

Lemma glueAcross_preserves i j :
  i < length v → j < 4 → preserves J (glueAcross T newTet i j).
Proof.
  intros Hi Hj.
  destruct (storeOk_elim _ Hstore) as [Hlt Htid].
  destruct (triOk_elim _ _ _ HT) as (v' & Hv' & Hok).
  assert (v' = v) as -> by congruence.
  destruct (lookup_lt_is_Some_2 v i Hi) as [ot Hot].
  destruct (Hok i ot Hot) as (x & Hx & _ & _ & Hla & Hlg & _ & Hadj & Hperm).
  assert (Hotlt : ot < nextPtr s) by (apply Hlt; eauto).
  destruct (lookup_lt_is_Some_2 (adj_ x) j) as [a Ha]; [lia|].
  destruct (lookup_lt_is_Some_2 (gluing_ x) j) as [p Hp]; [lia|].
  unfold glueAcross.
  eapply (preserves_read J _ _ v).
  { intros s' (_ & _ & Hvec & _). apply getVec_Ok.
    rewrite Hvec. rewrite lookup_insert_ne; [done|].
    intros <-. assert (nextTid s < nextTid s) by (apply Htid; eauto). lia. }
  eapply (preserves_read J _ _ ot); [intros; by apply liftOpt_Ok|].
  eapply (preserves_read J _ _ a).
  { intros s' (_ & _ & _ & Hold & _). unfold adjacentSimplex.
    eapply run_bind; [apply deref_Ok; by rewrite Hold|]. by apply liftOpt_Ok. }
  destruct a as [a|]; [|apply preserves_ret].
  destruct (Hadj j a Ha) as (ya & Hya & Hidx).
  assert (Halt : a < nextPtr s) by (apply Hlt; eauto).
  assert (Hopp : index_ ya < length v) by (eapply lookup_lt_Some; eauto).
  eapply (preserves_read J _ _ ya).
  { intros s' (_ & _ & _ & Hold & _). apply deref_Ok. by rewrite Hold. }
  eapply (preserves_read J _ _ p).
  { intros s' (_ & _ & _ & Hold & _). unfold adjacentGluing.
    eapply run_bind; [apply deref_Ok; by rewrite Hold|]. by apply liftOpt_Ok. }
  destruct (_ || _); [apply preserves_ret|].
  pose proof (Hperm j p Hp) as Hvalid.
  assert (Hpl : ∀ k, k < 4 → Perm.apply p k < 4)
    by (intros k Hk; by apply (Perm_apply_lt 4)).
  apply preserves_seq; [|apply preserves_seq].
  - apply preserves_forM. intros k [_ Hk]%elem_of_seq.
    apply preserves_when. intros _.
    destruct (tip_lookup k) as (tk & Htk & ?); [lia|].
    destruct (tip_lookup (Perm.apply p k)) as (tpk & Htpk & ?); [apply Hpl; lia|].
    apply (preserves_nth1 _ _ _ _ _ Htk), (preserves_nth1 _ _ _ _ _ Htpk).
    by apply gluePieces_preserves.
  - apply preserves_forM. intros k [_ Hk]%elem_of_seq.
    apply preserves_when. intros _.
    destruct (edge_lookup j k) as (ejk & Hejk & ?); [lia..|].
    destruct (edge_lookup (Perm.apply p j) (Perm.apply p k))
      as (epp & Hepp & ?); [apply Hpl; lia..|].
    apply (preserves_nth2 _ _ _ _ _ _ Hejk), (preserves_nth2 _ _ _ _ _ _ Hepp).
    by apply gluePieces_preserves.
  - apply preserves_forM. intros k [_ Hk]%elem_of_seq.
    apply preserves_when. intros _.
    destruct (vertex_lookup j k) as (vjk & Hvjk & ?); [lia..|].
    destruct (vertex_lookup (Perm.apply p j) (Perm.apply p k))
      as (vpp & Hvpp & ?); [apply Hpl; lia..|].
    apply (preserves_nth2 _ _ _ _ _ _ Hvjk), (preserves_nth2 _ _ _ _ _ _ Hvpp).
    by apply gluePieces_preserves.
Qed.


Lemma staging_alloc :
  let sT := mkState (simplices s) (<[nextTid s := []]> (triangulations s))
                    (nextPtr s) (S (nextTid s)) in
  ∃ sA, foldM (seq 0 K) [] (λ nt _,
          p ← newSimplexRaw 3 (nextTid s); mret (nt ++ [p])) sT
        = Ok newTet sA ∧ J sA.
Proof.
  intros sT. destruct (storeOk_elim _ Hstore) as [Hlt Htid].
  destruct (foldM_inv (seq 0 K)
    (λ nt (_ : nat), p ← newSimplexRaw 3 (nextTid s); mret (nt ++ [p]))
    (λ i nt s', nt = seq (nextPtr s) i ∧ stagingInv s (nextTid s) i s') [] sT)
    as (nt & sA & Hrun & Hnt & HJ).
  - split; [done|]. unfold stagingInv, sT; simpl.
    repeat split; try done; try lia.
    intros p Hp. destruct (simplices s !! p) eqn:E; [|done].
    assert (p < nextPtr s) by (apply Hlt; eauto). lia.
  - intros i x nt s' _ (-> & Hn & Ht & Hvec & Hold & Hlive & Hnone).
    exists (seq (nextPtr s) (S i)), (allocated 3 (nextTid s) "" s').
    split.
    + eapply run_bind.
      { apply pushNewSimplex_Ok. rewrite Hvec, lookup_insert_eq. eauto. }
      cbv beta. rewrite Hn, seq_S. reflexivity.
    + split; [done|]. unfold stagingInv, allocated; simpl.
      rewrite Hn, Hvec, lookup_insert_eq. simpl.
      repeat split; try done; try lia.
      * rewrite insert_insert_eq. f_equal.
        change (nextPtr s :: seq (S (nextPtr s)) i) with (seq (nextPtr s) (S i)).
        by rewrite seq_S.
      * intros p Hp. rewrite lookup_insert_ne by lia. by apply Hold.
      * intros p Hp. destruct (decide (p = nextPtr s + i)) as [->|].
        -- rewrite lookup_insert_eq. eauto.
        -- rewrite lookup_insert_ne by lia. apply Hlive. lia.
      * intros p Hp. rewrite lookup_insert_ne by lia. apply Hnone. lia.
  - rewrite length_seq in Hnt, HJ. subst nt. eauto.
Qed.

(** C8: the staging triangulation that [idealToFinite] builds holds, when
    the gluing loops are done and before anything is deleted, exactly
    [32 * n] new tetrahedra; [newTet[r + 32 * i]] is the piece of role [r] of
    the old tetrahedron [i], distinct pieces are distinct tetrahedra, every
    staging tetrahedron is such a piece, and the 32 roles are the 4 tips, 4
    interior pieces, 12 edge pieces and 12 vertex pieces that the tables
    [tip], [interior], [edge] and [vertex] index by the vertex labels of the
    old tetrahedron. *)
Theorem buildStaging_pieces :
  ∃ staging nt s',
    buildStaging T (length v) s = Ok (staging, nt) s' ∧
    triangulations s' !! staging = Some nt ∧
    length nt = 32 * length v ∧ NoDup nt ∧
    (∀ p, p ∈ nt → simplices s !! p = None ∧ is_Some (simplices s' !! p)) ∧
    nDiv pieces = 32 ∧
    (∀ i r, i < length v → r < 32 → is_Some (nt !! (r + i * nDiv pieces))) ∧
    (∀ i r i' r', i < length v → r < 32 → i' < length v → r' < 32 →
       nt !! (r + i * nDiv pieces) = nt !! (r' + i' * nDiv pieces) →
       i = i' ∧ r = r') ∧
    (∀ idx, idx < length nt →
       ∃ i r, i < length v ∧ r < 32 ∧ idx = r + i * nDiv pieces) ∧
    (length tipRoles = 4 ∧ length interiorRoles = 4 ∧
     length edgeRoles = 12 ∧ length vertexRoles = 12) ∧
    tipRoles ++ interiorRoles ++ edgeRoles ++ vertexRoles ≡ₚ seq 0 32 ∧
    triangulations s' !! T = Some v ∧
    (∀ p x, simplices s !! p = Some x → simplices s' !! p = Some x) ∧
    (∀ sk, isValid sk s T && negb (isIdeal sk s T) = false →
           v ≠ [] → anyLock s v = false →
           idealToFinite sk T s = finishStaging sk T staging s').
Proof.
  destruct (storeOk_elim _ Hstore) as [Hlt Htid].
  destruct staging_alloc as (sA & Halloc & HA).
  assert (Hglue1 : preserves J (forM (seq 0 (length v)) (glueInside newTet))).
  { apply preserves_forM. intros i [_ Hi]%elem_of_seq.
    apply glueInside_preserves. lia. }
  assert (Hglue2 : preserves J (forM (seq 0 (length v)) (λ i,
            forM (seq 0 4) (glueAcross T newTet i)))).
  { apply preserves_forM. intros i [_ Hi]%elem_of_seq.
    apply preserves_forM. intros j [_ Hj]%elem_of_seq.
    apply glueAcross_preserves; lia. }
  destruct (Hglue1 sA HA) as (s1 & Hrun1 & H1).
  destruct (Hglue2 s1 H1) as (s2 & Hrun2 & H2).
  destruct H2 as (Hn & Ht & Hvec & Hold & Hlive & Hnone).
  assert (Hbuild : buildStaging T (length v) s = Ok (nextTid s, newTet) s2).
  { unfold buildStaging.
    eapply run_bind; [reflexivity|]. cbv beta.
    eapply run_bind; [exact Halloc|]. cbv beta.
    eapply run_bind; [exact Hrun1|]. cbv beta.
    eapply run_bind; [exact Hrun2|]. reflexivity. }
  exists (nextTid s), newTet, s2.
  split; [exact Hbuild|].
  split; [by rewrite Hvec, lookup_insert_eq|].
  split; [apply length_seq|].
  split; [apply NoDup_seq|].
  split.
  { intros p Hp%elem_of_seq. split; [|apply Hlive; lia].
    destruct (simplices s !! p) eqn:E; [|done].
    assert (p < nextPtr s) by (apply Hlt; eauto). lia. }
  split; [reflexivity|]. rewrite nDiv_pieces.
  split.
  { intros i r Hi Hr. apply lookup_lt_is_Some_2. rewrite length_seq. lia. }
  split.
  { intros i r i' r' Hi Hr Hi' Hr'.
    rewrite !lookup_seq_lt by lia. intros [= Heq]. lia. }
  split.
  { intros idx Hidx. rewrite length_seq in Hidx.
    exists (idx / 32), (idx `mod` 32).
    pose proof (Nat.div_mod idx 32 ltac:(lia)).
    pose proof (Nat.mod_upper_bound idx 32 ltac:(lia)).
    split; [apply Nat.Div0.div_lt_upper_bound; lia|]. split; lia. }
  split; [apply roles_counts|].
  split; [apply roles_partition|].
  split.
  { rewrite Hvec. rewrite lookup_insert_ne; [done|].
    intros <-. assert (nextTid s < nextTid s) by (apply Htid; eauto). lia. }
  split.
  { intros p x Hp. rewrite Hold; [done|]. apply Hlt. eauto. }
  intros sk Hguard Hne Hnolock. unfold idealToFinite.
  eapply run_bind; [apply run_query|]. cbv beta.
  eapply run_bind; [apply run_query|]. cbv beta.
  rewrite Hguard.
  eapply run_bind; [by apply getVec_Ok|]. cbv beta.
  rewrite bool_decide_eq_false_2 by (by destruct v).
  eapply run_bind.
  { apply (hasLocks_Ok s T v Hv). intros p Hp. eapply triOk_live; eauto. }
  cbv beta. rewrite Hnolock.
  eapply run_bind; [exact Hbuild|]. reflexivity.
Qed.

End Staging.

(** ** [insertTriangulation] and [connectedSumWith] *)

Lemma insertTriangulation_Ok dim s A B va vb :
  (∀ p, is_Some (simplices s !! p) → p < nextPtr s) →
  triangulations s !! A = Some va →
  triangulations s !! B = Some vb →
  sourceOk dim s vb →
  ∃ s1, insertTriangulation dim A B s = Ok tt s1 ∧
        copyInv dim A s va vb (length vb) 0 s1.
Proof.
  intros Hlive Hva Hvb Hsrc.
  destruct (push_loop dim A s va vb Hlive Hva Hsrc) as (s0 & Hrun0 & Hinv0).
  destruct (insert_outer dim A s va vb s0 Hlive Hva Hsrc Hinv0)
    as (s1 & Hrun1 & Hinv1).
  exists s1. split; [|done]. unfold insertTriangulation.
  eapply run_bind; [by apply getVec_Ok|]. cbv beta.
  eapply run_bind; [by apply getVec_Ok|]. cbv beta.
  eapply run_bind; [exact Hrun0|]. cbv beta. exact Hrun1.
Qed.

Lemma copyInv_live dim A s va vb s1 :
  (∀ p, is_Some (simplices s !! p) → p < nextPtr s) →
  copyInv dim A s va vb (length vb) 0 s1 →
  ∀ p, is_Some (simplices s1 !! p) → p < nextPtr s1.
Proof.
  intros Hlive (Hn & _ & _ & _ & Hnone & _) p Hp.
  destruct (decide (p < nextPtr s1)); [done|].
  rewrite Hnone in Hp by lia. by destruct Hp.
Qed.

Lemma slotAt_same s s' p f :
  simplices s' !! p = simplices s !! p → slotAt s' p f = slotAt s p f.
Proof. unfold slotAt. by intros ->. Qed.

Lemma lockedAt_same s s' p f :
  simplices s' !! p = simplices s !! p → lockedAt s' p f = lockedAt s p f.
Proof. unfold lockedAt. by intros ->. Qed.

Lemma punctureReady_same s s' tet :
  (∀ p, is_Some (simplices s !! p) → simplices s' !! p = simplices s !! p) →
  punctureReady s tet = true → punctureReady s' tet = true.
Proof.
  intros Hsame Hready. pose proof Hready as Hready'.
  apply punctureReady_elim in Hready as [Hlock Hslot].
  assert (Htet : simplices s' !! tet = simplices s !! tet).
  { apply Hsame. eapply lockedAt_is_Some. rewrite Hlock. eauto. }
  unfold punctureReady in *.
  rewrite (lockedAt_same s s' tet 0 Htet), (slotAt_same s s' tet 0 Htet).
  destruct Hslot as [Hslot|(a & g & Hslot & Hlocka & Hslota & Hself)].
  - by rewrite Hlock, Hslot.
  - assert (Ha : simplices s' !! a = simplices s !! a).
    { apply Hsame. eapply lockedAt_is_Some. rewrite Hlocka. eauto. }
    rewrite Hlock, Hslot in *.
    by rewrite (lockedAt_same s s' a _ Ha), (slotAt_same s s' a _ Ha).
Qed.
Lemma compose_apply_0 v a b c d :
  Perm.apply (Perm.compose v [a; b; c; d]) 0 = Perm.apply v a.
Proof. reflexivity. Qed.

Lemma triangleOk_elim s sn f open :
  triangleOk s sn f open = true →
  (∃ e, e ∈ open ∧ tetrahedron e = sn ∧ embFacet e = f) ∧
  (∀ e, e ∈ open → lockedAt s (tetrahedron e) (embFacet e) = Some false) ∧
  ((∃ e, open = [e] ∧ slotAt s (tetrahedron e) (embFacet e) = Some None) ∨
   (∃ e1 e2 g g', open = [e1; e2] ∧
      slotAt s (tetrahedron e1) (embFacet e1) = Some (Some (tetrahedron e2, g)) ∧
      slotAt s (tetrahedron e2) (embFacet e2) = Some (Some (tetrahedron e1, g')) ∧
      Perm.apply g (embFacet e1) = embFacet e2 ∧
      ¬ (tetrahedron e1 = tetrahedron e2 ∧ embFacet e1 = embFacet e2))).
Proof.
  unfold triangleOk. intros [[H1 H2]%andb_true_iff H3]%andb_true_iff.
  split; [|split].
  - apply existsb_exists in H1 as (e & He & Hb).
    apply bool_decide_eq_true in Hb as [? ?].
    exists e. split; [by apply list_elem_of_In|done].
  - intros e He. rewrite forallb_forall in H2.
    apply list_elem_of_In in He. apply H2 in He.
    by apply bool_decide_eq_true in He.
  - destruct open as [|e1 [|e2 [|]]]; try done.
    + left. exists e1. split; [done|]. by apply bool_decide_eq_true in H3.
    + right.
      destruct (slotAt s (tetrahedron e1) (embFacet e1))
        as [[[q g]|]|] eqn:E1; try done.
      destruct (slotAt s (tetrahedron e2) (embFacet e2))
        as [[[q' g']|]|] eqn:E2; try done.
      apply bool_decide_eq_true in H3 as (-> & ? & -> & ?).
      exists e1, e2, g, g'. done.
Qed.

(** The joins of the last part go through when the oracle's answer is
    faithful, and they write to the two boundary tetrahedra and to the
    tetrahedra of the embeddings only. *)
Lemma joinPuncture_Ok s b0 b1 sn open :
  triangleOk s sn 0 open = true →
  slotAt s b0 0 = Some None → slotAt s b1 0 = Some None →
  lockedAt s b0 0 = Some false → lockedAt s b1 0 = Some false →
  b0 ≠ b1 → sn ≠ b0 →
  ∃ s', joinPuncture b0 b1 open s = Ok tt s' ∧
    triangulations s' = triangulations s ∧
    ∀ p, p ≠ b0 → p ≠ b1 → (∀ e, e ∈ open → p ≠ tetrahedron e) →
      simplices s' !! p = simplices s !! p.
Proof.
  intros Hok Hb0 Hb1 Hl0 Hl1 Hne Hsn.
  apply triangleOk_elim in Hok as ((e0 & He0 & Ht0 & Hf0) & Hlocks & Hcase).
  unfold joinPuncture.
  destruct Hcase as [(e & -> & Hslot)|
                     (e1 & e2 & g & g' & -> & Hs1 & Hs2 & Hg & Hdiff)].
  - apply list_elem_of_singleton in He0 as ->.
    assert (Hle : lockedAt s (tetrahedron e) (embFacet e) = Some false)
      by (apply Hlocks; left).
    rewrite bool_decide_eq_false_2 by done.
    assert (Hjoin : ∀ a b c,
      join b0 0 (tetrahedron e) (Perm.compose (vertices e) [3; a; b; c]) s =
      Ok tt (glued b0 0 (tetrahedron e)
               (Perm.compose (vertices e) [3; a; b; c]) s)).
    { intros a b c. apply join_Ok; rewrite ?compose_apply_0; try done.
      intros [? ?]. congruence. }
    destruct (bool_decide (0 < Perm.sign (vertices e))%Z) eqn:Heven;
      (eexists; split;
       [eapply run_bind; [by apply liftOpt_Ok|]; cbv beta zeta;
        rewrite Heven; by apply Hjoin|];
       split; [done|]);
      intros p Hp0 Hp1 Hpe;
      assert (p ≠ tetrahedron e) by (apply Hpe; left);
      unfold glued;
      by rewrite !simplices_setSlot_ne by done.
  - unfold embFacet in *.
    set (t1 := tetrahedron e1) in *.
    set (f1 := Perm.apply (vertices e1) 3) in *.
    set (t2 := tetrahedron e2) in *.
    set (f2 := Perm.apply (vertices e2) 3) in *.
    assert (Hle1 : lockedAt s t1 f1 = Some false) by (apply Hlocks; left).
    assert (Hle2 : lockedAt s t2 f2 = Some false)
      by (apply Hlocks; right; left).
    rewrite bool_decide_eq_true_2 by done.
    assert (Hun : unjoin t1 f1 s =
                  Ok (Some t2) (clearSlot t1 f1 (clearSlot t2 f2 s))).
    { rewrite <- Hg. apply (unjoin_Ok t1 f1 t2 g); try done.
      eapply lockedAt_is_Some. rewrite Hle2. eauto. }
    set (s3 := clearSlot t1 f1 (clearSlot t2 f2 s)).
    assert (H30 : ∀ b, slotAt s b 0 = Some None → slotAt s3 b 0 = Some None).
    { intros b Hb. unfold s3. rewrite !slotAt_clearSlot.
      rewrite !decide_False; [done|intros [? ?]; congruence..]. }
    assert (H31 : slotAt s3 t1 f1 = Some None).
    { unfold s3. rewrite slotAt_clearSlot, decide_True by done.
      rewrite slotAt_clearSlot, decide_False by (intros [? ?]; by apply Hdiff).
      by rewrite Hs1. }
    assert (H32 : slotAt s3 t2 f2 = Some None).
    { unfold s3. rewrite slotAt_clearSlot.
      rewrite decide_False by (intros [? ?]; by apply Hdiff).
      rewrite slotAt_clearSlot, decide_True by done. by rewrite Hs2. }
    assert (Hl3 : ∀ p f, lockedAt s3 p f = lockedAt s p f).
    { intros p f. unfold s3. by rewrite !lockedAt_clearSlot. }
    assert (Hjoin : ∀ a b c a' b' c',
      (join b0 0 t1 (Perm.compose (vertices e1) [3; a; b; c]);;
       join b1 0 t2 (Perm.compose (vertices e2) [3; a'; b'; c'])) s3 =
      Ok tt (glued b1 0 t2 (Perm.compose (vertices e2) [3; a'; b'; c'])
              (glued b0 0 t1 (Perm.compose (vertices e1) [3; a; b; c]) s3))).
    { intros a b c a' b' c'.
      eapply run_bind.
      { apply join_Ok; rewrite ?compose_apply_0; fold f1; try done.
        - by apply H30.
        - intros [? ?]. congruence.
        - by rewrite Hl3.
        - by rewrite Hl3. }
      cbv beta.
      apply join_Ok; rewrite ?compose_apply_0; fold f2; unfold glued;
        rewrite ?compose_apply_0; fold f1;
        rewrite ?lockedAt_setSlot, ?Hl3; try done.
      - rewrite !slotAt_setSlot.
        rewrite decide_False by (intros [? ?]; congruence).
        rewrite decide_False by (intros [? ?]; done).
        by apply H30.
      - rewrite !slotAt_setSlot.
        rewrite decide_False by (intros [? ?]; by apply Hdiff).
        rewrite decide_False by (intros [? ?]; congruence).
        done.
      - intros [? ?]. congruence. }
    destruct (bool_decide (0 < Perm.sign (vertices e1))%Z) eqn:Heven;
      (eexists; split;
       [eapply run_bind; [by apply liftOpt_Ok|]; cbv beta;
        eapply run_bind; [by apply liftOpt_Ok|]; cbv beta;
        eapply run_bind; [exact Hun|]; cbv beta zeta;
        rewrite Heven; by apply Hjoin|];
       split; [done|]);
      intros p Hp0 Hp1 Hpe;
      assert (p ≠ t1) by (apply Hpe; left);
      assert (p ≠ t2) by (apply Hpe; right; left);
      unfold glued, s3;
      by rewrite !simplices_setSlot_ne, !simplices_clearSlot_ne by done.
Qed.
Lemma triOk_member s T v p :
  triOk 3 s T = true → triangulations s !! T = Some v → p ∈ v →
  ∃ x, simplices s !! p = Some x ∧ tri_ x = T ∧
       ∀ q g, slotAt s p 0 = Some (Some (q, g)) → q ∈ v.
Proof.
  intros Hok Hv Hp. apply triOk_elim in Hok as (v' & Hv' & Hok).
  assert (v' = v) as -> by congruence.
  apply list_elem_of_lookup in Hp as [i Hi].
  destruct (Hok i p Hi) as (x & Hx & _ & Htri & _ & _ & _ & Hadj & _).
  exists x. split; [done|]. split; [done|].
  intros q g Hslot. unfold slotAt in Hslot. rewrite Hx in Hslot. simpl in Hslot.
  unfold facetSlot in Hslot.
  destruct (adj_ x !! 0) as [[q'|]|] eqn:Ha; [| |done];
    destruct (gluing_ x !! 0); try done. injection Hslot as -> ->.
  destruct (Hadj 0 q Ha) as (y & Hy & Hvy).
  apply list_elem_of_lookup. eauto.
Qed.

(** C6 (as amended): [A.connectedSumWith(B)] does nothing when [B] is
    empty, is [insertTriangulation(B)] when [A] is empty, and otherwise
    leaves [A] with its old simplices, a copy of [B]'s and six more - also
    when [B] is [A] itself, the sizes being those before the call - while a
    triangulation [B] other than [A] keeps its simplex sequence and every
    one of its simplices as they were. *)
Theorem connectedSumWith_spec sk s A B va vb :
  triangulations s !! A = Some va →
  triangulations s !! B = Some vb →
  (vb = [] → connectedSumWith sk A B s = Ok tt s) ∧
  (vb ≠ [] → va = [] →
   connectedSumWith sk A B s = insertTriangulation 3 A B s) ∧
  (∀ front,
     vb ≠ [] → head va = Some front →
     storeOk s = true → triOk 3 s A = true → triOk 3 s B = true →
     punctureReady s front = true →
     (∀ s1 s2 v2 sn,
        insertTriangulation 3 A B s = Ok tt s1 →
        puncture A (Some front) s1 = Ok tt s2 →
        triangulations s2 !! A = Some v2 → v2 !! length va = Some sn →
        triangleOk s2 sn 0 (triangleOf sk s2 sn 0) = true) →
     ∃ s', connectedSumWith sk A B s = Ok tt s' ∧
       size s' A = Some (length va + length vb + 6) ∧
       (B ≠ A →
        triangulations s' !! B = Some vb ∧
        ∀ p, p ∈ vb → simplices s' !! p = simplices s !! p)).
Proof.
  intros Hva Hvb. split; [|split].
  - intros ->. unfold connectedSumWith.
    eapply run_bind; [by apply getVec_Ok|]. reflexivity.
  - intros Hne ->. unfold connectedSumWith.
    eapply run_bind; [by apply getVec_Ok|]. cbv beta.
    rewrite bool_decide_eq_false_2 by done.
    eapply run_bind; [by apply getVec_Ok|]. reflexivity.
  - intros front Hne Hfront Hstore HA HB Hready Horacle.
    destruct (storeOk_elim _ Hstore) as [Hlive _].
    pose proof (triOk_sourceOk 3 s B vb HB Hvb) as Hsrc.
    destruct (insertTriangulation_Ok 3 s A B va vb Hlive Hva Hvb Hsrc)
      as (s1 & Hrun1 & Hinv1).
    pose proof (copyInv_live _ _ _ _ _ _ Hlive Hinv1) as Hlive1.
    destruct Hinv1 as (Hn1 & Ht1 & Hv1 & Hold1 & Hnone1 & Hnew1).
    set (n := nextPtr s) in *. set (k := length vb) in *.
    assert (Hk : 0 < k) by (subst k; destruct vb; [done|simpl; lia]).
    assert (HvA1 : triangulations s1 !! A = Some (va ++ seq n k))
      by (rewrite Hv1; apply lookup_insert_eq).
    assert (Hfin : front ∈ va) by (destruct va; [done|]; injection Hfront as ->; left).
    destruct (triOk_member s A va front HA Hva Hfin) as (xf & Hxf & Htrif & Hadjf).
    assert (Hflt : front < n) by (apply Hlive; eauto).
    assert (Hsame : ∀ p, is_Some (simplices s !! p) →
                         simplices s1 !! p = simplices s !! p).
    { intros p Hp. apply Hold1. by apply Hlive. }
    pose proof (punctureReady_same s s1 front Hsame Hready) as Hready1.
    assert (Hrun2 : puncture A (Some front) s1 = Ok tt (punctured A front s1)).
    { apply puncture_Ok_live; eauto. }
    set (s2 := punctured A front s1) in *.
    assert (Hv2 : triangulations s2 !! A =
      Some ((va ++ seq n k) ++
            [nextPtr s1; 1 + nextPtr s1; 2 + nextPtr s1; 3 + nextPtr s1;
             4 + nextPtr s1; 5 + nextPtr s1])).
    { unfold s2. rewrite punctured_vecs. by apply sixAllocated_vec_T. }
    assert (Hsn : ((va ++ seq n k) ++
            [nextPtr s1; 1 + nextPtr s1; 2 + nextPtr s1; 3 + nextPtr s1;
             4 + nextPtr s1; 5 + nextPtr s1]) !! length va = Some n).
    { rewrite lookup_app_l by (rewrite length_app, length_seq; lia).
      rewrite lookup_app_r by lia. rewrite Nat.sub_diag.
      destruct k; [lia|done]. }
    pose proof (Horacle s1 s2 _ n Hrun1 Hrun2 Hv2 Hsn) as Hok.
    (* the neighbour of front across facet 0, if any, is an old simplex of A *)
    assert (Hadj1 : ∀ a g, slotAt s1 front 0 = Some (Some (a, g)) →
                           a ∈ va ∧ a < n).
    { intros a g Hs. rewrite (slotAt_same s s1) in Hs by (apply Hsame; eauto).
      pose proof (Hadjf a g Hs) as Hin. split; [done|].
      destruct (triOk_member s A va a HA Hva Hin) as (xa & Hxa & _).
      apply Hlive. eauto. }
    (* facet 0 of the first inserted simplex points into the inserted copy *)
    assert (Hsn0 : ∀ q g, slotAt s2 n 0 = Some (Some (q, g)) → n ≤ q).
    { intros q g Hs. unfold s2 in Hs.
      rewrite punctured_old_slot in Hs; auto; try lia.
      2:{ intros a g' Ha [-> _]. apply Hadj1 in Ha. lia. }
      destruct (lookup_lt_is_Some_2 vb 0 Hk) as [you Hyou].
      destruct (Hsrc 0 you Hyou) as (y & Hy & _).
      destruct (Hnew1 0 you y Hyou Hy) as (x' & Hx' & Hc).
      rewrite decide_True in Hc by done.
      destruct Hc as (_ & _ & _ & _ & _ & _ & _ & Hdone & _).
      specialize (Hdone 0 ltac:(lia)). unfold copiedFacet in Hdone.
      fold n in Hx'. rewrite Nat.add_0_r in Hx'.
      unfold slotAt in Hs. rewrite Hx' in Hs. simpl in Hs.
      unfold facetSlot in Hs.
      destruct (adj_ y !! 0) as [[q0|]|]; [| |done].
      - destruct Hdone as (yq & _ & Hxa & _). rewrite Hxa in Hs.
        destruct (gluing_ x' !! 0); [|done]. injection Hs as <- _. fold n. lia.
      - destruct Hdone as [Hxa _]. rewrite Hxa in Hs.
        by destruct (gluing_ x' !! 0). }
    destruct (joinPuncture_Ok s2 (4 + nextPtr s1) (5 + nextPtr s1) n
                (triangleOf sk s2 n 0) Hok) as (s' & Hrun3 & Hvec' & Hframe').
    { apply (punctured_new_slot A front s1 4 0); auto; lia. }
    { apply (punctured_new_slot A front s1 5 0); auto; lia. }
    { unfold s2. rewrite punctured_lock. by rewrite decide_True by lia. }
    { unfold s2. rewrite punctured_lock. by rewrite decide_True by lia. }
    { lia. }
    { lia. }
    exists s'. split; [|split].
    + unfold connectedSumWith.
      eapply run_bind; [by apply getVec_Ok|]. cbv beta.
      rewrite bool_decide_eq_false_2 by done.
      eapply run_bind; [by apply getVec_Ok|]. cbv beta.
      rewrite bool_decide_eq_false_2 by (by destruct va).
      cbv zeta.
      eapply run_bind; [exact Hrun1|]. cbv beta.
      eapply run_bind; [by apply getVec_Ok|]. cbv beta.
      eapply run_bind.
      { apply liftOpt_Ok. destruct va; [done|]. exact Hfront. }
      cbv beta.
      eapply run_bind; [exact Hrun2|]. cbv beta.
      eapply run_bind; [by apply getVec_Ok|]. cbv beta.
      eapply run_bind; [apply liftOpt_Ok, lookup_last_two|]. cbv beta.
      eapply run_bind; [apply liftOpt_Ok, lookup_last_two|]. cbv beta.
      eapply run_bind; [by apply liftOpt_Ok|]. cbv beta.
      eapply run_bind; [apply run_query|]. cbv beta.
      exact Hrun3.
    + unfold size. rewrite Hvec', Hv2. simpl.
      rewrite !length_app, length_seq. simpl. f_equal; lia.
    + intros HBA. split.
      * rewrite Hvec'. unfold s2. rewrite punctured_vecs.
        rewrite sixAllocated_vec_other by done.
        rewrite Hv1. by rewrite lookup_insert_ne by done.
      * intros p Hp.
        destruct (triOk_member s B vb p HB Hvb Hp) as (xp & Hxp & Htrip & _).
        assert (Hplt : p < n) by (apply Hlive; eauto).
        assert (HpA : p ∉ va).
        { intros Hin.
          destruct (triOk_member s A va p HA Hva Hin) as (xp' & Hxp' & Htrip' & _).
          congruence. }
        rewrite Hframe'; try lia.
        -- unfold s2. rewrite punctured_simplices_other; try lia.
           ++ by apply Hold1.
           ++ intros ->. done.
           ++ intros a g Ha ->. apply Hadj1 in Ha as [? _]. done.
        -- intros e He.
           apply triangleOk_elim in Hok as ((e0 & He0 & Ht0 & Hf0) & _ & Hcase).
           assert (n ≤ tetrahedron e); [|lia].
           destruct Hcase as [(e1 & Heq & _)|
                              (e1 & e2 & g & g' & Heq & Hs1 & Hs2 & _)];
             rewrite Heq in He, He0.
           ++ apply list_elem_of_singleton in He as ->.
              apply list_elem_of_singleton in He0 as ->. lia.
           ++ assert (He' : e = e1 ∨ e = e2).
              { inversion He; subst; [by left|].
                right. by apply list_elem_of_singleton. }
              assert (He0' : e0 = e1 ∨ e0 = e2).
              { inversion He0; subst; [by left|].
                right. by apply list_elem_of_singleton. }
              destruct He0' as [->| ->]; rewrite Ht0, Hf0 in *.
              ** destruct He' as [->| ->]; [lia|]. by apply (Hsn0 _ g).
              ** destruct He' as [->| ->]; [|lia]. by apply (Hsn0 _ g').
Qed.

(** * Concrete instances *)

Lemma join_symmetric_witness :
  let p := [1; 3; 0; 2] in
  let s' := glued 0 0 1 p pairStore in
  slotAt s' 1 (Perm.apply p 0) = Some (Some (0, Perm.inverse p)) ∧
  Perm.apply (Perm.inverse p) (Perm.apply p 0) = 0 ∧
  slotAt s' 0 0 = Some (Some (1, p)).
Proof.
  apply (join_symmetric 4 0 0 1 [1; 3; 0; 2] pairStore).
  - vm_compute. reflexivity.
  - lia.
  - vm_compute. reflexivity.
Defined.

Lemma copyConstruct_identical_witness :
  ∃ U s' v',
    copyConstruct 3 0 giesekingStore = Ok U s' ∧
    isIdenticalTo 3 s' 0 U = Some true ∧
    triangulations s' !! U = Some v' ∧ length v' = length [0] ∧
    triOk 3 s' U = true ∧
    (∀ p, p ∈ v' → simplices giesekingStore !! p = None) ∧
    triangulations s' !! 0 = Some [0] ∧
    (∀ p x, simplices giesekingStore !! p = Some x →
            simplices s' !! p = Some x).
Proof.
  apply (copyConstruct_identical 3 giesekingStore 0 [0]);
    vm_compute; reflexivity.
Defined.

Lemma idealToFinite_unchanged_witness :
  ∃ s', idealToFinite ballSkeleton 0 ballCopyStore = Ok false s' ∧
        s' = ballCopyStore ∧
        size s' 0 = size ballCopyStore 0 ∧
        isIdenticalTo 3 s' 0 2 = Some true.
Proof.
  apply (idealToFinite_unchanged ballSkeleton twoBallsStore ballCopyStore
           0 2 [0]).
  - vm_compute. reflexivity.
  - vm_compute. reflexivity.
  - vm_compute. reflexivity.
  - vm_compute. reflexivity.
  - right. split; reflexivity.
Defined.

Lemma idealToFinite_locked_witness :
  idealToFinite idealSkeleton 0 lockedGiesekingStore =
  Throw LockViolation lockedGiesekingStore.
Proof.
  apply (idealToFinite_locked idealSkeleton lockedGiesekingStore 0 [0]).
  - vm_compute. reflexivity.
  - vm_compute. reflexivity.
  - discriminate.
  - reflexivity.
  - vm_compute. reflexivity.
Defined.

(** C3, the claim as it stands, fails: the single tetrahedron whose facet 0
    is glued to its own facet 1 through (0 1)(2 3) has two vertices, neither
    ideal nor invalid, but its edge 23 is glued to itself in reverse, so
    that [isValid()] is false.  [idealToFinite()] does not return false
    there: it replaces the tetrahedron by the 32 pieces of its subdivision
    and returns true. *)
Lemma idealToFinite_invalid_edge_subdivides :
  size reversedEdgeStore 0 = Some 1 ∧
  slotAt reversedEdgeStore 0 0 = Some (Some (0, [1; 0; 3; 2])) ∧
  vertexList reversedEdgeSkeleton reversedEdgeStore 0 =
    [mkVertexInfo false true
       [mkEmbedding 0 [0; 1; 2; 3]; mkEmbedding 0 [1; 0; 2; 3]];
     mkVertexInfo false true
       [mkEmbedding 0 [2; 1; 0; 3]; mkEmbedding 0 [3; 1; 2; 0]]] ∧
  isValid reversedEdgeSkeleton reversedEdgeStore 0 = false ∧
  isIdeal reversedEdgeSkeleton reversedEdgeStore 0 = false ∧
  ∃ s', idealToFinite reversedEdgeSkeleton 0 reversedEdgeStore = Ok true s' ∧
        size s' 0 = Some 32 ∧
        simplices s' !! 0 = None.
Proof.
  split; [by vm_compute|]. split; [by vm_compute|].
  split; [by vm_compute|]. split; [reflexivity|]. split; [reflexivity|].
  exists (storeAfter (idealToFinite reversedEdgeSkeleton 0) reversedEdgeStore).
  split; [by vm_compute|]. split; by vm_compute.
Qed.

(** A single tetrahedron without gluings, with a locked facet, is valid and
    has no ideal vertex: [idealToFinite()] returns false there and throws
    nothing. *)
Lemma idealToFinite_locked_returns_false :
  triangulations lockedBallStore !! 0 = Some [0] ∧
  anyLock lockedBallStore [0] = true ∧
  idealToFinite ballSkeleton 0 lockedBallStore = Ok false lockedBallStore ∧
  idealToFinite ballSkeleton 0 lockedBallStore ≠
    Throw LockViolation lockedBallStore.
Proof.
  split; [by vm_compute|]. split; [by vm_compute|].
  assert (H : idealToFinite ballSkeleton 0 lockedBallStore =
              Ok false lockedBallStore) by (by vm_compute).
  split; [exact H|]. rewrite H. discriminate.
Qed.

Lemma puncture_frame_witness :
  ∃ s', puncture 0 (Some 0) giesekingStore = Ok tt s' ∧
    size s' 0 = Some (length [0] + 6) ∧
    (∀ t, t ≠ 0 → triangulations s' !! t = triangulations giesekingStore !! t) ∧
    ∀ p f, is_Some (simplices giesekingStore !! p) →
      ¬ (p = 0 ∧ f = 0) →
      (∀ a g, slotAt giesekingStore 0 0 = Some (Some (a, g)) →
              ¬ (p = a ∧ f = Perm.apply g 0)) →
      slotAt s' p f = slotAt giesekingStore p f.
Proof.
  apply (puncture_frame 0 0 giesekingStore [0]); vm_compute; reflexivity.
Defined.

(** In the Gieseking triangulation facet 0 of the tetrahedron is glued to
    facet 1 of the same tetrahedron: after the puncture facet 1 points to a
    new tetrahedron, so one of the facets 1, 2, 3 of the punctured simplex
    has changed. *)
Lemma puncture_selfglued_changes_facet_1 :
  ∃ s', puncture 0 (Some 0) giesekingStore = Ok tt s' ∧
    slotAt giesekingStore 0 1 = Some (Some (0, [2; 0; 1; 3])) ∧
    slotAt s' 0 1 = Some (Some (2, [2; 0; 1; 3])) ∧
    slotAt s' 0 1 ≠ slotAt giesekingStore 0 1.
Proof.
  exists (punctured 0 0 giesekingStore).
  split; [by vm_compute|]. split; [by vm_compute|].
  assert (H : slotAt (punctured 0 0 giesekingStore) 0 1 =
              Some (Some (2, [2; 0; 1; 3]))) by (by vm_compute).
  split; [exact H|]. rewrite H. by vm_compute.
Qed.

Lemma swapContents_preserves_witness :
  ∃ s', swapContents 0 1 twoBallsStore = Ok tt s' ∧
    triangulations s' !! 0 = Some [1] ∧
    triangulations s' !! 1 = Some [0] ∧
    (∀ t, t ≠ 0 → t ≠ 1 →
          triangulations s' !! t = triangulations twoBallsStore !! t) ∧
    ∀ p x, simplices twoBallsStore !! p = Some x →
      ∃ x', simplices s' !! p = Some x' ∧
        adj_ x' = adj_ x ∧ gluing_ x' = gluing_ x ∧
        description_ x' = description_ x ∧ index_ x' = index_ x ∧
        facetLocks_ x' = facetLocks_ x ∧ simplexLock_ x' = simplexLock_ x ∧
        tri_ x' = (if bool_decide (p ∈ [0]) then 1
                   else if bool_decide (p ∈ [1]) then 0 else tri_ x).
Proof.
  apply (swapContents_preserves 3 twoBallsStore 0 1 [0] [1]);
    vm_compute; reflexivity.
Defined.

Lemma isIdenticalTo_iff_witness :
  (∃ b, isIdenticalTo 3 giesekingCopyStore 0 1 = Some b ∧
        (b = true ↔ sameGluings 3 giesekingCopyStore 0 1)) ∧
  (∀ p d, isIdenticalTo 3 (setDescription p d giesekingCopyStore) 0 1 =
          isIdenticalTo 3 giesekingCopyStore 0 1).
Proof.
  apply (isIdenticalTo_iff 3 giesekingCopyStore 0 1); vm_compute; reflexivity.
Defined.

Lemma puncture_boundary_witness :
  ∃ s' b0 b1,
    let n := nextPtr twoBallsStore in
    let v' := [0] ++ [n; 1 + n; 2 + n; 3 + n; b0; b1] in
    puncture 0 (Some 0) twoBallsStore = Ok tt s' ∧
    triangulations s' !! 0 = Some v' ∧
    v' !! (length v' - 2) = Some b0 ∧
    v' !! (length v' - 1) = Some b1 ∧
    simplices twoBallsStore !! b0 = None ∧
    simplices twoBallsStore !! b1 = None ∧
    slotAt s' b0 0 = Some None ∧ slotAt s' b1 0 = Some None ∧
    slotAt s' b0 1 = Some (Some (b1, [0; 1; 3; 2])) ∧
    slotAt s' b0 2 = Some (Some (b1, [0; 1; 3; 2])) ∧
    (∀ k f, k < 6 → f < 4 → slotAt s' (k + n) f = Some None →
       (k + n = b0 ∧ f = 0) ∨ (k + n = b1 ∧ f = 0) ∨
       (k = 1 ∧ f = 0 ∧ slotAt twoBallsStore 0 0 = Some None)) ∧
    (∀ t0, head [0] = Some t0 →
           puncture 0 None twoBallsStore = puncture 0 (Some t0) twoBallsStore).
Proof.
  apply (puncture_boundary 0 0 twoBallsStore [0]); vm_compute; reflexivity.
Defined.

Lemma buildStaging_pieces_witness :
  ∃ staging nt s',
    buildStaging 0 (length [0]) giesekingStore = Ok (staging, nt) s' ∧
    triangulations s' !! staging = Some nt ∧
    length nt = 32 * length [0] ∧ NoDup nt ∧
    (∀ p, p ∈ nt → simplices giesekingStore !! p = None ∧
                   is_Some (simplices s' !! p)) ∧
    nDiv pieces = 32 ∧
    (∀ i r, i < length [0] → r < 32 → is_Some (nt !! (r + i * nDiv pieces))) ∧
    (∀ i r i' r', i < length [0] → r < 32 → i' < length [0] → r' < 32 →
       nt !! (r + i * nDiv pieces) = nt !! (r' + i' * nDiv pieces) →
       i = i' ∧ r = r') ∧
    (∀ idx, idx < length nt →
       ∃ i r, i < length [0] ∧ r < 32 ∧ idx = r + i * nDiv pieces) ∧
    (length tipRoles = 4 ∧ length interiorRoles = 4 ∧
     length edgeRoles = 12 ∧ length vertexRoles = 12) ∧
    tipRoles ++ interiorRoles ++ edgeRoles ++ vertexRoles ≡ₚ seq 0 32 ∧
    triangulations s' !! 0 = Some [0] ∧
    (∀ p x, simplices giesekingStore !! p = Some x →
            simplices s' !! p = Some x) ∧
    (∀ sk, isValid sk giesekingStore 0 && negb (isIdeal sk giesekingStore 0)
             = false →
           [0] ≠ [] → anyLock giesekingStore [0] = false →
           idealToFinite sk 0 giesekingStore = finishStaging sk 0 staging s').
Proof.
  apply (buildStaging_pieces giesekingStore 0 [0]); vm_compute; reflexivity.
Defined.

Lemma connectedSumWith_spec_witness :
  ∃ s', connectedSumWith ballSkeleton 0 1 twoBallsStore = Ok tt s' ∧
    size s' 0 = Some (length [0] + length [1] + 6) ∧
    (1 ≠ 0 →
     triangulations s' !! 1 = Some [1] ∧
     ∀ p, p ∈ [1] → simplices s' !! p = simplices twoBallsStore !! p).
Proof.
  apply (proj2 (proj2 (connectedSumWith_spec ballSkeleton twoBallsStore 0 1
                         [0] [1] eq_refl eq_refl)) 0).
  - discriminate.
  - reflexivity.
  - vm_compute. reflexivity.
  - vm_compute. reflexivity.
  - vm_compute. reflexivity.
  - vm_compute. reflexivity.
  - intros s1 s2 v2 sn H1 H2 H3 H4.
    vm_compute in H1. injection H1 as <-.
    vm_compute in H2. injection H2 as <-.
    vm_compute in H3. injection H3 as <-.
    vm_compute in H4. injection H4 as <-.
    vm_compute. reflexivity.
Defined.

(** Summing the one-tetrahedron triangulation 0 with itself: the argument
    [B] is the triangulation [A], and it does not stay as it was - it has
    1 + 1 + 6 simplices afterwards. *)
Lemma connectedSumWith_self_modifies_argument :
  ∃ s', connectedSumWith ballSkeleton 0 0 twoBallsStore = Ok tt s' ∧
    size twoBallsStore 0 = Some 1 ∧
    size s' 0 = Some 8 ∧
    triangulations s' !! 0 ≠ triangulations twoBallsStore !! 0.
Proof.
  exists (storeAfter (connectedSumWith ballSkeleton 0 0) twoBallsStore).
  split; [by vm_compute|]. split; [by vm_compute|]. split; [by vm_compute|].
  vm_compute. discriminate.
Qed.

(** ** [isIdenticalTo] as an equivalence *)

Section IdenticalEquivalence.

Variable dim : nat.

Lemma sameGluings_refl s t :
  is_Some (triangulations s !! t) → sameGluings dim s t t.
Proof.
  intros [v Hv]. exists v, v. repeat split; try done.
  intros i me you f Hme Hyou _. congruence.
Qed.

Lemma sameGluings_sym s t u : sameGluings dim s t u → sameGluings dim s u t.
Proof.
  intros (mes & yous & Hm & Hy & Hlen & H).
  exists yous, mes. repeat split; try done.
  intros i me you f Hme Hyou Hf. symmetry. eauto.
Qed.

Lemma sameGluings_trans s t u w :
  sameGluings dim s t u → sameGluings dim s u w → sameGluings dim s t w.
Proof.
  intros (mes & yous & Hm & Hy & Hlen & H) (yous' & ws & Hy' & Hw & Hlen' & H').
  assert (yous' = yous) as -> by congruence.
  exists mes, ws. split; [done|]. split; [done|]. split; [congruence|].
  intros i me w0 f Hme Hw0 Hf.
  destruct (lookup_lt_is_Some_2 yous i) as [you Hyou].
  { rewrite <- Hlen. eapply lookup_lt_Some; eauto. }
  rewrite (H i me you f Hme Hyou Hf). eauto.
Qed.

(** X1: On a well-formed triangulation [T.isIdenticalTo(T)] is true. *)
Theorem isIdenticalTo_reflexive s t :
  triOk dim s t = true → isIdenticalTo dim s t t = Some true.
Proof.
  intros Hok.
  destruct (isIdenticalTo_characterised dim s t t Hok Hok) as [(b & Hb & Hiff) _].
  rewrite Hb. f_equal. apply Hiff, sameGluings_refl.
  apply triOk_elim in Hok as (v & Hv & _). eauto.
Qed.

(** X2: The test reads the gluings of [other] first and those of [this] second,
    yet on well-formed triangulations the answer does not depend on the side
    it is asked from. *)
Theorem isIdenticalTo_symmetric s t u :
  triOk dim s t = true → triOk dim s u = true →
  isIdenticalTo dim s t u = isIdenticalTo dim s u t.
Proof.
  intros Ht Hu.
  destruct (isIdenticalTo_characterised dim s t u Ht Hu) as [(b & Hb & Hiff) _].
  destruct (isIdenticalTo_characterised dim s u t Hu Ht) as [(b' & Hb' & Hiff') _].
  rewrite Hb, Hb'. f_equal.
  destruct b, b'; try done.
  - symmetry. apply Hiff', sameGluings_sym, Hiff. done.
  - apply Hiff, sameGluings_sym, Hiff'. done.
Qed.

(** X3: Two triangulations identical to a third are identical to each other. *)
Theorem isIdenticalTo_transitive s t u w :
  triOk dim s t = true → triOk dim s u = true → triOk dim s w = true →
  isIdenticalTo dim s t u = Some true →
  isIdenticalTo dim s u w = Some true →
  isIdenticalTo dim s t w = Some true.
Proof.
  intros Ht Hu Hw Htu Huw.
  destruct (isIdenticalTo_characterised dim s t u Ht Hu) as [(b1 & Hb1 & Hiff1) _].
  destruct (isIdenticalTo_characterised dim s u w Hu Hw) as [(b2 & Hb2 & Hiff2) _].
  destruct (isIdenticalTo_characterised dim s t w Ht Hw) as [(b3 & Hb3 & Hiff3) _].
  rewrite Hb3. f_equal. apply Hiff3.
  eapply sameGluings_trans; [apply Hiff1|apply Hiff2]; congruence.
Qed.

End IdenticalEquivalence.

(** ** Access by index, and [newSimplex] *)

Lemma storeOk_intro s :
  (∀ p, is_Some (simplices s !! p) → p < nextPtr s) →
  (∀ t, is_Some (triangulations s !! t) → t < nextTid s) →
  storeOk s = true.
Proof.
  intros H1 H2. unfold storeOk. apply andb_true_iff; split;
    apply bool_decide_eq_true; intros k x Hk; eauto.
Qed.

Lemma triOk_vec dim s t v :
  triOk dim s t = true → triangulations s !! t = Some v →
  ∀ i p, v !! i = Some p →
    ∃ x, simplices s !! p = Some x ∧ index_ x = i ∧ tri_ x = t ∧
         length (adj_ x) = S dim ∧ length (gluing_ x) = S dim ∧
         length (facetLocks_ x) = S dim ∧
         (∀ f q, adj_ x !! f = Some (Some q) →
           ∃ y, simplices s !! q = Some y ∧ v !! index_ y = Some q) ∧
         (∀ f g, gluing_ x !! f = Some g → Perm.valid (S dim) g = true).
Proof.
  intros Hok Hv. apply triOk_elim in Hok as (v' & Hv' & Hok).
  by assert (v' = v) as -> by congruence.
Qed.

(** The members of a well-formed triangulation are pairwise distinct. *)
Lemma triOk_NoDup dim s t v :
  triOk dim s t = true → triangulations s !! t = Some v → NoDup v.
Proof.
  intros Hok Hv. apply NoDup_alt. intros i j p Hi Hj.
  destruct (triOk_vec _ _ _ _ Hok Hv i p Hi) as (x & Hx & Hxi & _).
  destruct (triOk_vec _ _ _ _ Hok Hv j p Hj) as (x' & Hx' & Hxj & _).
  congruence.
Qed.

(** X4: [simplex] and [simplexIndex] are inverse to each other on a well-formed
    triangulation: the simplex at position [i] has index [i], and the
    simplex found at the index of a member is that member.  Past the end of
    the vector [simplex] has no defined result. *)
Theorem simplex_simplexIndex dim s t v :
  triOk dim s t = true → triangulations s !! t = Some v →
  (∀ i, i < length v → (simplex t i ≫= simplexIndex) s = Ok i s) ∧
  (∀ p, p ∈ v → (simplexIndex p ≫= simplex t) s = Ok p s) ∧
  (∀ i, length v ≤ i → simplex t i s = Undefined).
Proof.
  intros Hok Hv. split; [|split].
  - intros i Hi. destruct (lookup_lt_is_Some_2 v i Hi) as [p Hp].
    destruct (triOk_vec _ _ _ _ Hok Hv i p Hp) as (x & Hx & Hxi & _).
    eapply run_bind.
    { unfold simplex. eapply run_bind; [by apply getVec_Ok|].
      by apply liftOpt_Ok. }
    unfold simplexIndex. eapply run_bind; [by apply deref_Ok|].
    by rewrite <- Hxi.
  - intros p Hp. apply list_elem_of_lookup in Hp as [i Hp].
    destruct (triOk_vec _ _ _ _ Hok Hv i p Hp) as (x & Hx & Hxi & _).
    eapply run_bind.
    { unfold simplexIndex. eapply run_bind; [by apply deref_Ok|].
      apply run_ret. }
    unfold simplex. eapply run_bind; [by apply getVec_Ok|].
    apply liftOpt_Ok. congruence.
  - intros i Hi. unfold simplex.
    rewrite bind_unfold, (getVec_Ok _ _ _ Hv).
    unfold liftOpt. by rewrite lookup_ge_None_2.
Qed.

(** X5: [newSimplex] keeps the allocator sound and the triangulation well formed:
    the new simplex is a new object, sits last in the vector under the next
    index, carries the given description, has all its facets boundary, and
    nothing that existed before is changed. *)
Theorem newSimplex_wellformed dim s T v desc :
  storeOk s = true → triOk dim s T = true →
  triangulations s !! T = Some v →
  ∃ p s' x,
    newSimplex dim T desc s = Ok p s' ∧
    simplices s !! p = None ∧
    triangulations s' !! T = Some (v ++ [p]) ∧
    simplices s' !! p = Some x ∧
    description_ x = desc ∧ index_ x = length v ∧ tri_ x = T ∧
    (∀ f, f ≤ dim → slotAt s' p f = Some None) ∧
    storeOk s' = true ∧ triOk dim s' T = true ∧
    (∀ q, q ≠ p → simplices s' !! q = simplices s !! q) ∧
    (∀ t, t ≠ T → triangulations s' !! t = triangulations s !! t).
Proof.
  intros Hstore Hok Hv.
  destruct (storeOk_elim _ Hstore) as [Hlive Htids].
  assert (Hfresh : simplices s !! nextPtr s = None).
  { destruct (simplices s !! nextPtr s) eqn:E; [|done].
    assert (nextPtr s < nextPtr s) by eauto. lia. }
  exists (nextPtr s), (allocated dim T desc s),
    (freshSimplex dim desc T (length v)).
  split. { unfold newSimplex. apply pushNewSimplex_Ok. eauto. }
  split; [done|].
  split. { by apply allocated_vec_T. }
  split. { unfold allocated; simpl. by rewrite lookup_insert_eq, Hv. }
  split; [done|]. split; [done|]. split; [done|].
  split. { intros f Hf. rewrite slotAt_allocated.
    by rewrite decide_True, decide_True by done. }
  split.
  { apply storeOk_intro.
    - intros p [x Hx]. unfold allocated in *; simpl in *.
      destruct (decide (p = nextPtr s)) as [->|Hne]; [lia|].
      rewrite lookup_insert_ne in Hx by done.
      assert (p < nextPtr s) by eauto. lia.
    - intros t [w Hw]. unfold allocated in *; simpl in *.
      destruct (decide (t = T)) as [->|Hne]; [eauto|].
      rewrite lookup_insert_ne in Hw by done. eauto. }
  split.
  { apply (triOk_intro dim _ T (v ++ [nextPtr s])).
    { by apply allocated_vec_T. }
    intros i p Hp. apply lookup_app_Some in Hp as [Hp|[Hlen Hp]].
    - destruct (triOk_vec _ _ _ _ Hok Hv i p Hp)
        as (x & Hx & Hxi & Hxt & Hla & Hlg & Hlf & Hadj & Hperm).
      exists x. split.
      { rewrite simplices_allocated_ne; [done|].
        intros ->. rewrite Hfresh in Hx. done. }
      repeat split; auto.
      intros f q Hq. destruct (Hadj f q Hq) as (y & Hy & Hvy).
      exists y. split.
      + rewrite simplices_allocated_ne; [done|].
        intros ->. rewrite Hfresh in Hy. done.
      + by apply lookup_app_l_Some.
    - apply list_lookup_singleton_Some in Hp as [Hi <-].
      exists (freshSimplex dim desc T (length v)). split.
      { unfold allocated; simpl. by rewrite lookup_insert_eq, Hv. }
      unfold freshSimplex; cbn [adj_ gluing_ index_ tri_ facetLocks_].
      rewrite !length_replicate.
      repeat split; auto; try lia.
      + intros f q Hq. by apply lookup_replicate in Hq as [? _].
      + intros f g Hg. apply lookup_replicate in Hg as [-> _].
        apply Perm_id_valid. }
  split.
  - intros q Hq. by apply simplices_allocated_ne.
  - intros t Ht. by apply allocated_vec_other.
Qed.

(** ** More on [swapContents] *)

Lemma State_ext (s s' : State) :
  (∀ p, simplices s !! p = simplices s' !! p) →
  triangulations s = triangulations s' →
  nextPtr s = nextPtr s' → nextTid s = nextTid s' → s = s'.
Proof.
  destruct s, s'; simpl. intros H1 -> -> ->. f_equal. by apply map_eq.
Qed.

Lemma withTri_same x : withTri (tri_ x) x = x.
Proof. by destruct x. Qed.

(** The store after [swapContents], simplex by simplex. *)
Lemma swapContents_exact dim s T U mine yours :
  triOk dim s T = true → triOk dim s U = true →
  triangulations s !! T = Some mine →
  triangulations s !! U = Some yours →
  ∃ s', swapContents T U s = Ok tt s' ∧
    triangulations s' = <[U := mine]> (<[T := yours]> (triangulations s)) ∧
    nextPtr s' = nextPtr s ∧ nextTid s' = nextTid s ∧
    ∀ q, simplices s' !! q =
         (if bool_decide (q ∈ mine) then withTri U
          else if bool_decide (q ∈ yours) then withTri T
          else λ x, x) <$> simplices s !! q.
Proof.
  intros HT HU Hmine Hyours.
  unfold swapContents.
  rewrite (bind_Ok _ _ _ _ _ (getVec_Ok _ _ _ Hmine)).
  rewrite (bind_Ok _ _ _ _ _ (getVec_Ok _ _ _ Hyours)).
  set (s1 := setVec U mine (setVec T yours s)).
  rewrite (bind_Ok _ _ s tt s1) by done.
  assert (HT1 : triangulations s1 !! T = Some yours).
  { subst s1. simpl. destruct (decide (U = T)) as [->|Hne].
    - rewrite lookup_insert_eq. congruence.
    - rewrite lookup_insert_ne by done. by rewrite lookup_insert_eq. }
  assert (HU1 : triangulations s1 !! U = Some mine).
  { subst s1. simpl. by rewrite lookup_insert_eq. }
  rewrite (bind_Ok _ _ _ _ _ (getVec_Ok _ _ _ HT1)).
  destruct (forM_modify (withTri T) yours s1 (withTri_idem T)) as
    (s2 & Hrun2 & Ht2 & Hn2 & Hd2 & Hs2).
  { intros p Hp. subst s1; simpl. eapply triOk_live; eauto. }
  rewrite (bind_Ok _ _ _ _ _ Hrun2).
  rewrite <- Ht2 in HT1, HU1.
  rewrite (bind_Ok _ _ _ _ _ (getVec_Ok _ _ _ HU1)).
  destruct (forM_modify (withTri U) mine s2 (withTri_idem U)) as
    (s3 & Hrun3 & Ht3 & Hn3 & Hd3 & Hs3).
  { intros p Hp. rewrite Hs2. subst s1; simpl.
    destruct (triOk_live dim s T mine p HT Hmine Hp) as [x Hx]. rewrite Hx.
    case_bool_decide; simpl; eauto. }
  exists s3. split; [done|].
  split. { by rewrite Ht3, Ht2. }
  split. { by rewrite Hn3, Hn2. }
  split. { by rewrite Hd3, Hd2. }
  intros q. rewrite Hs3, Hs2. subst s1; simpl.
  destruct (simplices s !! q) as [x|]; repeat case_bool_decide; done.
Qed.

(** Two distinct well-formed triangulations share no simplex. *)
Lemma triOk_disjoint dim s T U mine yours p :
  triOk dim s T = true → triOk dim s U = true →
  triangulations s !! T = Some mine →
  triangulations s !! U = Some yours →
  p ∈ mine → p ∈ yours → T = U.
Proof.
  intros HT HU Hmine Hyours [i Hi]%list_elem_of_lookup [j Hj]%list_elem_of_lookup.
  destruct (triOk_vec _ _ _ _ HT Hmine i p Hi) as (x & Hx & _ & Hxt & _).
  destruct (triOk_vec _ _ _ _ HU Hyours j p Hj) as (x' & Hx' & _ & Hxt' & _).
  congruence.
Qed.

(** X6: Swapping twice gives back the store one started from: every simplex is
    again owned by its first container and nothing else has moved. *)
Theorem swapContents_involutive dim s T U :
  triOk dim s T = true → triOk dim s U = true →
  (swapContents T U;; swapContents T U) s = Ok tt s.
Proof.
  intros HT HU.
  destruct (triOk_elim dim s T HT) as (mine & Hmine & _).
  destruct (triOk_elim dim s U HU) as (yours & Hyours & _).
  destruct (swapContents_exact dim s T U mine yours HT HU Hmine Hyours)
    as (s1 & Hrun1 & Hv1 & Hn1 & Hd1 & Hs1).
  eapply run_bind; [exact Hrun1|].
  assert (HT1 : triangulations s1 !! T = Some yours).
  { rewrite Hv1. destruct (decide (U = T)) as [->|Hne].
    - rewrite lookup_insert_eq. congruence.
    - rewrite lookup_insert_ne by done. by rewrite lookup_insert_eq. }
  assert (HU1 : triangulations s1 !! U = Some mine).
  { rewrite Hv1. by rewrite lookup_insert_eq. }
  (* the second swap, replayed on the store of the first *)
  unfold swapContents.
  rewrite (bind_Ok _ _ _ _ _ (getVec_Ok _ _ _ HT1)).
  rewrite (bind_Ok _ _ _ _ _ (getVec_Ok _ _ _ HU1)).
  set (s2 := setVec U yours (setVec T mine s1)).
  rewrite (bind_Ok _ _ s1 tt s2) by done.
  assert (HT2 : triangulations s2 !! T = Some mine).
  { subst s2. simpl. destruct (decide (U = T)) as [->|Hne].
    - rewrite lookup_insert_eq. congruence.
    - rewrite lookup_insert_ne by done. by rewrite lookup_insert_eq. }
  assert (HU2 : triangulations s2 !! U = Some yours).
  { subst s2. simpl. by rewrite lookup_insert_eq. }
  assert (Hlive1 : ∀ p, p ∈ mine ∨ p ∈ yours → is_Some (simplices s1 !! p)).
  { intros p Hp. rewrite Hs1.
    assert (is_Some (simplices s !! p)) as [x ->].
    { destruct Hp; [apply (triOk_live dim s T mine)|apply (triOk_live dim s U yours)]; done. }
    simpl. eauto. }
  rewrite (bind_Ok _ _ _ _ _ (getVec_Ok _ _ _ HT2)).
  destruct (forM_modify (withTri T) mine s2 (withTri_idem T)) as
    (s3 & Hrun3 & Ht3 & Hn3 & Hd3 & Hs3).
  { intros p Hp. subst s2; simpl. apply Hlive1. by left. }
  rewrite (bind_Ok _ _ _ _ _ Hrun3).
  rewrite <- Ht3 in HT2, HU2.
  rewrite (bind_Ok _ _ _ _ _ (getVec_Ok _ _ _ HU2)).
  destruct (forM_modify (withTri U) yours s3 (withTri_idem U)) as
    (s4 & Hrun4 & Ht4 & Hn4 & Hd4 & Hs4).
  { intros p Hp. rewrite Hs3. subst s2; simpl.
    destruct (Hlive1 p) as [x ->]; [auto|].
    case_bool_decide; simpl; eauto. }
  rewrite Hrun4. f_equal. apply State_ext.
  - intros q. rewrite Hs4, Hs3. subst s2; simpl. rewrite Hs1.
    destruct (simplices s !! q) as [x|] eqn:Hx;
      [|repeat case_bool_decide; done].
    assert (Hm : q ∈ mine → tri_ x = T).
    { intros [i Hi]%list_elem_of_lookup.
      destruct (triOk_vec _ _ _ _ HT Hmine i q Hi) as (x' & Hx' & _ & ? & _).
      congruence. }
    assert (Hy : q ∈ yours → tri_ x = U).
    { intros [i Hi]%list_elem_of_lookup.
      destruct (triOk_vec _ _ _ _ HU Hyours i q Hi) as (x' & Hx' & _ & ? & _).
      congruence. }
    repeat case_bool_decide; simpl; f_equal;
      try specialize (Hm ltac:(done)); try specialize (Hy ltac:(done));
      destruct x; unfold withTri; simpl in *; congruence.
  - rewrite Ht4, Ht3. subst s2; simpl. rewrite Hv1.
    apply map_eq. intros t.
    destruct (decide (t = U)) as [->|HnU].
    { rewrite lookup_insert_eq. congruence. }
    rewrite lookup_insert_ne by done.
    destruct (decide (t = T)) as [->|HnT].
    { rewrite lookup_insert_eq. congruence. }
    by rewrite !lookup_insert_ne by done.
  - by rewrite Hn4, Hn3; subst s2; simpl.
  - by rewrite Hd4, Hd3; subst s2; simpl.
Qed.

(** X7: It does not matter which of the two triangulations is asked to swap. *)
Theorem swapContents_commutes dim s T U :
  triOk dim s T = true → triOk dim s U = true →
  swapContents T U s = swapContents U T s.
Proof.
  intros HT HU.
  destruct (triOk_elim dim s T HT) as (mine & Hmine & _).
  destruct (triOk_elim dim s U HU) as (yours & Hyours & _).
  destruct (swapContents_exact dim s T U mine yours HT HU Hmine Hyours)
    as (s1 & Hrun1 & Hv1 & Hn1 & Hd1 & Hs1).
  destruct (swapContents_exact dim s U T yours mine HU HT Hyours Hmine)
    as (s2 & Hrun2 & Hv2 & Hn2 & Hd2 & Hs2).
  rewrite Hrun1, Hrun2. f_equal. apply State_ext.
  - intros q. rewrite Hs1, Hs2.
    destruct (simplices s !! q) as [x|]; [|repeat case_bool_decide; done].
    repeat case_bool_decide; try done.
    assert (T = U) as -> by (eapply triOk_disjoint; eauto). done.
  - rewrite Hv1, Hv2. destruct (decide (T = U)) as [->|Hne].
    + rewrite !insert_insert_eq. congruence.
    + by rewrite insert_insert_ne.
  - congruence.
  - congruence.
Qed.

(** X8: After the swap both triangulations are well formed again, each with
    the simplices of the other. *)
Theorem swapContents_wellformed dim s T U :
  triOk dim s T = true → triOk dim s U = true →
  ∃ s', swapContents T U s = Ok tt s' ∧
        triOk dim s' T = true ∧ triOk dim s' U = true ∧
        triangulations s' !! T = triangulations s !! U ∧
        triangulations s' !! U = triangulations s !! T.
Proof.
  intros HT HU.
  destruct (triOk_elim dim s T HT) as (mine & Hmine & _).
  destruct (triOk_elim dim s U HU) as (yours & Hyours & _).
  destruct (swapContents_exact dim s T U mine yours HT HU Hmine Hyours)
    as (s1 & Hrun1 & Hv1 & Hn1 & Hd1 & Hs1).
  assert (HT1 : triangulations s1 !! T = Some yours).
  { rewrite Hv1. destruct (decide (U = T)) as [->|Hne].
    - rewrite lookup_insert_eq. congruence.
    - rewrite lookup_insert_ne by done. by rewrite lookup_insert_eq. }
  assert (HU1 : triangulations s1 !! U = Some mine).
  { rewrite Hv1. by rewrite lookup_insert_eq. }
  assert (Hfields : ∀ q x, simplices s !! q = Some x →
    ∃ x', simplices s1 !! q = Some x' ∧ adj_ x' = adj_ x ∧
          gluing_ x' = gluing_ x ∧ index_ x' = index_ x ∧
          facetLocks_ x' = facetLocks_ x ∧
          tri_ x' = (if bool_decide (q ∈ mine) then U
                     else if bool_decide (q ∈ yours) then T else tri_ x)).
  { intros q x Hx. rewrite Hs1, Hx.
    repeat case_bool_decide; simpl; eexists; (split; [reflexivity|]); done. }
  assert (Hgen : ∀ A B va vb,
    triOk dim s A = true → triangulations s !! A = Some va →
    triangulations s !! B = Some vb → triangulations s1 !! B = Some va →
    (∀ q, q ∈ va → (if bool_decide (q ∈ mine) then U
                     else if bool_decide (q ∈ yours) then T else A) = B) →
    triOk dim s1 B = true).
  { intros A B va vb HA Hva Hvb Hva1 Htag.
    apply (triOk_intro dim s1 B va Hva1). intros i p Hp.
    destruct (triOk_vec _ _ _ _ HA Hva i p Hp)
      as (x & Hx & Hxi & Hxt & Hla & Hlg & Hlf & Hadj & Hperm).
    destruct (Hfields p x Hx) as (x' & Hx' & Ea & Eg & Ei & El & Et).
    exists x'. rewrite Ea, Eg, Ei, El.
    repeat split; auto.
    - rewrite Et. rewrite <- (Htag p); [|by eapply list_elem_of_lookup_2].
      repeat case_bool_decide; congruence.
    - intros f q Hq. destruct (Hadj f q Hq) as (y & Hy & Hvy).
      destruct (Hfields q y Hy) as (y' & Hy' & _ & _ & Ei' & _).
      exists y'. split; [done|]. by rewrite Ei'. }
  exists s1. split; [done|]. split; [|split; [|split; congruence]].
  - apply (Hgen U T yours mine HU Hyours Hmine HT1).
    intros q Hq. repeat case_bool_decide; try done.
    symmetry. eapply triOk_disjoint; eauto.
  - apply (Hgen T U mine yours HT Hmine Hyours HU1).
    intros q Hq. repeat case_bool_decide; done.
Qed.

(** ** [removeAllSimplices], [moveContentsTo], [hasBoundaryFacets] *)

Lemma deleteLive_Ok p s x :
  simplices s !! p = Some x →
  deleteLive p s =
  Ok tt (mkState (delete p (simplices s)) (triangulations s)
                 (nextPtr s) (nextTid s)).
Proof.
  intros Hx. unfold deleteLive.
  eapply run_bind; [by apply deref_Ok|]. reflexivity.
Qed.

Lemma deleteLive_loop v s :
  NoDup v → (∀ p, p ∈ v → is_Some (simplices s !! p)) →
  ∃ s', forM v deleteLive s = Ok tt s' ∧
    triangulations s' = triangulations s ∧
    nextPtr s' = nextPtr s ∧ nextTid s' = nextTid s ∧
    ∀ q, simplices s' !! q =
         if bool_decide (q ∈ v) then None else simplices s !! q.
Proof.
  revert s. induction v as [|p v IH]; intros s Hnd Hlive.
  - exists s. repeat split; try done.
  - apply NoDup_cons in Hnd as [Hp Hnd].
    destruct (Hlive p) as [x Hx]; [by left|].
    set (s1 := mkState (delete p (simplices s)) (triangulations s)
                       (nextPtr s) (nextTid s)).
    destruct (IH s1 Hnd) as (s' & Hrun & Ht & Hn & Hd & Hs).
    { intros q Hq. subst s1; simpl. rewrite lookup_delete_ne.
      - apply Hlive. by right.
      - intros ->. done. }
    exists s'. split.
    { cbn [forM]. eapply run_bind; [by eapply deleteLive_Ok|]. exact Hrun. }
    repeat split; try done.
    intros q. rewrite Hs. subst s1; simpl.
    destruct (decide (q = p)) as [->|Hne].
    + rewrite lookup_delete_eq.
      rewrite (bool_decide_eq_true_2 (p ∈ p :: v)) by by left.
      by case_bool_decide.
    + rewrite lookup_delete_ne by done.
      repeat case_bool_decide; try done.
      * exfalso. apply H0. by right.
      * exfalso. apply elem_of_cons in H0 as [?|?]; done.
Qed.

(** X9: [removeAllSimplices] empties the triangulation, deletes each of its
    simplices and nothing else, and leaves every other triangulation as it
    was. *)
Theorem removeAllSimplices_spec dim s T v :
  triOk dim s T = true → triangulations s !! T = Some v →
  ∃ s', removeAllSimplices T s = Ok tt s' ∧
    triangulations s' !! T = Some [] ∧
    isEmpty T s' = Ok true s' ∧
    triOk dim s' T = true ∧
    (∀ p, p ∈ v → simplices s' !! p = None) ∧
    (∀ p, p ∉ v → simplices s' !! p = simplices s !! p) ∧
    (∀ t, t ≠ T → triangulations s' !! t = triangulations s !! t).
Proof.
  intros Hok Hv.
  destruct (deleteLive_loop v s) as (s1 & Hrun & Ht & Hn & Hd & Hs).
  { eapply triOk_NoDup; eauto. }
  { intros p Hp. eapply triOk_live; eauto. }
  exists (setVec T [] s1).
  assert (HT' : triangulations (setVec T [] s1) !! T = Some []).
  { simpl. by rewrite lookup_insert_eq. }
  split.
  { unfold removeAllSimplices.
    eapply run_bind; [by apply getVec_Ok|].
    eapply run_bind; [exact Hrun|]. reflexivity. }
  split; [done|]. split.
  { unfold isEmpty. eapply run_bind; [by apply getVec_Ok|]. reflexivity. }
  split.
  { apply (triOk_intro dim _ T [] HT'). intros i p Hp. done. }
  split; [|split].
  - intros p Hp. simpl. rewrite Hs. by rewrite bool_decide_eq_true_2.
  - intros p Hp. simpl. rewrite Hs. by rewrite bool_decide_eq_false_2.
  - intros t Hne. simpl. rewrite lookup_insert_ne by done. by rewrite Ht.
Qed.

Lemma moveContentsTo_loop dim s T D mine theirs :
  triOk dim s T = true → T ≠ D →
  triangulations s !! T = Some mine →
  triangulations s !! D = Some theirs →
  ∃ s', forM mine (λ p,
          modify p (withTri D);;
          d ← getVec D;
          modify p (withIndex (length d));;
          update (setVec D (d ++ [p]))) s = Ok tt s' ∧
    triangulations s' = <[D := theirs ++ mine]> (triangulations s) ∧
    nextPtr s' = nextPtr s ∧ nextTid s' = nextTid s ∧
    ∀ q, simplices s' !! q =
         (if bool_decide (q ∈ mine) then moved D (length theirs)
          else λ x, x) <$> simplices s !! q.
Proof.
  intros Hok Hne Hmine Htheirs.
  destruct (forM_inv mine
    (λ p, modify p (withTri D);; d ← getVec D;
          modify p (withIndex (length d));; update (setVec D (d ++ [p])))
    (λ i s',
       triangulations s' = <[D := theirs ++ take i mine]> (triangulations s) ∧
       nextPtr s' = nextPtr s ∧ nextTid s' = nextTid s ∧
       ∀ q, simplices s' !! q =
            (if bool_decide (q ∈ take i mine) then moved D (length theirs)
             else λ x, x) <$> simplices s !! q) s)
    as (s' & Hrun & Ht & Hn & Hd & Hs).
  - split; [|split; [done|split; [done|]]].
    + rewrite take_0, app_nil_r. by rewrite insert_id.
    + intros q. rewrite take_0.
      rewrite bool_decide_eq_false_2 by apply not_elem_of_nil.
      by destruct (simplices s !! q).
  - intros i p s1 Hp (Ht & Hn & Hd & Hs).
    destruct (triOk_vec _ _ _ _ Hok Hmine i p Hp) as (x & Hx & Hxi & _).
    assert (Hnot : p ∉ take i mine).
    { intros [j Hj]%list_elem_of_lookup.
      apply lookup_take_Some in Hj as [Hj Hlt].
      pose proof (triOk_NoDup _ _ _ _ Hok Hmine) as Hnd.
      assert (i = j) by (eapply NoDup_lookup; eauto). lia. }
    assert (Hx1 : simplices s1 !! p = Some x).
    { rewrite Hs, Hx. by rewrite bool_decide_eq_false_2. }
    eexists. split.
    { eapply run_bind; [by eapply modify_Ok|].
      eapply run_bind.
      { apply getVec_Ok. simpl. rewrite Ht. apply lookup_insert_eq. }
      eapply run_bind.
      { eapply modify_Ok. simpl. apply lookup_insert_eq. }
      reflexivity. }
    simpl. split; [|split; [done|split; [done|]]].
    + rewrite Ht, insert_insert_eq. f_equal.
      rewrite (take_S_r _ _ _ Hp). by rewrite app_assoc.
    + intros q. rewrite (take_S_r _ _ _ Hp).
      destruct (decide (q = p)) as [->|Hqp].
      * rewrite lookup_insert_eq, Hx.
        rewrite bool_decide_eq_true_2 by (apply elem_of_app; right; by left).
        simpl. f_equal. unfold moved.
        rewrite length_app, length_take_le
          by (apply lookup_lt_Some in Hp; lia).
        by rewrite Hxi.
      * rewrite !lookup_insert_ne by done. rewrite Hs.
        destruct (simplices s !! q); [|by repeat case_bool_decide].
        repeat case_bool_decide; try done.
        -- exfalso. apply H0, elem_of_app. by left.
        -- exfalso. apply elem_of_app in H0 as [?|?%list_elem_of_singleton];
             done.
  - exists s'. rewrite firstn_all in Ht, Hs. done.
Qed.

(** X10: [T.moveContentsTo(D)] into another triangulation: [T] ends up empty,
    its simplices follow those of [D] in their old order, they are the same
    objects with the same gluings, descriptions and locks, owned by [D] and
    re-indexed behind the simplices [D] had; [D] is well formed again, and
    nothing else in the store is touched. *)
Theorem moveContentsTo_spec dim s T D mine theirs :
  triOk dim s T = true → triOk dim s D = true → T ≠ D →
  triangulations s !! T = Some mine →
  triangulations s !! D = Some theirs →
  ∃ s', moveContentsTo T D s = Ok tt s' ∧
    triangulations s' !! T = Some [] ∧
    triangulations s' !! D = Some (theirs ++ mine) ∧
    triOk dim s' T = true ∧ triOk dim s' D = true ∧
    (∀ t, t ≠ T → t ≠ D → triangulations s' !! t = triangulations s !! t) ∧
    (∀ p, p ∉ mine → simplices s' !! p = simplices s !! p) ∧
    (∀ p x, p ∈ mine → simplices s !! p = Some x →
       ∃ x', simplices s' !! p = Some x' ∧
         adj_ x' = adj_ x ∧ gluing_ x' = gluing_ x ∧
         description_ x' = description_ x ∧
         facetLocks_ x' = facetLocks_ x ∧ simplexLock_ x' = simplexLock_ x ∧
         tri_ x' = D ∧ index_ x' = length theirs + index_ x).
Proof.
  intros HT HD Hne Hmine Htheirs.
  destruct (moveContentsTo_loop dim s T D mine theirs HT Hne Hmine Htheirs)
    as (s1 & Hrun & Ht & Hn & Hd & Hs).
  exists (setVec T [] s1).
  assert (HT' : triangulations (setVec T [] s1) !! T = Some []).
  { simpl. by rewrite lookup_insert_eq. }
  assert (HD' : triangulations (setVec T [] s1) !! D = Some (theirs ++ mine)).
  { simpl. rewrite lookup_insert_ne by done. rewrite Ht.
    by rewrite lookup_insert_eq. }
  split.
  { unfold moveContentsTo. eapply run_bind; [by apply getVec_Ok|].
    rewrite bool_decide_eq_false_2 by (intros [? _]; done).
    eapply run_bind; [exact Hrun|]. reflexivity. }
  split; [done|]. split; [done|].
  split. { apply (triOk_intro dim _ T [] HT'). intros i p Hp. done. }
  split.
  { apply (triOk_intro dim _ D _ HD'). intros i p Hp. simpl.
    assert (Hfields : ∀ q y, simplices s !! q = Some y →
      ∃ y', simplices s1 !! q = Some y' ∧ adj_ y' = adj_ y ∧
        gluing_ y' = gluing_ y ∧ facetLocks_ y' = facetLocks_ y ∧
        (q ∈ mine → tri_ y' = D ∧ index_ y' = length theirs + index_ y) ∧
        (q ∉ mine → y' = y)).
    { intros q y Hy. rewrite Hs, Hy. case_bool_decide; simpl;
        eexists; (split; [reflexivity|]); repeat split; done. }
    assert (Htarget : ∀ A va q y,
      triOk dim s A = true → triangulations s !! A = Some va →
      (A = T ∨ A = D) →
      simplices s !! q = Some y → va !! index_ y = Some q →
      ∃ y', simplices s1 !! q = Some y' ∧
            (theirs ++ mine) !! index_ y' = Some q).
    { intros A va q y HA Hva HAT Hy Hvy.
      destruct (Hfields q y Hy) as (y' & Hy' & _ & _ & _ & Hin & Hout).
      exists y'. split; [done|].
      destruct HAT as [-> | ->].
      - assert (va = mine) as -> by congruence.
        destruct Hin as [_ ->]; [by eapply list_elem_of_lookup_2|].
        rewrite lookup_app_r by lia.
        by replace (length theirs + index_ y - length theirs) with (index_ y)
          by lia.
      - assert (va = theirs) as -> by congruence.
        rewrite Hout.
        + by apply lookup_app_l_Some.
        + intros Hq. apply Hne. symmetry.
          eapply (triOk_disjoint dim s D T theirs mine q); eauto.
          by eapply list_elem_of_lookup_2. }
    apply lookup_app_Some in Hp as [Hp|[Hlen Hp]].
    - destruct (triOk_vec _ _ _ _ HD Htheirs i p Hp)
        as (x & Hx & Hxi & Hxt & Hla & Hlg & Hlf & Hadj & Hperm).
      destruct (Hfields p x Hx) as (x' & Hx' & Ea & Eg & El & _ & Hout).
      assert (x' = x) as ->.
      { apply Hout. intros Hq. apply Hne. symmetry.
        eapply (triOk_disjoint dim s D T theirs mine p); eauto.
        by eapply list_elem_of_lookup_2. }
      exists x. repeat split; auto.
      intros f q Hq. destruct (Hadj f q Hq) as (y & Hy & Hvy).
      eapply (Htarget D theirs); eauto.
    - destruct (triOk_vec _ _ _ _ HT Hmine _ p Hp)
        as (x & Hx & Hxi & Hxt & Hla & Hlg & Hlf & Hadj & Hperm).
      destruct (Hfields p x Hx) as (x' & Hx' & Ea & Eg & El & Hin & _).
      destruct Hin as [Et Ei]; [by eapply list_elem_of_lookup_2|].
      exists x'. rewrite Ea, Eg, El. repeat split; auto.
      + rewrite Ei, Hxi. lia.
      + intros f q Hq. destruct (Hadj f q Hq) as (y & Hy & Hvy).
        eapply (Htarget T mine); eauto. }
  split.
  { intros t HnT HnD. simpl. rewrite lookup_insert_ne by done.
    rewrite Ht. by rewrite lookup_insert_ne. }
  split.
  { intros p Hp. simpl. rewrite Hs. rewrite bool_decide_eq_false_2 by done.
    by destruct (simplices s !! p). }
  intros p x Hp Hx. simpl. rewrite Hs, Hx.
  rewrite bool_decide_eq_true_2 by done. simpl.
  eexists. split; [reflexivity|]. done.
Qed.

(** X11: Moving the contents into an empty triangulation is the same as swapping
    with it. *)
Theorem moveContentsTo_empty_is_swap dim s T D :
  triOk dim s T = true → triOk dim s D = true → T ≠ D →
  triangulations s !! D = Some [] →
  moveContentsTo T D s = swapContents T D s.
Proof.
  intros HT HD Hne HDv.
  destruct (triOk_elim dim s T HT) as (mine & Hmine & _).
  destruct (moveContentsTo_loop dim s T D mine [] HT Hne Hmine HDv)
    as (s1 & Hrun & Ht & Hn & Hd & Hs).
  destruct (swapContents_exact dim s T D mine [] HT HD Hmine HDv)
    as (s2 & Hrun2 & Ht2 & Hn2 & Hd2 & Hs2).
  rewrite Hrun2.
  unfold moveContentsTo. eapply run_bind; [by apply getVec_Ok|].
  rewrite bool_decide_eq_false_2 by (intros [? _]; done).
  eapply run_bind; [exact Hrun|].
  unfold update. f_equal. apply State_ext; simpl.
  - intros q. rewrite Hs, Hs2.
    destruct (simplices s !! q) as [x|]; [|by repeat case_bool_decide].
    case_bool_decide; [|by rewrite bool_decide_eq_false_2
                          by apply not_elem_of_nil].
    simpl. reflexivity.
  - rewrite Ht, Ht2. simpl. by rewrite insert_insert_ne.
  - congruence.
  - congruence.
Qed.

Lemma existsM_pure {A} (l : list A) (test : A → M bool) (P : A → bool) s :
  (∀ x, x ∈ l → test x s = Ok (P x) s) →
  existsM l test s = Ok (existsb P l) s.
Proof.
  induction l as [|x l IH]; intros H; [done|].
  cbn [existsM existsb]. eapply run_bind; [apply H; by left|].
  destruct (P x); [done|]. apply IH. intros y Hy. apply H. by right.
Qed.

Lemma hasBoundary_slot dim x :
  hasBoundary dim x = true ↔ ∃ f, f ≤ dim ∧ adj_ x !! f = Some None.
Proof.
  unfold hasBoundary. rewrite existsb_exists. split.
  - intros (f & Hf & Hb). apply bool_decide_eq_true in Hb.
    apply in_seq in Hf. exists f. split; [lia|done].
  - intros (f & Hf & Hb). exists f. split.
    + apply in_seq. lia.
    + by apply bool_decide_eq_true.
Qed.

Lemma hasBoundaryFacets_characterised dim s T v :
  triOk dim s T = true → triangulations s !! T = Some v →
  ∃ b, hasBoundaryFacets dim T s = Ok b s ∧
       (b = true ↔ ∃ p f, p ∈ v ∧ f ≤ dim ∧ slotAt s p f = Some None) ∧
       (v = [] → b = false).
Proof.
  intros Hok Hv.
  set (P := λ p, match simplices s !! p with
                 | Some x => hasBoundary dim x | None => false end).
  exists (existsb P v). split; [|split].
  - unfold hasBoundaryFacets. eapply run_bind; [by apply getVec_Ok|].
    apply existsM_pure. intros p Hp.
    destruct (triOk_live dim s T v p Hok Hv Hp) as [x Hx].
    eapply run_bind; [by apply deref_Ok|]. unfold P. by rewrite Hx.
  - rewrite existsb_exists. split.
    + intros (p & Hp & Hb). apply list_elem_of_In in Hp. unfold P in Hb.
      destruct (simplices s !! p) as [x|] eqn:Hx; [|done].
      apply hasBoundary_slot in Hb as (f & Hf & Hb).
      exists p, f. repeat split; auto.
      unfold slotAt. rewrite Hx. simpl. unfold facetSlot. rewrite Hb.
      apply list_elem_of_lookup in Hp as [i Hi].
      destruct (triOk_vec _ _ _ _ Hok Hv i p Hi)
        as (x' & Hx' & _ & _ & Hla & Hlg & _).
      assert (x' = x) as -> by congruence.
      destruct (lookup_lt_is_Some_2 (gluing_ x) f) as [g ->]; [lia|done].
    + intros (p & f & Hp & Hf & Hb). exists p. split.
      { by apply list_elem_of_In. }
      unfold P. unfold slotAt in Hb.
      destruct (simplices s !! p) as [x|]; [|done]. simpl in Hb.
      apply hasBoundary_slot. exists f. split; [done|].
      unfold facetSlot in Hb.
      destruct (adj_ x !! f) as [[q|]|]; try done.
      by destruct (gluing_ x !! f).
  - by intros ->.
Qed.

(** X12: [hasBoundaryFacets] reads the store without changing it, and answers
    true exactly when some simplex of the triangulation has a boundary
    facet; an empty triangulation has none. *)
Theorem hasBoundaryFacets_spec dim s T v :
  triOk dim s T = true → triangulations s !! T = Some v →
  ∃ b, hasBoundaryFacets dim T s = Ok b s ∧
       (b = true ↔ ∃ p f, p ∈ v ∧ f ≤ dim ∧ slotAt s p f = Some None) ∧
       (v = [] → b = false).
Proof. apply hasBoundaryFacets_characterised. Qed.

(** ** Permutations: the inverse *)

(** A valid permutation of [n] points reaches every point below [n]. *)
Lemma Perm_valid_mem n p j : Perm.valid n p = true → j < n → j ∈ p.
Proof.
  intros (Hlen & Hnd & Hall)%Perm_valid_elim Hj.
  assert (Hperm : p ≡ₚ seq 0 n).
  { apply submseteq_length_Permutation.
    - apply NoDup_submseteq; [done|]. intros x Hx.
      rewrite Forall_forall in Hall. apply elem_of_seq.
      specialize (Hall x Hx). lia.
    - rewrite length_seq. lia. }
  rewrite Hperm. apply elem_of_seq. lia.
Qed.

Lemma Perm_preimage_lt p j : j ∈ p → Perm.preimage p j < length p.
Proof.
  intros Hj. eapply lookup_lt_Some. by apply Perm_preimage_lookup.
Qed.

Lemma Perm_inverse_lookup n p j :
  Perm.valid n p = true → j < n →
  Perm.inverse p !! j = Some (Perm.preimage p j).
Proof.
  intros (Hlen & _)%Perm_valid_elim Hj.
  change (Perm.inverse p !! j)
    with ((Perm.preimage p <$> seq 0 (length p) : list nat) !! j).
  by rewrite list_lookup_fmap, lookup_seq_lt by lia.
Qed.

Lemma Perm_inverse_valid n p :
  Perm.valid n p = true → Perm.valid n (Perm.inverse p) = true.
Proof.
  intros Hv. destruct (Perm_valid_elim _ _ Hv) as (Hlen & Hnd & Hall).
  unfold Perm.valid. apply bool_decide_eq_true.
  assert (Hl : length (Perm.inverse p) = n).
  { unfold Perm.inverse. by rewrite length_fmap, length_seq. }
  split; [done|]. split.
  - apply NoDup_alt. intros i j x Hi Hj.
    assert (i < n) by (rewrite <- Hl; eapply lookup_lt_Some; eauto).
    assert (j < n) by (rewrite <- Hl; eapply lookup_lt_Some; eauto).
    rewrite (Perm_inverse_lookup n) in Hi, Hj by done.
    pose proof (Perm_preimage_lookup p i (Perm_valid_mem n p i Hv ltac:(done))).
    pose proof (Perm_preimage_lookup p j (Perm_valid_mem n p j Hv ltac:(done))).
    congruence.
  - apply Forall_lookup. intros j x Hx.
    assert (j < n) by (rewrite <- Hl; eapply lookup_lt_Some; eauto).
    rewrite (Perm_inverse_lookup n) in Hx by done.
    injection Hx as <-. rewrite <- Hlen.
    apply Perm_preimage_lt. by eapply Perm_valid_mem.
Qed.

(** [p(p^-1(j)) = j]. *)
Lemma Perm_apply_inverse n p j :
  Perm.valid n p = true → j < n →
  Perm.apply p (Perm.apply (Perm.inverse p) j) = j.
Proof.
  intros Hv Hj.
  pose proof (Perm_inverse_valid n p Hv) as Hvi.
  destruct (Perm_valid_elim _ _ Hvi) as (Hli & _).
  pose proof (Perm_apply_lookup (Perm.inverse p) j ltac:(lia)) as Hlk.
  rewrite (Perm_inverse_lookup n) in Hlk by done.
  injection Hlk as <-.
  pose proof (Perm_preimage_lookup p j (Perm_valid_mem n p j Hv Hj)) as Hpre.
  unfold Perm.apply. by apply nth_lookup_Some with (d := Perm.preimage p j).
Qed.

(** [(p^-1)^-1 = p]. *)
Lemma Perm_inverse_inverse n p :
  Perm.valid n p = true → Perm.inverse (Perm.inverse p) = p.
Proof.
  intros Hv.
  pose proof (Perm_inverse_valid n p Hv) as Hvi.
  pose proof (Perm_inverse_valid n _ Hvi) as Hvii.
  destruct (Perm_valid_elim _ _ Hv) as (Hl & Hnd & _).
  destruct (Perm_valid_elim _ _ Hvi) as (Hli & Hndi & _).
  destruct (Perm_valid_elim _ _ Hvii) as (Hlii & _).
  apply list_eq_same_length with n; [done|done|].
  intros i x y Hi Hx Hy.
  rewrite (Perm_inverse_lookup n) in Hx by done. injection Hx as <-.
  rewrite (Perm_apply_lookup p i) in Hy by lia. injection Hy as <-.
  eapply NoDup_lookup; [exact Hndi| |].
  - apply Perm_preimage_lookup. by eapply Perm_valid_mem.
  - rewrite (Perm_apply_lookup (Perm.inverse p)).
    + f_equal. by eapply Perm_inverse_apply.
    + rewrite Hli. by eapply Perm_apply_lt.
Qed.

(** ** [puncture] keeps the triangulation well formed *)

Lemma shapeAt_setSlot p f q g s r :
  shapeAt (setSlot p f q g s) r = shapeAt s r.
Proof.
  unfold shapeAt, setSlot; simpl. rewrite lookup_alter.
  case_decide; [subst|done].
  destruct (simplices s !! r) as [x|]; [|done]. simpl.
  by rewrite !length_insert.
Qed.

Lemma shapeAt_clearSlot p f s r : shapeAt (clearSlot p f s) r = shapeAt s r.
Proof.
  unfold shapeAt, clearSlot; simpl. rewrite lookup_alter.
  case_decide; [subst|done].
  destruct (simplices s !! r) as [x|]; [|done]. simpl.
  by rewrite !length_insert.
Qed.

Lemma shapeAt_allocated_other dim T d s r :
  r ≠ nextPtr s → shapeAt (allocated dim T d s) r = shapeAt s r.
Proof. intros H. unfold shapeAt. by rewrite simplices_allocated_ne. Qed.

Lemma shapeAt_allocated_new dim T d s v :
  triangulations s !! T = Some v →
  shapeAt (allocated dim T d s) (nextPtr s) =
  Some (length v, T, S dim, S dim, S dim).
Proof.
  intros Hv. unfold shapeAt, allocated; simpl.
  rewrite lookup_insert_eq, Hv. unfold freshSimplex.
  cbn [fmap option_fmap option_map index_ tri_ adj_ gluing_ facetLocks_].
  by rewrite !length_replicate.
Qed.

Lemma permsValid_setSlot n p f q g s r :
  Perm.valid n g = true → permsValid n s r = true →
  permsValid n (setSlot p f q g s) r = true.
Proof.
  intros Hg. unfold permsValid, setSlot; simpl. rewrite lookup_alter.
  case_decide; [subst|done].
  destruct (simplices s !! r) as [x|]; [|done]. simpl.
  rewrite !forallb_forall. intros H h Hh.
  apply list_elem_of_In, list_elem_of_lookup in Hh as [i Hi].
  destruct (decide (i = f)) as [->|Hne].
  - apply list_lookup_insert_Some in Hi as [(_ & <- & _)|[? _]]; done.
  - rewrite list_lookup_insert_ne in Hi by done.
    apply H, list_elem_of_In. by eapply list_elem_of_lookup_2.
Qed.

Lemma permsValid_clearSlot n p f s r :
  permsValid n (clearSlot p f s) r = permsValid n s r.
Proof.
  unfold permsValid, clearSlot; simpl. rewrite lookup_alter.
  case_decide; [subst|done]. by destruct (simplices s !! r).
Qed.

Lemma permsValid_allocated dim T d s r :
  permsValid (S dim) s r = true →
  permsValid (S dim) (allocated dim T d s) r = true.
Proof.
  unfold permsValid, allocated; simpl.
  destruct (decide (r = nextPtr s)) as [->|Hne].
  - intros _. rewrite lookup_insert_eq. unfold freshSimplex. cbn [gluing_].
    apply forallb_forall. intros h Hh.
    apply list_elem_of_In, list_elem_of_lookup in Hh as [i Hi].
    apply lookup_replicate in Hi as [-> _]. apply Perm_id_valid.
  - by rewrite lookup_insert_ne.
Qed.

Lemma permsValid_elim n s p x f g :
  permsValid n s p = true → simplices s !! p = Some x →
  gluing_ x !! f = Some g → Perm.valid n g = true.
Proof.
  unfold permsValid. intros H Hx Hg. rewrite Hx in H.
  rewrite forallb_forall in H. apply H, list_elem_of_In.
  by eapply list_elem_of_lookup_2.
Qed.

Lemma permsValid_triOk dim s T v p :
  triOk dim s T = true → triangulations s !! T = Some v → p ∈ v →
  permsValid (S dim) s p = true.
Proof.
  intros Hok Hv [i Hi]%list_elem_of_lookup.
  destruct (triOk_vec _ _ _ _ Hok Hv i p Hi)
    as (x & Hx & _ & _ & _ & _ & _ & _ & Hperm).
  unfold permsValid. rewrite Hx. apply forallb_forall. intros g Hg.
  apply list_elem_of_In, list_elem_of_lookup in Hg as [f Hf]. eauto.
Qed.

(** Slots and the two arrays behind them. *)
Lemma slot_adj s p f q g :
  slotAt s p f = Some (Some (q, g)) →
  ∃ x, simplices s !! p = Some x ∧ adj_ x !! f = Some (Some q) ∧
       gluing_ x !! f = Some g.
Proof.
  unfold slotAt. destruct (simplices s !! p) as [x|]; [|done]. simpl.
  unfold facetSlot. intros H. exists x.
  destruct (adj_ x !! f) as [[q'|]|]; try done;
    destruct (gluing_ x !! f) as [g'|]; try done.
  by injection H as -> ->.
Qed.

Lemma adj_slot s p x f q :
  simplices s !! p = Some x → length (gluing_ x) = length (adj_ x) →
  adj_ x !! f = Some (Some q) →
  ∃ g, slotAt s p f = Some (Some (q, g)) ∧ gluing_ x !! f = Some g.
Proof.
  intros Hx Hlen Hq. unfold slotAt. rewrite Hx. simpl.
  unfold facetSlot. rewrite Hq.
  destruct (lookup_lt_is_Some_2 (gluing_ x) f) as [g Hg].
  { rewrite Hlen. eapply lookup_lt_Some; eauto. }
  rewrite Hg. eauto.
Qed.

Lemma shapeAt_Some s p i t a g l :
  shapeAt s p = Some (i, t, a, g, l) →
  ∃ x, simplices s !! p = Some x ∧ index_ x = i ∧ tri_ x = t ∧
       length (adj_ x) = a ∧ length (gluing_ x) = g ∧
       length (facetLocks_ x) = l.
Proof.
  unfold shapeAt. destruct (simplices s !! p) as [x|]; [|done].
  simpl. intros [= <- <- <- <- <-]. eauto 10.
Qed.

Lemma shapeAt_triOk dim s T v i p :
  triOk dim s T = true → triangulations s !! T = Some v → v !! i = Some p →
  shapeAt s p = Some (i, T, S dim, S dim, S dim).
Proof.
  intros Hok Hv Hi.
  destruct (triOk_vec _ _ _ _ Hok Hv i p Hi)
    as (x & Hx & <- & <- & <- & Hlg & Hlf & _).
  unfold shapeAt. rewrite Hx. simpl. by rewrite Hlg, Hlf.
Qed.

Lemma punctured_shape_old T tet s p :
  p < nextPtr s → shapeAt (punctured T tet s) p = shapeAt s p.
Proof.
  intros Hp. unfold punctured.
  assert (H : shapeAt (prismsGlued (nextPtr s) (sixAllocated T s)) p =
              shapeAt s p).
  { unfold prismsGlued, sixAllocated, glued.
    rewrite !shapeAt_setSlot.
    by rewrite !shapeAt_allocated_other
      by (rewrite ?nextPtr_allocated; lia). }
  destruct (slotAt s tet 0) as [[[a g]|]|]; unfold glued;
    by rewrite ?shapeAt_setSlot, ?shapeAt_clearSlot.
Qed.

Lemma sixAllocated_shape_new T s v k :
  k < 6 → triangulations s !! T = Some v →
  shapeAt (sixAllocated T s) (k + nextPtr s) = Some (length v + k, T, 4, 4, 4).
Proof.
  intros Hk Hv. unfold sixAllocated.
  pose proof (allocated_vec_T 3 T "" _ _ Hv) as Hv1.
  pose proof (allocated_vec_T 3 T "" _ _ Hv1) as Hv2.
  pose proof (allocated_vec_T 3 T "" _ _ Hv2) as Hv3.
  pose proof (allocated_vec_T 3 T "" _ _ Hv3) as Hv4.
  pose proof (allocated_vec_T 3 T "" _ _ Hv4) as Hv5.
  destruct k as [|[|[|[|[|[|]]]]]]; try lia;
    rewrite ?shapeAt_allocated_other by (rewrite ?nextPtr_allocated; lia).
  all: [> etrans; [apply (shapeAt_allocated_new 3 T "" _ _ Hv)|]
        | etrans; [apply (shapeAt_allocated_new 3 T "" _ _ Hv1)|]
        | etrans; [apply (shapeAt_allocated_new 3 T "" _ _ Hv2)|]
        | etrans; [apply (shapeAt_allocated_new 3 T "" _ _ Hv3)|]
        | etrans; [apply (shapeAt_allocated_new 3 T "" _ _ Hv4)|]
        | etrans; [apply (shapeAt_allocated_new 3 T "" _ _ Hv5)|] ].
  all: f_equal; repeat (apply pair_equal_spec; split; [|reflexivity]);
    rewrite ?length_app; simpl; lia.
Qed.

Lemma punctured_shape_new T tet s v k :
  k < 6 → triangulations s !! T = Some v →
  shapeAt (punctured T tet s) (k + nextPtr s) =
  Some (length v + k, T, 4, 4, 4).
Proof.
  intros Hk Hv. unfold punctured.
  assert (H : shapeAt (prismsGlued (nextPtr s) (sixAllocated T s))
                (k + nextPtr s) = Some (length v + k, T, 4, 4, 4)).
  { unfold prismsGlued, glued. rewrite !shapeAt_setSlot.
    by apply sixAllocated_shape_new. }
  destruct (slotAt s tet 0) as [[[a g]|]|]; unfold glued;
    by rewrite ?shapeAt_setSlot, ?shapeAt_clearSlot.
Qed.

Lemma punctured_perms T tet s r :
  (∀ a g, slotAt s tet 0 = Some (Some (a, g)) → Perm.valid 4 g = true) →
  permsValid 4 s r = true →
  permsValid 4 (punctured T tet s) r = true.
Proof.
  intros Hg Hr. unfold punctured.
  assert (H : permsValid 4 (prismsGlued (nextPtr s) (sixAllocated T s)) r
              = true).
  { unfold prismsGlued, sixAllocated, glued.
    repeat (apply permsValid_setSlot; [by vm_compute|]).
    by repeat apply (permsValid_allocated 3). }
  destruct (slotAt s tet 0) as [[[a g]|]|] eqn:E; unfold glued.
  - specialize (Hg a g eq_refl).
    apply permsValid_setSlot; [by vm_compute|].
    apply permsValid_setSlot; [by vm_compute|].
    apply permsValid_setSlot; [by apply Perm_inverse_valid|].
    apply permsValid_setSlot; [done|].
    by rewrite !permsValid_clearSlot.
  - do 2 (apply permsValid_setSlot; [by vm_compute|]). exact H.
  - do 2 (apply permsValid_setSlot; [by vm_compute|]). exact H.
Qed.

Lemma punctured_tet_slot T tet s :
  (∀ p, is_Some (simplices s !! p) → p < nextPtr s) →
  punctureReady s tet = true →
  slotAt (punctured T tet s) tet 0 = Some (Some (nextPtr s, [3; 0; 1; 2])).
Proof.
  intros Hlive Hready.
  apply punctureReady_elim in Hready as [Hlock Hslot].
  assert (Htet : tet < nextPtr s).
  { apply Hlive. eapply lockedAt_is_Some. rewrite Hlock. eauto. }
  unfold punctured. pose proof (prisms_old_slot T s) as Hold.
  set (n := nextPtr s) in *.
  set (sA := prismsGlued n (sixAllocated T s)) in *. clearbody sA.
  destruct Hslot as [Hslot|(a & g & Hslot & Hlocka & Hslota & Hself)];
    rewrite Hslot; unfold glued; cbn [Perm.apply nth].
  - rewrite !slotAt_setSlot.
    rewrite decide_False by (intros [? ?]; lia).
    rewrite decide_True by done. by rewrite Hold, Hslot.
  - rewrite !slotAt_setSlot.
    rewrite decide_False by (intros [? ?]; lia).
    rewrite decide_True by done.
    rewrite decide_False by (intros [? ?]; apply Hself; split; congruence).
    rewrite decide_False by (intros [? ?]; lia).
    rewrite slotAt_clearSlot, decide_True by done.
    rewrite slotAt_clearSlot.
    rewrite decide_False by (intros [? ?]; apply Hself; split; congruence).
    by rewrite Hold, Hslot.
Qed.

Lemma punctured_adj_slot T tet s a g :
  (∀ p, is_Some (simplices s !! p) → p < nextPtr s) →
  punctureReady s tet = true →
  slotAt s tet 0 = Some (Some (a, g)) →
  slotAt (punctured T tet s) a (Perm.apply g 0) =
  Some (Some (1 + nextPtr s, Perm.inverse g)).
Proof.
  intros Hlive Hready Hs.
  apply punctureReady_elim in Hready as [Hlock Hslot].
  assert (Htet : tet < nextPtr s).
  { apply Hlive. eapply lockedAt_is_Some. rewrite Hlock. eauto. }
  unfold punctured. pose proof (prisms_old_slot T s) as Hold.
  set (n := nextPtr s) in *.
  set (sA := prismsGlued n (sixAllocated T s)) in *. clearbody sA.
  destruct Hslot as [Hslot|(a' & g' & Hslot & Hlocka & Hslota & Hself)];
    [congruence|].
  assert (a' = a ∧ g' = g) as [-> ->] by (split; congruence).
  assert (Ha : a < n).
  { apply Hlive. eapply lockedAt_is_Some. rewrite Hlocka. eauto. }
  rewrite Hs. unfold glued; cbn [Perm.apply nth].
  rewrite !slotAt_setSlot.
  rewrite decide_False by (intros [? ?]; lia).
  rewrite decide_False by (intros [? ?]; apply Hself; split; congruence).
  rewrite decide_True by done.
  rewrite decide_False by (intros [? ?]; lia).
  rewrite !slotAt_clearSlot.
  rewrite decide_False by (intros [? ?]; apply Hself; split; congruence).
  rewrite decide_True by done.
  rewrite Hold by done. by destruct Hslota as [? ->].
Qed.

Lemma punctured_live T tet s p :
  is_Some (simplices (punctured T tet s) !! p) ↔
  is_Some (simplices s !! p) ∨ nextPtr s ≤ p < 6 + nextPtr s.
Proof.
  pose proof (punctured_lock T tet s p 0) as H. unfold lockedAt in H.
  rewrite <- (fmap_is_Some (λ x, facetLocked x 0) (simplices s !! p)).
  rewrite <- (fmap_is_Some (λ x, facetLocked x 0)
                (simplices (punctured T tet s) !! p)).
  rewrite H. case_decide.
  - split; [by right|eauto].
  - split; [by left|]. intros [?|?]; [done|lia].
Qed.

Lemma nextPtr_punctured T tet s :
  nextPtr (punctured T tet s) = 6 + nextPtr s.
Proof.
  unfold punctured.
  assert (H : nextPtr (prismsGlued (nextPtr s) (sixAllocated T s)) =
              6 + nextPtr s).
  { unfold prismsGlued, sixAllocated, glued.
    by rewrite !nextPtr_setSlot, !nextPtr_allocated. }
  destruct (slotAt s tet 0) as [[[a g]|]|]; unfold glued;
    by rewrite ?nextPtr_setSlot, ?nextPtr_clearSlot.
Qed.

Lemma facetSym_elim s p f :
  facetSym s p f = true →
  slotAt s p f = Some None ∨
  ∃ q g, slotAt s p f = Some (Some (q, g)) ∧
         slotAt s q (Perm.apply g f) = Some (Some (p, Perm.inverse g)) ∧
         ¬ (q = p ∧ Perm.apply g f = f).
Proof.
  unfold facetSym. destruct (slotAt s p f) as [[[q g]|]|]; [|by left|done].
  intros [H1 H2]%andb_true_iff. right. exists q, g.
  apply bool_decide_eq_true in H1. apply negb_true_iff in H2.
  apply bool_decide_eq_false in H2. done.
Qed.

Lemma facetSym_intro s p f q g :
  slotAt s p f = Some (Some (q, g)) →
  slotAt s q (Perm.apply g f) = Some (Some (p, Perm.inverse g)) →
  ¬ (q = p ∧ Perm.apply g f = f) →
  facetSym s p f = true.
Proof.
  intros H1 H2 H3. unfold facetSym. rewrite H1.
  apply andb_true_iff. split.
  - by apply bool_decide_eq_true.
  - apply negb_true_iff. by apply bool_decide_eq_false.
Qed.

Lemma symOk_elim dim s T v p f :
  symOk dim s T = true → triangulations s !! T = Some v →
  p ∈ v → f ≤ dim → facetSym s p f = true.
Proof.
  unfold symOk. intros H Hv Hp Hf. rewrite Hv in H.
  rewrite forallb_forall in H. apply list_elem_of_In in Hp.
  specialize (H p Hp). rewrite forallb_forall in H.
  apply H, in_seq. lia.
Qed.

Lemma symOk_intro dim s T v :
  triangulations s !! T = Some v →
  (∀ p f, p ∈ v → f ≤ dim → facetSym s p f = true) →
  symOk dim s T = true.
Proof.
  intros Hv H. unfold symOk. rewrite Hv.
  apply forallb_forall. intros p Hp. apply forallb_forall. intros f Hf.
  apply H; [by apply list_elem_of_In|]. apply in_seq in Hf. lia.
Qed.

Section PunctureWellFormed.

Variables (T : tid) (tet : ptr) (s : State) (v : list ptr).
Hypothesis Hstore : storeOk s = true.
Hypothesis Hok : triOk 3 s T = true.
Hypothesis Hv : triangulations s !! T = Some v.
Hypothesis Htet : tet ∈ v.
Hypothesis Hready : punctureReady s tet = true.

Local Abbreviation n := (nextPtr s).
Local Abbreviation s' := (punctured T tet s).
Local Abbreviation v' :=
  (v ++ [nextPtr s; 1 + nextPtr s; 2 + nextPtr s; 3 + nextPtr s;
         4 + nextPtr s; 5 + nextPtr s]).

Lemma pw_live p : is_Some (simplices s !! p) → p < n.
Proof. by apply storeOk_elim. Qed.

Lemma pw_member_lt p : p ∈ v → p < n.
Proof. intros Hp. apply pw_live. eapply triOk_live; eauto. Qed.

Lemma pw_vec : triangulations s' !! T = Some v'.
Proof. rewrite punctured_vecs. by apply sixAllocated_vec_T. Qed.

Lemma pw_gluing_valid a g :
  slotAt s tet 0 = Some (Some (a, g)) → Perm.valid 4 g = true ∧ a ∈ v.
Proof.
  intros (x & Hx & Ha & Hg)%slot_adj.
  apply list_elem_of_lookup in Htet as [i Hi].
  destruct (triOk_vec _ _ _ _ Hok Hv i tet Hi)
    as (x' & Hx' & _ & _ & _ & _ & _ & Hadj & Hperm).
  assert (x' = x) as -> by congruence. split; [eauto|].
  destruct (Hadj 0 a Ha) as (y & _ & Hy). by eapply list_elem_of_lookup_2.
Qed.

Lemma pw_new k : k < 6 → v' !! (length v + k) = Some (k + n).
Proof.
  intros Hk. rewrite lookup_app_r by lia.
  replace (length v + k - length v) with k by lia.
  by destruct k as [|[|[|[|[|[|]]]]]]; try lia.
Qed.

(** Every simplex of the new vector is live and sits at its own index. *)
Lemma pw_target q :
  q ∈ v ∨ (∃ k, k < 6 ∧ q = k + n) →
  ∃ y, simplices s' !! q = Some y ∧ v' !! index_ y = Some q.
Proof.
  intros [[i Hi]%list_elem_of_lookup|(k & Hk & ->)].
  - pose proof (shapeAt_triOk _ _ _ _ _ _ Hok Hv Hi) as Hsh.
    rewrite <- (punctured_shape_old T tet) in Hsh
      by (apply pw_member_lt; by eapply list_elem_of_lookup_2).
    apply shapeAt_Some in Hsh as (y & Hy & <- & _).
    exists y. split; [done|]. by apply lookup_app_l_Some.
  - pose proof (punctured_shape_new T tet s v k Hk Hv) as Hsh.
    apply shapeAt_Some in Hsh as (y & Hy & Hyi & _).
    exists y. split; [done|]. rewrite Hyi. by apply pw_new.
Qed.

(** Where the slots of the new store point. *)
Lemma pw_adjacent p f q g :
  p ∈ v ∨ (∃ k, k < 6 ∧ p = k + n) → f < 4 →
  slotAt s' p f = Some (Some (q, g)) →
  q ∈ v ∨ (∃ k, k < 6 ∧ q = k + n).
Proof.
  intros [Hp|(k & Hk & ->)] Hf Hslot.
  - destruct (decide (p = tet ∧ f = 0)) as [[-> ->]|Hne1].
    { rewrite punctured_tet_slot in Hslot by (done || apply pw_live).
      simplify_eq. right. exists 0. split; [lia|done]. }
    destruct (slotAt s tet 0) as [[[a g0]|]|] eqn:E.
    + destruct (decide (p = a ∧ f = Perm.apply g0 0)) as [[-> ->]|Hne2].
      { rewrite (punctured_adj_slot T tet s a g0) in Hslot
          by (done || apply pw_live).
        simplify_eq. right. exists 1. split; [lia|done]. }
      rewrite punctured_old_slot in Hslot;
        [|apply pw_live|done|by apply pw_member_lt|done|
         intros a' g' Ha'; rewrite E in Ha'; by simplify_eq].
      apply slot_adj in Hslot as (x & Hx & Ha & _).
      apply list_elem_of_lookup in Hp as [i Hi].
      destruct (triOk_vec _ _ _ _ Hok Hv i p Hi)
        as (x' & Hx' & _ & _ & _ & _ & _ & Hadj & _).
      assert (x' = x) as -> by congruence.
      destruct (Hadj f q Ha) as (y & _ & Hy).
      left. by eapply list_elem_of_lookup_2.
    + rewrite punctured_old_slot in Hslot;
        [|apply pw_live|done|by apply pw_member_lt|done|
         intros a' g' Ha'; rewrite E in Ha'; done].
      apply slot_adj in Hslot as (x & Hx & Ha & _).
      apply list_elem_of_lookup in Hp as [i Hi].
      destruct (triOk_vec _ _ _ _ Hok Hv i p Hi)
        as (x' & Hx' & _ & _ & _ & _ & _ & Hadj & _).
      assert (x' = x) as -> by congruence.
      destruct (Hadj f q Ha) as (y & _ & Hy).
      left. by eapply list_elem_of_lookup_2.
    + rewrite punctured_old_slot in Hslot;
        [|apply pw_live|done|by apply pw_member_lt|done|
         intros a' g' Ha'; rewrite E in Ha'; done].
      apply slot_adj in Hslot as (x & Hx & Ha & _).
      apply list_elem_of_lookup in Hp as [i Hi].
      destruct (triOk_vec _ _ _ _ Hok Hv i p Hi)
        as (x' & Hx' & _ & _ & _ & _ & _ & Hadj & _).
      assert (x' = x) as -> by congruence.
      destruct (Hadj f q Ha) as (y & _ & Hy).
      left. by eapply list_elem_of_lookup_2.
  - rewrite punctured_new_slot in Hslot by (done || apply pw_live).
    destruct k as [|[|[|[|[|[|]]]]]]; try lia;
      destruct f as [|[|[|[|]]]]; try lia;
      try discriminate; try simplify_eq;
      try (by left);
      try (right; first
        [ by exists 0; split; [lia|]
        | by exists 1; split; [lia|]
        | by exists 2; split; [lia|]
        | by exists 3; split; [lia|]
        | by exists 4; split; [lia|]
        | by exists 5; split; [lia|] ]).
    destruct (slotAt s tet 0) as [[[a g0]|]|] eqn:E; try discriminate.
    simplify_eq. left. by eapply pw_gluing_valid.
Qed.

Lemma pw_storeOk : storeOk s' = true.
Proof.
  destruct (storeOk_elim _ Hstore) as [Hlive Htids].
  apply storeOk_intro.
  - intros p Hp. apply punctured_live in Hp. rewrite nextPtr_punctured.
    destruct Hp as [Hp|Hp]; [|lia]. apply Hlive in Hp. lia.
  - intros t [w Hw]. rewrite punctured_vecs in Hw.
    assert (Hd : nextTid s' = nextTid s).
    { unfold punctured.
      destruct (slotAt s tet 0) as [[[a g]|]|]; reflexivity. }
    rewrite Hd. destruct (decide (t = T)) as [->|Hne]; [eauto|].
    rewrite sixAllocated_vec_other in Hw by done. eauto.
Qed.

Lemma pw_triOk : triOk 3 s' T = true.
Proof.
  apply (triOk_intro 3 _ T v' pw_vec). intros i p Hp.
  assert (Hmem : p ∈ v ∨ (∃ k, k < 6 ∧ p = k + n)).
  { apply lookup_app_Some in Hp as [Hp|[Hlen Hp]].
    - left. by eapply list_elem_of_lookup_2.
    - right. exists (i - length v). split.
      + apply lookup_lt_Some in Hp. simpl in Hp. lia.
      + destruct (i - length v) as [|[|[|[|[|[|]]]]]];
          simpl in Hp; simplify_eq; done. }
  assert (Hsh : shapeAt s' p = Some (i, T, 4, 4, 4)).
  { apply lookup_app_Some in Hp as [Hp|[Hlen Hp]].
    - rewrite punctured_shape_old
        by (apply pw_member_lt; by eapply list_elem_of_lookup_2).
      by eapply shapeAt_triOk.
    - assert (Hk : i - length v < 6).
      { apply lookup_lt_Some in Hp. simpl in Hp. lia. }
      pose proof (pw_new _ Hk) as Hnew.
      replace (length v + (i - length v)) with i in Hnew by lia.
      rewrite lookup_app_r in Hnew by lia.
      assert (p = (i - length v) + n) as -> by congruence.
      rewrite (punctured_shape_new T tet s v) by done.
      do 5 f_equal. lia. }
  apply shapeAt_Some in Hsh as (x & Hx & Hxi & Hxt & Hla & Hlg & Hlf).
  exists x. repeat split; auto.
  - intros f q Hq.
    destruct (adj_slot s' p x f q Hx) as (g & Hslot & _); [lia|done|].
    apply pw_target. eapply (pw_adjacent p f q g); eauto.
    apply lookup_lt_Some in Hq. lia.
  - intros f g Hg. eapply (permsValid_elim 4 s' p x f g); eauto.
    apply punctured_perms.
    + intros a g0 Ha. by eapply pw_gluing_valid.
    + destruct Hmem as [Hm|(k & Hk & ->)].
      * by eapply permsValid_triOk.
      * unfold permsValid.
        destruct (simplices s !! (k + n)) eqn:E; [|done].
        assert (k + n < n) by (apply pw_live; eauto). lia.
Qed.

Lemma pw_member p :
  p ∈ v' → p ∈ v ∨ (∃ k, k < 6 ∧ p = k + n).
Proof.
  intros [i Hp]%list_elem_of_lookup.
  apply lookup_app_Some in Hp as [Hp|[Hlen Hp]].
  - left. by eapply list_elem_of_lookup_2.
  - right. exists (i - length v). split.
    + apply lookup_lt_Some in Hp. simpl in Hp. lia.
    + destruct (i - length v) as [|[|[|[|[|[|]]]]]];
        simpl in Hp; simplify_eq; done.
Qed.

Hypothesis Hsym : symOk 3 s T = true.

Lemma pw_new_slot k f :
  k < 6 → f < 4 →
  slotAt s' (k + n) f =
  match k, f with
  | 0, 0 => Some (Some (2 + n, [3; 0; 1; 2]))
  | 0, 1 => Some (Some (1 + n, [1; 2; 3; 0]))
  | 0, 2 => Some (Some (1 + n, [1; 2; 3; 0]))
  | 0, _ => Some (Some (tet, Perm.inverse [3; 0; 1; 2]))
  | 1, 0 => match slotAt s tet 0 with
            | Some (Some (a, g)) => Some (Some (a, g))
            | _ => Some None
            end
  | 1, 1 => Some (Some (3 + n, [3; 0; 1; 2]))
  | 1, 2 => Some (Some (n, Perm.inverse [1; 2; 3; 0]))
  | 1, _ => Some (Some (n, Perm.inverse [1; 2; 3; 0]))
  | 2, 0 => Some (Some (4 + n, [3; 0; 1; 2]))
  | 2, 1 => Some (Some (3 + n, [1; 2; 3; 0]))
  | 2, 2 => Some (Some (3 + n, [1; 2; 3; 0]))
  | 2, _ => Some (Some (n, Perm.inverse [3; 0; 1; 2]))
  | 3, 0 => Some (Some (1 + n, Perm.inverse [3; 0; 1; 2]))
  | 3, 1 => Some (Some (5 + n, [3; 2; 0; 1]))
  | 3, 2 => Some (Some (2 + n, Perm.inverse [1; 2; 3; 0]))
  | 3, _ => Some (Some (2 + n, Perm.inverse [1; 2; 3; 0]))
  | 4, 0 => Some None
  | 4, 1 => Some (Some (5 + n, [0; 1; 3; 2]))
  | 4, 2 => Some (Some (5 + n, [0; 1; 3; 2]))
  | 4, _ => Some (Some (2 + n, Perm.inverse [3; 0; 1; 2]))
  | _, 0 => Some None
  | _, 1 => Some (Some (4 + n, Perm.inverse [0; 1; 3; 2]))
  | _, 2 => Some (Some (3 + n, Perm.inverse [3; 2; 0; 1]))
  | _, _ => Some (Some (4 + n, Perm.inverse [0; 1; 3; 2]))
  end.
Proof. intros. apply punctured_new_slot; (done || apply pw_live). Qed.

Ltac pw_slot :=
  lazymatch goal with
  | |- slotAt _ (?k + nextPtr _) ?F = _ =>
      apply (pw_new_slot k F); [lia|vm_compute; lia]
  | |- slotAt _ (nextPtr _) ?F = _ =>
      apply (pw_new_slot 0 F); [lia|vm_compute; lia]
  | |- slotAt _ tet _ = _ =>
      apply punctured_tet_slot; (done || apply pw_live)
  end.

Lemma pw_sym_new k f : k < 6 → f < 4 → facetSym s' (k + n) f = true.
Proof.
  intros Hk Hf.
  pose proof (pw_member_lt tet Htet) as Hlt.
  destruct (decide (k = 1 ∧ f = 0)) as [[-> ->]|Hne].
  { destruct (slotAt s tet 0) as [[[a g]|]|] eqn:E.
    - destruct (pw_gluing_valid a g E) as [Hg Ha].
      apply (facetSym_intro _ _ _ a g).
      + rewrite (pw_new_slot 1 0) by lia. by rewrite E.
      + apply punctured_adj_slot; (done || apply pw_live).
      + intros [-> _]. apply pw_member_lt in Ha. lia.
    - unfold facetSym. rewrite (pw_new_slot 1 0) by lia. by rewrite E.
    - unfold facetSym. rewrite (pw_new_slot 1 0) by lia. by rewrite E. }
  destruct k as [|[|[|[|[|[|]]]]]]; try lia;
    destruct f as [|[|[|[|]]]]; try lia;
    try (exfalso; apply Hne; split; reflexivity);
    first
      [ by unfold facetSym;
           first [ rewrite (pw_new_slot 4 0) by lia
                 | rewrite (pw_new_slot 5 0) by lia ]
      | eapply facetSym_intro;
        [ pw_slot | pw_slot | intros [? _]; lia ] ].
Qed.

Lemma pw_sym_old p f : p ∈ v → f < 4 → facetSym s' p f = true.
Proof.
  intros Hp Hf.
  pose proof (pw_member_lt tet Htet) as Hlt.
  pose proof (pw_member_lt p Hp) as Hplt.
  destruct (decide (p = tet ∧ f = 0)) as [[-> ->]|Hne1].
  { eapply facetSym_intro.
    - apply punctured_tet_slot; (done || apply pw_live).
    - pw_slot.
    - intros [? _]. lia. }
  assert (Hvalid : ∀ q g, slotAt s p f = Some (Some (q, g)) →
                          Perm.valid 4 g = true).
  { intros q g (x & Hx & _ & Hg)%slot_adj.
    eapply (permsValid_elim 4 s p); eauto. by eapply permsValid_triOk. }
  destruct (slotAt s tet 0) as [[[a g0]|]|] eqn:E.
  - destruct (pw_gluing_valid a g0 E) as [Hg0 Ha].
    pose proof (symOk_elim 3 s T v tet 0 Hsym Hv Htet ltac:(lia)) as Htsym.
    apply facetSym_elim in Htsym as [Hb|(q0 & g0' & Hq0 & Hback & Hself)];
      [congruence|].
    assert (q0 = a ∧ g0' = g0) as [-> ->]
      by (rewrite E in Hq0; by simplify_eq).
    clear Hq0.
    destruct (decide (p = a ∧ f = Perm.apply g0 0)) as [[-> ->]|Hne2].
    { eapply facetSym_intro.
      - apply punctured_adj_slot; (done || apply pw_live).
      - rewrite (Perm_inverse_apply 4) by (done || lia).
        rewrite (pw_new_slot 1 0) by lia. rewrite E.
        by rewrite (Perm_inverse_inverse 4).
      - intros [? _]. lia. }
    assert (Hkeep : slotAt s' p f = slotAt s p f).
    { apply punctured_old_slot; try done; [apply pw_live|].
      intros a' g' Ha'. rewrite E in Ha'. by simplify_eq. }
    pose proof (symOk_elim 3 s T v p f Hsym Hv Hp ltac:(lia)) as Hpsym.
    apply facetSym_elim in Hpsym as [Hb|(q & g & Hq & Hqback & Hqself)].
    { unfold facetSym. by rewrite Hkeep, Hb. }
    apply (facetSym_intro _ _ _ q g); [by rewrite Hkeep| |done].
    rewrite <- Hqback. apply punctured_old_slot; try done.
    + apply pw_live.
    + apply pw_live. eapply slotAt_is_Some. rewrite Hqback. eauto.
    + intros [-> Hgf].
      assert (Hf' : Perm.apply (Perm.inverse g) (Perm.apply g f) = f).
      { apply (Perm_inverse_apply 4); [by eapply Hvalid|done]. }
      rewrite Hgf, E in Hqback.
      assert (a = p ∧ g0 = Perm.inverse g) as [-> ->] by by simplify_eq.
      apply Hne2. split; [done|]. by rewrite <- Hgf.
    + intros a' g' Ha'. rewrite E in Ha'.
      assert (a' = a ∧ g' = g0) as [-> ->] by by simplify_eq.
      intros [-> Hgf].
      assert (Hf' : Perm.apply (Perm.inverse g) (Perm.apply g f) = f).
      { apply (Perm_inverse_apply 4); [by eapply Hvalid|done]. }
      rewrite Hgf, Hback in Hqback.
      assert (tet = p ∧ Perm.inverse g0 = Perm.inverse g) as [-> Hinv]
        by by simplify_eq.
      apply Hne1. split; [done|].
      transitivity (Perm.apply (Perm.inverse g0) (Perm.apply g0 0)).
      * by rewrite Hinv, <- Hgf.
      * apply (Perm_inverse_apply 4); [done|lia].
  - assert (Hkeep : ∀ r h, r < n → ¬ (r = tet ∧ h = 0) →
                      slotAt s' r h = slotAt s r h).
    { intros r h Hr Hrh. apply punctured_old_slot; try done; [apply pw_live|].
      intros a' g' Ha'. rewrite E in Ha'. done. }
    pose proof (symOk_elim 3 s T v p f Hsym Hv Hp ltac:(lia)) as Hpsym.
    apply facetSym_elim in Hpsym as [Hb|(q & g & Hq & Hqback & Hqself)].
    { unfold facetSym. by rewrite Hkeep, Hb. }
    apply (facetSym_intro _ _ _ q g); [by rewrite Hkeep| |done].
    rewrite <- Hqback. apply Hkeep.
    + apply pw_live. eapply slotAt_is_Some. rewrite Hqback. eauto.
    + intros [-> Hgf]. rewrite Hgf, E in Hqback. done.
  - exfalso. apply punctureReady_elim in Hready as [_ [?|(?&?&?&_)]];
      congruence.
Qed.

Lemma pw_symOk : symOk 3 s' T = true.
Proof.
  apply (symOk_intro 3 _ T v' pw_vec). intros p f Hp Hf.
  apply pw_member in Hp as [Hp|(k & Hk & ->)].
  - apply pw_sym_old; [done|lia].
  - apply pw_sym_new; [done|lia].
Qed.

End PunctureWellFormed.

(** X13: [puncture] keeps the allocator sound and the triangulation well
    formed: after it every simplex of the vector, old or new, is live,
    knows its index and its owner, and every gluing of it points to a
    simplex of the same triangulation through a permutation of four
    points. *)
Theorem puncture_wellformed T tet s v :
  storeOk s = true → triOk 3 s T = true →
  triangulations s !! T = Some v → tet ∈ v →
  punctureReady s tet = true →
  ∃ s', puncture T (Some tet) s = Ok tt s' ∧
        storeOk s' = true ∧ triOk 3 s' T = true.
Proof.
  intros Hstore Hok Hv Htet Hready.
  exists (punctured T tet s). split; [apply puncture_Ok; eauto|].
  split.
  - by eapply pw_storeOk.
  - by eapply pw_triOk.
Qed.

(** X14: [puncture] keeps the gluings two-sided: if before the call every glued
    facet of the triangulation is glued back from the other side through the
    inverse permutation, the same holds afterwards, for the old facets, the
    two facets that were re-glued, and the facets of the six new
    tetrahedra. *)
Theorem puncture_two_sided T tet s v :
  storeOk s = true → triOk 3 s T = true → symOk 3 s T = true →
  triangulations s !! T = Some v → tet ∈ v →
  punctureReady s tet = true →
  ∃ s', puncture T (Some tet) s = Ok tt s' ∧ symOk 3 s' T = true.
Proof.
  intros Hstore Hok Hsym Hv Htet Hready.
  exists (punctured T tet s). split; [apply puncture_Ok; eauto|].
  by eapply pw_symOk.
Qed.

(** X15: A punctured triangulation has boundary: whatever it was before,
    [hasBoundaryFacets] answers true after [puncture]. *)
Theorem puncture_has_boundary T tet s v :
  storeOk s = true → triOk 3 s T = true →
  triangulations s !! T = Some v → tet ∈ v →
  punctureReady s tet = true →
  ∃ s', puncture T (Some tet) s = Ok tt s' ∧
        hasBoundaryFacets 3 T s' = Ok true s'.
Proof.
  intros Hstore Hok Hv Htet Hready.
  exists (punctured T tet s). split; [apply puncture_Ok; eauto|].
  pose proof (pw_triOk T tet s v Hstore Hok Hv Htet Hready) as Hok'.
  pose proof (pw_vec T tet s v Hv) as Hv'.
  destruct (hasBoundaryFacets_characterised 3 _ T _ Hok' Hv')
    as (b & Hrun & Hiff & _).
  rewrite Hrun. f_equal. apply Hiff.
  exists (5 + nextPtr s), 0. split; [|split; [lia|]].
  - apply elem_of_app. right. apply list_elem_of_lookup. by exists 5.
  - rewrite (punctured_new_slot T tet s 5 0); try done; try lia.
    by apply storeOk_elim.
Qed.

(** ** [removeSimplex] *)

Lemma triOk_slot dim s T v p f :
  triOk dim s T = true → triangulations s !! T = Some v →
  p ∈ v → f ≤ dim → is_Some (slotAt s p f).
Proof.
  intros Hok Hv [i Hi]%list_elem_of_lookup Hf.
  destruct (triOk_vec _ _ _ _ Hok Hv i p Hi)
    as (x & Hx & _ & _ & Hla & Hlg & _).
  unfold slotAt. rewrite Hx. simpl. unfold facetSlot.
  destruct (lookup_lt_is_Some_2 (adj_ x) f) as [a ->]; [lia|].
  destruct (lookup_lt_is_Some_2 (gluing_ x) f) as [g ->]; [lia|].
  destruct a; eauto.
Qed.

Lemma triOk_slot_target dim s T v p f q g :
  triOk dim s T = true → triangulations s !! T = Some v → p ∈ v →
  slotAt s p f = Some (Some (q, g)) →
  q ∈ v ∧ Perm.valid (S dim) g = true ∧ f ≤ dim.
Proof.
  intros Hok Hv [i Hi]%list_elem_of_lookup (x & Hx & Ha & Hg)%slot_adj.
  destruct (triOk_vec _ _ _ _ Hok Hv i p Hi)
    as (x' & Hx' & _ & _ & Hla & _ & _ & Hadj & Hperm).
  assert (x' = x) as -> by congruence.
  destruct (Hadj f q Ha) as (y & _ & Hy). split; [|split].
  - by eapply list_elem_of_lookup_2.
  - eauto.
  - apply lookup_lt_Some in Ha. lia.
Qed.

(** Well-formedness read off the views of the store. *)
Lemma triOk_views dim s T v :
  triangulations s !! T = Some v →
  (∀ i p, v !! i = Some p →
     shapeAt s p = Some (i, T, S dim, S dim, S dim) ∧
     permsValid (S dim) s p = true ∧
     ∀ f q g, slotAt s p f = Some (Some (q, g)) → q ∈ v) →
  triOk dim s T = true.
Proof.
  intros Hv H. apply (triOk_intro dim s T v Hv). intros i p Hp.
  destruct (H i p Hp) as (Hsh & Hpv & Htgt).
  apply shapeAt_Some in Hsh as (x & Hx & Hxi & Hxt & Hla & Hlg & Hlf).
  exists x. repeat split; auto.
  - intros f q Hq.
    destruct (adj_slot s p x f q Hx) as (g & Hslot & _); [lia|done|].
    apply Htgt in Hslot. apply list_elem_of_lookup in Hslot as [j Hj].
    destruct (H j q Hj) as (Hshq & _).
    apply shapeAt_Some in Hshq as (y & Hy & Hyi & _).
    exists y. split; [done|]. by rewrite Hyi.
  - intros f g Hg. by eapply permsValid_elim.
Qed.

Lemma unjoin_boundary me f s :
  slotAt s me f = Some None → unjoin me f s = Ok None s.
Proof.
  unfold slotAt. destruct (simplices s !! me) as [x|] eqn:Hx; [|done].
  simpl. intros Hf. unfold unjoin.
  eapply run_bind; [by apply deref_Ok|].
  eapply run_bind; [by apply liftOpt_Ok|]. reflexivity.
Qed.

Section Isolate.

Variables (dim : nat) (s : State) (T : tid) (v : list ptr) (p : ptr).
Hypothesis Hok : triOk dim s T = true.
Hypothesis Hsym : symOk dim s T = true.
Hypothesis Hv : triangulations s !! T = Some v.
Hypothesis Hp : p ∈ v.
Hypothesis Hlock : ∀ f, f ≤ dim → lockedAt s p f = Some false.

Lemma iso_sym q f r g :
  q ∈ v → slotAt s q f = Some (Some (r, g)) →
  slotAt s r (Perm.apply g f) = Some (Some (q, Perm.inverse g)) ∧
  Perm.apply (Perm.inverse g) (Perm.apply g f) = f ∧
  r ∈ v ∧ f ≤ dim.
Proof.
  intros Hq Hslot.
  destruct (triOk_slot_target _ _ _ _ _ _ _ _ Hok Hv Hq Hslot)
    as (Hr & Hg & Hf).
  pose proof (symOk_elim dim s T v q f Hsym Hv Hq Hf) as Hs.
  apply facetSym_elim in Hs as [Hb|(r' & g' & Hs & Hback & _)];
    [congruence|].
  rewrite Hslot in Hs. simplify_eq. repeat split; auto.
  apply (Perm_inverse_apply (S dim)); [done|lia].
Qed.

(** Unjoining a boundary facet of [p] changes no slot. *)
Lemma iso_slot_boundary f q f' :
  slotAt s p f = Some None ∨ slotAt s p f = None → q ∈ v →
  isolatedSlot s p (S f) q f' = isolatedSlot s p f q f'.
Proof.
  intros Hb Hq. unfold isolatedSlot.
  destruct (slotAt s q f') as [[[r g]|]|] eqn:E; try done.
  destruct (iso_sym q f' r g Hq E) as (Hback & Hinv & Hr & Hf').
  repeat case_bool_decide; try done.
  - exfalso. destruct H as [[-> Hlt]|[-> Hlt]].
    + assert (f' = f) as ->
        by (destruct (decide (f' = f)); [done|]; exfalso; apply H0; left;
            split; [done|lia]).
      destruct Hb; congruence.
    + assert (Perm.apply g f' = f) as Hgf
        by (destruct (decide (Perm.apply g f' = f)); [done|]; exfalso;
            apply H0; right; split; [done|lia]).
      rewrite Hgf in Hback. destruct Hb; congruence.
  - exfalso. apply H. destruct H0 as [[-> Hlt]|[-> Hlt]];
      [left|right]; (split; [done|lia]).
Qed.

(** Unjoining a glued facet of [p] clears that facet and its partner. *)
Lemma iso_slot_glued f r g q f' :
  slotAt s p f = Some (Some (r, g)) → q ∈ v →
  isolatedSlot s p (S f) q f' =
  if decide ((q = p ∧ f' = f) ∨ (q = r ∧ f' = Perm.apply g f))
  then Some None else isolatedSlot s p f q f'.
Proof.
  intros Hpf Hq.
  destruct (iso_sym p f r g Hp Hpf) as (Hrback & Hginv & Hr & Hf).
  unfold isolatedSlot.
  destruct (slotAt s q f') as [[[r' g']|]|] eqn:E.
  - destruct (iso_sym q f' r' g' Hq E) as (Hback & Hinv & Hr' & Hf').
    case_decide as Hd.
    + rewrite bool_decide_eq_true_2; [done|].
      destruct Hd as [[-> ->]|[-> ->]].
      * left. split; [done|lia].
      * right. rewrite Hrback in E. simplify_eq. split; [done|].
        rewrite Hginv. lia.
    + repeat case_bool_decide; try done.
      * exfalso. destruct H as [[-> Hlt]|[-> Hlt]].
        -- assert (f' = f) as ->
        by (destruct (decide (f' = f)); [done|]; exfalso; apply H0; left;
            split; [done|lia]).
           apply Hd. by left.
        -- assert (Perm.apply g' f' = f) as Hgf
        by (destruct (decide (Perm.apply g' f' = f)); [done|]; exfalso;
            apply H0; right; split; [done|lia]).
           rewrite Hgf, Hpf in Hback.
           assert (r = q ∧ g = Perm.inverse g') as [-> ->] by by simplify_eq.
           apply Hd. right. split; [done|].
           by rewrite <- Hgf, Hinv.
      * exfalso. apply H. destruct H0 as [[-> Hlt]|[-> Hlt]];
          [left|right]; (split; [done|lia]).
  - by case_decide.
  - case_decide as Hd; [|done]. exfalso.
    destruct Hd as [[-> ->]|[-> ->]]; congruence.
Qed.

Lemma iso_step f s1 :
  f ≤ dim → isolateInv (S dim) s v p f s1 →
  ∃ s2, (unjoin p f;; mret tt) s1 = Ok tt s2 ∧
        isolateInv (S dim) s v p (S f) s2.
Proof.
  intros Hf (Ht & Hn & Hd & Hsh & Hlk & Hpv & Hout & Hslots).
  destruct (triOk_slot dim s T v p f Hok Hv Hp Hf) as [o Ho].
  pose proof (Hslots p f Hp) as Hcur.
  destruct o as [[r g]|].
  - destruct (iso_sym p f r g Hp Ho) as (Hrback & Hginv & Hr & _).
    unfold isolatedSlot in Hcur. rewrite Ho in Hcur.
    case_bool_decide as Hc.
    + (* already cleared from the other side of a self-gluing *)
      destruct Hc as [[_ ?]|[-> Hlt]]; [lia|].
      exists s1. split.
      { eapply run_bind; [by apply unjoin_boundary|done]. }
      repeat split; try done.
      intros q f' Hq. rewrite (iso_slot_glued f p g q f' Ho Hq), Hslots by done.
      case_decide as Hdd; [|done].
      unfold isolatedSlot.
      destruct Hdd as [[-> ->]|[-> ->]].
      * rewrite Ho. rewrite bool_decide_eq_true_2; [done|]. by right.
      * rewrite Hrback. rewrite bool_decide_eq_true_2; [done|]. by left.
    + (* a gluing that is still there *)
      assert (Hrlive : is_Some (simplices s1 !! r)).
      { destruct (triOk_live dim s T v r Hok Hv Hr) as [y Hy].
        pose proof (Hsh r) as Hshr. unfold shapeAt in Hshr.
        rewrite Hy in Hshr. destruct (simplices s1 !! r); [eauto|done]. }
      exists (clearSlot p f (clearSlot r (Perm.apply g f) s1)). split.
      { eapply run_bind; [|done].
        apply unjoin_Ok; [done| |done]. rewrite Hlk. by apply Hlock. }
      split; [done|]. split; [done|]. split; [done|].
      split. { intros q. by rewrite !shapeAt_clearSlot. }
      split. { intros q f'. by rewrite !lockedAt_clearSlot. }
      split. { intros q. by rewrite !permsValid_clearSlot. }
      split.
      { intros q Hq. rewrite !simplices_clearSlot_ne; [by apply Hout| |];
          intros ->; done. }
      intros q f' Hq. rewrite (iso_slot_glued f r g q f' Ho Hq).
      rewrite !slotAt_clearSlot.
      destruct (decide (p = q ∧ f = f')) as [[<- <-]|Hn1].
      { rewrite (decide_True (P := _ ∨ _)) by by left.
        destruct (decide (r = p ∧ Perm.apply g f = f)) as [[-> Hgf]|?].
        - rewrite Hgf in *. by rewrite Hcur.
        - by rewrite Hcur. }
      destruct (decide (r = q ∧ Perm.apply g f = f')) as [[<- <-]|Hn2].
      { rewrite (decide_True (P := _ ∨ _)) by by right.
        rewrite (Hslots r _ Hr). unfold isolatedSlot. rewrite Hrback.
        by case_bool_decide. }
      rewrite (decide_False (P := _ ∨ _)); [by apply Hslots|].
      intros [[-> ->]|[-> ->]]; [apply Hn1|apply Hn2]; done.
  - unfold isolatedSlot in Hcur. rewrite Ho in Hcur.
    exists s1. split.
    { eapply run_bind; [by apply unjoin_boundary|done]. }
    repeat split; try done.
    intros q f' Hq. rewrite iso_slot_boundary by (done || by left).
    by apply Hslots.
Qed.

Lemma iso_loop :
  ∃ s1, isolate dim p s = Ok tt s1 ∧ isolateInv (S dim) s v p (S dim) s1.
Proof.
  destruct (forM_inv (seq 0 (S dim)) (λ f, unjoin p f;; mret tt)
    (λ f s1, isolateInv (S dim) s v p f s1) s) as (s1 & Hrun & Hinv).
  - repeat split; try done. intros q f' Hq. unfold isolatedSlot.
    destruct (slotAt s q f') as [[[r g]|]|]; try done.
    rewrite bool_decide_eq_false_2; [done|]. intros [[_ ?]|[_ ?]]; lia.
  - intros f x s1 Hx Hinv. apply lookup_seq in Hx as [-> Hlt].
    apply iso_step; [lia|done].
  - rewrite length_seq in Hinv. eauto.
Qed.

End Isolate.

Lemma forM_modify_NoDup (upd : Simplex → Simplex) (l : list ptr) s :
  NoDup l → (∀ p, p ∈ l → is_Some (simplices s !! p)) →
  ∃ s', forM l (λ p, modify p upd) s = Ok tt s' ∧
        triangulations s' = triangulations s ∧
        nextPtr s' = nextPtr s ∧ nextTid s' = nextTid s ∧
        ∀ q, simplices s' !! q =
             if bool_decide (q ∈ l) then upd <$> simplices s !! q
             else simplices s !! q.
Proof.
  revert s. induction l as [|p l IH]; intros s Hnd Hlive.
  - exists s. repeat split; try done.
  - apply NoDup_cons in Hnd as [Hp Hnd].
    destruct (Hlive p) as [x Hx]; [by left|].
    destruct (IH (setSimplex p (upd x) s) Hnd) as (s' & Hrun & Ht & Hn & Hd & Hs).
    { intros q Hq. simpl. destruct (decide (q = p)) as [->|Hne].
      - rewrite lookup_insert_eq. eauto.
      - rewrite lookup_insert_ne by done. apply Hlive. by right. }
    exists s'. split.
    { cbn [forM]. eapply run_bind; [by eapply modify_Ok|]. exact Hrun. }
    repeat split; try done.
    intros q. rewrite Hs. simpl.
    destruct (decide (q = p)) as [->|Hne].
    + rewrite lookup_insert_eq, Hx.
      rewrite (bool_decide_eq_false_2 (p ∈ l)) by done.
      by rewrite (bool_decide_eq_true_2 (p ∈ p :: l)) by by left.
    + rewrite lookup_insert_ne by done.
      repeat case_bool_decide; try done.
      * exfalso. apply H0. by right.
      * exfalso. apply elem_of_cons in H0 as [?|?]; done.
Qed.

Lemma elem_of_erased {A} (v : list A) i p q :
  NoDup v → v !! i = Some p →
  q ∈ take i v ++ drop (S i) v ↔ q ∈ v ∧ q ≠ p.
Proof.
  intros Hnd Hi.
  rewrite <- (take_drop_middle v i p Hi) in Hnd at 1.
  apply NoDup_app in Hnd as (_ & Hdisj & Hnd2).
  apply NoDup_cons in Hnd2 as [Hnotin _].
  rewrite <- (take_drop_middle v i p Hi) at 3.
  rewrite !elem_of_app, elem_of_cons. split.
  - intros [Hq|Hq].
    + split; [by left|]. intros ->. apply (Hdisj p Hq). by left.
    + split; [by right; right|]. intros ->. done.
  - intros [[Hq|[->|Hq]] Hne]; [by left|done|by right].
Qed.

Section Remove.

Variables (dim : nat) (s : State) (T : tid) (v : list ptr) (i : nat) (p : ptr).
Hypothesis Hok : triOk dim s T = true.
Hypothesis Hsym : symOk dim s T = true.
Hypothesis Hv : triangulations s !! T = Some v.
Hypothesis Hi : v !! i = Some p.
Hypothesis Hlock : ∀ f, f ≤ dim → lockedAt s p f = Some false.

Local Abbreviation v' := (take i v ++ drop (S i) v).

Lemma rm_final_slot q f :
  q ∈ v → q ≠ p →
  isolatedSlot s p (S dim) q f =
  match slotAt s q f with
  | Some (Some (r, g)) => if decide (r = p) then Some None
                          else Some (Some (r, g))
  | o => o
  end.
Proof.
  intros Hq Hne. unfold isolatedSlot.
  destruct (slotAt s q f) as [[[r g]|]|] eqn:E; try done.
  destruct (triOk_slot_target _ _ _ _ _ _ _ _ Hok Hv Hq E) as (Hr & Hg & Hf).
  pose proof (Perm_apply_lt (S dim) g f Hg ltac:(lia)).
  case_bool_decide as Hc; case_decide as Hd; try done.
  - destruct Hc as [[? _]|[? _]]; done.
  - exfalso. apply Hc. by right.
Qed.

Lemma rm_run :
  ∃ s',
    removeSimplex dim T p s = Ok tt s' ∧
    triangulations s' = <[T := v']> (triangulations s) ∧
    simplices s' !! p = None ∧
    (∀ q, q ∉ v → simplices s' !! q = simplices s !! q) ∧
    (∀ q, q ∈ v → q ≠ p →
       shapeAt s' q =
       (if bool_decide (q ∈ drop (S i) v)
        then λ '(j, t, a, g, l), (j - 1, t, a, g, l) else λ x, x)
         <$> shapeAt s q) ∧
    (∀ q, q ≠ p → permsValid (S dim) s' q = permsValid (S dim) s q) ∧
    (∀ q f, q ∈ v → q ≠ p → slotAt s' q f = isolatedSlot s p (S dim) q f).
Proof.
  pose proof (list_elem_of_lookup_2 _ _ _ Hi) as Hp.
  pose proof (triOk_NoDup _ _ _ _ Hok Hv) as Hnd.
  destruct (iso_loop dim s T v p Hok Hsym Hv Hp Hlock)
    as (s1 & Hrun1 & Ht & Hn & Hd & Hsh & Hlk & Hpv & Hout & Hslots).
  pose proof (shapeAt_triOk _ _ _ _ _ _ Hok Hv Hi) as Hshp.
  rewrite <- Hsh in Hshp.
  apply shapeAt_Some in Hshp as (x & Hx & Hxi & _).
  set (s2 := setVec T v' s1).
  destruct (forM_modify_NoDup (λ y, withIndex (index_ y - 1) y)
              (drop (S i) v) s2) as (s3 & Hrun3 & Ht3 & Hn3 & Hd3 & Hs3).
  { rewrite <- (take_drop (S i) v) in Hnd. by apply NoDup_app in Hnd as (_ & _ & ?). }
  { intros q Hq. simpl.
    assert (Hqv : q ∈ v).
    { rewrite <- (take_drop (S i) v). apply elem_of_app. by right. }
    destruct (triOk_live dim s T v q Hok Hv Hqv) as [y Hy].
    pose proof (Hsh q) as Hshq. unfold shapeAt in Hshq. rewrite Hy in Hshq.
    destruct (simplices s1 !! q); [eauto|done]. }
  exists (mkState (delete p (simplices s3)) (triangulations s3)
                  (nextPtr s3) (nextTid s3)).
  assert (Hlook : ∀ q, q ≠ p →
    delete p (simplices s3) !! q =
    if bool_decide (q ∈ drop (S i) v)
    then (λ y, withIndex (index_ y - 1) y) <$> simplices s1 !! q
    else simplices s1 !! q).
  { intros q Hq. rewrite lookup_delete_ne by done. by rewrite Hs3. }
  split.
  { unfold removeSimplex.
    eapply run_bind; [exact Hrun1|].
    eapply run_bind; [by apply deref_Ok|].
    eapply run_bind.
    { unfold erase. eapply run_bind; [apply getVec_Ok; by rewrite Ht|].
      rewrite Hxi. rewrite bool_decide_eq_true_2
        by (eapply lookup_lt_Some; eauto).
      unfold eraseAt.
      eapply run_bind; [apply getVec_Ok; by rewrite Ht|].
      eapply run_bind; [reflexivity|]. exact Hrun3. }
    reflexivity. }
  simpl. split. { rewrite Ht3. simpl. by rewrite Ht. }
  split. { by rewrite lookup_delete_eq. }
  split.
  { intros q Hq. assert (q ≠ p) by (intros ->; done).
    rewrite Hlook by done. rewrite bool_decide_eq_false_2.
    - by apply Hout.
    - intros Hin. apply Hq. rewrite <- (take_drop (S i) v).
      apply elem_of_app. by right. }
  split.
  { intros q Hq Hne. unfold shapeAt at 1. simpl. rewrite Hlook by done.
    rewrite <- Hsh. unfold shapeAt.
    case_bool_decide; destruct (simplices s1 !! q); done. }
  split.
  { intros q Hne. unfold permsValid at 1. simpl. rewrite Hlook by done.
    rewrite <- Hpv. unfold permsValid.
    case_bool_decide; destruct (simplices s1 !! q); done. }
  intros q f Hq Hne. rewrite <- Hslots by done.
  unfold slotAt at 1. simpl. rewrite Hlook by done.
  unfold slotAt. case_bool_decide; destruct (simplices s1 !! q); done.
Qed.

End Remove.

Section RemoveTheorems.

Variables (dim : nat) (s : State) (T : tid) (v : list ptr) (i : nat) (p : ptr).
Hypothesis Hok : triOk dim s T = true.
Hypothesis Hsym : symOk dim s T = true.
Hypothesis Hv : triangulations s !! T = Some v.
Hypothesis Hi : v !! i = Some p.
Hypothesis Hlock : ∀ f, f ≤ dim → lockedAt s p f = Some false.

Lemma removeSimplex_correct :
  ∃ s', removeSimplex dim T p s = Ok tt s' ∧
    triangulations s' !! T = Some (take i v ++ drop (S i) v) ∧
    simplices s' !! p = None ∧
    triOk dim s' T = true ∧ symOk dim s' T = true ∧
    (∀ q f, q ∈ v → q ≠ p →
       slotAt s' q f =
       match slotAt s q f with
       | Some (Some (r, g)) => if decide (r = p) then Some None
                               else Some (Some (r, g))
       | o => o
       end) ∧
    (∀ q, q ∉ v → simplices s' !! q = simplices s !! q) ∧
    (∀ t, t ≠ T → triangulations s' !! t = triangulations s !! t).
Proof.
  pose proof (triOk_NoDup _ _ _ _ Hok Hv) as Hnd.
  destruct (rm_run dim s T v i p Hok Hsym Hv Hi Hlock)
    as (s' & Hrun & Ht & Hgone & Hout & Hsh & Hpv & Hslots).
  assert (Hv' : triangulations s' !! T = Some (take i v ++ drop (S i) v)).
  { rewrite Ht. apply lookup_insert_eq. }
  assert (Hfinal : ∀ q f, q ∈ v → q ≠ p →
    slotAt s' q f =
    match slotAt s q f with
    | Some (Some (r, g)) => if decide (r = p) then Some None
                            else Some (Some (r, g))
    | o => o
    end).
  { intros q f Hq Hne. rewrite Hslots by done.
    by apply (rm_final_slot dim s T v p Hok Hv). }
  exists s'. split; [done|]. split; [done|]. split; [done|].
  split; [|split; [|split; [done|split; [done|]]]].
  - (* well formed *)
    apply (triOk_views dim s' T _ Hv'). intros j q Hj.
    assert (Hq : q ∈ v ∧ q ≠ p).
    { apply (elem_of_erased v i p q Hnd Hi). by eapply list_elem_of_lookup_2. }
    destruct Hq as [Hq Hne]. split; [|split].
    + rewrite Hsh by done.
      apply lookup_app_Some in Hj as [Hj|[Hlen Hj]].
      * apply lookup_take_Some in Hj as [Hj Hlt].
        rewrite (shapeAt_triOk _ _ _ _ _ _ Hok Hv Hj).
        rewrite bool_decide_eq_false_2; [done|].
        intros [k Hk]%list_elem_of_lookup. rewrite lookup_drop in Hk.
        assert (j = S i + k) by (eapply NoDup_lookup; eauto). lia.
      * rewrite length_take_le in Hlen, Hj
          by (apply lookup_lt_Some in Hi; lia).
        rewrite lookup_drop in Hj.
        rewrite (shapeAt_triOk _ _ _ _ _ _ Hok Hv Hj).
        rewrite bool_decide_eq_true_2.
        -- simpl. do 5 f_equal. lia.
        -- apply list_elem_of_lookup. exists (j - i).
           by rewrite lookup_drop.
    + rewrite Hpv by done. by eapply permsValid_triOk.
    + intros f r g Hslot. rewrite Hfinal in Hslot by done.
      destruct (slotAt s q f) as [[[r' g']|]|] eqn:E; try done.
      case_decide; [done|]. simplify_eq.
      apply (elem_of_erased v i p r Hnd Hi). split; [|done].
      by destruct (triOk_slot_target _ _ _ _ _ _ _ _ Hok Hv Hq E).
  - (* two-sided *)
    apply (symOk_intro dim s' T _ Hv'). intros q f Hq' Hf.
    apply (elem_of_erased v i p q Hnd Hi) in Hq' as [Hq Hne].
    pose proof (symOk_elim dim s T v q f Hsym Hv Hq Hf) as Hs.
    apply facetSym_elim in Hs as [Hb|(r & g & Hslot & Hback & Hself)].
    { unfold facetSym. rewrite Hfinal by done. by rewrite Hb. }
    destruct (decide (r = p)) as [->|Hrp].
    { unfold facetSym. rewrite Hfinal by done. rewrite Hslot.
      by rewrite decide_True. }
    destruct (triOk_slot_target _ _ _ _ _ _ _ _ Hok Hv Hq Hslot) as (Hr & _).
    apply (facetSym_intro _ _ _ r g); [| |done].
    + rewrite Hfinal by done. rewrite Hslot. by rewrite decide_False.
    + rewrite Hfinal by done. rewrite Hback. by rewrite decide_False.
  - intros t Hne. rewrite Ht. by rewrite lookup_insert_ne.
Qed.

End RemoveTheorems.

(** X16: [removeSimplex] on a well-formed, two-sided triangulation whose simplex
    [p] has no locked facet: [p] leaves the vector and is deleted, the
    simplices behind it move down by one index, every facet that was glued
    to [p] becomes boundary and no other slot changes, and the triangulation
    is well formed and two-sided again, so no reference to the deleted
    simplex is left behind. *)
Theorem removeSimplex_spec dim s T v i p :
  triOk dim s T = true → symOk dim s T = true →
  triangulations s !! T = Some v → v !! i = Some p →
  (∀ f, f ≤ dim → lockedAt s p f = Some false) →
  ∃ s', removeSimplex dim T p s = Ok tt s' ∧
    triangulations s' !! T = Some (take i v ++ drop (S i) v) ∧
    simplices s' !! p = None ∧
    triOk dim s' T = true ∧ symOk dim s' T = true ∧
    (∀ q f, q ∈ v → q ≠ p →
       slotAt s' q f =
       match slotAt s q f with
       | Some (Some (r, g)) => if decide (r = p) then Some None
                               else Some (Some (r, g))
       | o => o
       end) ∧
    (∀ q, q ∉ v → simplices s' !! q = simplices s !! q) ∧
    (∀ t, t ≠ T → triangulations s' !! t = triangulations s !! t).
Proof. apply removeSimplex_correct. Qed.

(** [unjoin] and [isolate] change no index. *)
Lemma shapeAt_setAdj p f a x s q :
  simplices s !! p = Some x →
  shapeAt (setSimplex p (withAdj f a x) s) q = shapeAt s q.
Proof.
  intros Hx. unfold shapeAt, setSimplex; simpl.
  destruct (decide (q = p)) as [->|Hne].
  - rewrite lookup_insert_eq, Hx. simpl. by rewrite length_insert.
  - by rewrite lookup_insert_ne.
Qed.

Lemma unjoin_shape me f s o s' :
  unjoin me f s = Ok o s' → ∀ q, shapeAt s' q = shapeAt s q.
Proof.
  unfold unjoin. rewrite bind_unfold. unfold deref.
  destruct (simplices s !! me) as [x|] eqn:Hx; [|done].
  rewrite bind_unfold. unfold liftOpt.
  destruct (facetSlot x f) as [[[you g]|]|] eqn:Hslot; [| |done].
  - destruct (facetLocked x f); [done|].
    rewrite bind_unfold. unfold modify at 1.
    destruct (simplices s !! you) as [y|] eqn:Hy; [|done].
    rewrite bind_unfold. unfold modify at 1.
    destruct (simplices (setSimplex you (withAdj (Perm.apply g f) None y) s)
                !! me) as [x'|] eqn:Hx'; [|done].
    intros [= _ <-] q.
    rewrite (shapeAt_setAdj me f None x' _ q Hx').
    by apply shapeAt_setAdj.
  - by intros [= _ <-].
Qed.

Lemma isolate_shape dim me s s' :
  isolate dim me s = Ok tt s' → ∀ q, shapeAt s' q = shapeAt s q.
Proof.
  unfold isolate. generalize (seq 0 (S dim)). intros l. revert s.
  induction l as [|f l IH]; intros s.
  - by intros [= <-].
  - cbn [forM]. rewrite bind_unfold.
    destruct ((unjoin me f;; mret tt) s) as [[] s1| |] eqn:E; try done.
    intros Hrest q. rewrite (IH _ Hrest).
    rewrite bind_unfold in E.
    destruct (unjoin me f s) as [o s1'| |] eqn:E1; try done.
    injection E as <-. by eapply unjoin_shape.
Qed.

(** X17: Removing the simplex at position [i] is removing the simplex found at
    position [i], whatever the outcome. *)
Theorem removeSimplexAt_removeSimplex dim s T v i p :
  triOk dim s T = true → triangulations s !! T = Some v →
  v !! i = Some p →
  removeSimplexAt dim T i s = removeSimplex dim T p s.
Proof.
  intros Hok Hv Hi. unfold removeSimplexAt, removeSimplex.
  eapply run_bind; [by apply getVec_Ok|].
  eapply run_bind; [by apply liftOpt_Ok|].
  rewrite !bind_unfold.
  destruct (isolate dim p s) as [[] s1| |] eqn:E; try done.
  pose proof (isolate_shape dim p s s1 E p) as Hsh.
  rewrite (shapeAt_triOk _ _ _ _ _ _ Hok Hv Hi) in Hsh.
  apply shapeAt_Some in Hsh as (x & Hx & Hxi & _).
  symmetry. eapply run_bind; [by apply deref_Ok|]. by rewrite Hxi.
Qed.

(** X18: A simplex that has just been created can be removed again, and the
    simplices and the vectors of the store are then what they were before;
    only the allocator has moved on. *)
Theorem newSimplex_removeSimplex dim s T v desc :
  storeOk s = true → triangulations s !! T = Some v →
  ∃ s', (newSimplex dim T desc ≫= removeSimplex dim T) s = Ok tt s' ∧
        simplices s' = simplices s ∧
        triangulations s' = triangulations s ∧
        nextPtr s' = S (nextPtr s) ∧ nextTid s' = nextTid s.
Proof.
  intros Hstore Hv.
  destruct (storeOk_elim _ Hstore) as [Hlive _].
  assert (Hfresh : simplices s !! nextPtr s = None).
  { destruct (simplices s !! nextPtr s) eqn:E; [|done].
    assert (nextPtr s < nextPtr s) by eauto. lia. }
  set (s1 := allocated dim T desc s).
  set (p := nextPtr s).
  assert (Hp1 : simplices s1 !! p = Some (freshSimplex dim desc T (length v))).
  { unfold s1, allocated; simpl. by rewrite lookup_insert_eq, Hv. }
  assert (Hiso : isolate dim p s1 = Ok tt s1).
  { unfold isolate.
    assert (H : ∀ l, Forall (λ f, f ≤ dim) l →
              forM l (λ f, unjoin p f;; mret tt) s1 = Ok tt s1).
    { induction l as [|f l IH]; intros Hl; [done|].
      apply Forall_cons in Hl as [Hf Hl]. cbn [forM].
      eapply run_bind; [|by apply IH].
      eapply run_bind; [|done]. apply unjoin_boundary.
      unfold s1. rewrite slotAt_allocated.
      by rewrite decide_True, decide_True by done. }
    apply H. apply Forall_seq. intros; lia. }
  eexists. split.
  { eapply run_bind; [apply pushNewSimplex_Ok; eauto|]. fold s1. fold p.
    unfold removeSimplex.
    eapply run_bind; [exact Hiso|].
    eapply run_bind; [by apply deref_Ok|].
    cbn [freshSimplex index_].
    eapply run_bind.
    { unfold erase.
      eapply run_bind; [apply getVec_Ok; by apply allocated_vec_T|].
      rewrite bool_decide_eq_true_2 by (rewrite length_app; simpl; lia).
      unfold eraseAt.
      eapply run_bind; [apply getVec_Ok; by apply allocated_vec_T|].
      eapply run_bind; [reflexivity|].
      rewrite drop_ge by (rewrite length_app; simpl; lia). reflexivity. }
    reflexivity. }
  simpl. repeat split.
  - rewrite delete_insert_eq. by apply delete_id.
  - rewrite insert_insert_eq. rewrite take_app_length.
    rewrite app_nil_r.
    by apply insert_id.
Qed.

(** ** More on the copy constructor *)

Section CopyMore.

Variables (dim : nat) (s : State) (T : tid) (v : list ptr).
Hypothesis Hstore : storeOk s = true.
Hypothesis HT : triOk dim s T = true.
Hypothesis Hv : triangulations s !! T = Some v.

Local Abbreviation U := (nextTid s).
Local Abbreviation n := (nextPtr s).

(** The run of the copy constructor: the copy is the next triangulation
    object, its simplices are the next [length v] simplex objects, each the
    finished copy of the source simplex at the same position, and nothing
    older has been written to. *)
Lemma copy_run :
  ∃ s2, copyConstruct dim T s = Ok U s2 ∧
    nextPtr s2 = n + length v ∧ nextTid s2 = S U ∧
    triangulations s2 = <[U := seq n (length v)]> (triangulations s) ∧
    (∀ p, p < n → simplices s2 !! p = simplices s !! p) ∧
    (∀ p, n + length v ≤ p → simplices s2 !! p = None) ∧
    (∀ j you y, v !! j = Some you → simplices s !! you = Some y →
       ∃ x', simplices s2 !! (n + j) = Some x' ∧
             description_ x' = description_ y ∧
             ∀ f, f ≤ dim →
               slotAt s2 (n + j) f =
               match slotAt s you f with
               | Some (Some (q, g)) =>
                   (λ yq, Some (n + index_ yq, g)) <$> simplices s !! q
               | o => o
               end).
Proof.
  destruct (storeOk_elim _ Hstore) as [Hlive Htid].
  pose proof (triOk_sourceOk _ _ _ _ HT Hv) as Hsrc.
  set (s0 := mkState (simplices s) (<[U := []]> (triangulations s))
                     (nextPtr s) (S U)).
  assert (HUT : U ≠ T).
  { intros HUT. assert (T < nextTid s) by (apply Htid; eauto). lia. }
  assert (Hsrc0 : sourceOk dim s0 v) by exact Hsrc.
  assert (Hlive0 : ∀ p, is_Some (simplices s0 !! p) → p < nextPtr s0)
    by exact Hlive.
  assert (HU0 : triangulations s0 !! U = Some [])
    by (subst s0; simpl; apply lookup_insert_eq).
  destruct (push_loop dim U s0 [] v Hlive0 HU0 Hsrc0) as (s1 & Hrun1 & Hinv1).
  destruct (copy_outer dim U s0 v s1 Hlive0 HU0 Hsrc0 Hinv1)
    as (s2 & Hrun2 & Hinv2).
  pose proof Hinv1 as (_ & _ & Hv1 & _).
  destruct Hinv2 as (Hn2 & Ht2 & Hv2 & Hold2 & Hnone2 & Hnew2).
  exists s2. split.
  { unfold copyConstruct.
    eapply run_bind; [reflexivity|]. cbv beta. fold s0.
    eapply run_bind.
    { apply getVec_Ok. subst s0; simpl. by rewrite lookup_insert_ne. }
    cbv beta.
    eapply run_bind; [exact Hrun1|]. cbv beta.
    eapply run_bind; [apply getVec_Ok; rewrite Hv1; apply lookup_insert_eq|].
    cbv beta. eapply run_bind; [exact Hrun2|]. reflexivity. }
  split; [done|]. split; [done|].
  split. { rewrite Hv2. subst s0; simpl. by rewrite insert_insert_eq. }
  split; [done|]. split; [done|].
  intros j you y Hj Hy.
  destruct (Hnew2 j you y Hj Hy) as (x' & Hx' & Hc).
  rewrite decide_True in Hc by (eapply lookup_lt_Some; eauto).
  destruct Hc as (_ & _ & Hla & Hlg & _ & _ & Hdesc & Hdone & _).
  exists x'. split; [done|]. split; [done|].
  intros f Hf. specialize (Hdone f ltac:(lia)). unfold copiedFacet in Hdone.
  change (nextPtr s0) with (nextPtr s) in *.
  change (simplices s0) with (simplices s) in *.
  destruct (Hsrc j you Hj) as (y0 & Hy0 & Hya & Hyg & _).
  assert (y0 = y) as -> by congruence.
  unfold slotAt. rewrite Hx', Hy. simpl. unfold facetSlot.
  destruct (lookup_lt_is_Some_2 (gluing_ y) f) as [g Hg]; [lia|].
  destruct (adj_ y !! f) as [[q|]|] eqn:Ha; [| |done].
  - destruct Hdone as (yq & Hyq & Hxa & Hxg).
    rewrite Hxa, Hxg, Hg. simpl in Hyq. by rewrite Hyq.
  - destruct Hdone as [Hxa Hxg]. by rewrite Hxa, Hxg, Hg.
Qed.

End CopyMore.

(** X19: The copy carries, simplex by simplex, the descriptions of its source
    (which [isIdenticalTo] does not look at). *)
Theorem copyConstruct_descriptions dim s T v :
  storeOk s = true → triOk dim s T = true →
  triangulations s !! T = Some v →
  ∃ U s' v',
    copyConstruct dim T s = Ok U s' ∧
    triangulations s' !! U = Some v' ∧
    ∀ j you y, v !! j = Some you → simplices s !! you = Some y →
      ∃ me x, v' !! j = Some me ∧ simplices s' !! me = Some x ∧
              description_ x = description_ y.
Proof.
  intros Hstore HT Hv.
  destruct (copy_run dim s T v Hstore HT Hv)
    as (s2 & Hrun & _ & _ & Ht & _ & _ & Hnew).
  exists (nextTid s), s2, (seq (nextPtr s) (length v)).
  split; [done|]. split. { rewrite Ht. apply lookup_insert_eq. }
  intros j you y Hj Hy.
  destruct (Hnew j you y Hj Hy) as (x' & Hx' & Hd & _).
  exists (nextPtr s + j), x'. split; [|done].
  apply lookup_seq_lt. eapply lookup_lt_Some; eauto.
Qed.

(** X20: The copy of a two-sided triangulation is two-sided. *)
Theorem copyConstruct_two_sided dim s T v :
  storeOk s = true → triOk dim s T = true → symOk dim s T = true →
  triangulations s !! T = Some v →
  ∃ U s', copyConstruct dim T s = Ok U s' ∧
          symOk dim s' U = true ∧ symOk dim s' T = true.
Proof.
  intros Hstore HT Hsym Hv.
  destruct (storeOk_elim _ Hstore) as [Hlive Htid].
  destruct (copy_run dim s T v Hstore HT Hv)
    as (s2 & Hrun & _ & _ & Ht & Hold & _ & Hnew).
  pose proof (triOk_NoDup _ _ _ _ HT Hv) as Hnd.
  assert (HUT : nextTid s ≠ T).
  { intros HUT. assert (T < nextTid s) by (apply Htid; eauto). lia. }
  exists (nextTid s), s2. split; [done|].
  assert (Hcopy : ∀ j you f, v !! j = Some you → f ≤ dim →
    slotAt s2 (nextPtr s + j) f =
    match slotAt s you f with
    | Some (Some (q, g)) =>
        (λ yq, Some (nextPtr s + index_ yq, g)) <$> simplices s !! q
    | o => o
    end).
  { intros j you f Hj Hf.
    destruct (triOk_vec _ _ _ _ HT Hv j you Hj) as (y & Hy & _).
    destruct (Hnew j you y Hj Hy) as (x' & _ & _ & Hs). by apply Hs. }
  assert (Hidx : ∀ k q, v !! k = Some q →
    ∃ yq, simplices s !! q = Some yq ∧ index_ yq = k).
  { intros k q Hk.
    destruct (triOk_vec _ _ _ _ HT Hv k q Hk) as (yq & Hyq & Hi & _). eauto. }
  split.
  - apply (symOk_intro dim s2 _ (seq (nextPtr s) (length v))).
    { rewrite Ht. apply lookup_insert_eq. }
    intros p f Hp Hf. apply elem_of_seq in Hp.
    assert (p = nextPtr s + (p - nextPtr s)) as -> by lia.
    set (j := p - nextPtr s).
    assert (Hjlt : j < length v) by (unfold j; lia).
    destruct (lookup_lt_is_Some_2 v j Hjlt) as [you Hj].
    pose proof (list_elem_of_lookup_2 _ _ _ Hj) as Hyou.
    pose proof (symOk_elim dim s T v you f Hsym Hv Hyou Hf) as Hs.
    apply facetSym_elim in Hs as [Hb|(q & g & Hslot & Hback & Hself)].
    { unfold facetSym. rewrite (Hcopy j you f Hj Hf), Hb. done. }
    destruct (triOk_slot_target _ _ _ _ _ _ _ _ HT Hv Hyou Hslot)
      as (Hq & Hg & _).
    apply list_elem_of_lookup in Hq as [k Hk].
    destruct (Hidx k q Hk) as (yq & Hyq & Hyqi).
    destruct (Hidx j you Hj) as (yy & Hyy & Hyyi).
    apply (facetSym_intro _ _ _ (nextPtr s + k) g).
    + rewrite (Hcopy j you f Hj Hf), Hslot, Hyq. simpl. by rewrite Hyqi.
    + rewrite (Hcopy k q _ Hk).
      * rewrite Hback, Hyy. simpl. by rewrite Hyyi.
      * pose proof (Perm_apply_lt (S dim) g f Hg ltac:(lia)). lia.
    + intros [Hkj Hgf]. apply Hself. split; [|done].
      assert (k = j) as -> by lia. congruence.
  - apply (symOk_intro dim s2 T v).
    { rewrite Ht. by rewrite lookup_insert_ne. }
    intros p f Hp Hf.
    assert (Hsame : ∀ q, q ∈ v → simplices s2 !! q = simplices s !! q).
    { intros q Hq. apply Hold. apply Hlive. eapply triOk_live; eauto. }
    pose proof (symOk_elim dim s T v p f Hsym Hv Hp Hf) as Hs.
    apply facetSym_elim in Hs as [Hb|(q & g & Hslot & Hback & Hself)].
    { unfold facetSym. rewrite (slotAt_same s s2) by by apply Hsame.
      by rewrite Hb. }
    destruct (triOk_slot_target _ _ _ _ _ _ _ _ HT Hv Hp Hslot) as (Hq & _).
    apply (facetSym_intro _ _ _ q g); [| |done].
    + rewrite (slotAt_same s s2) by by apply Hsame. done.
    + rewrite (slotAt_same s s2) by by apply Hsame. done.
Qed.

(** X21: A copy that is made and destroyed again leaves no trace: the simplices
    and the vectors of the store are what they were before the copy. *)
Theorem copyConstruct_destroy dim s T v :
  storeOk s = true → triOk dim s T = true →
  triangulations s !! T = Some v →
  ∃ s', (copyConstruct dim T ≫= destroyTriangulation) s = Ok tt s' ∧
        simplices s' = simplices s ∧
        triangulations s' = triangulations s.
Proof.
  intros Hstore HT Hv.
  destruct (storeOk_elim _ Hstore) as [Hlive Htid].
  destruct (copy_run dim s T v Hstore HT Hv)
    as (s2 & Hrun & Hn & Hd & Ht & Hold & Hnone & Hnew).
  assert (Hloop : ∀ l s1,
    ∃ s3, forM l deleteSimplex s1 = Ok tt s3 ∧
          triangulations s3 = triangulations s1 ∧
          ∀ q, simplices s3 !! q =
               if bool_decide (q ∈ l) then None else simplices s1 !! q).
  { induction l as [|p l IH]; intros s1.
    - exists s1. repeat split; try done.
    - destruct (IH (mkState (delete p (simplices s1)) (triangulations s1)
                            (nextPtr s1) (nextTid s1)))
        as (s3 & Hr & Ht3 & Hs3).
      exists s3. split; [|split; [done|]].
      { cbn [forM]. eapply run_bind; [reflexivity|]. exact Hr. }
      intros q. rewrite Hs3. simpl.
      destruct (decide (q = p)) as [->|Hne].
      + rewrite lookup_delete_eq.
        rewrite (bool_decide_eq_true_2 (p ∈ p :: l)) by by left.
        by case_bool_decide.
      + rewrite lookup_delete_ne by done.
        repeat case_bool_decide; try done.
        * exfalso. apply H0. by right.
        * exfalso. apply elem_of_cons in H0 as [?|?]; done. }
  destruct (Hloop (seq (nextPtr s) (length v)) s2) as (s3 & Hr3 & Ht3 & Hs3).
  eexists. split.
  { eapply run_bind; [exact Hrun|]. unfold destroyTriangulation.
    eapply run_bind; [apply getVec_Ok; rewrite Ht; apply lookup_insert_eq|].
    eapply run_bind; [exact Hr3|]. reflexivity. }
  simpl. split.
  - apply map_eq. intros q. rewrite Hs3. case_bool_decide as Hq.
    + apply elem_of_seq in Hq. symmetry.
      destruct (simplices s !! q) eqn:E; [|done].
      assert (q < nextPtr s) by (apply Hlive; eauto). lia.
    + destruct (decide (q < nextPtr s)); [by apply Hold|].
      rewrite Hnone.
      * symmetry. destruct (simplices s !! q) eqn:E; [|done].
        assert (q < nextPtr s) by (apply Hlive; eauto). lia.
      * destruct (decide (nextPtr s + length v ≤ q)); [done|].
        exfalso. apply Hq. apply elem_of_seq. lia.
  - rewrite Ht3, Ht. rewrite delete_insert_eq. apply delete_id.
    destruct (triangulations s !! nextTid s) eqn:E; [|done].
    assert (nextTid s < nextTid s) by (apply Htid; eauto). lia.
Qed.

(** ** [idealToFinite]: the gluings of the staging triangulation *)

Lemma insideCheck_true : insideCheck = true.
Proof. vm_compute. reflexivity. Qed.

Lemma externalCheck_true : externalCheck = true.
Proof. vm_compute. reflexivity. Qed.

Lemma decodeCheck_true : decodeCheck = true.
Proof. vm_compute. reflexivity. Qed.

(** Inside an old tetrahedron the pattern is two-sided. *)
Lemma inside_sym r f r' g :
  r < 32 → f < 4 → insideGluing r f = Some (r', g) →
  r' < 32 ∧ Perm.valid 4 g = true ∧
  insideGluing r' (Perm.apply g f) = Some (r, Perm.inverse g) ∧
  ¬ (r' = r ∧ Perm.apply g f = f).
Proof.
  intros Hr Hf Hg. pose proof insideCheck_true as H. unfold insideCheck in H.
  rewrite forallb_forall in H. specialize (H r).
  rewrite forallb_forall in H.
  specialize (H ltac:(apply in_seq; lia) f ltac:(apply in_seq; lia)).
  rewrite Hg in H.
  apply andb_true_iff in H as [H H4]. apply andb_true_iff in H as [H H3].
  apply andb_true_iff in H as [H1 H2].
  apply bool_decide_eq_true in H1. apply bool_decide_eq_true in H3.
  apply negb_true_iff, bool_decide_eq_false in H4. done.
Qed.

Lemma externalSlots_elem kind j k :
  j < 4 → k < 4 → j ≠ k → In (kind, j, k) externalSlots.
Proof.
  intros Hj Hk Hne.
  destruct kind;
    destruct j as [|[|[|[|]]]]; try lia;
    destruct k as [|[|[|[|]]]]; try lia;
    vm_compute; tauto.
Qed.

(** The pieces that lie in a facet of the old tetrahedron are not glued
    there from inside, and role and facet tell kind and labels. *)
Lemma ext_role kind j k :
  j < 4 → k < 4 → j ≠ k →
  roleOf kind j k < 32 ∧
  insideGluing (roleOf kind j k) (facetOf kind j k) = None ∧
  external (roleOf kind j k) (facetOf kind j k) = Some (kind, j, k).
Proof.
  intros Hj Hk Hne. pose proof externalCheck_true as H.
  unfold externalCheck in H. rewrite forallb_forall in H.
  specialize (H _ (externalSlots_elem kind j k Hj Hk Hne)).
  cbv beta iota in H.
  apply andb_true_iff in H as [H H3]. apply andb_true_iff in H as [H1 H2].
  apply bool_decide_eq_true in H1. apply bool_decide_eq_true in H2.
  apply bool_decide_eq_true in H3. exact (conj H1 (conj H2 H3)).
Qed.

Lemma ext_decode r f kind j k :
  r < 32 → f < 4 → external r f = Some (kind, j, k) →
  j < 4 ∧ k < 4 ∧ j ≠ k ∧ r = roleOf kind j k ∧ f = facetOf kind j k.
Proof.
  intros Hr Hf He. pose proof decodeCheck_true as H. unfold decodeCheck in H.
  rewrite forallb_forall in H. specialize (H r).
  rewrite forallb_forall in H.
  specialize (H ltac:(apply in_seq; lia) f ltac:(apply in_seq; lia)).
  rewrite He in H. by apply bool_decide_eq_true in H.
Qed.

Lemma facetOf_lt kind j k : j < 4 → k < 4 → facetOf kind j k < 4.
Proof. by destruct kind. Qed.

Lemma facetOf_apply kind p j k :
  Perm.apply p (facetOf kind j k) =
  facetOf kind (Perm.apply p j) (Perm.apply p k).
Proof. by destruct kind. Qed.

Lemma piece_div_mod m r i :
  r < 32 → (m + (r + i * 32) - m) / 32 = i ∧ (m + (r + i * 32) - m) `mod` 32 = r.
Proof.
  intros Hr. replace (m + (r + i * 32) - m) with (r + i * 32) by lia. split.
  - rewrite Nat.div_add by lia. rewrite Nat.div_small by lia. lia.
  - rewrite Nat.Div0.mod_add. by apply Nat.mod_small.
Qed.

Ltac table_cases :=
  repeat match goal with
         | H : ?j < 4 |- _ =>
             is_var j; destruct j as [|[|[|[|?]]]]; [| | | |lia]; clear H
         end;
  try (exfalso; lia);
  try (split; [vm_compute; reflexivity|vm_compute; lia]);
  try (vm_compute; reflexivity).

Lemma tipR_lookup j :
  j < 4 → tip pieces !! j = Some (tipR j) ∧ tipR j < 32.
Proof. intros Hj. table_cases. Qed.

Lemma interiorR_lookup j :
  j < 4 → interior pieces !! j = Some (interiorR j) ∧ interiorR j < 32.
Proof. intros Hj. table_cases. Qed.

Lemma edgeR_lookup j k :
  j < 4 → k < 4 → get2 (edge pieces) j k = Some (edgeR j k) ∧ edgeR j k < 32.
Proof. intros Hj Hk. table_cases. Qed.

Lemma vertexR_lookup j k :
  j < 4 → k < 4 →
  get2 (vertex pieces) j k = Some (vertexR j k) ∧ vertexR j k < 32.
Proof. intros Hj Hk. table_cases. Qed.

(** The joins of [glueInside], read back from the table of gluings. *)
Lemma inside_tip j :
  j < 4 → insideGluing (tipR j) j = Some (interiorR j, Perm.id 4).
Proof. intros Hj. table_cases. Qed.

Lemma inside_interior j k :
  j < 4 → k < 4 → j ≠ k →
  insideGluing (interiorR j) k = Some (vertexR k j, Perm.id 4).
Proof. intros Hj Hk Hjk. table_cases. Qed.

Lemma inside_edge j k :
  j < 4 → k < 4 → j < k →
  insideGluing (edgeR j k) j = Some (edgeR k j, Perm.transposition 4 j k).
Proof. intros Hj Hk Hjk. table_cases. Qed.

Lemma inside_edge_vertex j k l :
  j < 4 → k < 4 → l < 4 → j ≠ k → l ≠ j → l ≠ k →
  insideGluing (edgeR j k) l = Some (vertexR j l, Perm.transposition 4 k l).
Proof. intros Hj Hk Hl Hjk Hlj Hlk. table_cases. Qed.

Lemma designated_inside s v m r i f r' g :
  r < 32 → insideGluing r f = Some (r', g) →
  designated s v m (m + (r + i * 32)) f = Some (m + (r' + i * 32), g).
Proof.
  intros Hr Hg. unfold designated.
  destruct (piece_div_mod m r i Hr) as [-> ->]. by rewrite Hg.
Qed.

Lemma designated_across s v m kind j k i ot opp p y :
  j < 4 → k < 4 → j ≠ k →
  v !! i = Some ot → slotAt s ot j = Some (Some (opp, p)) →
  simplices s !! opp = Some y →
  designated s v m (m + (roleOf kind j k + i * 32)) (facetOf kind j k) =
  Some (m + (roleOf kind (Perm.apply p j) (Perm.apply p k) + index_ y * 32), p).
Proof.
  intros Hj Hk Hne Hot Hslot Hy. unfold designated.
  destruct (ext_role kind j k Hj Hk Hne) as (Hr & Hin & Hex).
  destruct (piece_div_mod m _ i Hr) as [-> ->].
  rewrite Hin, Hex. simpl. rewrite Hot. simpl. rewrite Hslot. simpl.
  by rewrite Hy.
Qed.

Section Designated.

Variables (s : State) (T : tid) (v : list ptr).
Hypothesis HT : triOk 3 s T = true.
Hypothesis Hsym : symOk 3 s T = true.
Hypothesis Hv : triangulations s !! T = Some v.

Local Abbreviation m := (nextPtr s).

(** The designated gluings are two-sided: the facet a piece is meant to be
    glued to is meant to be glued back, through the inverse permutation. *)
Lemma designated_sym r i f b g :
  r < 32 → i < length v → f < 4 →
  designated s v m (m + (r + i * 32)) f = Some (b, g) →
  Perm.valid 4 g = true ∧ Perm.apply g f < 4 ∧
  (∃ r' i', r' < 32 ∧ i' < length v ∧ b = m + (r' + i' * 32)) ∧
  designated s v m b (Perm.apply g f) = Some (m + (r + i * 32), Perm.inverse g) ∧
  ¬ (b = m + (r + i * 32) ∧ Perm.apply g f = f).
Proof.
  intros Hr Hi Hf Hd. unfold designated in Hd.
  destruct (piece_div_mod m r i Hr) as [Ei Er]. rewrite Ei, Er in Hd.
  destruct (insideGluing r f) as [[r' g']|] eqn:Hin.
  - injection Hd as <- <-.
    destruct (inside_sym r f r' g' Hr Hf Hin) as (Hr' & Hg & Hback & Hself).
    split; [done|]. split; [by apply (Perm_apply_lt 4)|].
    split; [eauto 10|]. split.
    + by apply designated_inside.
    + intros [Hb Hff]. apply Hself. split; [lia|done].
  - destruct (external r f) as [[[kind j] k]|] eqn:Hex; [|done].
    simpl in Hd.
    destruct (ext_decode r f kind j k Hr Hf Hex) as (Hj & Hk & Hne & -> & ->).
    destruct (v !! i) as [ot|] eqn:Hot; [|done]. simpl in Hd.
    destruct (slotAt s ot j) as [[[opp p]|]|] eqn:Hslot; try done.
    simpl in Hd.
    destruct (simplices s !! opp) as [y|] eqn:Hy; [|done].
    simpl in Hd. injection Hd as <- <-.
    pose proof (list_elem_of_lookup_2 _ _ _ Hot) as Hotv.
    destruct (triOk_slot_target _ _ _ _ _ _ _ _ HT Hv Hotv Hslot)
      as (Hopp & Hp & _).
    pose proof (symOk_elim 3 s T v ot j Hsym Hv Hotv ltac:(lia)) as Hs.
    apply facetSym_elim in Hs as [Hb|(opp' & p' & Hs & Hback & Hself)];
      [congruence|].
    rewrite Hslot in Hs.
    assert (opp' = opp ∧ p' = p) as [-> ->] by by simplify_eq.
    apply list_elem_of_lookup in Hopp as [i' Hi'].
    destruct (triOk_vec _ _ _ _ HT Hv i' opp Hi') as (y' & Hy' & Hyi & _).
    assert (y' = y) as -> by congruence.
    destruct (triOk_vec _ _ _ _ HT Hv i ot Hot) as (x & Hx & Hxi & _).
    assert (Hpj : Perm.apply p j < 4) by by apply (Perm_apply_lt 4).
    assert (Hpk : Perm.apply p k < 4) by by apply (Perm_apply_lt 4).
    assert (Hpne : Perm.apply p j ≠ Perm.apply p k).
    { intros Heq. apply Hne.
      rewrite <- (Perm_inverse_apply 4 p j Hp Hj).
      rewrite <- (Perm_inverse_apply 4 p k Hp Hk). by rewrite Heq. }
    destruct (ext_role kind _ _ Hpj Hpk Hpne) as (Hr' & _).
    split; [done|]. split.
    { apply (Perm_apply_lt 4); [done|]. by apply facetOf_lt. }
    split.
    { exists (roleOf kind (Perm.apply p j) (Perm.apply p k)), (index_ y).
      split; [done|]. split; [|done].
      rewrite Hyi. eapply lookup_lt_Some; eauto. }
    split.
    + rewrite facetOf_apply.
      rewrite (designated_across s v m kind _ _ (index_ y) opp ot
                 (Perm.inverse p) x); try done.
      * rewrite !(Perm_inverse_apply 4) by done. by rewrite Hxi.
      * by rewrite Hyi.
    + intros [Hb Hff]. apply Hself.
      assert (Hrole : roleOf kind (Perm.apply p j) (Perm.apply p k)
                      = roleOf kind j k ∧ index_ y = i).
      { assert (roleOf kind j k < 32) by by apply ext_role.
        split; [|lia].
        assert (Hmod : (roleOf kind (Perm.apply p j) (Perm.apply p k)
                        + index_ y * 32) `mod` 32
                       = (roleOf kind j k + i * 32) `mod` 32) by (f_equal; lia).
        rewrite !Nat.Div0.mod_add in Hmod.
        by rewrite !Nat.mod_small in Hmod by done. }
      destruct Hrole as [Hrole Hidx].
      rewrite facetOf_apply in Hff.
      destruct (ext_role kind _ _ Hpj Hpk Hpne) as (_ & _ & He1).
      destruct (ext_role kind _ _ Hj Hk Hne) as (_ & _ & He2).
      rewrite Hrole, Hff, He2 in He1.
      assert (Perm.apply p j = j) by by simplify_eq.
      split; [|done]. rewrite Hidx in Hyi. congruence.
Qed.

End Designated.

Lemma slotAt_of_shape s p f i t l :
  shapeAt s p = Some (i, t, 4, 4, l) → f < 4 → is_Some (slotAt s p f).
Proof.
  intros (x & Hx & _ & _ & Hla & Hlg & _)%shapeAt_Some Hf.
  unfold slotAt. rewrite Hx. simpl. unfold facetSlot.
  destruct (lookup_lt_is_Some_2 (adj_ x) f) as [a ->]; [lia|].
  destruct (lookup_lt_is_Some_2 (gluing_ x) f) as [g ->]; [lia|].
  destruct a; eauto.
Qed.

Section StagingGlue.

Variables (s : State) (T : tid) (v : list ptr).
Hypothesis Hstore : storeOk s = true.
Hypothesis HT : triOk 3 s T = true.
Hypothesis Hsym : symOk 3 s T = true.
Hypothesis Hv : triangulations s !! T = Some v.

Local Abbreviation m := (nextPtr s).
Local Abbreviation K := (32 * length v).
Local Abbreviation newTet := (seq (nextPtr s) K).
Local Abbreviation J2 :=
  (λ s', stagingInv s (nextTid s) K s' ∧ stagingGlued s v s').

Lemma sg_designated_sym c h b g :
  m ≤ c < m + K → h < 4 →
  designated s v m c h = Some (b, g) →
  Perm.valid 4 g = true ∧ Perm.apply g h < 4 ∧
  m ≤ b < m + K ∧
  designated s v m b (Perm.apply g h) = Some (c, Perm.inverse g) ∧
  ¬ (b = c ∧ Perm.apply g h = h).
Proof.
  intros Hc Hh Hd.
  set (idx := c - m).
  pose proof (Nat.div_mod idx 32 ltac:(lia)) as Hdm.
  pose proof (Nat.mod_upper_bound idx 32 ltac:(lia)) as Hmod.
  assert (Hi : idx / 32 < length v).
  { apply Nat.Div0.div_lt_upper_bound. unfold idx. lia. }
  assert (Hce : c = m + (idx `mod` 32 + idx / 32 * 32)) by (unfold idx in *; lia).
  rewrite Hce in Hd.
  destruct (designated_sym s T v HT Hsym Hv _ _ h b g Hmod Hi Hh Hd)
    as (Hg & Hgh & (r' & i' & Hr' & Hi' & ->) & Hback & Hself).
  rewrite <- Hce in Hback, Hself.
  split; [done|]. split; [done|]. split; [lia|]. done.
Qed.

Lemma gluePieces_designated r1 i1 f r2 i2 g :
  r1 < 32 → r2 < 32 → i1 < length v → i2 < length v → f < 4 →
  designated s v m (m + (r1 + i1 * 32)) f = Some (m + (r2 + i2 * 32), g) →
  preserves J2 (gluePieces newTet r1 i1 f r2 i2 g).
Proof.
  intros Hr1 Hr2 Hi1 Hi2 Hf Hdes s'
    [(Hn & Ht & Hvec & Hold & Hlive & Hnone) (Hshape & Hglued)].
  unfold gluePieces. rewrite nDiv_pieces.
  set (a := nextPtr s + (r1 + i1 * 32)) in *.
  set (b := nextPtr s + (r2 + i2 * 32)) in *.
  assert (Ha : m ≤ a < m + K) by (subst a; lia).
  assert (Hb : m ≤ b < m + K) by (subst b; lia).
  destruct (sg_designated_sym a f b g Ha Hf Hdes)
    as (Hg & Hgf & _ & Hback & Hself).
  pose proof (Perm_inverse_valid 4 g Hg) as Hgi.
  assert (Hslot : ∀ c h, m ≤ c < m + K → h < 4 → is_Some (slotAt s' c h)).
  { intros c h Hc Hh. destruct (Hshape (c - m) ltac:(lia)) as [Hsh _].
    replace (m + (c - m)) with c in Hsh by lia.
    by eapply slotAt_of_shape. }
  exists (glued a f b g s'). split.
  { eapply run_bind; [apply liftOpt_Ok, lookup_seq_lt; lia|]. cbv beta.
    eapply run_bind; [apply liftOpt_Ok, lookup_seq_lt; lia|]. cbv beta.
    apply joinRaw_eq; apply Hlive; lia. }
  split; [|split].
  - repeat split; try done.
    + intros p Hp. rewrite glued_simplices_ne by lia. by apply Hold.
    + intros p Hp. apply glued_live. by apply Hlive.
    + intros p Hp. rewrite glued_simplices_ne by lia. by apply Hnone.
  - intros idx Hidx. destruct (Hshape idx Hidx) as [Hsh Hpv]. split.
    + unfold glued. by rewrite !shapeAt_setSlot.
    + unfold glued. by do 2 (apply permsValid_setSlot; [done|]).
  - assert (Haf : slotAt (glued a f b g s') a f = Some (Some (b, g))).
    { unfold glued. rewrite !slotAt_setSlot.
      rewrite decide_False by (intros [? ?]; apply Hself; done).
      rewrite decide_True by done.
      by destruct (Hslot a f Ha Hf) as [? ->]. }
    assert (Hbf : slotAt (glued a f b g s') b (Perm.apply g f) =
                  Some (Some (a, Perm.inverse g))).
    { unfold glued. rewrite !slotAt_setSlot.
      rewrite decide_True by done.
      rewrite decide_False by (intros [? ?]; apply Hself; done).
      by destruct (Hslot b _ Hb Hgf) as [? ->]. }
    assert (Hother : ∀ c h, ¬ (b = c ∧ Perm.apply g f = h) →
              ¬ (a = c ∧ f = h) →
              slotAt (glued a f b g s') c h = slotAt s' c h).
    { intros c h H1 H2. unfold glued. rewrite !slotAt_setSlot.
      by rewrite !decide_False. }
    intros c h Hc Hh.
    destruct (decide (b = c ∧ Perm.apply g f = h)) as [[<- <-]|Hn1].
    { right. exists a, (Perm.inverse g). split; [done|]. split; [done|].
      rewrite (Perm_inverse_apply 4) by done.
      by rewrite (Perm_inverse_inverse 4). }
    destruct (decide (a = c ∧ f = h)) as [[<- <-]|Hn2].
    { right. exists b, g. done. }
    rewrite Hother by done.
    destruct (Hglued c h Hc Hh) as [Hbd|(c' & g' & Hs & Hd & Hbk)];
      [by left|].
    right. exists c', g'. split; [done|]. split; [done|].
    destruct (sg_designated_sym c h c' g' Hc Hh Hd)
      as (_ & _ & _ & Hback' & _).
    destruct (decide (b = c' ∧ Perm.apply g f = Perm.apply g' h))
      as [[<- E2]|Hn3].
    { rewrite <- E2 in *. rewrite Hbf. rewrite Hback in Hback'.
      exact (f_equal Some Hback'). }
    destruct (decide (a = c' ∧ f = Perm.apply g' h)) as [[<- E2]|Hn4].
    { rewrite <- E2 in *. rewrite Haf. rewrite Hdes in Hback'.
      exact (f_equal Some Hback'). }
    by rewrite Hother.
Qed.

Lemma glueInside_designated i :
  i < length v → preserves J2 (glueInside newTet i).
Proof.
  intros Hi. unfold glueInside.
  assert (Hleaf : ∀ r f r' g, r < 32 → r' < 32 → f < 4 →
    insideGluing r f = Some (r', g) →
    preserves J2 (gluePieces newTet r i f r' i g)).
  { intros r f r' g Hr Hr' Hf Hg. apply gluePieces_designated; try done.
    by apply designated_inside. }
  apply preserves_seq; [|apply preserves_seq].
  - apply preserves_forM. intros j [_ Hj]%elem_of_seq. simpl in Hj.
    destruct (tipR_lookup j Hj) as [Ht Htl].
    destruct (interiorR_lookup j Hj) as [Hin Hinl].
    apply (preserves_nth1 _ _ _ _ _ Ht), (preserves_nth1 _ _ _ _ _ Hin).
    apply Hleaf; try done. by apply inside_tip.
  - apply preserves_forM. intros j [_ Hj]%elem_of_seq. simpl in Hj.
    apply preserves_forM. intros k [_ Hk]%elem_of_seq. simpl in Hk.
    apply preserves_when. intros Hjk%bool_decide_eq_true.
    destruct (interiorR_lookup j Hj) as [Hin Hinl].
    destruct (vertexR_lookup k j Hk Hj) as [Hvx Hvxl].
    apply (preserves_nth1 _ _ _ _ _ Hin), (preserves_nth2 _ _ _ _ _ _ Hvx).
    apply Hleaf; try done. by apply inside_interior.
  - apply preserves_forM. intros j [_ Hj]%elem_of_seq. simpl in Hj.
    apply preserves_forM. intros k [_ Hk]%elem_of_seq. simpl in Hk.
    apply preserves_when. intros Hjk%bool_decide_eq_true.
    destruct (edgeR_lookup j k Hj Hk) as [Hejk Hejkl].
    apply preserves_seq.
    + apply preserves_when. intros Hlt%bool_decide_eq_true.
      destruct (edgeR_lookup k j Hk Hj) as [Hekj Hekjl].
      apply (preserves_nth2 _ _ _ _ _ _ Hejk), (preserves_nth2 _ _ _ _ _ _ Hekj).
      apply Hleaf; try done. by apply inside_edge.
    + apply preserves_forM. intros l [_ Hl]%elem_of_seq. simpl in Hl.
      apply preserves_when.
      intros [Hlj%bool_decide_eq_true Hlk%bool_decide_eq_true]%andb_true_iff.
      destruct (vertexR_lookup j l Hj Hl) as [Hvx Hvxl].
      apply (preserves_nth2 _ _ _ _ _ _ Hejk), (preserves_nth2 _ _ _ _ _ _ Hvx).
      apply Hleaf; try done. by apply inside_edge_vertex.
Qed.

Lemma glueAcross_designated i j :
  i < length v → j < 4 → preserves J2 (glueAcross T newTet i j).
Proof.
  intros Hi Hj.
  destruct (storeOk_elim _ Hstore) as [Hlt Htid].
  destruct (lookup_lt_is_Some_2 v i Hi) as [ot Hot].
  destruct (triOk_vec _ _ _ _ HT Hv i ot Hot)
    as (x & Hx & _ & _ & Hla & Hlg & _ & Hadj & Hperm).
  assert (Hotlt : ot < nextPtr s) by (apply Hlt; eauto).
  destruct (lookup_lt_is_Some_2 (adj_ x) j) as [a Ha]; [lia|].
  destruct (lookup_lt_is_Some_2 (gluing_ x) j) as [p Hp]; [lia|].
  unfold glueAcross.
  eapply (preserves_read J2 _ _ v).
  { intros s' [(_ & _ & Hvec & _) _]. apply getVec_Ok.
    rewrite Hvec. rewrite lookup_insert_ne; [done|].
    intros <-. assert (nextTid s < nextTid s) by (apply Htid; eauto). lia. }
  eapply (preserves_read J2 _ _ ot); [intros; by apply liftOpt_Ok|].
  eapply (preserves_read J2 _ _ a).
  { intros s' [(_ & _ & _ & Hold & _) _]. unfold adjacentSimplex.
    eapply run_bind; [apply deref_Ok; by rewrite Hold|]. by apply liftOpt_Ok. }
  destruct a as [a|]; [|apply preserves_ret].
  destruct (Hadj j a Ha) as (ya & Hya & Hidx).
  assert (Halt : a < nextPtr s) by (apply Hlt; eauto).
  assert (Hopp : index_ ya < length v) by (eapply lookup_lt_Some; eauto).
  assert (Hslot : slotAt s ot j = Some (Some (a, p))).
  { unfold slotAt. rewrite Hx. simpl. unfold facetSlot. by rewrite Ha, Hp. }
  eapply (preserves_read J2 _ _ ya).
  { intros s' [(_ & _ & _ & Hold & _) _]. apply deref_Ok. by rewrite Hold. }
  eapply (preserves_read J2 _ _ p).
  { intros s' [(_ & _ & _ & Hold & _) _]. unfold adjacentGluing.
    eapply run_bind; [apply deref_Ok; by rewrite Hold|]. by apply liftOpt_Ok. }
  destruct (_ || _); [apply preserves_ret|].
  pose proof (Hperm j p Hp) as Hvalid.
  assert (Hpl : ∀ k, k < 4 → Perm.apply p k < 4)
    by (intros k Hk; by apply (Perm_apply_lt 4)).
  assert (Hleaf : ∀ kind k, k < 4 → j ≠ k →
    preserves J2 (gluePieces newTet (roleOf kind j k) i (facetOf kind j k)
                    (roleOf kind (Perm.apply p j) (Perm.apply p k))
                    (index_ ya) p)).
  { intros kind k Hk Hjk.
    assert (Hpne : Perm.apply p j ≠ Perm.apply p k).
    { intros Heq. apply Hjk.
      rewrite <- (Perm_inverse_apply 4 p j Hvalid Hj).
      rewrite <- (Perm_inverse_apply 4 p k Hvalid Hk). by rewrite Heq. }
    apply gluePieces_designated; try done.
    - by apply ext_role.
    - apply ext_role; auto.
    - by apply facetOf_lt.
    - by apply (designated_across s v m kind j k i ot a p ya). }
  apply preserves_seq; [|apply preserves_seq].
  - apply preserves_forM. intros k [_ Hk]%elem_of_seq.
    apply preserves_when. intros Hjk%bool_decide_eq_true.
    destruct (tip_lookup k) as (tk & Htk & ?); [lia|].
    destruct (tip_lookup (Perm.apply p k)) as (tpk & Htpk & ?); [apply Hpl; lia|].
    apply (preserves_nth1 _ _ _ _ _ Htk), (preserves_nth1 _ _ _ _ _ Htpk).
    assert (tk = roleOf TipK j k) as ->
      by (unfold roleOf, tipR; by rewrite Htk).
    assert (tpk = roleOf TipK (Perm.apply p j) (Perm.apply p k)) as ->
      by (unfold roleOf, tipR; by rewrite Htpk).
    apply (Hleaf TipK k); [lia|done].
  - apply preserves_forM. intros k [_ Hk]%elem_of_seq.
    apply preserves_when. intros Hjk%bool_decide_eq_true.
    destruct (edge_lookup j k) as (ejk & Hejk & ?); [lia..|].
    destruct (edge_lookup (Perm.apply p j) (Perm.apply p k))
      as (epp & Hepp & ?); [apply Hpl; lia..|].
    apply (preserves_nth2 _ _ _ _ _ _ Hejk), (preserves_nth2 _ _ _ _ _ _ Hepp).
    assert (ejk = roleOf EdgeK j k) as ->
      by (unfold roleOf, edgeR; by rewrite Hejk).
    assert (epp = roleOf EdgeK (Perm.apply p j) (Perm.apply p k)) as ->
      by (unfold roleOf, edgeR; by rewrite Hepp).
    apply (Hleaf EdgeK k); [lia|done].
  - apply preserves_forM. intros k [_ Hk]%elem_of_seq.
    apply preserves_when. intros Hjk%bool_decide_eq_true.
    destruct (vertex_lookup j k) as (vjk & Hvjk & ?); [lia..|].
    destruct (vertex_lookup (Perm.apply p j) (Perm.apply p k))
      as (vpp & Hvpp & ?); [apply Hpl; lia..|].
    apply (preserves_nth2 _ _ _ _ _ _ Hvjk), (preserves_nth2 _ _ _ _ _ _ Hvpp).
    assert (vjk = roleOf VertexK j k) as ->
      by (unfold roleOf, vertexR; by rewrite Hvjk).
    assert (vpp = roleOf VertexK (Perm.apply p j) (Perm.apply p k)) as ->
      by (unfold roleOf, vertexR; by rewrite Hvpp).
    apply (Hleaf VertexK k); [lia|done].
Qed.

Lemma staging_alloc_boundary :
  let sT := mkState (simplices s) (<[nextTid s := []]> (triangulations s))
                    (nextPtr s) (S (nextTid s)) in
  ∃ sA, foldM (seq 0 K) [] (λ nt _,
          p ← newSimplexRaw 3 (nextTid s); mret (nt ++ [p])) sT
        = Ok newTet sA ∧ J2 sA.
Proof.
  intros sT. destruct (storeOk_elim _ Hstore) as [Hlt Htid].
  destruct (foldM_inv (seq 0 K)
    (λ nt (_ : nat), p ← newSimplexRaw 3 (nextTid s); mret (nt ++ [p]))
    (λ i nt s', nt = seq (nextPtr s) i ∧ stagingInv s (nextTid s) i s' ∧
       ∀ idx, idx < i →
         shapeAt s' (m + idx) = Some (idx, nextTid s, 4, 4, 4) ∧
         permsValid 4 s' (m + idx) = true ∧
         ∀ f, f < 4 → slotAt s' (m + idx) f = Some None) [] sT)
    as (nt & sA & Hrun & Hnt & HJ & Hfresh).
  - split; [done|]. split; [|intros idx Hidx; lia].
    unfold stagingInv, sT; simpl.
    repeat split; try done; try lia.
    intros p Hp. destruct (simplices s !! p) eqn:E; [|done].
    assert (p < nextPtr s) by (apply Hlt; eauto). lia.
  - intros i x nt s' _ (-> & (Hn & Ht & Hvec & Hold & Hlive & Hnone) & Hfresh).
    assert (Hvs : triangulations s' !! nextTid s = Some (seq (nextPtr s) i))
      by (by rewrite Hvec, lookup_insert_eq).
    exists (seq (nextPtr s) (S i)), (allocated 3 (nextTid s) "" s').
    split; [|split; [done|split]].
    + eapply run_bind.
      { apply pushNewSimplex_Ok. eauto. }
      cbv beta. rewrite Hn, seq_S. reflexivity.
    + unfold stagingInv, allocated; simpl.
      rewrite Hn, Hvec, lookup_insert_eq. simpl.
      repeat split; try done; try lia.
      * rewrite insert_insert_eq. f_equal.
        change (nextPtr s :: seq (S (nextPtr s)) i) with (seq (nextPtr s) (S i)).
        by rewrite seq_S.
      * intros p Hp. rewrite lookup_insert_ne by lia. by apply Hold.
      * intros p Hp. destruct (decide (p = nextPtr s + i)) as [->|].
        -- rewrite lookup_insert_eq. eauto.
        -- rewrite lookup_insert_ne by lia. apply Hlive. lia.
      * intros p Hp. rewrite lookup_insert_ne by lia. apply Hnone. lia.
    + intros idx Hidx. destruct (decide (idx = i)) as [->|Hne].
      * rewrite <- Hn. split; [|split].
        -- rewrite (shapeAt_allocated_new 3 _ "" s' _ Hvs).
           by rewrite length_seq.
        -- apply permsValid_allocated. unfold permsValid.
           by rewrite Hnone by lia.
        -- intros f Hf. rewrite slotAt_allocated.
           rewrite decide_True by done. by rewrite decide_True by lia.
      * destruct (Hfresh idx ltac:(lia)) as (Hsh & Hpv & Hsl).
        split; [|split].
        -- by rewrite shapeAt_allocated_other by lia.
        -- by apply permsValid_allocated.
        -- intros f Hf. rewrite slotAt_allocated.
           rewrite decide_False by lia. by apply Hsl.
  - rewrite length_seq in Hnt, HJ, Hfresh. subst nt.
    exists sA. split; [done|]. split; [done|]. split.
    + intros idx Hidx. destruct (Hfresh idx Hidx) as (? & ? & _). done.
    + intros a f Ha Hf. left.
      destruct (Hfresh (a - m) ltac:(lia)) as (_ & _ & Hsl).
      replace (m + (a - m)) with a in Hsl by lia. by apply Hsl.
Qed.

(** Whatever the gluing loops have done so far, the staging triangulation
    is well formed and its gluings are two-sided. *)
Lemma staging_final s2 :
  J2 s2 →
  storeOk s2 = true ∧ triOk 3 s2 (nextTid s) = true ∧
  symOk 3 s2 (nextTid s) = true.
Proof.
  intros [(Hn & Ht & Hvec & Hold & Hlive & Hnone) (Hshape & Hglued)].
  destruct (storeOk_elim _ Hstore) as [Hlt Htid].
  assert (Hvs : triangulations s2 !! nextTid s = Some newTet)
    by (by rewrite Hvec, lookup_insert_eq).
  split; [|split].
  - apply storeOk_intro.
    + intros p Hp. rewrite Hn.
      destruct (decide (p < m + K)) as [|Hge]; [done|].
      rewrite Hnone in Hp by lia. by destruct Hp.
    + intros t Hp. rewrite Ht, Hvec in *.
      destruct (decide (t = nextTid s)) as [->|Hne]; [lia|].
      rewrite lookup_insert_ne in Hp by done.
      assert (t < nextTid s) by (by apply Htid). lia.
  - apply (triOk_intro 3 _ _ newTet Hvs). intros i p Hp.
    apply lookup_seq in Hp as [-> Hi].
    destruct (Hshape i Hi) as [Hsh Hpv].
    apply shapeAt_Some in Hsh as (x & Hx & Hxi & Hxt & Hla & Hlg & Hlf).
    exists x. repeat split; auto.
    + intros f q Hq.
      assert (Hf : f < 4) by (apply lookup_lt_Some in Hq; lia).
      destruct (adj_slot s2 _ x f q Hx) as (g & Hslot & _); [lia|done|].
      destruct (Hglued (m + i) f ltac:(lia) Hf)
        as [Hbd|(b & g' & Hs & Hd & _)]; [congruence|].
      assert (b = q) as -> by congruence.
      destruct (sg_designated_sym (m + i) f q g' ltac:(lia) Hf Hd)
        as (_ & _ & Hb & _).
      destruct (Hshape (q - m) ltac:(lia)) as [Hshq _].
      replace (m + (q - m)) with q in Hshq by lia.
      apply shapeAt_Some in Hshq as (y & Hy & Hyi & _).
      exists y. split; [done|]. rewrite Hyi.
      rewrite lookup_seq_lt by lia. f_equal. lia.
    + intros f g Hg. by eapply (permsValid_elim 4 s2 (m + i) x f g).
  - apply (symOk_intro 3 _ _ newTet Hvs). intros p f Hp Hf.
    apply elem_of_seq in Hp.
    destruct (Hglued p f ltac:(lia) ltac:(lia))
      as [Hbd|(b & g & Hs & Hd & Hback)].
    + unfold facetSym. by rewrite Hbd.
    + destruct (sg_designated_sym p f b g ltac:(lia) ltac:(lia) Hd)
        as (_ & _ & _ & _ & Hself).
      by apply (facetSym_intro s2 p f b g).
Qed.

Lemma buildStaging_run :
  ∃ s', buildStaging T (length v) s = Ok (nextTid s, newTet) s' ∧ J2 s'.
Proof.
  destruct staging_alloc_boundary as (sA & Halloc & HA).
  assert (Hglue1 : preserves J2 (forM (seq 0 (length v)) (glueInside newTet))).
  { apply preserves_forM. intros i [_ Hi]%elem_of_seq.
    apply glueInside_designated. lia. }
  assert (Hglue2 : preserves J2 (forM (seq 0 (length v)) (λ i,
            forM (seq 0 4) (glueAcross T newTet i)))).
  { apply preserves_forM. intros i [_ Hi]%elem_of_seq.
    apply preserves_forM. intros j [_ Hj]%elem_of_seq.
    apply glueAcross_designated; lia. }
  destruct (Hglue1 sA HA) as (s1 & Hrun1 & H1).
  destruct (Hglue2 s1 H1) as (s2 & Hrun2 & H2).
  exists s2. split; [|done]. unfold buildStaging.
  eapply run_bind; [reflexivity|]. cbv beta.
  eapply run_bind; [exact Halloc|]. cbv beta.
  eapply run_bind; [exact Hrun1|]. cbv beta.
  eapply run_bind; [exact Hrun2|]. reflexivity.
Qed.

End StagingGlue.

(** X22: The staging triangulation that [idealToFinite] builds from a well-formed
    triangulation with two-sided gluings is itself well formed, in a sound
    store, and its gluings are two-sided: every join of the gluing loops
    pairs two facets that no other join touches from a different side. *)
Theorem buildStaging_wellformed s T v :
  storeOk s = true → triOk 3 s T = true → symOk 3 s T = true →
  triangulations s !! T = Some v →
  ∃ staging nt s',
    buildStaging T (length v) s = Ok (staging, nt) s' ∧
    storeOk s' = true ∧
    triOk 3 s' staging = true ∧
    symOk 3 s' staging = true.
Proof.
  intros Hstore HT Hsym Hv.
  destruct (buildStaging_run s T v Hstore HT Hsym Hv) as (s' & Hrun & HJ).
  exists (nextTid s), (seq (nextPtr s) (32 * length v)), s'.
  split; [exact Hrun|]. by apply (staging_final s T v Hstore HT Hsym Hv).
Qed.

(** ** [idealToFinite]: the whole function when nothing is truncated *)

Lemma deleteSimplex_loop (l : list ptr) s1 :
  ∃ s3, forM l deleteSimplex s1 = Ok tt s3 ∧
        triangulations s3 = triangulations s1 ∧
        nextPtr s3 = nextPtr s1 ∧ nextTid s3 = nextTid s1 ∧
        ∀ q, simplices s3 !! q =
             if bool_decide (q ∈ l) then None else simplices s1 !! q.
Proof.
  revert s1. induction l as [|p l IH]; intros s1.
  - exists s1. repeat split; try done.
  - destruct (IH (mkState (delete p (simplices s1)) (triangulations s1)
                          (nextPtr s1) (nextTid s1)))
      as (s3 & Hr & Ht3 & Hn3 & Hd3 & Hs3).
    exists s3. split; [|repeat split; try done].
    { cbn [forM]. eapply run_bind; [reflexivity|]. exact Hr. }
    intros q. rewrite Hs3. simpl.
    destruct (decide (q = p)) as [->|Hne].
    + rewrite lookup_delete_eq.
      rewrite (bool_decide_eq_true_2 (p ∈ p :: l)) by by left.
      by case_bool_decide.
    + rewrite lookup_delete_ne by done.
      repeat case_bool_decide; try done.
      * exfalso. apply H0. by right.
      * exfalso. apply elem_of_cons in H0 as [?|?]; done.
Qed.

Lemma slotAt_withTri s s' p f t :
  simplices s' !! p = withTri t <$> simplices s !! p →
  slotAt s' p f = slotAt s p f.
Proof. unfold slotAt. intros ->. by destruct (simplices s !! p). Qed.

(** No vertex is ideal or invalid: the list of tetrahedra to remove is
    empty. *)
Lemma tetList_nil (vs : list VertexInfo) :
  forallb (λ vx, negb (vertexIdeal vx) && vertexValid vx) vs = true →
  flat_map (λ vx,
    if vertexIdeal vx || negb (vertexValid vx)
    then map tetrahedron (vertexEmbeddings vx) else []) vs = [].
Proof.
  induction vs as [|vx vs IH]; [done|]. simpl.
  intros [Hvx Hvs]%andb_true_iff. rewrite (IH Hvs).
  by destruct (vertexIdeal vx), (vertexValid vx).
Qed.

Section IdealSuccess.

Variables (sk : Skeleton) (s : State) (T : tid) (v : list ptr).
Hypothesis Hstore : storeOk s = true.
Hypothesis HT : triOk 3 s T = true.
Hypothesis Hsym : symOk 3 s T = true.
Hypothesis Hv : triangulations s !! T = Some v.
Hypothesis Hne : v ≠ [].
Hypothesis Hguard : isValid sk s T && negb (isIdeal sk s T) = false.
Hypothesis Hnolock : anyLock s v = false.
Hypothesis Hvertices :
  forallb (λ vx, negb (vertexIdeal vx) && vertexValid vx)
    (vertexList sk (storeAfter (buildStaging T (length v)) s) (nextTid s))
  = true.

Local Abbreviation m := (nextPtr s).
Local Abbreviation K := (32 * length v).
Local Abbreviation newTet := (seq (nextPtr s) K).
Local Abbreviation staging := (nextTid s).

Lemma idealToFinite_run :
  ∃ s', idealToFinite sk T s = Ok true s' ∧
    triangulations s' !! T = Some newTet ∧
    storeOk s' = true ∧ triOk 3 s' T = true ∧ symOk 3 s' T = true ∧
    (∀ p, p ∈ v → simplices s' !! p = None) ∧
    (∀ p, p ∉ v → p < nextPtr s → simplices s' !! p = simplices s !! p) ∧
    (∀ t, t ≠ T → triangulations s' !! t = triangulations s !! t).
Proof.
  destruct (storeOk_elim _ Hstore) as [Hlt Htid].
  destruct (buildStaging_run s T v Hstore HT Hsym Hv) as (s1 & Hbuild & HJ).
  destruct (staging_final s T v Hstore HT Hsym Hv s1 HJ)
    as (Hst1 & Htri1 & Hsym1).
  destruct HJ as [(Hn & Ht & Hvec & Hold & Hlive & Hnone) _].
  destruct (storeOk_elim _ Hst1) as [Hlt1 Htid1].
  assert (HsT : staging ≠ T).
  { intros E. assert (T < nextTid s) by (apply Htid; eauto). lia. }
  assert (Hfresh : triangulations s !! staging = None).
  { destruct (triangulations s !! staging) eqn:E; [|done].
    assert (staging < nextTid s) by (apply Htid; eauto). lia. }
  assert (Hvs1 : triangulations s1 !! staging = Some newTet)
    by (by rewrite Hvec, lookup_insert_eq).
  assert (HvT1 : triangulations s1 !! T = Some v)
    by (by rewrite Hvec, lookup_insert_ne).
  assert (Hvlt : ∀ p, p ∈ v → p < m).
  { intros p Hp. apply Hlt. by apply (triOk_live 3 s T v). }
  assert (Hnew_notv : ∀ p, p ∈ newTet → p ∉ v).
  { intros p Hp%elem_of_seq Hpv. apply Hvlt in Hpv. lia. }
  assert (HT1 : triOk 3 s1 T = true).
  { apply (triOk_intro 3 _ _ v HvT1). intros i p Hp.
    destruct (triOk_vec 3 s T v HT Hv i p Hp)
      as (x & Hx & Hxi & Hxt & Hla & Hlg & Hlf & Hadj & Hperm).
    exists x. rewrite Hold by (apply Hlt; eauto).
    repeat split; auto. intros f q Hq.
    destruct (Hadj f q Hq) as (y & Hy & Hidx).
    exists y. rewrite Hold by (apply Hlt; eauto). done. }
  destruct (swapContents_exact 3 s1 T staging v newTet HT1 Htri1 HvT1 Hvs1)
    as (s2 & Hswap & Htr2 & Hn2 & Hd2 & Hs2).
  destruct (deleteSimplex_loop v s2) as (s3 & Hdel & Htr3 & Hn3 & Hd3 & Hs3).
  set (sF := mkState (simplices s3) (delete staging (triangulations s3))
                     (nextPtr s3) (nextTid s3)).
  assert (HtrF : triangulations sF =
    delete staging (<[staging := v]> (<[T := newTet]> (triangulations s1)))).
  { unfold sF; simpl. by rewrite Htr3, Htr2. }
  assert (HsF : ∀ q, simplices sF !! q =
    if bool_decide (q ∈ v) then None
    else if bool_decide (q ∈ newTet) then withTri T <$> simplices s1 !! q
    else simplices s1 !! q).
  { intros q. unfold sF; simpl. rewrite Hs3, Hs2.
    repeat case_bool_decide; try done. by destruct (simplices s1 !! q). }
  assert (HnewF : ∀ q, q ∈ newTet →
            simplices sF !! q = withTri T <$> simplices s1 !! q).
  { intros q Hq. rewrite HsF.
    rewrite bool_decide_eq_false_2 by by apply Hnew_notv.
    by rewrite bool_decide_eq_true_2. }
  assert (HvF : triangulations sF !! T = Some newTet).
  { rewrite HtrF. rewrite lookup_delete_ne by done.
    rewrite lookup_insert_ne by done. by rewrite lookup_insert_eq. }
  assert (Htarget : ∀ p f q g, p ∈ newTet →
            slotAt s1 p f = Some (Some (q, g)) → q ∈ newTet).
  { intros p f q g [i Hp]%list_elem_of_lookup Hslot.
    destruct (triOk_vec 3 s1 staging newTet Htri1 Hvs1 i p Hp)
      as (x & Hx & _ & _ & _ & _ & _ & Hadj & _).
    destruct (slot_adj s1 p f q g Hslot) as (x' & Hx' & Hq & _).
    assert (x' = x) as -> by congruence.
    destruct (Hadj f q Hq) as (y & Hy & Hidx).
    by eapply list_elem_of_lookup_2. }
  exists sF. split.
  { unfold idealToFinite.
    eapply run_bind; [apply run_query|]. cbv beta.
    eapply run_bind; [apply run_query|]. cbv beta.
    rewrite Hguard.
    eapply run_bind; [by apply getVec_Ok|]. cbv beta.
    rewrite bool_decide_eq_false_2 by (by destruct v).
    eapply run_bind.
    { apply (hasLocks_Ok s T v Hv). intros p Hp. eapply triOk_live; eauto. }
    cbv beta. rewrite Hnolock.
    eapply run_bind; [exact Hbuild|]. cbv beta iota.
    unfold finishStaging.
    eapply run_bind; [apply run_query|]. cbv beta.
    assert (Hs1 : storeAfter (buildStaging T (length v)) s = s1)
      by (unfold storeAfter; by rewrite Hbuild).
    rewrite Hs1 in Hvertices. rewrite (tetList_nil _ Hvertices).
    eapply run_bind; [reflexivity|].
    eapply run_bind; [exact Hswap|].
    eapply run_bind; [|reflexivity].
    unfold destroyTriangulation.
    eapply run_bind.
    { apply getVec_Ok. rewrite Htr2. apply lookup_insert_eq. }
    eapply run_bind; [exact Hdel|]. reflexivity. }
  split; [exact HvF|].
  split; [|split; [|split; [|split; [|split]]]].
  - apply storeOk_intro.
    + intros p Hp. unfold sF; simpl. rewrite Hn3, Hn2. apply Hlt1.
      rewrite HsF in Hp. repeat case_bool_decide.
      * by destruct Hp.
      * by apply fmap_is_Some in Hp.
      * done.
    + intros t Hp. unfold sF; simpl. rewrite Hd3, Hd2, Ht.
      rewrite HtrF in Hp.
      destruct (decide (t = staging)) as [->|Hts].
      { rewrite lookup_delete_eq in Hp. by destruct Hp. }
      rewrite lookup_delete_ne in Hp by done.
      rewrite lookup_insert_ne in Hp by done.
      destruct (decide (t = T)) as [->|HtT].
      { assert (T < nextTid s) by (apply Htid; eauto). lia. }
      rewrite lookup_insert_ne in Hp by done.
      rewrite Hvec in Hp. rewrite lookup_insert_ne in Hp by done.
      assert (t < nextTid s) by (by apply Htid). lia.
  - apply (triOk_intro 3 _ _ newTet HvF). intros i p Hp.
    destruct (triOk_vec 3 s1 staging newTet Htri1 Hvs1 i p Hp)
      as (x & Hx & Hxi & Hxt & Hla & Hlg & Hlf & Hadj & Hperm).
    exists (withTri T x). split.
    { rewrite HnewF by (by eapply list_elem_of_lookup_2). by rewrite Hx. }
    repeat split; auto. intros f q Hq.
    destruct (Hadj f q Hq) as (y & Hy & Hidx).
    exists (withTri T y). split; [|done].
    rewrite HnewF by (by eapply list_elem_of_lookup_2). by rewrite Hy.
  - apply (symOk_intro 3 _ _ newTet HvF). intros p f Hp Hf.
    pose proof (symOk_elim 3 s1 staging newTet p f Hsym1 Hvs1 Hp Hf) as Hfs.
    apply facetSym_elim in Hfs as [Hbd|(q & g & Hs & Hback & Hself)].
    + unfold facetSym.
      rewrite (slotAt_withTri s1 sF p f T) by by apply HnewF.
      by rewrite Hbd.
    + assert (Hq : q ∈ newTet) by by eapply Htarget.
      apply (facetSym_intro sF p f q g); [| |done].
      * by rewrite (slotAt_withTri s1 sF p f T) by by apply HnewF.
      * by rewrite (slotAt_withTri s1 sF q _ T) by by apply HnewF.
  - intros p Hp. rewrite HsF. by rewrite bool_decide_eq_true_2.
  - intros p Hp Hlt'. rewrite HsF.
    rewrite bool_decide_eq_false_2 by done.
    rewrite bool_decide_eq_false_2 by (rewrite elem_of_seq; lia).
    by apply Hold.
  - intros t HtT. rewrite HtrF.
    destruct (decide (t = staging)) as [->|Hts].
    { by rewrite lookup_delete_eq, Hfresh. }
    rewrite lookup_delete_ne by done.
    rewrite lookup_insert_ne by done.
    rewrite lookup_insert_ne by done.
    rewrite Hvec. by rewrite lookup_insert_ne.
Qed.

End IdealSuccess.

(** X23: when [isValid() && !isIdeal()] fails on a well-formed, two-sided,
    unlocked and non-empty triangulation and the staging triangulation has
    no ideal and no invalid vertex (nothing is truncated: the invalidity
    lies in an edge), [idealToFinite()] returns true and the triangulation
    consists of the [32 * n] staging tetrahedra, well formed and two-sided;
    the old tetrahedra are deleted, the staging triangulation is gone, and
    nothing else in the store has changed. *)
Theorem idealToFinite_subdivides sk s T v :
  storeOk s = true → triOk 3 s T = true → symOk 3 s T = true →
  triangulations s !! T = Some v → v ≠ [] →
  isValid sk s T && negb (isIdeal sk s T) = false →
  anyLock s v = false →
  forallb (λ vx, negb (vertexIdeal vx) && vertexValid vx)
    (vertexList sk (storeAfter (buildStaging T (length v)) s) (nextTid s))
  = true →
  ∃ s', idealToFinite sk T s = Ok true s' ∧
    triangulations s' !! T = Some (seq (nextPtr s) (32 * length v)) ∧
    storeOk s' = true ∧ triOk 3 s' T = true ∧ symOk 3 s' T = true ∧
    (∀ p, p ∈ v → simplices s' !! p = None) ∧
    (∀ p, p ∉ v → p < nextPtr s → simplices s' !! p = simplices s !! p) ∧
    (∀ t, t ≠ T → triangulations s' !! t = triangulations s !! t).
Proof.
  intros Hstore HT Hsym Hv Hne Hguard Hnolock Hvertices.
  by apply idealToFinite_run.
Qed.

(** * More concrete instances *)

Lemma isIdenticalTo_reflexive_witness :
  isIdenticalTo 3 giesekingStore 0 0 = Some true.
Proof.
  apply (isIdenticalTo_reflexive 3 giesekingStore 0). vm_compute. reflexivity.
Defined.

Lemma isIdenticalTo_symmetric_witness :
  isIdenticalTo 3 giesekingCopyStore 0 1 =
  isIdenticalTo 3 giesekingCopyStore 1 0.
Proof.
  apply (isIdenticalTo_symmetric 3 giesekingCopyStore 0 1);
    vm_compute; reflexivity.
Defined.

Lemma isIdenticalTo_transitive_witness :
  isIdenticalTo 3 giesekingCopiesStore 1 2 = Some true.
Proof.
  apply (isIdenticalTo_transitive 3 giesekingCopiesStore 1 0 2);
    vm_compute; reflexivity.
Defined.

Lemma simplex_simplexIndex_witness :
  (∀ i, i < length [0; 1] →
        (simplex 0 i ≫= simplexIndex) pairStore = Ok i pairStore) ∧
  (∀ p, p ∈ [0; 1] →
        (simplexIndex p ≫= simplex 0) pairStore = Ok p pairStore) ∧
  (∀ i, length [0; 1] ≤ i → simplex 0 i pairStore = Undefined).
Proof.
  apply (simplex_simplexIndex 3 pairStore 0 [0; 1]); vm_compute; reflexivity.
Defined.

Lemma newSimplex_wellformed_witness :
  ∃ p s' x,
    newSimplex 3 0 "c" twoBallsStore = Ok p s' ∧
    simplices twoBallsStore !! p = None ∧
    triangulations s' !! 0 = Some ([0] ++ [p]) ∧
    simplices s' !! p = Some x ∧
    description_ x = "c" ∧ index_ x = length [0] ∧ tri_ x = 0 ∧
    (∀ f, f ≤ 3 → slotAt s' p f = Some None) ∧
    storeOk s' = true ∧ triOk 3 s' 0 = true ∧
    (∀ q, q ≠ p → simplices s' !! q = simplices twoBallsStore !! q) ∧
    (∀ t, t ≠ 0 → triangulations s' !! t = triangulations twoBallsStore !! t).
Proof.
  apply (newSimplex_wellformed 3 twoBallsStore 0 [0] "c");
    vm_compute; reflexivity.
Defined.

Lemma swapContents_involutive_witness :
  (swapContents 0 1;; swapContents 0 1) twoBallsStore = Ok tt twoBallsStore.
Proof.
  apply (swapContents_involutive 3 twoBallsStore 0 1); vm_compute; reflexivity.
Defined.

Lemma swapContents_commutes_witness :
  swapContents 0 1 twoBallsStore = swapContents 1 0 twoBallsStore.
Proof.
  apply (swapContents_commutes 3 twoBallsStore 0 1); vm_compute; reflexivity.
Defined.

Lemma swapContents_wellformed_witness :
  ∃ s', swapContents 0 1 twoBallsStore = Ok tt s' ∧
        triOk 3 s' 0 = true ∧ triOk 3 s' 1 = true ∧
        triangulations s' !! 0 = triangulations twoBallsStore !! 1 ∧
        triangulations s' !! 1 = triangulations twoBallsStore !! 0.
Proof.
  apply (swapContents_wellformed 3 twoBallsStore 0 1); vm_compute; reflexivity.
Defined.

Lemma removeAllSimplices_spec_witness :
  ∃ s', removeAllSimplices 0 gluedPairStore = Ok tt s' ∧
    triangulations s' !! 0 = Some [] ∧
    isEmpty 0 s' = Ok true s' ∧
    triOk 3 s' 0 = true ∧
    (∀ p, p ∈ [0; 1] → simplices s' !! p = None) ∧
    (∀ p, p ∉ [0; 1] → simplices s' !! p = simplices gluedPairStore !! p) ∧
    (∀ t, t ≠ 0 → triangulations s' !! t = triangulations gluedPairStore !! t).
Proof.
  apply (removeAllSimplices_spec 3 gluedPairStore 0 [0; 1]);
    vm_compute; reflexivity.
Defined.

Lemma moveContentsTo_spec_witness :
  ∃ s', moveContentsTo 0 1 twoBallsStore = Ok tt s' ∧
    triangulations s' !! 0 = Some [] ∧
    triangulations s' !! 1 = Some ([1] ++ [0]) ∧
    triOk 3 s' 0 = true ∧ triOk 3 s' 1 = true ∧
    (∀ t, t ≠ 0 → t ≠ 1 →
          triangulations s' !! t = triangulations twoBallsStore !! t) ∧
    (∀ p, p ∉ [0] → simplices s' !! p = simplices twoBallsStore !! p) ∧
    (∀ p x, p ∈ [0] → simplices twoBallsStore !! p = Some x →
       ∃ x', simplices s' !! p = Some x' ∧
         adj_ x' = adj_ x ∧ gluing_ x' = gluing_ x ∧
         description_ x' = description_ x ∧
         facetLocks_ x' = facetLocks_ x ∧ simplexLock_ x' = simplexLock_ x ∧
         tri_ x' = 1 ∧ index_ x' = length [1] + index_ x).
Proof.
  apply (moveContentsTo_spec 3 twoBallsStore 0 1 [0] [1]);
    try (vm_compute; reflexivity). discriminate.
Defined.

Lemma moveContentsTo_empty_is_swap_witness :
  moveContentsTo 0 1 ballAndEmptyStore = swapContents 0 1 ballAndEmptyStore.
Proof.
  apply (moveContentsTo_empty_is_swap 3 ballAndEmptyStore 0 1);
    try (vm_compute; reflexivity). discriminate.
Defined.

Lemma hasBoundaryFacets_spec_witness :
  ∃ b, hasBoundaryFacets 3 0 gluedPairStore = Ok b gluedPairStore ∧
       (b = true ↔ ∃ p f, p ∈ [0; 1] ∧ f ≤ 3 ∧
                          slotAt gluedPairStore p f = Some None) ∧
       ([0; 1] = [] → b = false).
Proof.
  apply (hasBoundaryFacets_spec 3 gluedPairStore 0 [0; 1]);
    vm_compute; reflexivity.
Defined.

Lemma puncture_wellformed_witness :
  ∃ s', puncture 0 (Some 0) giesekingStore = Ok tt s' ∧
        storeOk s' = true ∧ triOk 3 s' 0 = true.
Proof.
  apply (puncture_wellformed 0 0 giesekingStore [0]);
    try (vm_compute; reflexivity). by left.
Defined.

Lemma puncture_two_sided_witness :
  ∃ s', puncture 0 (Some 0) giesekingStore = Ok tt s' ∧ symOk 3 s' 0 = true.
Proof.
  apply (puncture_two_sided 0 0 giesekingStore [0]);
    try (vm_compute; reflexivity). by left.
Defined.

Lemma puncture_has_boundary_witness :
  ∃ s', puncture 0 (Some 0) giesekingStore = Ok tt s' ∧
        hasBoundaryFacets 3 0 s' = Ok true s'.
Proof.
  apply (puncture_has_boundary 0 0 giesekingStore [0]);
    try (vm_compute; reflexivity). by left.
Defined.

Lemma removeSimplex_spec_witness :
  ∃ s', removeSimplex 3 0 0 gluedPairStore = Ok tt s' ∧
    triangulations s' !! 0 = Some (take 0 [0; 1] ++ drop 1 [0; 1]) ∧
    simplices s' !! 0 = None ∧
    triOk 3 s' 0 = true ∧ symOk 3 s' 0 = true ∧
    (∀ q f, q ∈ [0; 1] → q ≠ 0 →
       slotAt s' q f =
       match slotAt gluedPairStore q f with
       | Some (Some (r, g)) => if decide (r = 0) then Some None
                               else Some (Some (r, g))
       | o => o
       end) ∧
    (∀ q, q ∉ [0; 1] → simplices s' !! q = simplices gluedPairStore !! q) ∧
    (∀ t, t ≠ 0 → triangulations s' !! t = triangulations gluedPairStore !! t).
Proof.
  apply (removeSimplex_spec 3 gluedPairStore 0 [0; 1] 0 0);
    try (vm_compute; reflexivity).
  intros [|[|[|[|f]]]] Hf; vm_compute; reflexivity.
Defined.

Lemma removeSimplexAt_removeSimplex_witness :
  removeSimplexAt 3 0 1 gluedPairStore = removeSimplex 3 0 1 gluedPairStore.
Proof.
  apply (removeSimplexAt_removeSimplex 3 gluedPairStore 0 [0; 1] 1 1);
    vm_compute; reflexivity.
Defined.

Lemma newSimplex_removeSimplex_witness :
  ∃ s', (newSimplex 3 0 "c" ≫= removeSimplex 3 0) twoBallsStore = Ok tt s' ∧
        simplices s' = simplices twoBallsStore ∧
        triangulations s' = triangulations twoBallsStore ∧
        nextPtr s' = S (nextPtr twoBallsStore) ∧
        nextTid s' = nextTid twoBallsStore.
Proof.
  apply (newSimplex_removeSimplex 3 twoBallsStore 0 [0] "c");
    vm_compute; reflexivity.
Defined.

Lemma copyConstruct_descriptions_witness :
  ∃ U s' v',
    copyConstruct 3 0 twoBallsStore = Ok U s' ∧
    triangulations s' !! U = Some v' ∧
    ∀ j you y, [0] !! j = Some you → simplices twoBallsStore !! you = Some y →
      ∃ me x, v' !! j = Some me ∧ simplices s' !! me = Some x ∧
              description_ x = description_ y.
Proof.
  apply (copyConstruct_descriptions 3 twoBallsStore 0 [0]);
    vm_compute; reflexivity.
Defined.

Lemma copyConstruct_two_sided_witness :
  ∃ U s', copyConstruct 3 0 giesekingStore = Ok U s' ∧
          symOk 3 s' U = true ∧ symOk 3 s' 0 = true.
Proof.
  apply (copyConstruct_two_sided 3 giesekingStore 0 [0]);
    vm_compute; reflexivity.
Defined.

Lemma copyConstruct_destroy_witness :
  ∃ s', (copyConstruct 3 0 ≫= destroyTriangulation) giesekingStore = Ok tt s' ∧
        simplices s' = simplices giesekingStore ∧
        triangulations s' = triangulations giesekingStore.
Proof.
  apply (copyConstruct_destroy 3 giesekingStore 0 [0]);
    vm_compute; reflexivity.
Defined.

Lemma buildStaging_wellformed_witness :
  ∃ staging nt s',
    buildStaging 0 (length [0]) giesekingStore = Ok (staging, nt) s' ∧
    storeOk s' = true ∧
    triOk 3 s' staging = true ∧
    symOk 3 s' staging = true.
Proof.
  apply (buildStaging_wellformed giesekingStore 0 [0]);
    vm_compute; reflexivity.
Defined.

Lemma idealToFinite_subdivides_witness :
  ∃ s', idealToFinite reversedEdgeSkeleton 0 reversedEdgeStore = Ok true s' ∧
    triangulations s' !! 0 =
      Some (seq (nextPtr reversedEdgeStore) (32 * length [0])) ∧
    storeOk s' = true ∧ triOk 3 s' 0 = true ∧ symOk 3 s' 0 = true ∧
    (∀ p, p ∈ [0] → simplices s' !! p = None) ∧
    (∀ p, p ∉ [0] → p < nextPtr reversedEdgeStore →
       simplices s' !! p = simplices reversedEdgeStore !! p) ∧
    (∀ t, t ≠ 0 →
       triangulations s' !! t = triangulations reversedEdgeStore !! t).
Proof.
  apply (idealToFinite_subdivides reversedEdgeSkeleton reversedEdgeStore 0 [0]).
  - vm_compute. reflexivity.
  - vm_compute. reflexivity.
  - vm_compute. reflexivity.
  - vm_compute. reflexivity.
  - discriminate.
  - reflexivity.
  - vm_compute. reflexivity.
  - vm_compute. reflexivity.
Defined.
